(** * LAMB: arena-backed lambda-calculus engine and grid reactor

    A shallow embedding of [lamb.h], [lamb_lib.c] and [lamb_grid.c]:
    the expression arena, capture-avoiding substitution, the single-step
    reducer and its bounded driver, the pretty-printer and the parser,
    the mark-and-sweep collector, the combinator generator and the
    grid step.

    Conventions of the embedding.
    - The process-wide globals ([GC], the [global_counter] of
      [symbol_fresh], the C library's [rand] state, standard output and
      [active_grid]) are the fields of one [World], threaded through a
      state-and-error monad [M].
    - [assert] and [UNREACHABLE] end the program: they are the result
      [Abort].  An array access out of bounds is [Abort] as well.
    - Recursion over the arena is not structural, so each recursive
      function takes a [fuel]; running out of it is the result
      [OutOfFuel], distinct from every result of the C code.
    - Labels are interned by [intern_label], and the code compares the
      interned pointers; two interned pointers are equal exactly when
      their strings are, so a label is its [string].
    - [size_t] is 64 bits wide; its arithmetic wraps ([wrap64]).
    - [int] is 32 bits wide.  The products and sums of grid dimensions
      that [grid_idx] and [grid_init] compute in [int] wrap around in
      two's complement, as they do in the compiled code ([wrap_int]).
    - C leaves the evaluation order of the arguments of a call
      unspecified; where two arguments both have effects the model takes
      the order as a parameter ([Arg_Order]). *)

From Stdlib Require Import ZArith String Ascii List Bool Lia DecimalString.
From stdpp Require Import base list.

(** * Data model ([lamb.h]) *)

Record Symbol := mkSymbol { label : string; tag : Z }.

Abbreviation Expr_Index := nat (only parsing).

(** [Expr.kind] together with the member of the union [Expr.as] that the
    kind selects.  The constructors [var], [magic], [fun] and [app] write
    both at once. *)
Inductive Expr_As :=
| EXPR_VAR (var : Symbol)
| EXPR_FUN (param : Symbol) (body : Expr_Index)
| EXPR_APP (lhs rhs : Expr_Index)
| EXPR_MAG (mag : string).

Record Expr := mkExpr { as_ : Expr_As; visited : bool; live : bool }.

(** [Expr expr = {0}]: kind [EXPR_VAR] (the first enumerator), a null
    label, both collector bits clear. *)
Definition zero_expr : Expr :=
  mkExpr (EXPR_VAR (mkSymbol EmptyString 0)) false false.

(** [GC_Context].  [slots] and the two generation logs are in array
    order; [dead] is used as a stack by the code, and its head is
    [GC.dead.items[GC.dead.count - 1]].  [gen_cur] is 0 ([false]) or 1
    ([true]). *)
Record GC_Context := mkGC {
  slots : list Expr;
  dead : list Expr_Index;
  gens0 : list Expr_Index;
  gens1 : list Expr_Index;
  gen_cur : bool
}.

Record Binding := mkBinding { name : Symbol; body_of : Expr_Index }.
Definition Bindings := list Binding.

Inductive Eval_Result := EVAL_DONE | EVAL_LIMIT | EVAL_ERROR.

Record Cell := mkCell {
  atom : Expr_Index;
  occupied : bool;
  age : Z;
  generation : Z;
  cached_hash : Z;
  cached_mass : Z;
  cache_valid : bool
}.

(** [cells] is [None] for the null pointer. *)
Record Grid := mkGrid {
  width : Z;
  height : Z;
  cells : option (list Cell);
  steps : Z;
  population : Z;
  reactions_success : Z;
  reactions_diverged : Z;
  movements : Z;
  deaths_age : Z;
  cosmic_spawns : Z;
  attacks : Z;
  evasions : Z
}.

Definition MAX_AGE : Z := 50.
Definition COSMIC_RAY_RATE : Z := 1.

(** * The world and the monad *)

(** [rand_seq] is the sequence of values that successive calls of
    [rand()] return, and [rand_pos] the number of calls made so far. *)
Record World := mkWorld {
  GC : GC_Context;
  global_counter : Z;
  rand_seq : nat -> nat;
  rand_pos : nat;
  stdout : list string;
  active_grid : Grid
}.

Definition set_GC (g : GC_Context) (w : World) : World :=
  mkWorld g (global_counter w) (rand_seq w) (rand_pos w) (stdout w) (active_grid w).
Definition set_counter (c : Z) (w : World) : World :=
  mkWorld (GC w) c (rand_seq w) (rand_pos w) (stdout w) (active_grid w).
Definition set_rand_pos (p : nat) (w : World) : World :=
  mkWorld (GC w) (global_counter w) (rand_seq w) p (stdout w) (active_grid w).
Definition set_stdout (o : list string) (w : World) : World :=
  mkWorld (GC w) (global_counter w) (rand_seq w) (rand_pos w) o (active_grid w).
Definition set_grid (g : Grid) (w : World) : World :=
  mkWorld (GC w) (global_counter w) (rand_seq w) (rand_pos w) (stdout w) g.

Inductive Res (A : Type) :=
| Ok (a : A) (w : World)
| Abort
| OutOfFuel.
Arguments Ok {A} a w.
Arguments Abort {A}.
Arguments OutOfFuel {A}.

Definition M (A : Type) := World -> Res A.

Definition ret {A} (a : A) : M A := fun w => Ok a w.
Definition bind {A B} (m : M A) (k : A -> M B) : M B :=
  fun w => match m w with
           | Ok a w' => k a w'
           | Abort => Abort
           | OutOfFuel => OutOfFuel
           end.
Definition abort {A} : M A := fun _ => Abort.
Definition out_of_fuel {A} : M A := fun _ => OutOfFuel.
Definition get_world : M World := fun w => Ok w w.
Definition modify (f : World -> World) : M unit := fun w => Ok tt (f w).

Declare Scope lamb_scope.
Delimit Scope lamb_scope with lamb.
Notation "x <- m ;; k" := (bind m (fun x => k))
  (at level 100, m at next level, right associativity) : lamb_scope.
Notation "m ;;; k" := (bind m (fun _ => k))
  (at level 100, right associativity) : lamb_scope.
Open Scope lamb_scope.

Inductive Arg_Order := Left_To_Right | Right_To_Left.

(** The two effectful arguments [m1], [m2] of one call, evaluated in the
    order [o]. *)
Definition args2 {A B} (o : Arg_Order) (m1 : M A) (m2 : M B) : M (A * B) :=
  match o with
  | Left_To_Right => a <- m1 ;; b <- m2 ;; ret (a, b)
  | Right_To_Left => b <- m2 ;; a <- m1 ;; ret (a, b)
  end.

Definition wrap64 (z : Z) : Z := (z mod 2 ^ 64)%Z.

(** The largest [int], and the [int] that an [int] operation with the
    exact result [z] gives. *)
Definition INT_MAX : Z := 2147483647.
Definition wrap_int (z : Z) : Z := ((z + 2 ^ 31) mod 2 ^ 32 - 2 ^ 31)%Z.

(** * Symbols *)

Definition symbol_eq (a b : Symbol) : bool :=
  String.eqb (label a) (label b) && Z.eqb (tag a) (tag b).

Definition symbol (l : string) : Symbol := mkSymbol l 0.

Definition symbol_fresh (s : Symbol) : M Symbol := fun w =>
  let c := wrap64 (global_counter w + 1) in
  Ok (mkSymbol (label s) c) (set_counter c w).

(** * Expression management *)

Definition set_slots (l : list Expr) (g : GC_Context) : GC_Context :=
  mkGC l (dead g) (gens0 g) (gens1 g) (gen_cur g).
Definition set_dead (d : list Expr_Index) (g : GC_Context) : GC_Context :=
  mkGC (slots g) d (gens0 g) (gens1 g) (gen_cur g).
Definition gens (g : GC_Context) (i : bool) : list Expr_Index :=
  if i then gens1 g else gens0 g.
Definition set_gens (i : bool) (l : list Expr_Index) (g : GC_Context) : GC_Context :=
  if i then mkGC (slots g) (dead g) (gens0 g) l (gen_cur g)
  else mkGC (slots g) (dead g) l (gens1 g) (gen_cur g).
Definition set_gen_cur (i : bool) (g : GC_Context) : GC_Context :=
  mkGC (slots g) (dead g) (gens0 g) (gens1 g) i.

Definition set_live (b : bool) (e : Expr) : Expr := mkExpr (as_ e) (visited e) b.
Definition set_visited (b : bool) (e : Expr) : Expr := mkExpr (as_ e) b (live e).
Definition set_as (a : Expr_As) (e : Expr) : Expr := mkExpr a (visited e) (live e).

(** The macro [expr_slot]: both assertions, then the slot. *)
Definition expr_slot (i : Expr_Index) : M Expr := fun w =>
  match slots (GC w) !! i with
  | Some e => if live e then Ok e w else Abort
  | None => Abort
  end.

(** An assignment through [expr_slot(i)]. *)
Definition update_slot (i : Expr_Index) (f : Expr -> Expr) : M unit :=
  e <- expr_slot i ;;
  modify (fun w => set_GC (set_slots (<[i := f e]> (slots (GC w))) (GC w)) w).

Definition alloc_expr : M Expr_Index := fun w =>
  let g := GC w in
  let '(result, g1) :=
    match dead g with
    | i :: rest => (i, set_dead rest g)
    | [] => (length (slots g), set_slots (slots g ++ [zero_expr]) g)
    end in
  match slots g1 !! result with
  | None => Abort
  | Some e =>
      if live e then Abort
      else
        let g2 := set_slots (<[result := set_live true e]> (slots g1)) g1 in
        let g3 := set_gens (gen_cur g2) (gens g2 (gen_cur g2) ++ [result]) g2 in
        Ok result (set_GC g3 w)
  end.

Definition free_expr (expr : Expr_Index) : M unit :=
  update_slot expr (set_live false) ;;;
  modify (fun w => set_GC (set_dead (expr :: dead (GC w)) (GC w)) w).

Definition var (name : Symbol) : M Expr_Index :=
  expr <- alloc_expr ;;
  update_slot expr (set_as (EXPR_VAR name)) ;;;
  ret expr.

Definition magic (l : string) : M Expr_Index :=
  expr <- alloc_expr ;;
  update_slot expr (set_as (EXPR_MAG l)) ;;;
  ret expr.

Definition fun_ (param : Symbol) (body : Expr_Index) : M Expr_Index :=
  expr <- alloc_expr ;;
  update_slot expr (set_as (EXPR_FUN param body)) ;;;
  ret expr.

Definition app (lhs rhs : Expr_Index) : M Expr_Index :=
  expr <- alloc_expr ;;
  update_slot expr (set_as (EXPR_APP lhs rhs)) ;;;
  ret expr.

(** * Expression display *)

Definition emit (s : string) : M unit :=
  modify (fun w => set_stdout (stdout w ++ [s]) w).

(** The conversion [%zu]. *)
Definition string_of_size_t (z : Z) : string :=
  NilZero.string_of_uint (N.to_uint (Z.to_N z)).

Definition symbol_display (s : Symbol) : string :=
  if (tag s =? 0)%Z then label s
  else (label s ++ ":" ++ string_of_size_t (tag s))%string.

(** [expr_display].  The result is the text appended to the string
    builder.  [chain] is [true] inside the [while] loop of the
    [EXPR_FUN] case, where a further [EXPR_FUN] prints its parameter
    without a backslash; the loop ends, and [expr_display] is called, at
    the first slot of another kind. *)
Fixpoint expr_display (fuel : nat) (chain : bool) (expr : Expr_Index) : M string :=
  match fuel with
  | O => out_of_fuel
  | S n =>
      e <- expr_slot expr ;;
      match as_ e with
      | EXPR_VAR v => ret (symbol_display v)
      | EXPR_FUN p b =>
          s <- expr_display n true b ;;
          ret ((if chain then "" else "\") ++ symbol_display p ++ "." ++ s)%string
      | EXPR_APP lhs rhs =>
          el <- expr_slot lhs ;;
          let lhs_paren := match as_ el with EXPR_FUN _ _ => true | _ => false end in
          sl <- expr_display n false lhs ;;
          er <- expr_slot rhs ;;
          let rhs_paren :=
            match as_ er with EXPR_VAR _ | EXPR_MAG _ => false | _ => true end in
          sr <- expr_display n false rhs ;;
          ret ((if lhs_paren then "(" ++ sl ++ ")" else sl) ++ " " ++
               (if rhs_paren then "(" ++ sr ++ ")" else sr))%string
      | EXPR_MAG m => ret ("#" ++ m)%string
      end
  end.

Definition trace_expr (fuel : nat) (expr : Expr_Index) : M unit :=
  s <- expr_display fuel false expr ;;
  emit s.

(** [expr_mass]: [expr_slot] asserts that the slot is live, so the
    early [return 0] is never taken. *)
Fixpoint expr_mass (fuel : nat) (expr : Expr_Index) : M Z :=
  match fuel with
  | O => out_of_fuel
  | S n =>
      e <- expr_slot expr ;;
      if negb (live e) then ret 0%Z
      else match as_ e with
           | EXPR_VAR _ => ret 1%Z
           | EXPR_MAG _ => ret 1%Z
           | EXPR_FUN _ b => m <- expr_mass n b ;; ret (wrap64 (1 + m))
           | EXPR_APP l r =>
               ml <- expr_mass n l ;;
               mr <- expr_mass n r ;;
               ret (wrap64 (wrap64 (1 + ml) + mr))
           end
  end.

(** * Evaluation *)

Fixpoint is_var_free_there (fuel : nat) (name : Symbol) (there : Expr_Index) : M bool :=
  match fuel with
  | O => out_of_fuel
  | S n =>
      e <- expr_slot there ;;
      match as_ e with
      | EXPR_VAR v => ret (symbol_eq v name)
      | EXPR_FUN p b =>
          if symbol_eq p name then ret false
          else is_var_free_there n name b
      | EXPR_APP l r =>
          fl <- is_var_free_there n name l ;;
          if fl then ret true
          else fr <- is_var_free_there n name r ;;
               if fr then ret true else ret false
      | EXPR_MAG _ => ret false
      end
  end.

(** [replace].  The slot [body] is read once: the calls made in between
    only allocate and never write a live slot. *)
Fixpoint replace (fuel : nat) (o : Arg_Order) (param : Symbol)
    (body arg : Expr_Index) : M Expr_Index :=
  match fuel with
  | O => out_of_fuel
  | S n =>
      e <- expr_slot body ;;
      match as_ e with
      | EXPR_MAG _ => ret body
      | EXPR_VAR v => if symbol_eq v param then ret arg else ret body
      | EXPR_FUN p b =>
          if symbol_eq p param then ret body
          else
            fr <- is_var_free_there n p arg ;;
            if negb fr then
              b' <- replace n o param b arg ;;
              fun_ p b'
            else
              fresh_param_name <- symbol_fresh p ;;
              fresh_param <- var fresh_param_name ;;
              b1 <- replace n o p b fresh_param ;;
              b2 <- replace n o param b1 arg ;;
              fun_ fresh_param_name b2
      | EXPR_APP l r =>
          lr <- args2 o (replace n o param l arg) (replace n o param r arg) ;;
          app (fst lr) (snd lr)
      end
  end.

(** [eval1].  [None] is the C function's [return false]; [Some e] is
    [return true] with [*expr1 = e]. *)
Fixpoint eval1 (fuel : nat) (o : Arg_Order) (expr : Expr_Index)
    : M (option Expr_Index) :=
  match fuel with
  | O => out_of_fuel
  | S n =>
      e <- expr_slot expr ;;
      match as_ e with
      | EXPR_VAR _ => ret (Some expr)
      | EXPR_FUN p b =>
          r <- eval1 n o b ;;
          match r with
          | None => ret None
          | Some body =>
              if negb (body =? b) then
                e1 <- fun_ p body ;; ret (Some e1)
              else ret (Some expr)
          end
      | EXPR_APP lhs rhs =>
          el <- expr_slot lhs ;;
          match as_ el with
          | EXPR_FUN p b =>
              e1 <- replace n o p b rhs ;; ret (Some e1)
          | EXPR_MAG m =>
              if String.eqb m "trace" then
                r <- eval1 n o rhs ;;
                match r with
                | None => ret None
                | Some new_rhs =>
                    if new_rhs =? rhs then
                      emit "TRACE: " ;;;
                      trace_expr n rhs ;;;
                      emit (String "010"%char EmptyString) ;;;
                      ret (Some rhs)
                    else e1 <- app lhs new_rhs ;; ret (Some e1)
                end
              else if String.eqb m "void" then
                r <- eval1 n o rhs ;;
                match r with
                | None => ret None
                | Some new_rhs =>
                    if new_rhs =? rhs then ret (Some lhs)
                    else e1 <- app lhs new_rhs ;; ret (Some e1)
                end
              else
                emit ("ERROR: unknown magic #" ++ m ++ String "010"%char EmptyString) ;;;
                ret None
          | _ =>
              r <- eval1 n o lhs ;;
              match r with
              | None => ret None
              | Some new_lhs =>
                  if negb (lhs =? new_lhs) then
                    e1 <- app new_lhs rhs ;; ret (Some e1)
                  else
                    r2 <- eval1 n o rhs ;;
                    match r2 with
                    | None => ret None
                    | Some new_rhs =>
                        if negb (rhs =? new_rhs) then
                          e1 <- app lhs new_rhs ;; ret (Some e1)
                        else ret (Some expr)
                    end
              end
          end
      | EXPR_MAG _ => ret (Some expr)
      end
  end.

(** [eval_bounded].  The second component is [*out], written only on
    [EVAL_DONE].  [limit] counts the iterations of the [for] loop; [fuel]
    is what each call of [expr_mass] and [eval1] gets. *)
Fixpoint eval_bounded (fuel : nat) (o : Arg_Order) (curr : Expr_Index)
    (limit : nat) (max_mass : Z) : M (Eval_Result * option Expr_Index) :=
  match limit with
  | O => ret (EVAL_LIMIT, None)
  | S limit' =>
      too_big <- (if (max_mass >? 0)%Z
                  then m <- expr_mass fuel curr ;; ret (m >? max_mass)%Z
                  else ret false) ;;
      if too_big : bool then ret (EVAL_LIMIT, None)
      else
        r <- eval1 fuel o curr ;;
        match r with
        | None => ret (EVAL_ERROR, None)
        | Some next =>
            if curr =? next then ret (EVAL_DONE, Some curr)
            else eval_bounded fuel o next limit' max_mass
        end
  end.

(** * Garbage collector ([lamb_lib.c], [lamb_grid.c]) *)

(** A [for] loop over the items of an array that the body leaves
    alone. *)
Fixpoint for_each {A} (l : list A) (body : A -> M unit) : M unit :=
  match l with
  | [] => ret tt
  | x :: l' => body x ;;; for_each l' body
  end.

Fixpoint gc_mark (fuel : nat) (root : Expr_Index) : M unit :=
  match fuel with
  | O => out_of_fuel
  | S n =>
      e <- expr_slot root ;;
      if visited e then ret tt
      else
        update_slot root (set_visited true) ;;;
        match as_ e with
        | EXPR_MAG _ | EXPR_VAR _ => ret tt
        | EXPR_FUN _ b => gc_mark n b
        | EXPR_APP l r => gc_mark n l ;;; gc_mark n r
        end
  end.

(** [cells[i]] for [0 <= i < total]; outside the array the access is
    undefined and the model aborts. *)
Definition cell_at (cs : list Cell) (i : Z) : M Cell := fun w =>
  if (i <? 0)%Z then Abort
  else match cs !! Z.to_nat i with
       | Some c => Ok c w
       | None => Abort
       end.

(** The indices [0 .. total-1] of a [for (int i = 0; i < total; ++i)]. *)
Definition range (total : Z) : list Z :=
  map Z.of_nat (seq 0 (Z.to_nat total)).

Definition gc_mark_grid (fuel : nat) : M unit :=
  w <- get_world ;;
  match cells (active_grid w) with
  | None => ret tt
  | Some cs =>
      let total := (width (active_grid w) * height (active_grid w))%Z in
      for_each (range total) (fun i =>
        c <- cell_at cs i ;;
        if occupied c then gc_mark fuel (atom c) else ret tt)
  end.

Definition gc_sweep_one (next : bool) (expr : Expr_Index) : M unit :=
  e <- expr_slot expr ;;
  if visited e then
    modify (fun w => set_GC (set_gens next (gens (GC w) next ++ [expr]) (GC w)) w)
  else free_expr expr.

(** [gc] of [lamb_grid.c]. *)
Definition gc (fuel : nat) (root : Expr_Index) (bindings : Bindings) : M unit :=
  w0 <- get_world ;;
  let cur := gen_cur (GC w0) in
  let gen := gens (GC w0) cur in
  for_each gen (fun expr => update_slot expr (set_visited false)) ;;;
  gc_mark fuel root ;;;
  for_each bindings (fun b => gc_mark fuel (body_of b)) ;;;
  gc_mark_grid fuel ;;;
  let next := negb cur in
  modify (fun w => set_GC (set_gens next [] (GC w)) w) ;;;
  for_each gen (gc_sweep_one next) ;;;
  modify (fun w => set_GC (set_gen_cur next (GC w)) w).

(** ** Compaction *)

(** [remap]: [None] is the entry [(size_t)-1]. *)
Fixpoint build_remap (l : list Expr) (new_idx : nat) : list (option nat) :=
  match l with
  | [] => []
  | e :: l' =>
      if live e then Some new_idx :: build_remap l' (S new_idx)
      else None :: build_remap l' new_idx
  end.

(** [remap[i]], an access out of bounds when [i] is no slot. *)
Definition remap_at (remap : list (option nat)) (i : Expr_Index) : M (option nat) :=
  fun w => match remap !! i with
           | Some r => Ok r w
           | None => Abort
           end.

Definition remap_index (remap : list (option nat)) (i : Expr_Index) : M Expr_Index :=
  r <- remap_at remap i ;;
  match r with
  | Some j => ret j
  | None => ret i
  end.

Definition remap_expr (remap : list (option nat)) (e : Expr) : M Expr :=
  match as_ e with
  | EXPR_FUN p b =>
      b' <- remap_index remap b ;; ret (set_as (EXPR_FUN p b') e)
  | EXPR_APP l r =>
      l' <- remap_index remap l ;;
      r' <- remap_index remap r ;;
      ret (set_as (EXPR_APP l' r') e)
  | _ => ret e
  end.

Fixpoint map_M {A B} (f : A -> M B) (l : list A) : M (list B) :=
  match l with
  | [] => ret []
  | x :: l' => y <- f x ;; ys <- map_M f l' ;; ret (y :: ys)
  end.

Definition set_atom (a : Expr_Index) (c : Cell) : Cell :=
  mkCell a (occupied c) (age c) (generation c) (cached_hash c) (cached_mass c)
    (cache_valid c).

Definition set_cells (cs : option (list Cell)) (g : Grid) : Grid :=
  mkGrid (width g) (height g) cs (steps g) (population g) (reactions_success g)
    (reactions_diverged g) (movements g) (deaths_age g) (cosmic_spawns g)
    (attacks g) (evasions g).

(** The cells [0 .. total-1], rewritten one after the other; the cells
    beyond [total], if any, are left alone. *)
Definition remap_cell (remap : list (option nat)) (c : Cell) : M Cell :=
  if occupied c then
    r <- remap_at remap (atom c) ;;
    match r with
    | Some j => ret (set_atom j c)
    | None => ret c
    end
  else ret c.

Definition remap_grid (remap : list (option nat)) : M unit :=
  w <- get_world ;;
  match cells (active_grid w) with
  | None => ret tt
  | Some cs =>
      let total := Z.to_nat (width (active_grid w) * height (active_grid w)) in
      if length cs <? total then abort
      else
        cs' <- map_M (remap_cell remap) (take total cs) ;;
        modify (fun w => set_grid (set_cells (Some (cs' ++ drop total cs))
                                     (active_grid w)) w)
  end.

Definition set_body_of (b : Expr_Index) (x : Binding) : Binding :=
  mkBinding (name x) b.

Definition remap_binding (remap : list (option nat)) (x : Binding) : M Binding :=
  r <- remap_at remap (body_of x) ;;
  match r with
  | Some j => ret (set_body_of j x)
  | None => ret x
  end.

(** One generation log: the entries that have a new index are kept, in
    order, under that index. *)
Fixpoint remap_gen (remap : list (option nat)) (l : list Expr_Index)
    : M (list Expr_Index) :=
  match l with
  | [] => ret []
  | i :: l' =>
      r <- remap_at remap i ;;
      rest <- remap_gen remap l' ;;
      match r with
      | Some j => ret (j :: rest)
      | None => ret rest
      end
  end.

(** [gc_compact].  [bindings] is [None] for the null pointer; the
    result is the caller's table after the call. *)
Definition gc_compact (bindings : option Bindings) : M (option Bindings) :=
  w <- get_world ;;
  let g := GC w in
  let count := length (slots g) in
  if count =? 0 then ret bindings
  else
    let live_count := wrap64 (Z.of_nat count - Z.of_nat (length (dead g))) in
    if length (dead g) <? count / 2 then ret bindings
    else
      let remap := build_remap (slots g) 0 in
      let live_slots := filter (fun e => live e = true) (slots g) in
      if (live_count <? Z.of_nat (length live_slots))%Z then abort
      else
        new_slots <- map_M (remap_expr remap) live_slots ;;
        remap_grid remap ;;;
        bindings' <- match bindings with
                     | Some bs => bs' <- map_M (remap_binding remap) bs ;; ret (Some bs')
                     | None => ret None
                     end ;;
        g0 <- remap_gen remap (gens0 g) ;;
        g1 <- remap_gen remap (gens1 g) ;;
        modify (fun w => set_GC (mkGC new_slots [] g0 g1 (gen_cur (GC w))) w) ;;;
        ret bindings'.

Definition gc_slot_count : M nat := fun w => Ok (length (slots (GC w))) w.

(** * Combinator generation *)

Definition rand : M Z := fun w =>
  Ok (Z.of_nat (rand_seq w (rand_pos w))) (set_rand_pos (S (rand_pos w)) w).

(** The conversion [%d]. *)
Definition string_of_int (z : Z) : string :=
  NilZero.string_of_int (Z.to_int z).

(** [env[i]]. *)
Definition env_at (env : list string) (i : Z) : M string := fun w =>
  if (i <? 0)%Z then Abort
  else match env !! Z.to_nat i with
       | Some s => Ok s w
       | None => Abort
       end.

Definition identity_fun : M Expr_Index :=
  x <- var (symbol "x") ;; fun_ (symbol "x") x.

(** [generate_rich_combinator].  [env] holds the [env_count] names that
    the caller passes; [new_env] is their copy followed by the new
    parameter, and copying more names than [env] holds reads out of
    bounds. *)
Fixpoint generate_rich_combinator (fuel : nat) (o : Arg_Order)
    (current_depth max_depth : Z) (env : list string) (env_count : Z)
    : M Expr_Index :=
  match fuel with
  | O => out_of_fuel
  | S n =>
      let pick_var :=
        r <- rand ;;
        nm <- env_at env (Z.rem r env_count) ;;
        var (symbol nm) in
      if (current_depth >=? max_depth)%Z then
        if (env_count >? 0)%Z then pick_var else identity_fun
      else
        let force_growth := (current_depth <? max_depth ÷ 3)%Z in
        let do_abs :=
          let param_name := ("v" ++ string_of_int env_count)%string in
          if (env_count >=? 63)%Z then identity_fun
          else if (Z.of_nat (length env) <? env_count)%Z then abort
          else
            let new_env := take (Z.to_nat env_count) env ++ [param_name] in
            b <- generate_rich_combinator n o (current_depth + 1) max_depth
                   new_env (env_count + 1) ;;
            fun_ (symbol param_name) b in
        let do_app :=
          lr <- args2 o
                  (generate_rich_combinator n o (current_depth + 1) max_depth
                     env env_count)
                  (generate_rich_combinator n o (current_depth + 1) max_depth
                     env env_count) ;;
          app (fst lr) (snd lr) in
        if (env_count =? 0)%Z then do_abs
        else
          r0 <- rand ;;
          let r := Z.rem r0 100 in
          if force_growth then
            if (r <? 60)%Z then do_app else do_abs
          else if (r <? 50)%Z then do_app
          else if (r <? 80)%Z then do_abs
          else pick_var
  end.

Definition is_identity (expr : Expr_Index) : M bool :=
  e <- expr_slot expr ;;
  match as_ e with
  | EXPR_FUN p b =>
      eb <- expr_slot b ;;
      match as_ eb with
      | EXPR_VAR v => ret (symbol_eq p v)
      | _ => ret false
      end
  | _ => ret false
  end.

(** * Grid ([lamb_grid.c]) *)

Definition set_occupied (b : bool) (c : Cell) : Cell :=
  mkCell (atom c) b (age c) (generation c) (cached_hash c) (cached_mass c)
    (cache_valid c).
Definition set_age (a : Z) (c : Cell) : Cell :=
  mkCell (atom c) (occupied c) a (generation c) (cached_hash c) (cached_mass c)
    (cache_valid c).
Definition set_generation (n : Z) (c : Cell) : Cell :=
  mkCell (atom c) (occupied c) (age c) n (cached_hash c) (cached_mass c)
    (cache_valid c).
Definition set_cache_valid (b : bool) (c : Cell) : Cell :=
  mkCell (atom c) (occupied c) (age c) (generation c) (cached_hash c)
    (cached_mass c) b.

Definition set_steps (n : Z) (g : Grid) : Grid :=
  mkGrid (width g) (height g) (cells g) n (population g) (reactions_success g)
    (reactions_diverged g) (movements g) (deaths_age g) (cosmic_spawns g)
    (attacks g) (evasions g).
Definition set_reactions_success (n : Z) (g : Grid) : Grid :=
  mkGrid (width g) (height g) (cells g) (steps g) (population g) n
    (reactions_diverged g) (movements g) (deaths_age g) (cosmic_spawns g)
    (attacks g) (evasions g).
Definition set_reactions_diverged (n : Z) (g : Grid) : Grid :=
  mkGrid (width g) (height g) (cells g) (steps g) (population g)
    (reactions_success g) n (movements g) (deaths_age g) (cosmic_spawns g)
    (attacks g) (evasions g).
Definition set_movements (n : Z) (g : Grid) : Grid :=
  mkGrid (width g) (height g) (cells g) (steps g) (population g)
    (reactions_success g) (reactions_diverged g) n (deaths_age g)
    (cosmic_spawns g) (attacks g) (evasions g).
Definition set_deaths_age (n : Z) (g : Grid) : Grid :=
  mkGrid (width g) (height g) (cells g) (steps g) (population g)
    (reactions_success g) (reactions_diverged g) (movements g) n
    (cosmic_spawns g) (attacks g) (evasions g).
Definition set_cosmic_spawns (n : Z) (g : Grid) : Grid :=
  mkGrid (width g) (height g) (cells g) (steps g) (population g)
    (reactions_success g) (reactions_diverged g) (movements g) (deaths_age g)
    n (attacks g) (evasions g).

(** The functions below take [g = &active_grid], as every caller
    passes it. *)
Definition get_grid : M Grid := fun w => Ok (active_grid w) w.
Definition update_grid (f : Grid -> Grid) : M unit :=
  modify (fun w => set_grid (f (active_grid w)) w).

(** [g->cells[i]], read and written. *)
Definition read_cell (i : Z) : M Cell :=
  g <- get_grid ;;
  match cells g with
  | None => abort
  | Some cs => cell_at cs i
  end.

Definition write_cell (i : Z) (c : Cell) : M unit :=
  g <- get_grid ;;
  match cells g with
  | None => abort
  | Some cs =>
      cell_at cs i ;;;
      update_grid (set_cells (Some (<[Z.to_nat i := c]> cs)))
  end.

Definition modify_cell (i : Z) (f : Cell -> Cell) : M unit :=
  c <- read_cell i ;; write_cell i (f c).

Definition grid_idx (g : Grid) (x y : Z) : Z :=
  let wx := Z.rem x (width g) in
  let wx := if (wx <? 0)%Z then (wx + width g)%Z else wx in
  let wy := Z.rem y (height g) in
  let wy := if (wy <? 0)%Z then (wy + height g)%Z else wy in
  wrap_int (wrap_int (wy * width g) + wx).


(** [indices[i]], read and written. *)
Definition int_at (l : list Z) (i : Z) : M Z := fun w =>
  if (i <? 0)%Z then Abort
  else match l !! Z.to_nat i with
       | Some x => Ok x w
       | None => Abort
       end.

(** The Fisher-Yates loop [for (i = k; i > 0; i--)]. *)
Fixpoint shuffle (k : nat) (indices : list Z) : M (list Z) :=
  match k with
  | O => ret indices
  | S k' =>
      let i := Z.of_nat k in
      r <- rand ;;
      let j := Z.rem r (i + 1) in
      temp <- int_at indices i ;;
      xj <- int_at indices j ;;
      let indices1 := <[Z.to_nat i := xj]> indices in
      int_at indices1 j ;;;
      shuffle k' (<[Z.to_nat j := temp]> indices1)
  end.

(** The body of the loop of [grid_step] over the shuffled indices. *)
Definition grid_update_cell (fuel : nat) (o : Arg_Order) (eval_steps : nat)
    (max_mass : Z) (curr_idx : Z) : M unit :=
  c0 <- read_cell curr_idx ;;
  died <- (if occupied c0 then
             modify_cell curr_idx (fun c => set_age (age c + 1) c) ;;;
             c1 <- read_cell curr_idx ;;
             if (age c1 >? MAX_AGE)%Z then
               modify_cell curr_idx (set_occupied false) ;;;
               modify_cell curr_idx (set_cache_valid false) ;;;
               update_grid (fun g => set_deaths_age (deaths_age g + 1) g) ;;;
               ret true
             else ret false
           else ret false) ;;
  if died : bool then ret tt
  else
    c2 <- read_cell curr_idx ;;
    if negb (occupied c2) then
      r <- rand ;;
      if (Z.rem r 100000 <? COSMIC_RAY_RATE)%Z then
        e <- generate_rich_combinator fuel o 0 3 [] 0 ;;
        modify_cell curr_idx (set_atom e) ;;;
        modify_cell curr_idx (set_occupied true) ;;;
        modify_cell curr_idx (set_age 0) ;;;
        modify_cell curr_idx (set_generation 0) ;;;
        modify_cell curr_idx (set_cache_valid false) ;;;
        update_grid (fun g => set_cosmic_spawns (cosmic_spawns g + 1) g)
      else ret tt
    else
      g <- get_grid ;;
      let cx := Z.rem curr_idx (width g) in
      let cy := (curr_idx ÷ width g)%Z in
      r <- rand ;;
      let dir := Z.rem r 4 in
      let tx := if (dir =? 1)%Z then (cx + 1)%Z
                else if (dir =? 3)%Z then (cx - 1)%Z else cx in
      let ty := if (dir =? 0)%Z then (cy - 1)%Z
                else if (dir =? 2)%Z then (cy + 1)%Z else cy in
      let target_idx := grid_idx g tx ty in
      ct <- read_cell target_idx ;;
      if negb (occupied ct) then
        src <- read_cell curr_idx ;;
        write_cell target_idx src ;;;
        modify_cell curr_idx (set_occupied false) ;;;
        modify_cell curr_idx (set_cache_valid false) ;;;
        update_grid (fun g => set_movements (movements g + 1) g)
      else
        ca <- read_cell curr_idx ;;
        let A := atom ca in
        let B := atom ct in
        ab <- app A B ;;
        res <- eval_bounded fuel o ab eval_steps max_mass ;;
        match res with
        | (EVAL_DONE, Some result) =>
            modify_cell curr_idx (set_age 0) ;;;
            modify_cell curr_idx (set_cache_valid false) ;;;
            modify_cell target_idx (set_atom result) ;;;
            modify_cell target_idx (set_age 0) ;;;
            modify_cell target_idx (fun c => set_generation (generation c + 1) c) ;;;
            modify_cell target_idx (set_cache_valid false) ;;;
            update_grid (fun g => set_reactions_success (reactions_success g + 1) g)
        | (EVAL_DONE, None) => abort
        | _ =>
            modify_cell target_idx (set_occupied false) ;;;
            modify_cell target_idx (set_cache_valid false) ;;;
            update_grid (fun g => set_reactions_diverged (reactions_diverged g + 1) g)
        end.

(** [grid_step].  [malloc] of the index array is taken to succeed. *)
Definition grid_step (fuel : nat) (o : Arg_Order) (bindings : Bindings)
    (eval_steps : nat) (max_mass : Z) : M unit :=
  g <- get_grid ;;
  let total := (width g * height g)%Z in
  indices <- shuffle (Z.to_nat (total - 1)) (range total) ;;
  for_each indices (grid_update_cell fuel o eval_steps max_mass) ;;;
  update_grid (fun g => set_steps (steps g + 1) g) ;;;
  g1 <- get_grid ;;
  if (Z.rem (steps g1) 10 =? 0)%Z then
    dummy <- var (symbol "_dummy") ;;
    gc fuel dummy bindings ;;;
    n <- gc_slot_count ;;
    if (Z.rem (steps g1) 100 =? 0)%Z && (10000 <? Z.of_nat n)%Z then
      gc_compact None ;;; ret tt
    else ret tt
  else ret tt.

(** * Lexer and parser *)

Inductive Token_Kind :=
| TOKEN_INVALID | TOKEN_END | TOKEN_OPAREN | TOKEN_CPAREN | TOKEN_LAMBDA
| TOKEN_DOT | TOKEN_COLON | TOKEN_SEMICOLON | TOKEN_EQUALS | TOKEN_NAME
| TOKEN_MAGIC.

Definition Token_Kind_eqb (a b : Token_Kind) : bool :=
  match a, b with
  | TOKEN_INVALID, TOKEN_INVALID | TOKEN_END, TOKEN_END
  | TOKEN_OPAREN, TOKEN_OPAREN | TOKEN_CPAREN, TOKEN_CPAREN
  | TOKEN_LAMBDA, TOKEN_LAMBDA | TOKEN_DOT, TOKEN_DOT
  | TOKEN_COLON, TOKEN_COLON | TOKEN_SEMICOLON, TOKEN_SEMICOLON
  | TOKEN_EQUALS, TOKEN_EQUALS | TOKEN_NAME, TOKEN_NAME
  | TOKEN_MAGIC, TOKEN_MAGIC => true
  | _, _ => false
  end.

Record Cur := mkCur { pos : nat; bol : nat; row : nat }.

(** [Lexer].  [content] holds the [count] characters of the input;
    [lstring] is the member [string], without its terminating null.  The
    diagnostics that the lexer and the parser write to [stderr] are left
    out. *)
Record Lexer := mkLexer {
  content : list ascii;
  count : nat;
  cur : Cur;
  token : Token_Kind;
  lstring : list ascii;
  lrow : nat;
  lcol : nat
}.

Definition set_cur (c : Cur) (l : Lexer) : Lexer :=
  mkLexer (content l) (count l) c (token l) (lstring l) (lrow l) (lcol l).
Definition set_token (t : Token_Kind) (l : Lexer) : Lexer :=
  mkLexer (content l) (count l) (cur l) t (lstring l) (lrow l) (lcol l).
Definition set_lstring (s : list ascii) (l : Lexer) : Lexer :=
  mkLexer (content l) (count l) (cur l) (token l) s (lrow l) (lcol l).
Definition set_loc (r c : nat) (l : Lexer) : Lexer :=
  mkLexer (content l) (count l) (cur l) (token l) (lstring l) r c.

Definition lexer_init (input : list ascii) (n : nat) : Lexer :=
  mkLexer input n (mkCur 0 0 0) TOKEN_INVALID [] 0 0.

Definition NUL : ascii := "000"%char.
Definition LF : ascii := "010"%char.

Definition lexer_curr_char (l : Lexer) : ascii :=
  if count l <=? pos (cur l) then NUL
  else nth (pos (cur l)) (content l) NUL.

Definition lexer_next_char (l : Lexer) : ascii * Lexer :=
  if count l <=? pos (cur l) then (NUL, l)
  else
    let x := nth (pos (cur l)) (content l) NUL in
    let p := S (pos (cur l)) in
    let c := if Ascii.eqb x LF then mkCur p p (S (row (cur l)))
             else mkCur p (bol (cur l)) (row (cur l)) in
    (x, set_cur c l).

(** [isspace] and [isalnum] in the C locale. *)
Definition isspace (c : ascii) : bool :=
  let n := nat_of_ascii c in (n =? 32) || ((9 <=? n) && (n <=? 13)).
Definition isalnum (c : ascii) : bool :=
  let n := nat_of_ascii c in
  ((48 <=? n) && (n <=? 57)) || ((65 <=? n) && (n <=? 90)) ||
  ((97 <=? n) && (n <=? 122)).
Definition issymbol (c : ascii) : bool :=
  isalnum c || Ascii.eqb c "_"%char.

(** The [while] loops of the lexer advance [cur.pos] at every turn and
    stop at the end of the input at the latest, so that [count - pos]
    turns are all they can take; [k] counts them down. *)
Fixpoint trim_left_loop (k : nat) (l : Lexer) : Lexer :=
  match k with
  | O => l
  | S k' =>
      if isspace (lexer_curr_char l)
      then trim_left_loop k' (snd (lexer_next_char l))
      else l
  end.

Definition lexer_trim_left (l : Lexer) : Lexer :=
  trim_left_loop (count l - pos (cur l)) l.

Fixpoint starts_with_from (cs : list ascii) (n : nat) (p : nat) (prefix : list ascii)
    : bool :=
  match prefix with
  | [] => true
  | c :: prefix' =>
      if p <? n then
        if Ascii.eqb c (nth p cs NUL) then starts_with_from cs n (S p) prefix'
        else false
      else false
  end.

Definition lexer_starts_with (l : Lexer) (prefix : list ascii) : bool :=
  starts_with_from (content l) (count l) (pos (cur l)) prefix.

Fixpoint drop_line_loop (k : nat) (l : Lexer) : Lexer :=
  match k with
  | O => l
  | S k' =>
      if pos (cur l) <? count l then
        let '(x, l') := lexer_next_char l in
        if Ascii.eqb x LF then l' else drop_line_loop k' l'
      else l
  end.

Definition lexer_drop_line (l : Lexer) : Lexer :=
  drop_line_loop (count l - pos (cur l)) l.

Fixpoint skip_blanks_loop (k : nat) (l : Lexer) : Lexer :=
  match k with
  | O => lexer_trim_left l
  | S k' =>
      let l1 := lexer_trim_left l in
      if lexer_starts_with l1 ["/"; "/"]%char
      then skip_blanks_loop k' (lexer_drop_line l1)
      else l1
  end.

(** The characters of a name, appended to [lstring] one by one. *)
Fixpoint symbol_loop (k : nat) (l : Lexer) : Lexer :=
  match k with
  | O => l
  | S k' =>
      if issymbol (lexer_curr_char l) then
        let '(x, l') := lexer_next_char l in
        symbol_loop k' (set_lstring (lstring l' ++ [x]) l')
      else l
  end.

Definition lexer_next (l : Lexer) : bool * Lexer :=
  let l := skip_blanks_loop (count l - pos (cur l)) l in
  let l := set_loc (row (cur l) + 1) (pos (cur l) - bol (cur l) + 1) l in
  let '(x, l) := lexer_next_char l in
  if Ascii.eqb x NUL then (true, set_token TOKEN_END l)
  else if Ascii.eqb x "("%char then (true, set_token TOKEN_OPAREN l)
  else if Ascii.eqb x ")"%char then (true, set_token TOKEN_CPAREN l)
  else if Ascii.eqb x "\"%char then (true, set_token TOKEN_LAMBDA l)
  else if Ascii.eqb x "."%char then (true, set_token TOKEN_DOT l)
  else if Ascii.eqb x ":"%char then (true, set_token TOKEN_COLON l)
  else if Ascii.eqb x ";"%char then (true, set_token TOKEN_SEMICOLON l)
  else if Ascii.eqb x "="%char then (true, set_token TOKEN_EQUALS l)
  else if Ascii.eqb x "#"%char then
    let l := set_lstring [] (set_token TOKEN_MAGIC l) in
    (true, symbol_loop (count l - pos (cur l)) l)
  else if issymbol x then
    let l := set_lstring [x] (set_token TOKEN_NAME l) in
    (true, symbol_loop (count l - pos (cur l)) l)
  else (false, set_token TOKEN_INVALID l).

Definition lexer_peek (l : Lexer) : bool * Lexer :=
  let c := cur l in
  let '(result, l') := lexer_next l in
  (result, set_cur c l').

Definition lexer_expect (l : Lexer) (expected : Token_Kind) : bool * Lexer :=
  let '(ok, l') := lexer_next l in
  if negb ok then (false, l')
  else if negb (Token_Kind_eqb (token l') expected) then (false, l')
  else (true, l').

Definition is_expr_end (t : Token_Kind) : bool :=
  match t with
  | TOKEN_CPAREN | TOKEN_END | TOKEN_SEMICOLON => true
  | _ => false
  end.

(** [parse_fun], [parse_primary] and [parse_expr]; [parse_expr_loop] is
    the [while] loop of [parse_expr], entered after a successful
    [lexer_peek].  The first component of a result is [None] for
    [return false] and the parsed expression otherwise. *)
Fixpoint parse_expr (fuel : nat) (l : Lexer) : M (option Expr_Index * Lexer) :=
  match fuel with
  | O => out_of_fuel
  | S n =>
      r <- parse_primary n l ;;
      match r with
      | (None, l1) => ret (None, l1)
      | (Some expr, l1) =>
          let '(ok, l2) := lexer_peek l1 in
          if negb ok then ret (None, l2)
          else parse_expr_loop n l2 expr
      end
  end
with parse_expr_loop (fuel : nat) (l : Lexer) (expr : Expr_Index)
    : M (option Expr_Index * Lexer) :=
  match fuel with
  | O => out_of_fuel
  | S n =>
      if is_expr_end (token l) then ret (Some expr, l)
      else
        r <- parse_primary n l ;;
        match r with
        | (None, l1) => ret (None, l1)
        | (Some rhs, l1) =>
            expr' <- app expr rhs ;;
            let '(ok, l2) := lexer_peek l1 in
            if negb ok then ret (None, l2)
            else parse_expr_loop n l2 expr'
        end
  end
with parse_primary (fuel : nat) (l : Lexer) : M (option Expr_Index * Lexer) :=
  match fuel with
  | O => out_of_fuel
  | S n =>
      let '(ok, l1) := lexer_next l in
      if negb ok then ret (None, l1)
      else
        match token l1 with
        | TOKEN_OPAREN =>
            r <- parse_expr n l1 ;;
            match r with
            | (None, l2) => ret (None, l2)
            | (Some expr, l2) =>
                let '(ok2, l3) := lexer_expect l2 TOKEN_CPAREN in
                if negb ok2 then ret (None, l3) else ret (Some expr, l3)
            end
        | TOKEN_LAMBDA => parse_fun n l1
        | TOKEN_MAGIC =>
            e <- magic (string_of_list_ascii (lstring l1)) ;; ret (Some e, l1)
        | TOKEN_NAME =>
            e <- var (symbol (string_of_list_ascii (lstring l1))) ;; ret (Some e, l1)
        | _ => ret (None, l1)
        end
  end
with parse_fun (fuel : nat) (l : Lexer) : M (option Expr_Index * Lexer) :=
  match fuel with
  | O => out_of_fuel
  | S n =>
      let '(ok, l1) := lexer_expect l TOKEN_NAME in
      if negb ok then ret (None, l1)
      else
        let arg := symbol (string_of_list_ascii (lstring l1)) in
        let '(ok2, l2) := lexer_expect l1 TOKEN_DOT in
        if negb ok2 then ret (None, l2)
        else
          let c := cur l2 in
          let '(oka, la) := lexer_next l2 in
          if negb oka then ret (None, la)
          else
            let a := token la in
            let '(okb, lb) := lexer_next la in
            if negb okb then ret (None, lb)
            else
              let b := token lb in
              let l3 := set_cur c lb in
              r <- (if Token_Kind_eqb a TOKEN_NAME && Token_Kind_eqb b TOKEN_DOT
                    then parse_fun n l3 else parse_expr n l3) ;;
              match r with
              | (None, l4) => ret (None, l4)
              | (Some body, l4) => e <- fun_ arg body ;; ret (Some e, l4)
              end
  end.

(** * Expressions as trees, and what the arena holds *)

(** The expression that a slot index stands for, as the tree of the
    specification's data model. *)
Inductive term :=
| Var (s : Symbol)
| Mag (m : string)
| Fun (p : Symbol) (b : term)
| App (l r : term).

(** The kind and payload of slot [i], when [i] is a live slot: what
    [expr_slot(i)] gives access to. *)
Definition look (w : World) (i : Expr_Index) : option Expr_As :=
  match slots (GC w) !! i with
  | Some e => if live e then Some (as_ e) else None
  | None => None
  end.

(** [Repr w i t]: in the arena of [w], index [i] stands for the tree
    [t]; every slot on the way is live. *)
Inductive Repr (w : World) : Expr_Index -> term -> Prop :=
| Repr_Var i s : look w i = Some (EXPR_VAR s) -> Repr w i (Var s)
| Repr_Mag i m : look w i = Some (EXPR_MAG m) -> Repr w i (Mag m)
| Repr_Fun i p b tb :
    look w i = Some (EXPR_FUN p b) -> Repr w b tb -> Repr w i (Fun p tb)
| Repr_App i l r tl tr :
    look w i = Some (EXPR_APP l r) -> Repr w l tl -> Repr w r tr ->
    Repr w i (App tl tr).

(** [extends w w']: every slot that is live in [w] is live in [w'] with
    the same kind and payload. *)
Definition extends (w w' : World) : Prop :=
  forall i a, look w i = Some a -> look w' i = Some a.

(** The free list holds distinct indices of slots that are not live, so
    that [alloc_expr] passes its assertion. *)
Definition dead_ok (w : World) : Prop :=
  NoDup (dead (GC w)) /\
  forall i, i ∈ dead (GC w) ->
    exists e, slots (GC w) !! i = Some e /\ live e = false.

Fixpoint size (t : term) : nat :=
  match t with
  | Var _ | Mag _ => 1
  | Fun _ b => S (size b)
  | App l r => S (size l + size r)
  end.

(** ** The specification's evaluator, on trees *)

(** Free-variable test, section 4.2. *)
Fixpoint free_in (v : Symbol) (e : term) : bool :=
  match e with
  | Var s => symbol_eq s v
  | Mag _ => false
  | Fun p b => if symbol_eq p v then false else free_in v b
  | App l r => free_in v l || free_in v r
  end.

Definition closed (t : term) : Prop := forall v, free_in v t = false.

(** Every [Var] of [t] names one of the parameters [env] of the [Fun]s
    around it. *)
Fixpoint scoped (env : list Symbol) (t : term) : Prop :=
  match t with
  | Var s => In s env
  | Mag _ => True
  | Fun p b => scoped (p :: env) b
  | App l r => scoped env l /\ scoped env r
  end.

(** [fresh], section 4.1, with the counter at [c] before the call. *)
Definition fresh (c : Z) (p : Symbol) : Symbol :=
  mkSymbol (label p) (wrap64 (c + 1)).

(** Capture-avoiding substitution, section 4.2, as a relation:
    [Subst o param arg c body result c'] when [subst(param, body, arg)]
    is [result] and moves the fresh-tag counter from [c] to [c'].  The
    two children of an [App] are substituted into in the order [o]. *)
Inductive Subst (o : Arg_Order) : Symbol -> term -> Z -> term -> term -> Z -> Prop :=
| Subst_Var_hit param arg c v :
    symbol_eq v param = true ->
    Subst o param arg c (Var v) arg c
| Subst_Var_miss param arg c v :
    symbol_eq v param = false ->
    Subst o param arg c (Var v) (Var v) c
| Subst_Mag param arg c m :
    Subst o param arg c (Mag m) (Mag m) c
| Subst_Fun_shadow param arg c p b :
    symbol_eq p param = true ->
    Subst o param arg c (Fun p b) (Fun p b) c
| Subst_Fun_plain param arg c p b b' c' :
    symbol_eq p param = false ->
    free_in p arg = false ->
    Subst o param arg c b b' c' ->
    Subst o param arg c (Fun p b) (Fun p b') c'
| Subst_Fun_rename param arg c p b b1 c1 b2 c2 :
    symbol_eq p param = false ->
    free_in p arg = true ->
    Subst o p (Var (fresh c p)) (wrap64 (c + 1)) b b1 c1 ->
    Subst o param arg c1 b1 b2 c2 ->
    Subst o param arg c (Fun p b) (Fun (fresh c p) b2) c2
| Subst_App_lr param arg c l r l' c1 r' c2 :
    o = Left_To_Right ->
    Subst o param arg c l l' c1 ->
    Subst o param arg c1 r r' c2 ->
    Subst o param arg c (App l r) (App l' r') c2
| Subst_App_rl param arg c l r r' c1 l' c2 :
    o = Right_To_Left ->
    Subst o param arg c r r' c1 ->
    Subst o param arg c1 l l' c2 ->
    Subst o param arg c (App l r) (App l' r') c2.

(** Pretty-print, section 6.  [chain] is [true] for the body of a
    [Fun], whose parameters are dot-chained. *)
Definition is_fun (t : term) : bool :=
  match t with Fun _ _ => true | _ => false end.
Definition is_atom (t : term) : bool :=
  match t with Var _ | Mag _ => true | _ => false end.
Definition paren_if (b : bool) (s : string) : string :=
  if b then ("(" ++ s ++ ")")%string else s.

Fixpoint pretty_in (chain : bool) (t : term) : string :=
  match t with
  | Var v => symbol_display v
  | Mag m => ("#" ++ m)%string
  | Fun p b =>
      ((if chain then "" else "\") ++ symbol_display p ++ "." ++ pretty_in true b)%string
  | App l r =>
      (paren_if (is_fun l) (pretty_in false l) ++ " " ++
       paren_if (negb (is_atom r)) (pretty_in false r))%string
  end.

Definition pretty (t : term) : string := pretty_in false t.

(** What one step of the reducer reports. *)
Inductive Outcome :=
| Unchanged
| Changed (t : term)
| Failed.

Definition newline : string := String "010"%char EmptyString.
Definition trace_line (e : term) : list string :=
  ["TRACE: "%string; pretty e; newline].
Definition unknown_magic_line (m : string) : list string :=
  [("ERROR: unknown magic #" ++ m ++ newline)%string].

(** A head that is neither a [Fun] nor a [Magic]: the "else" of the
    [App] case. *)
Definition plain_head (l : term) : bool :=
  match l with Var _ | App _ _ => true | _ => false end.

Definition is_trace_or_void (m : string) : bool :=
  String.eqb m "trace" || String.eqb m "void".

(** The single-step reducer of section 4.2 with the magic dispatch of
    section 4.5, as a relation: [Step o c e out c' lines] when
    [eval1(e)] reports [out], moves the fresh-tag counter from [c] to
    [c'] and writes [lines]. *)
Inductive Step (o : Arg_Order) : Z -> term -> Outcome -> Z -> list string -> Prop :=
| Step_Var c s : Step o c (Var s) Unchanged c []
| Step_Mag c m : Step o c (Mag m) Unchanged c []
| Step_Fun_changed c p b b' c' ls :
    Step o c b (Changed b') c' ls ->
    Step o c (Fun p b) (Changed (Fun p b')) c' ls
| Step_Fun_unchanged c p b c' ls :
    Step o c b Unchanged c' ls ->
    Step o c (Fun p b) Unchanged c' ls
| Step_Fun_failed c p b c' ls :
    Step o c b Failed c' ls ->
    Step o c (Fun p b) Failed c' ls
| Step_beta c p b r t c' :
    Subst o p r c b t c' ->
    Step o c (App (Fun p b) r) (Changed t) c' []
| Step_trace_changed c e e' c' ls :
    Step o c e (Changed e') c' ls ->
    Step o c (App (Mag "trace") e) (Changed (App (Mag "trace") e')) c' ls
| Step_trace_normal c e c' ls :
    Step o c e Unchanged c' ls ->
    Step o c (App (Mag "trace") e) (Changed e) c' (ls ++ trace_line e)
| Step_void_changed c e e' c' ls :
    Step o c e (Changed e') c' ls ->
    Step o c (App (Mag "void") e) (Changed (App (Mag "void") e')) c' ls
| Step_void_normal c e c' ls :
    Step o c e Unchanged c' ls ->
    Step o c (App (Mag "void") e) (Changed (Mag "void")) c' ls
| Step_magic_failed c m e c' ls :
    is_trace_or_void m = true ->
    Step o c e Failed c' ls ->
    Step o c (App (Mag m) e) Failed c' ls
| Step_magic_unknown c m e :
    is_trace_or_void m = false ->
    Step o c (App (Mag m) e) Failed c (unknown_magic_line m)
| Step_App_left c l r l' c' ls :
    plain_head l = true ->
    Step o c l (Changed l') c' ls ->
    Step o c (App l r) (Changed (App l' r)) c' ls
| Step_App_left_failed c l r c' ls :
    plain_head l = true ->
    Step o c l Failed c' ls ->
    Step o c (App l r) Failed c' ls
| Step_App_right c l r r' c1 ls1 c2 ls2 :
    plain_head l = true ->
    Step o c l Unchanged c1 ls1 ->
    Step o c1 r (Changed r') c2 ls2 ->
    Step o c (App l r) (Changed (App l r')) c2 (ls1 ++ ls2)
| Step_App_right_failed c l r c1 ls1 c2 ls2 :
    plain_head l = true ->
    Step o c l Unchanged c1 ls1 ->
    Step o c1 r Failed c2 ls2 ->
    Step o c (App l r) Failed c2 (ls1 ++ ls2)
| Step_App_unchanged c l r c1 ls1 c2 ls2 :
    plain_head l = true ->
    Step o c l Unchanged c1 ls1 ->
    Step o c1 r Unchanged c2 ls2 ->
    Step o c (App l r) Unchanged c2 (ls1 ++ ls2).

(** Mass, section 4.2: the number of nodes of the tree. *)
Fixpoint mass (t : term) : Z :=
  match t with
  | Var _ | Mag _ => 1
  | Fun _ b => 1 + mass b
  | App l r => 1 + mass l + mass r
  end.

(** [frame_live w w']: every slot that is live in [w] is the same slot
    in [w']: kind, payload and collector bits. *)
Definition frame_live (w w' : World) : Prop :=
  forall i e, slots (GC w) !! i = Some e -> live e = true ->
    slots (GC w') !! i = Some e.

(** What [eval1] returns, against the outcome the specification gives:
    the same index exactly for [Unchanged], another index standing for
    the new tree for [Changed], and [return false] for [Failed]. *)
Definition agrees (w' : World) (expr : Expr_Index) (out : Outcome)
    (res : option Expr_Index) : Prop :=
  match out, res with
  | Unchanged, Some r => r = expr
  | Changed t', Some r => r <> expr /\ Repr w' r t'
  | Failed, None => True
  | _, _ => False
  end.


(** The statement proved of [eval1] by induction on its fuel. *)
Definition eval1_refines (n : nat) (o : Arg_Order) : Prop :=
  forall expr w res w' t,
    Repr w expr t ->
    eval1 n o expr w = Ok res w' ->
    exists out ls,
      Step o (global_counter w) t out (global_counter w') ls /\
      stdout w' = stdout w ++ ls /\
      agrees w' expr out res.

(** ** The bounded driver *)

(** The mass check that [eval_bounded] makes before a step; it is made
    for a positive [max_mass] only. *)
Definition mass_ok (fuel : nat) (max_mass : Z) (curr : Expr_Index) (w : World) : Prop :=
  (max_mass <= 0)%Z \/
  exists m, expr_mass fuel curr w = Ok m w /\ (m <= max_mass)%Z.

Definition mass_exceeded (fuel : nat) (max_mass : Z) (curr : Expr_Index) (w : World)
    : Prop :=
  (0 < max_mass)%Z /\
  exists m, expr_mass fuel curr w = Ok m w /\ (max_mass < m)%Z.

(** [Iter fuel o max_mass k start w curr w']: [k] turns of the loop, each
    of which passed the mass check and got another index from [eval1],
    lead from [start] in [w] to [curr] in [w']. *)
Inductive Iter (fuel : nat) (o : Arg_Order) (max_mass : Z)
    : nat -> Expr_Index -> World -> Expr_Index -> World -> Prop :=
| Iter_O curr w : Iter fuel o max_mass 0 curr w curr w
| Iter_S k curr w next w1 curr' w' :
    mass_ok fuel max_mass curr w ->
    eval1 fuel o curr w = Ok (Some next) w1 ->
    next <> curr ->
    Iter fuel o max_mass k next w1 curr' w' ->
    Iter fuel o max_mass (S k) curr w curr' w'.

(** The possible ends of a run of [limit] turns at most that has come to
    [curr] in [wk] after [k] turns. *)
Definition ends (fuel : nat) (o : Arg_Order) (max_mass : Z) (limit k : nat)
    (curr : Expr_Index) (wk : World)
    (res : Eval_Result * option Expr_Index) (w' : World) : Prop :=
  match fst res with
  | EVAL_LIMIT =>
      snd res = None /\ w' = wk /\
      (k = limit \/ (k < limit /\ mass_exceeded fuel max_mass curr wk))
  | EVAL_ERROR =>
      snd res = None /\ k < limit /\ mass_ok fuel max_mass curr wk /\
      eval1 fuel o curr wk = Ok None w'
  | EVAL_DONE =>
      snd res = Some curr /\ k < limit /\ mass_ok fuel max_mass curr wk /\
      eval1 fuel o curr wk = Ok (Some curr) w'
  end.

(** ** Concrete worlds *)

Definition empty_GC : GC_Context := mkGC [] [] [] [] false.
Definition empty_grid : Grid := mkGrid 0 0 None 0 0 0 0 0 0 0 0 0.
Definition empty_world : World :=
  mkWorld empty_GC 0 (fun n => n) 0 [] empty_grid.

(** The world after a run of [m], and the value it returns. *)
Definition world_after {A} (m : M A) (w : World) : World :=
  match m w with Ok _ w' => w' | _ => w end.
Definition value_of {A} (m : M A) (w : World) : option A :=
  match m w with Ok a _ => Some a | _ => None end.

(** The tree that index [i] stands for, computed. *)
Fixpoint tree_of (fuel : nat) (w : World) (i : Expr_Index) : option term :=
  match fuel with
  | O => None
  | S n =>
      match look w i with
      | Some (EXPR_VAR s) => Some (Var s)
      | Some (EXPR_MAG m) => Some (Mag m)
      | Some (EXPR_FUN p b) =>
          match tree_of n w b with
          | Some tb => Some (Fun p tb)
          | None => None
          end
      | Some (EXPR_APP l r) =>
          match tree_of n w l, tree_of n w r with
          | Some tl, Some tr => Some (App tl tr)
          | _, _ => None
          end
      | None => None
      end
  end.

(** [dead_ok], decided. *)
Fixpoint nodup_nat (l : list nat) : bool :=
  match l with
  | [] => true
  | x :: l' => negb (existsb (Nat.eqb x) l') && nodup_nat l'
  end.
Definition dead_okb (w : World) : bool :=
  nodup_nat (dead (GC w)) &&
  forallb (fun i => match slots (GC w) !! i with
                    | Some e => negb (live e)
                    | None => false
                    end) (dead (GC w)).

(** [#void x], at index 2. *)
Definition world_void_x : World :=
  Eval vm_compute in
  world_after (m <- magic "void" ;; x <- var (symbol "x") ;; app m x) empty_world.

(** [(\x.\y.x) y]: the function at index 2, [y] at index 3, the
    application at index 4. *)
Definition world_capture : World :=
  Eval vm_compute in
  world_after (x <- var (symbol "x") ;; f1 <- fun_ (symbol "y") x ;;
               f2 <- fun_ (symbol "x") f1 ;; y <- var (symbol "y") ;;
               app f2 y) empty_world.

(** [world_capture] after one step of [eval1] on index 4, and after
    [replace] of [x] by index 3 in index 1. *)
Definition world_capture_stepped : World :=
  Eval vm_compute in world_after (eval1 5 Left_To_Right 4) world_capture.
Definition world_capture_replaced : World :=
  Eval vm_compute in
  world_after (replace 5 Left_To_Right (symbol "x") 1 3) world_capture.

(** [#trace x] at index 2 and [#boom x] at index 4, over [x] at
    index 1. *)
Definition world_magic : World :=
  Eval vm_compute in
  world_after (m <- magic "trace" ;; x <- var (symbol "x") ;; a <- app m x ;;
               b <- magic "boom" ;; app b x) empty_world.

(** [dead_ok] is not lost. *)
Definition keeps_dead_ok (w w' : World) : Prop := dead_ok w -> dead_ok w'.

(** ** Relations between the world before and after a run *)

(** [stable R m]: every successful run of [m] relates the world before
    to the world after by [R]. *)
Definition stable {A} (R : World -> World -> Prop) (m : M A) : Prop :=
  forall w a w', m w = Ok a w' -> R w w'.

(** [keeps f]: the component [f] of the world is left as it was. *)
Definition keeps {X} (f : World -> X) (w w' : World) : Prop := f w' = f w.

(** [fresh_node w i a w']: [w'] is [w] with one more live slot, [i],
    which holds [a]; no other slot and nothing outside the arena
    differs. *)
Definition fresh_node (w : World) (i : Expr_Index) (a : Expr_As) (w' : World) : Prop :=
  look w i = None /\
  look w' i = Some a /\
  (forall j, j <> i -> slots (GC w') !! j = slots (GC w) !! j) /\
  global_counter w' = global_counter w /\
  stdout w' = stdout w /\
  rand_pos w' = rand_pos w /\
  rand_seq w' = rand_seq w /\
  active_grid w' = active_grid w.

(** The common body of [var], [magic], [fun] and [app]. *)
Definition new_node (a : Expr_As) : M Expr_Index :=
  expr <- alloc_expr ;;
  update_slot expr (set_as a) ;;;
  ret expr.

(** [pure m]: [m] only reads the world. *)
Definition pure {A} (m : M A) : Prop := forall w a w', m w = Ok a w' -> w' = w.

(** [R] is a relation that allocation, the fresh-tag counter and the
    read-only functions respect. *)
Definition alloc_stable (R : World -> World -> Prop) : Prop :=
  PreOrder R /\
  (forall a, stable R (new_node a)) /\
  (forall s, stable R (symbol_fresh s)).

(** [R] is respected by everything that evaluation does to the world:
    allocation, fresh tags and output. *)
Definition eval_stable (R : World -> World -> Prop) : Prop :=
  alloc_stable R /\ forall s, stable R (emit s).

(** [R] is respected by what the generator does to the world:
    allocation and draws from [rand]. *)
Definition gen_stable (R : World -> World -> Prop) : Prop :=
  alloc_stable R /\ stable R rand.

(** ** The grid step, section 4.8 *)

(** The cell at index [i] of a grid, and the grid with that cell
    replaced. *)
Definition cell_of (g : Grid) (i : Z) : option Cell :=
  match cells g with
  | Some cs => if (i <? 0)%Z then None else cs !! Z.to_nat i
  | None => None
  end.

Definition put_cell (i : Z) (c : Cell) (g : Grid) : Grid :=
  match cells g with
  | Some cs => set_cells (Some (<[Z.to_nat i := c]> cs)) g
  | None => g
  end.

(** The number of occupied cells. *)
Definition occupied_count (cs : list Cell) : Z :=
  Z.of_nat (length (filter (fun c => occupied c = true) cs)).

Definition population_of (g : Grid) : Z :=
  match cells g with
  | Some cs => occupied_count cs
  | None => 0
  end.

(** The grid holds [width * height] cells, as [grid_init] allocates
    them when the product fits an [int]. *)
Definition wf_grid (g : Grid) : Prop :=
  exists cs, cells g = Some cs /\ length cs = Z.to_nat (width g * height g) /\
    (width g * height g <= INT_MAX)%Z.

(** [t] is the index of one of the four cardinal neighbours of [curr],
    with wrap-around. *)
Definition neighbour (g : Grid) (curr t : Z) : Prop :=
  let cx := Z.rem curr (width g) in
  let cy := (curr ÷ width g)%Z in
  t = grid_idx g cx (cy - 1) \/ t = grid_idx g (cx + 1) cy \/
  t = grid_idx g cx (cy + 1) \/ t = grid_idx g (cx - 1) cy.

Definition aged (c : Cell) : Cell := set_age (age c + 1) c.
Definition emptied (c : Cell) : Cell := set_cache_valid false (set_occupied false c).
Definition spawned (e : Expr_Index) (c : Cell) : Cell :=
  set_cache_valid false
    (set_generation 0 (set_age 0 (set_occupied true (set_atom e c)))).
Definition rejuvenated (c : Cell) : Cell := set_cache_valid false (set_age 0 c).
Definition transformed (result : Expr_Index) (c : Cell) : Cell :=
  set_cache_valid false
    (set_generation (generation c + 1) (set_age 0 (set_atom result c))).

(** What the processing of one index does to the grid, in the words of
    section 4.8: aging and death, cosmic ray, movement, catalysis and
    divergence. *)
Inductive Cell_Step (curr : Z) (g g' : Grid) : Prop :=
| CS_death c :
    cell_of g curr = Some c -> occupied c = true ->
    (age c + 1 > MAX_AGE)%Z ->
    g' = set_deaths_age (deaths_age g + 1) (put_cell curr (emptied (aged c)) g) ->
    Cell_Step curr g g'
| CS_spawn c e :
    cell_of g curr = Some c -> occupied c = false ->
    g' = set_cosmic_spawns (cosmic_spawns g + 1) (put_cell curr (spawned e c) g) ->
    Cell_Step curr g g'
| CS_idle c :
    cell_of g curr = Some c -> occupied c = false ->
    g' = g ->
    Cell_Step curr g g'
| CS_move c t ct :
    cell_of g curr = Some c -> occupied c = true ->
    (age c + 1 <= MAX_AGE)%Z ->
    neighbour g curr t ->
    cell_of (put_cell curr (aged c) g) t = Some ct -> occupied ct = false ->
    g' = set_movements (movements g + 1)
           (put_cell curr (emptied (aged c))
              (put_cell t (aged c) (put_cell curr (aged c) g))) ->
    Cell_Step curr g g'
| CS_react c t ct ct2 result :
    cell_of g curr = Some c -> occupied c = true ->
    (age c + 1 <= MAX_AGE)%Z ->
    neighbour g curr t ->
    cell_of (put_cell curr (aged c) g) t = Some ct -> occupied ct = true ->
    cell_of (put_cell curr (rejuvenated (aged c)) g) t = Some ct2 ->
    g' = set_reactions_success (reactions_success g + 1)
           (put_cell t (transformed result ct2)
              (put_cell curr (rejuvenated (aged c)) g)) ->
    Cell_Step curr g g'
| CS_diverge c t ct :
    cell_of g curr = Some c -> occupied c = true ->
    (age c + 1 <= MAX_AGE)%Z ->
    neighbour g curr t ->
    cell_of (put_cell curr (aged c) g) t = Some ct -> occupied ct = true ->
    g' = set_reactions_diverged (reactions_diverged g + 1)
           (put_cell t (emptied ct) (put_cell curr (aged c) g)) ->
    Cell_Step curr g g'.

(** Population less spawns plus deaths: what a step of the grid keeps. *)
Definition balance (g : Grid) : Z :=
  (population_of g - cosmic_spawns g + deaths_age g + reactions_diverged g)%Z.

(** Two grids that differ in the atoms of their cells at most. *)
Definition same_occupancy (g g' : Grid) : Prop :=
  width g' = width g /\ height g' = height g /\
  reactions_success g' = reactions_success g /\
  reactions_diverged g' = reactions_diverged g /\
  movements g' = movements g /\ deaths_age g' = deaths_age g /\
  cosmic_spawns g' = cosmic_spawns g /\
  match cells g, cells g' with
  | Some cs, Some cs' => map occupied cs' = map occupied cs
  | None, None => True
  | _, _ => False
  end.

(** A cell stayed occupied while its generation went up by one. *)
Definition generation_incremented (g g' : Grid) : Prop :=
  exists t cb ca,
    cell_of g t = Some cb /\ cell_of g' t = Some ca /\
    occupied cb = true /\ occupied ca = true /\
    generation ca = (generation cb + 1)%Z.

(** The cell at [curr] went from occupied to empty, and neither a death
    of age nor a divergence was counted. *)
Definition source_vacated (curr : Z) (g g' : Grid) : Prop :=
  (exists cb ca,
     cell_of g curr = Some cb /\ cell_of g' curr = Some ca /\
     occupied cb = true /\ occupied ca = false) /\
  deaths_age g' = deaths_age g /\
  reactions_diverged g' = reactions_diverged g.

(** The occupant of [curr] is now in a neighbouring cell that was
    empty. *)
Definition moved_to_empty_neighbour (curr : Z) (g g' : Grid) : Prop :=
  exists t cb ct ca,
    neighbour g curr t /\ t <> curr /\
    cell_of g curr = Some cb /\ cell_of g t = Some ct /\
    occupied ct = false /\
    cell_of g' t = Some ca /\ occupied ca = true /\ atom ca = atom cb.

(** [Cell_Updates fuel o eval_steps max_mass l w w' ns nm]: processing
    the indices [l] in order leads from [w] to [w']; [ns] of these
    updates incremented the generation of a cell that stayed occupied,
    and [nm] of them vacated their source cell without a death or a
    divergence. *)
Inductive Cell_Updates (fuel : nat) (o : Arg_Order) (eval_steps : nat) (max_mass : Z)
    : list Z -> World -> World -> Z -> Z -> Prop :=
| CU_nil w : Cell_Updates fuel o eval_steps max_mass [] w w 0 0
| CU_cons curr l w u w1 w' (bs bm : bool) ns nm :
    grid_update_cell fuel o eval_steps max_mass curr w = Ok u w1 ->
    (if bs then generation_incremented (active_grid w) (active_grid w1)
     else ~ generation_incremented (active_grid w) (active_grid w1)) ->
    (if bm then source_vacated curr (active_grid w) (active_grid w1) /\
                moved_to_empty_neighbour curr (active_grid w) (active_grid w1)
     else ~ source_vacated curr (active_grid w) (active_grid w1)) ->
    Cell_Updates fuel o eval_steps max_mass l w1 w' ns nm ->
    Cell_Updates fuel o eval_steps max_mass (curr :: l) w w'
      (Z.b2z bs + ns) (Z.b2z bm + nm).

(** A grid of two by two cells: [\x.x] (index 1) in cell 0,
    [\a.\b.a] (index 4) in cell 1, the other two cells empty. *)
Definition world_grid : World :=
  Eval vm_compute in
  world_after
    (x <- var (symbol "x") ;; i <- fun_ (symbol "x") x ;;
     a <- var (symbol "a") ;; k1 <- fun_ (symbol "b") a ;;
     k <- fun_ (symbol "a") k1 ;;
     modify (set_grid
       (mkGrid 2 2
          (Some [mkCell i true 0 0 0 0 false; mkCell k true 0 0 0 0 false;
                 mkCell 0 false 0 0 0 0 false; mkCell 0 false 0 0 0 0 false])
          0 2 0 0 0 0 0 0 0)))
    empty_world.

(** [world_grid] after one [grid_step], and after the update of cell 1
    alone. *)
Definition world_grid_stepped : World :=
  Eval vm_compute in
  world_after (grid_step 100 Left_To_Right [] 10 100) world_grid.

Definition world_grid_updated : World :=
  Eval vm_compute in
  world_after (grid_update_cell 100 Left_To_Right 10 100 1) world_grid.

(** ** The collector *)

(** The indices that a node holds. *)
Definition children (a : Expr_As) : list Expr_Index :=
  match a with
  | EXPR_VAR _ | EXPR_MAG _ => []
  | EXPR_FUN _ b => [b]
  | EXPR_APP l r => [l; r]
  end.


Definition is_live (w : World) (i : Expr_Index) : Prop :=
  exists e, slots (GC w) !! i = Some e /\ live e = true.

Definition marked (w : World) (i : Expr_Index) : Prop :=
  exists e, slots (GC w) !! i = Some e /\ live e = true /\ visited e = true.



(** Every live slot is listed in the current generation: [alloc_expr]
    lists the slot it hands out, and [gc] lists the survivors. *)
Definition gens_ok (w : World) : Prop :=
  forall i, is_live w i -> i ∈ gens (GC w) (gen_cur (GC w)).

(** [slots_rel R w w']: the arena keeps its length, and each slot of
    [w] is related by [R] to the slot at the same index of [w']. *)
Definition slots_rel (R : Expr -> Expr -> Prop) (w w' : World) : Prop :=
  length (slots (GC w')) = length (slots (GC w)) /\
  forall i e, slots (GC w) !! i = Some e ->
    exists e', slots (GC w') !! i = Some e' /\ R e e'.

(** What the loops over [visited] leave alone. *)
Definition gc_frame (w w' : World) : Prop :=
  dead (GC w') = dead (GC w) /\ gens0 (GC w') = gens0 (GC w) /\
  gens1 (GC w') = gens1 (GC w) /\ gen_cur (GC w') = gen_cur (GC w) /\
  active_grid w' = active_grid w.

Definition same_node (e e' : Expr) : Prop :=
  as_ e' = as_ e /\ live e' = live e.
Definition mark_up (e e' : Expr) : Prop :=
  same_node e e' /\ (visited e = true -> visited e' = true).
Definition mark_down (e e' : Expr) : Prop :=
  same_node e e' /\ (visited e = false -> visited e' = false).
Definition swept (e e' : Expr) : Prop :=
  as_ e' = as_ e /\ visited e' = visited e /\
  (visited e = true -> live e' = live e) /\
  (live e' = true -> live e = true).

(** [marks w w']: [w'] is [w] with more slots visited, and each slot
    visited since [w] is live and holds indices of marked slots. *)
Definition touches (w w' : World) : Prop :=
  gc_frame w w' /\ slots_rel mark_up w w'.
Definition closed_new (w w' : World) : Prop :=
  forall i e e',
    slots (GC w) !! i = Some e -> slots (GC w') !! i = Some e' ->
    visited e = false -> visited e' = true ->
    live e' = true /\ forall c, c ∈ children (as_ e') -> marked w' c.
Definition marks (w w' : World) : Prop := touches w w' /\ closed_new w w'.


(** What the sweep does to the world, one slot of the old generation
    at a time. *)
Definition sweeps (next : bool) (w w' : World) : Prop :=
  slots_rel swept w w' /\
  gen_cur (GC w') = gen_cur (GC w) /\ active_grid w' = active_grid w /\
  (forall i, i ∈ gens (GC w) next -> i ∈ gens (GC w') next) /\
  (dead_ok w -> dead_ok w').

(** [gens_ok], computed. *)
Definition gens_okb (w : World) : bool :=
  forallb (fun i =>
      match slots (GC w) !! i with
      | Some e => negb (live e) || existsb (Nat.eqb i) (gens (GC w) (gen_cur (GC w)))
      | None => true
      end)
    (seq 0 (length (slots (GC w)))).


(** ** Reading back what was printed *)

(** What is left of [parse_expr] once a primary expression is parsed:
    the [lexer_peek] and the [while] loop. *)
Definition peek_loop (n : nat) (l1 : Lexer) (expr : Expr_Index)
    : M (option Expr_Index * Lexer) :=
  let '(ok, l2) := lexer_peek l1 in
  if negb ok then ret (None, l2) else parse_expr_loop n l2 expr.

(** [at_ cs l s]: the lexer [l] reads the input [cs], and [s] is what it
    has not read yet. *)
Definition at_ (cs : list ascii) (l : Lexer) (s : list ascii) : Prop :=
  content l = cs /\ count l = length cs /\ pos (cur l) <= length cs /\
  drop (pos (cur l)) cs = s.

(** The text that [expr_display] writes, token by token; [TSpace] is
    the blank between the two sides of an application. *)
Inductive tok :=
| TOpen | TClose | TLam | TDot | TSpace
| TName (nm : list ascii)
| TMag (nm : list ascii).

Definition text (tk : tok) : list ascii :=
  match tk with
  | TOpen => ["("%char]
  | TClose => [")"%char]
  | TLam => ["\"%char]
  | TDot => ["."%char]
  | TSpace => [" "%char]
  | TName nm => nm
  | TMag nm => "#"%char :: nm
  end.

Fixpoint render (ts : list tok) : list ascii :=
  match ts with
  | [] => []
  | tk :: ts' => text tk ++ render ts'
  end.

Definition kind (tk : tok) : Token_Kind :=
  match tk with
  | TOpen => TOKEN_OPAREN
  | TClose => TOKEN_CPAREN
  | TLam => TOKEN_LAMBDA
  | TDot => TOKEN_DOT
  | TSpace => TOKEN_INVALID
  | TName _ => TOKEN_NAME
  | TMag _ => TOKEN_MAGIC
  end.

Definition word_of (tk : tok) : list ascii :=
  match tk with TName nm | TMag nm => nm | _ => [] end.

Definition word_ok (nm : list ascii) : bool := forallb issymbol nm.

Definition tok_ok (tk : tok) : bool :=
  match tk with
  | TName nm => match nm with [] => false | _ :: _ => word_ok nm end
  | TMag nm => word_ok nm
  | _ => true
  end.

(** A word ends where the next token starts: the next token is not a
    name.  A blank is followed by a token that is not a blank. *)
Definition sep (ts : list tok) : bool :=
  match ts with TName _ :: _ => false | _ => true end.
Definition quiet (ts : list tok) : bool :=
  match ts with TSpace :: _ => false | _ => true end.

Fixpoint wf (ts : list tok) : bool :=
  match ts with
  | [] => true
  | tk :: ts' =>
      tok_ok tk &&
      match tk with
      | TName _ | TMag _ => sep ts'
      | TSpace => quiet ts'
      | _ => true
      end && wf ts'
  end.

(** The token that [lexer_next] finds, and what is left after it. *)
Definition first_tok (ts : list tok) : option tok :=
  match ts with
  | [] => None
  | TSpace :: ts' => head ts'
  | tk :: _ => Some tk
  end.
Definition behead (ts : list tok) : list tok :=
  match ts with
  | [] => []
  | TSpace :: ts' => tail ts'
  | _ :: ts' => ts'
  end.
Definition peek_kind (ts : list tok) : Token_Kind :=
  match first_tok ts with None => TOKEN_END | Some tk => kind tk end.
Definition peek_word (ts : list tok) : list ascii :=
  match first_tok ts with None => [] | Some tk => word_of tk end.

(** The tokens of an expression, as [expr_display] writes them. *)
Definition name_of (s : Symbol) : list ascii := list_ascii_of_string (label s).
Definition parens (b : bool) (ts : list tok) : list tok :=
  if b then TOpen :: ts ++ [TClose] else ts.

Fixpoint toks (chain : bool) (t : term) : list tok :=
  match t with
  | Var v => [TName (name_of v)]
  | Mag m => [TMag (list_ascii_of_string m)]
  | Fun p b =>
      (if chain then [] else [TLam]) ++ TName (name_of p) :: TDot :: toks true b
  | App l r =>
      parens (is_fun l) (toks false l) ++
      TSpace :: parens (negb (is_atom r)) (toks false r)
  end.

(** The expressions that the parser can build: no symbol carries a
    fresh tag, the names are non-empty runs of letters, digits and
    underscores, and so are the labels of the magics, which may be
    empty. *)
Definition name_ok (s : Symbol) : bool :=
  (tag s =? 0)%Z && tok_ok (TName (name_of s)).

Fixpoint plain (t : term) : bool :=
  match t with
  | Var v => name_ok v
  | Mag m => word_ok (list_ascii_of_string m)
  | Fun p b => name_ok p && plain b
  | App l r => plain l && plain r
  end.

(** The number of arguments that a term is applied to. *)
Fixpoint nargs (t : term) : nat :=
  match t with App l _ => S (nargs l) | _ => 0 end.

(** Where the lexer does not skip anything: at the end of the input,
    and before a character that is neither a blank nor a slash. *)
Definition no_blank (s : list ascii) : Prop :=
  match s with
  | [] => True
  | c :: _ => isspace c = false /\ Ascii.eqb "/"%char c = false
  end.

Definition no_symbol (s : list ascii) : Prop :=
  match s with [] => True | c :: _ => issymbol c = false end.

(** After [lexer_next] has found a name or a magic, [lstring] holds its
    characters. *)
Definition lstring_ok (ts : list tok) (l : Lexer) : Prop :=
  match first_tok ts with
  | Some (TName nm) | Some (TMag nm) => lstring l = nm
  | _ => True
  end.

(** Where an expression ends: at the end of the input or before a
    closing parenthesis; and where a side of an application ends. *)
Definition stop (ts : list tok) : bool :=
  match ts with [] | TClose :: _ => true | _ => false end.
Definition stopper (ts : list tok) : bool :=
  match ts with [] | TClose :: _ | TSpace :: _ => true | _ => false end.
Definition starter (tk : tok) : bool :=
  match tk with TLam | TOpen | TName _ | TMag _ => true | _ => false end.

(** An expression as the argument of an application. *)
Definition arg_toks (t : term) : list tok :=
  parens (negb (is_atom t)) (toks false t).
Definition head_toks (t : term) : list tok :=
  parens (is_fun t) (toks false t).

(** [parsed cs t ts w r]: the result [r] of a parsing function run in
    [w] is an index that stands for [t], with [ts] left to read. *)
Definition parsed (cs : list ascii) (t : term) (ts : list tok) (w : World)
    (r : Res (option Expr_Index * Lexer)) : Prop :=
  exists i l' w',
    r = Ok (Some i, l') w' /\ Repr w' i t /\ at_ cs l' (render ts) /\
    extends w w' /\ dead_ok w'.

(** Fuel that is enough for [parse_primary] and for the first part of
    [parse_expr]. *)
Definition pneed (t : term) : nat :=
  if is_atom t then 1 else 3 * size t + 1.
Definition hneed (t : term) : nat :=
  if is_fun t then 3 * size t + 1 else 3 * size t - 1.

(** What the four parsing functions do on the tokens of [t], each with
    the fuel that is enough for it. *)
Definition blank (sp : bool) : list tok := if sp then [TSpace] else [].

Definition parse_expr_reads (cs : list ascii) (t : term) : Prop :=
  forall n l w ts,
    3 * size t <= n -> wf (toks false t ++ ts) = true -> stop ts = true ->
    at_ cs l (render (toks false t ++ ts)) -> dead_ok w ->
    parsed cs t ts w (parse_expr n l w).

Definition parse_fun_reads (cs : list ascii) (t : term) : Prop :=
  forall n l w ts,
    is_fun t = true ->
    3 * size t <= n + 2 -> wf (toks true t ++ ts) = true -> stop ts = true ->
    at_ cs l (render (toks true t ++ ts)) -> dead_ok w ->
    parsed cs t ts w (parse_fun n l w).

Definition parse_primary_reads (cs : list ascii) (t : term) : Prop :=
  forall sp n l w ts,
    pneed t <= n -> wf (blank sp ++ arg_toks t ++ ts) = true ->
    at_ cs l (render (blank sp ++ arg_toks t ++ ts)) -> dead_ok w ->
    parsed cs t ts w (parse_primary n l w).

Definition parse_head_reads (cs : list ascii) (t : term) : Prop :=
  forall n l w ts,
    hneed t <= n -> wf (head_toks t ++ ts) = true ->
    at_ cs l (render (head_toks t ++ ts)) -> dead_ok w ->
    exists i l1 w1,
      parse_expr (S n) l w = peek_loop (n - nargs t) l1 i w1 /\
      Repr w1 i t /\ at_ cs l1 (render ts) /\ extends w w1 /\ dead_ok w1.

(** ** Normal forms *)

(** An expression that [eval1] has nothing to do on: no application
    in it has a function or a magic at its head. *)
Fixpoint normal (t : term) : bool :=
  match t with
  | Var _ | Mag _ => true
  | Fun _ b => normal b
  | App l r => plain_head l && normal l && normal r
  end.

(** [gens_ok] is not lost. *)
Definition keeps_gens_ok (w w' : World) : Prop := gens_ok w -> gens_ok w'.


(** No organism is older than [MAX_AGE]. *)
Definition ages_ok (g : Grid) : Prop :=
  forall i c, cell_of g i = Some c -> occupied c = true ->
    (0 <= age c <= MAX_AGE)%Z.

(** [renamed g g']: the grid [g'] is [g] with other indices for the
    atoms of its cells, and nothing else changed. *)
Definition renamed (g g' : Grid) : Prop :=
  exists cs', g' = set_cells cs' g /\
    match cells g, cs' with
    | Some cs, Some cs2 => map (set_atom 0) cs2 = map (set_atom 0) cs
    | None, None => True
    | _, _ => False
    end.

(** ** Compaction as a renaming *)

(** The index that [gc_compact] gives to the live slot [i]: the number
    of live slots before it. *)
Definition rank (w : World) (i : Expr_Index) : Expr_Index :=
  length (filter (fun e => live e = true) (take i (slots (GC w)))).

(** The indices held by live slots are indices of live slots. *)
Definition closed_arena (w : World) : Prop :=
  forall i e c, slots (GC w) !! i = Some e -> live e = true ->
    c ∈ children (as_ e) -> is_live w c.

(** [gc_compact] does not return early: there is a slot, and at least
    half of the slots are on the free list. *)
Definition compacts (w : World) : Prop :=
  length (slots (GC w)) <> 0 /\
  length (slots (GC w)) / 2 <= length (dead (GC w)).

(** A node with its indices renamed by [f]. *)
Definition rename_as (f : Expr_Index -> Expr_Index) (a : Expr_As) : Expr_As :=
  match a with
  | EXPR_FUN p b => EXPR_FUN p (f b)
  | EXPR_APP l r => EXPR_APP (f l) (f r)
  | _ => a
  end.

(** [closed_arena], computed. *)
Definition is_liveb (w : World) (i : Expr_Index) : bool :=
  match slots (GC w) !! i with Some e => live e | None => false end.
Definition closed_arenab (w : World) : bool :=
  forallb (fun e => negb (live e) || forallb (is_liveb w) (children (as_ e)))
    (slots (GC w)).

(** Four slots, [a], [b], [c] and [\c.c], after a collection from the
    root [\c.c]: the first two are on the free list. *)
Definition world_half_dead : World :=
  Eval vm_compute in
  world_after
    (var (symbol "a") ;;; var (symbol "b") ;;;
     c <- var (symbol "c") ;; f <- fun_ (symbol "c") c ;; gc 10 f [])
    empty_world.

Definition world_compacted : World :=
  Eval vm_compute in world_after (gc_compact None) world_half_dead.

(** * Bindings and labels *)

(** [create_binding]: the table after the call.  The first entry with
    the name gets the new body; without one, an entry is appended. *)
Fixpoint create_binding (bindings : Bindings) (nm : Symbol) (body : Expr_Index)
    : Bindings :=
  match bindings with
  | [] => [mkBinding nm body]
  | b :: rest =>
      if symbol_eq (name b) nm then mkBinding (name b) body :: rest
      else b :: create_binding rest nm body
  end.

(** The loop of the REPL that substitutes the bindings into the
    expression read, from the last binding to the first:
    [for (i = bindings.count; i > 0; --i) expr = replace(items[i-1].name,
    expr, items[i-1].body)]. *)
Fixpoint substitute_loop (fuel : nat) (o : Arg_Order) (l : list Binding)
    (expr : Expr_Index) : M Expr_Index :=
  match l with
  | [] => ret expr
  | b :: l' =>
      e <- replace fuel o (name b) expr (body_of b) ;;
      substitute_loop fuel o l' e
  end.

Definition substitute_bindings (fuel : nat) (o : Arg_Order) (bindings : Bindings)
    (expr : Expr_Index) : M Expr_Index :=
  substitute_loop fuel o (rev bindings) expr.

(** [intern_label].  [labels] holds the strings interned so far; the
    pointer [labels.items[i]] is the index [i].  The result is the
    pointer returned and the table after the call. *)
Fixpoint intern_find (labels : list string) (label : string) (i : nat) : option nat :=
  match labels with
  | [] => None
  | s :: rest => if String.eqb s label then Some i else intern_find rest label (S i)
  end.

Definition intern_label (labels : list string) (label : string)
    : nat * list string :=
  match intern_find labels label 0 with
  | Some i => (i, labels)
  | None => (length labels, labels ++ [label])
  end.

(** The binding that a name stands for: the first with that name. *)
Definition binding_of (bindings : Bindings) (nm : Symbol) : option Binding :=
  List.find (fun b => symbol_eq (name b) nm) bindings.

(** [world_capture] after the binding [y = \x.\y.x] is substituted into
    the expression at index 4. *)
Definition world_bound : World :=
  Eval vm_compute in
  world_after (substitute_bindings 10 Left_To_Right [mkBinding (symbol "y") 2] 4)
    world_capture.

(** [advances l l']: the lexer has moved forward in the same input,
    and not beyond its end. *)
Definition advances (l l' : Lexer) : Prop :=
  content l' = content l /\ count l' = count l /\
  pos (cur l) <= pos (cur l') /\
  (pos (cur l) <= count l -> pos (cur l') <= count l).

(** [expr_display_no_tags]: [expr_display] with the label of a symbol
    in place of its label and tag. *)
Fixpoint expr_display_no_tags (fuel : nat) (chain : bool) (expr : Expr_Index)
    : M string :=
  match fuel with
  | O => out_of_fuel
  | S n =>
      e <- expr_slot expr ;;
      match as_ e with
      | EXPR_VAR v => ret (label v)
      | EXPR_FUN p b =>
          s <- expr_display_no_tags n true b ;;
          ret ((if chain then "" else "\") ++ label p ++ "." ++ s)%string
      | EXPR_APP lhs rhs =>
          el <- expr_slot lhs ;;
          let lhs_paren := match as_ el with EXPR_FUN _ _ => true | _ => false end in
          sl <- expr_display_no_tags n false lhs ;;
          er <- expr_slot rhs ;;
          let rhs_paren :=
            match as_ er with EXPR_VAR _ | EXPR_MAG _ => false | _ => true end in
          sr <- expr_display_no_tags n false rhs ;;
          ret ((if lhs_paren then "(" ++ sl ++ ")" else sl) ++ " " ++
               (if rhs_paren then "(" ++ sr ++ ")" else sr))%string
      | EXPR_MAG m => ret ("#" ++ m)%string
      end
  end.

(** The expression with the tags of its symbols erased. *)
Definition untag_symbol (s : Symbol) : Symbol := mkSymbol (label s) 0.

Fixpoint untag (t : term) : term :=
  match t with
  | Var v => Var (untag_symbol v)
  | Mag m => Mag m
  | Fun p b => Fun (untag_symbol p) (untag b)
  | App l r => App (untag l) (untag r)
  end.

(** [is_church_true] and [is_church_false]. *)
Definition is_church_true (expr : Expr_Index) : M bool :=
  e <- expr_slot expr ;;
  match as_ e with
  | EXPR_FUN x inner =>
      ei <- expr_slot inner ;;
      match as_ ei with
      | EXPR_FUN _ body =>
          eb <- expr_slot body ;;
          match as_ eb with
          | EXPR_VAR v => ret (symbol_eq v x)
          | _ => ret false
          end
      | _ => ret false
      end
  | _ => ret false
  end.

Definition is_church_false (expr : Expr_Index) : M bool :=
  e <- expr_slot expr ;;
  match as_ e with
  | EXPR_FUN _ inner =>
      ei <- expr_slot inner ;;
      match as_ ei with
      | EXPR_FUN y body =>
          eb <- expr_slot body ;;
          match as_ eb with
          | EXPR_VAR v => ret (symbol_eq v y)
          | _ => ret false
          end
      | _ => ret false
      end
  | _ => ret false
  end.

(** [command]: the command is appended to the table, then the input is
    compared with the name up to the end of either. *)
Record Command := mkCommand {
  cmd_name : string;
  cmd_signature : string;
  cmd_description : string
}.

Fixpoint command_loop (input nm : string) : bool :=
  match input, nm with
  | String c input', String d nm' =>
      if Ascii.eqb c d then command_loop input' nm' else false
  | EmptyString, _ => true
  | String _ _, EmptyString => false
  end.

Definition command (commands : list Command) (input nm signature description : string)
    : bool * list Command :=
  (command_loop input nm, commands ++ [mkCommand nm signature description]).

(** The labels of an expression are names that the parser reads. *)
Fixpoint labels_ok (t : term) : bool :=
  match t with
  | Var v => tok_ok (TName (name_of v))
  | Mag m => word_ok (list_ascii_of_string m)
  | Fun p b => tok_ok (TName (name_of p)) && labels_ok b
  | App l r => labels_ok l && labels_ok r
  end.

(** What a recogniser sees of an expression: the kinds and payloads of
    its top three levels. *)
Definition shape_identity (t : term) : bool :=
  match t with
  | Fun p (Var v) => symbol_eq p v
  | _ => false
  end.
Definition shape_true (t : term) : bool :=
  match t with
  | Fun x (Fun _ (Var v)) => symbol_eq v x
  | _ => false
  end.
Definition shape_false (t : term) : bool :=
  match t with
  | Fun _ (Fun y (Var v)) => symbol_eq v y
  | _ => false
  end.

(** [grid_init].  The product [w * h] is computed in [int] and then
    converted to [size_t].  The memory that [calloc] returns is zeroed.
    [calloc] is taken to succeed when the [int] product is not
    negative, zero included; a negative product is converted to a size
    that cannot be allocated, and the assertion fails.  The counters
    [population], [attacks] and [evasions] are not reset. *)
Definition zero_cell : Cell := mkCell 0 false 0 0 0 0 false.

Definition grid_init (w h : Z) : M unit :=
  let total := wrap_int (w * h) in
  if (total <? 0)%Z then abort
  else
    update_grid (fun g =>
      mkGrid w h (Some (replicate (Z.to_nat total) zero_cell)) 0 (population g)
        0 0 0 0 0 (attacks g) (evasions g)).

(** [a % b] on [int]: the remainder of a division by zero is not
    defined. *)
Definition int_rem (a b : Z) : M Z :=
  if (b =? 0)%Z then abort else ret (Z.rem a b).

(** The [do ... while] of [grid_seed]: an expression is generated, and
    generated again as long as it is the identity and fewer than
    [S n] have been. *)
Fixpoint generate_retry (fuel : nat) (o : Arg_Order) (depth : Z) (n : nat)
    : M Expr_Index :=
  e <- generate_rich_combinator fuel o 0 depth [] 0 ;;
  b <- is_identity e ;;
  match n with
  | S n' => if b then generate_retry fuel o depth n' else ret e
  | O => ret e
  end.

(** The loop of [grid_seed], with [attempts_left] for
    [max_attempts - attempts]. *)
Fixpoint grid_seed_loop (fuel : nat) (o : Arg_Order) (count depth : Z)
    (attempts_left : nat) (placed : Z) : M unit :=
  match attempts_left with
  | O => ret tt
  | S n =>
      if (placed <? count)%Z then
        g <- get_grid ;;
        rx <- rand ;;
        x <- int_rem rx (width g) ;;
        ry <- rand ;;
        y <- int_rem ry (height g) ;;
        let idx := grid_idx g x y in
        c <- read_cell idx ;;
        if negb (occupied c) then
          e <- generate_retry fuel o depth 4 ;;
          modify_cell idx (set_atom e) ;;;
          modify_cell idx (set_occupied true) ;;;
          modify_cell idx (set_age 0) ;;;
          modify_cell idx (set_generation 0) ;;;
          modify_cell idx (set_cache_valid false) ;;;
          grid_seed_loop fuel o count depth n (placed + 1)
        else grid_seed_loop fuel o count depth n placed
      else ret tt
  end.

Definition grid_seed (fuel : nat) (o : Arg_Order) (count depth : Z) : M unit :=
  grid_seed_loop fuel o count depth (Z.to_nat (count * 10)) 0.

(** [seeds k w w']: from [w] to [w'], [k] empty cells have received a
    new organism, a closed expression of age and generation zero;
    nothing else of the grid, and no live slot, has changed. *)
Definition seeds (k : Z) (w w' : World) : Prop :=
  let g := active_grid w in
  let g' := active_grid w' in
  extends w w' /\
  width g' = width g /\ height g' = height g /\
  (wf_grid g -> wf_grid g') /\
  (forall i c, cell_of g i = Some c ->
     cell_of g' i = Some c \/
     occupied c = false /\
     exists e t, cell_of g' i = Some (spawned e c) /\
       Repr w' e t /\ closed t) /\
  population_of g' = (population_of g + k)%Z /\
  g' = set_cells (cells g') g.

(** What is left of the input. *)
Definition rest (l : Lexer) : nat := count l - pos (cur l).

(** [returns strict l w r]: a parsing function started at [l] in [w]
    has returned [r]: it has only moved forward in the input and
    allocated; an expression it returns is a tree, and, when [strict],
    it has read at least one character for it. *)
Definition returns (strict : bool) (l : Lexer) (w : World)
    (r : Res (option Expr_Index * Lexer)) : Prop :=
  exists x l' w',
    r = Ok (x, l') w' /\ advances l l' /\ extends w w' /\ dead_ok w' /\
    forall i, x = Some i ->
      (if strict then rest l' < rest l else rest l' <= rest l) /\
      exists t, Repr w' i t.

(** [create_bindings_from_file].  [content] is what [read_entire_file]
    has read, and [None] when it fails.  The result is the value
    returned together with the table of bindings, which is updated in
    place as the definitions are read. *)
Fixpoint bindings_loop (fuel : nat) (l : Lexer) (bindings : Bindings)
    : M (bool * Bindings) :=
  match fuel with
  | O => out_of_fuel
  | S n =>
      if Token_Kind_eqb (token l) TOKEN_END then ret (true, bindings)
      else
        let '(ok1, l1) := lexer_expect l TOKEN_NAME in
        if negb ok1 then ret (false, bindings)
        else
          let nm := symbol (string_of_list_ascii (lstring l1)) in
          let '(ok2, l2) := lexer_expect l1 TOKEN_EQUALS in
          if negb ok2 then ret (false, bindings)
          else
            r <- parse_expr n l2 ;;
            match r with
            | (None, _) => ret (false, bindings)
            | (Some body, l3) =>
                let '(ok3, l4) := lexer_expect l3 TOKEN_SEMICOLON in
                if negb ok3 then ret (false, bindings)
                else
                  let bindings' := create_binding bindings nm body in
                  let '(ok4, l5) := lexer_peek l4 in
                  if negb ok4 then ret (false, bindings')
                  else bindings_loop n l5 bindings'
            end
  end.

Definition create_bindings_from_file (fuel : nat) (content : option (list ascii))
    (bindings : Bindings) : M (bool * Bindings) :=
  match content with
  | None => ret (false, bindings)
  | Some cs =>
      let '(ok, l) := lexer_peek (lexer_init cs (length cs)) in
      if negb ok then ret (false, bindings)
      else bindings_loop fuel l bindings
  end.

(** [loaded w bindings w' bindings']: the table has only been added
    to and updated, with bodies that are expression trees, and the
    arena only allocated in. *)
Definition loaded (w : World) (bindings : Bindings) (w' : World)
    (bindings' : Bindings) : Prop :=
  extends w w' /\ dead_ok w' /\
  (forall nm, nm ∈ map name bindings -> nm ∈ map name bindings') /\
  (NoDup (map name bindings) -> NoDup (map name bindings')) /\
  (forall b, b ∈ bindings' -> exists t, Repr w' (body_of b) t).



(** * Properties *)

(** ** The monad *)

Ltac invc H := inversion H; subst; clear H.

Lemma bind_Ok {A B} (m : M A) (k : A -> M B) w b w' :
  bind m k w = Ok b w' ->
  exists a w1, m w = Ok a w1 /\ k a w1 = Ok b w'.
Proof.
  unfold bind. destruct (m w) as [a w1| |]; try discriminate. eauto.
Qed.

Lemma bind_Ok_intro {A B} (m : M A) (k : A -> M B) w a w1 :
  m w = Ok a w1 -> bind m k w = k a w1.
Proof. unfold bind. intros ->. reflexivity. Qed.

Lemma ret_Ok {A} (a b : A) w w' : ret a w = Ok b w' -> a = b /\ w = w'.
Proof. unfold ret. intros H. invc H. auto. Qed.

(** Decompose a hypothesis [m w = Ok a w'] along the binds of [m]. *)
Ltac mdestruct H :=
  let a := fresh "a" in
  let w := fresh "w" in
  let H1 := fresh "H1" in
  apply bind_Ok in H as (a & w & H1 & H).

Ltac mret H :=
  apply ret_Ok in H as [? ?]; subst.


Section Stable.
Context (R : World -> World -> Prop) {HR : PreOrder R}.

Lemma stable_ret {A} (a : A) : stable R (ret a).
Proof. intros w b w' H. mret H. reflexivity. Qed.

Lemma stable_abort {A} : stable R (@abort A).
Proof. intros w b w' H. discriminate. Qed.

Lemma stable_out_of_fuel {A} : stable R (@out_of_fuel A).
Proof. intros w b w' H. discriminate. Qed.

Lemma stable_get_world : stable R get_world.
Proof. intros w b w' H. invc H. reflexivity. Qed.

Lemma stable_bind {A B} (m : M A) (k : A -> M B) :
  stable R m -> (forall a, stable R (k a)) -> stable R (bind m k).
Proof.
  intros Hm Hk w b w' H. mdestruct H.
  etransitivity; [eapply Hm | eapply Hk]; eauto.
Qed.

Lemma stable_args2 {A B} o (m1 : M A) (m2 : M B) :
  stable R m1 -> stable R m2 -> stable R (args2 o m1 m2).
Proof.
  intros H1 H2. destruct o; simpl;
    repeat (apply stable_bind; [assumption || idtac | intros ?]);
    try assumption; apply stable_ret.
Qed.

Lemma stable_for_each {A} (l : list A) (body : A -> M unit) :
  (forall x, stable R (body x)) -> stable R (for_each l body).
Proof.
  intros Hb. induction l as [|x l IH]; simpl.
  - apply stable_ret.
  - apply stable_bind; auto.
Qed.

Lemma stable_map_M {A B} (f : A -> M B) (l : list A) :
  (forall x, stable R (f x)) -> stable R (map_M f l).
Proof.
  intros Hf. induction l as [|x l IH]; simpl.
  - apply stable_ret.
  - apply stable_bind; auto. intros y.
    apply stable_bind; auto. intros ys. apply stable_ret.
Qed.

Lemma stable_modify (f : World -> World) :
  (forall w, R w (f w)) -> stable R (modify f).
Proof. intros Hf w b w' H. invc H. apply Hf. Qed.
End Stable.


#[export] Instance keeps_PreOrder {X} (f : World -> X) : PreOrder (keeps f).
Proof.
  split.
  - intros w. reflexivity.
  - intros w1 w2 w3 H1 H2. unfold keeps in *. congruence.
Qed.

#[export] Instance extends_PreOrder : PreOrder extends.
Proof.
  split.
  - intros w i a H. exact H.
  - intros w1 w2 w3 H1 H2 i a H. auto.
Qed.

Create HintDb stable discriminated.

(** One step of a proof of [stable R m], along the shape of [m]. *)
Ltac stable_step :=
  match goal with
  | |- stable _ (bind _ _) => apply stable_bind; [typeclasses eauto | | intros ?]
  | |- stable _ (ret _) => apply stable_ret; typeclasses eauto
  | |- stable _ abort => apply stable_abort
  | |- stable _ out_of_fuel => apply stable_out_of_fuel
  | |- stable _ get_world => apply stable_get_world; typeclasses eauto
  | |- stable _ (args2 _ _ _) => apply stable_args2; [typeclasses eauto | | ]
  | |- stable _ (for_each _ _) => apply stable_for_each; [typeclasses eauto | intros ?]
  | |- stable _ (map_M _ _) => apply stable_map_M; [typeclasses eauto | intros ?]
  | |- stable _ (if ?b then _ else _) => destruct b
  | |- stable _ (match ?x with _ => _ end) => destruct x
  | |- stable _ (let '(_, _) := ?x in _) => destruct x
  end.

Ltac stable_tac := repeat (stable_step; simpl); eauto with stable.

(** ** The arena *)

Lemma expr_slot_Ok i w e w' :
  expr_slot i w = Ok e w' ->
  w' = w /\ slots (GC w) !! i = Some e /\ live e = true.
Proof.
  unfold expr_slot. destruct (slots (GC w) !! i) as [e0|]; try discriminate.
  destruct (live e0) eqn:Hl; try discriminate. intros H. invc H. auto.
Qed.

Lemma expr_slot_look i w e w' :
  expr_slot i w = Ok e w' -> w' = w /\ look w i = Some (as_ e).
Proof.
  intros H. apply expr_slot_Ok in H as (-> & Hs & Hl).
  split; [reflexivity|]. unfold look. rewrite Hs, Hl. reflexivity.
Qed.

Lemma look_expr_slot w i a :
  look w i = Some a -> exists e, expr_slot i w = Ok e w /\ as_ e = a.
Proof.
  unfold look, expr_slot. destruct (slots (GC w) !! i) as [e|]; try discriminate.
  destruct (live e); try discriminate. intros H. invc H. eauto.
Qed.

Lemma look_Some_slot w i a :
  look w i = Some a ->
  exists e, slots (GC w) !! i = Some e /\ live e = true /\ as_ e = a.
Proof.
  unfold look. destruct (slots (GC w) !! i) as [e|]; try discriminate.
  destruct (live e) eqn:Hl; try discriminate. intros H. invc H. eauto.
Qed.

Lemma stable_expr_slot R `{!PreOrder R} i : stable R (expr_slot i).
Proof. intros w e w' H. apply expr_slot_Ok in H as (-> & _). reflexivity. Qed.


Lemma fresh_node_extends w i a w' : fresh_node w i a w' -> extends w w'.
Proof.
  intros (Hn & _ & Hs & _) j b Hj.
  assert (j <> i) by (intros ->; congruence).
  unfold look in *. rewrite Hs; auto.
Qed.


Lemma var_new_node s : var s = new_node (EXPR_VAR s).
Proof. reflexivity. Qed.
Lemma magic_new_node m : magic m = new_node (EXPR_MAG m).
Proof. reflexivity. Qed.
Lemma fun_new_node p b : fun_ p b = new_node (EXPR_FUN p b).
Proof. reflexivity. Qed.
Lemma app_new_node l r : app l r = new_node (EXPR_APP l r).
Proof. reflexivity. Qed.

Lemma set_gens_slots b l g : slots (set_gens b l g) = slots g.
Proof. destruct b; reflexivity. Qed.
Lemma set_gens_dead b l g : dead (set_gens b l g) = dead g.
Proof. destruct b; reflexivity. Qed.
Lemma set_gens_gen_cur b l g : gen_cur (set_gens b l g) = gen_cur g.
Proof. destruct b; reflexivity. Qed.
Lemma gens_set_gens_eq b l g : gens (set_gens b l g) b = l.
Proof. destruct b; reflexivity. Qed.
Lemma gens_set_gens_ne b b' l g : b <> b' -> gens (set_gens b l g) b' = gens g b'.
Proof. destruct b, b'; intros H; try reflexivity; congruence. Qed.

(** What [alloc_expr] does to the arena. *)
Lemma alloc_expr_Ok w i w' :
  alloc_expr w = Ok i w' ->
  exists e,
    look w i = None /\
    (slots (GC w) !! i = Some e \/
     (slots (GC w) !! i = None /\ e = zero_expr /\ i = length (slots (GC w)))) /\
    live e = false /\
    slots (GC w') !! i = Some (set_live true e) /\
    (forall j, j <> i -> slots (GC w') !! j = slots (GC w) !! j) /\
    dead (GC w') = tail (dead (GC w)) /\
    (dead (GC w) = [] \/ exists rest, dead (GC w) = i :: rest) /\
    gen_cur (GC w') = gen_cur (GC w) /\
    gens (GC w') (gen_cur (GC w)) = gens (GC w) (gen_cur (GC w)) ++ [i] /\
    gens (GC w') (negb (gen_cur (GC w))) = gens (GC w) (negb (gen_cur (GC w))) /\
    w' = set_GC (GC w') w.
Proof.
  unfold alloc_expr. destruct (dead (GC w)) as [|d rest] eqn:Hd.
  - simpl. rewrite lookup_app_r by lia. rewrite Nat.sub_diag. simpl.
    intros H. invc H. exists zero_expr. simpl.
    rewrite !set_gens_slots, set_gens_dead, set_gens_gen_cur. simpl.
    assert (Hnone : slots (GC w) !! length (slots (GC w)) = None)
      by (apply lookup_ge_None; lia).
    repeat split; auto.
    + unfold look. rewrite Hnone. reflexivity.
    + rewrite list_lookup_insert_eq by (rewrite length_app; simpl; lia). reflexivity.
    + intros j Hj. rewrite list_lookup_insert_ne by auto.
      destruct (decide (j < length (slots (GC w)))).
      * rewrite lookup_app_l by lia. reflexivity.
      * rewrite !lookup_ge_None_2; auto; rewrite ?length_app; simpl; lia.
    + rewrite gens_set_gens_eq. reflexivity.
    + rewrite gens_set_gens_ne by (destruct (gen_cur (GC w)); discriminate).
      destruct (gen_cur (GC w)); reflexivity.
  - simpl. destruct (slots (GC w) !! d) as [e|] eqn:He; try discriminate.
    destruct (live e) eqn:Hl; try discriminate.
    intros H. invc H. exists e. simpl.
    rewrite !set_gens_slots, set_gens_dead, set_gens_gen_cur. simpl.
    repeat split; eauto.
    + unfold look. rewrite He, Hl. reflexivity.
    + rewrite list_lookup_insert_eq by (eapply lookup_lt_Some; eauto). reflexivity.
    + intros j Hj. rewrite list_lookup_insert_ne by auto. reflexivity.
    + rewrite gens_set_gens_eq. reflexivity.
    + rewrite gens_set_gens_ne by (destruct (gen_cur (GC w)); discriminate).
      destruct (gen_cur (GC w)); reflexivity.
Qed.

Lemma update_slot_Ok i f w u w' :
  update_slot i f w = Ok u w' ->
  exists e, slots (GC w) !! i = Some e /\ live e = true /\
    w' = set_GC (set_slots (<[i := f e]> (slots (GC w))) (GC w)) w.
Proof.
  unfold update_slot. intros H. mdestruct H.
  apply expr_slot_Ok in H1 as (-> & Hs & Hl).
  invc H. eauto.
Qed.

Lemma new_node_Ok a w i w' :
  new_node a w = Ok i w' -> fresh_node w i a w'.
Proof.
  unfold new_node. intros H. mdestruct H. mdestruct H. mret H.
  apply alloc_expr_Ok in H1
    as (e & Hlook & _ & Hl & Hs & Hoth & _ & _ & _ & _ & _ & Hw).
  apply update_slot_Ok in H0 as (e' & Hs' & _ & ->).
  rewrite Hs in Hs'. invc Hs'.
  assert (Hlen : i < length (slots (GC w0))) by (eapply lookup_lt_Some; eauto).
  unfold fresh_node. rewrite Hw. simpl.
  repeat split; auto.
  - unfold look. simpl. rewrite list_lookup_insert_eq by auto. reflexivity.
  - intros j Hj. rewrite list_lookup_insert_ne by auto. auto.
Qed.

(** Under [dead_ok] an allocation succeeds, and [dead_ok] holds
    afterwards. *)
Lemma new_node_total a w :
  dead_ok w -> exists i w', new_node a w = Ok i w' /\ dead_ok w'.
Proof.
  intros [Hnd Hdead]. unfold new_node, bind, alloc_expr.
  destruct (dead (GC w)) as [|d rest] eqn:Hd; simpl.
  - rewrite lookup_app_r by lia. rewrite Nat.sub_diag. simpl.
    unfold update_slot, bind, expr_slot. simpl.
    rewrite !set_gens_slots. simpl.
    rewrite list_lookup_insert_eq by (rewrite length_app; simpl; lia). simpl.
    eexists _, _. split; [reflexivity|].
    unfold dead_ok. simpl. rewrite set_gens_dead. simpl. rewrite Hd.
    split; [constructor | intros i Hi; invc Hi].
  - destruct (Hdead d) as (e & He & Hl); [apply list_elem_of_here|].
    rewrite He, Hl.
    assert (Hlen : d < length (slots (GC w))) by (eapply lookup_lt_Some; eauto).
    unfold update_slot, bind, expr_slot. simpl.
    rewrite !set_gens_slots. simpl.
    rewrite list_lookup_insert_eq by auto. simpl.
    eexists _, _. split; [reflexivity|].
    unfold dead_ok. simpl. rewrite set_gens_dead, set_gens_slots. simpl.
    apply NoDup_cons in Hnd as [Hnotin Hnd]. split; [assumption|].
    intros i Hi. destruct (Hdead i) as (e' & He' & Hl'); [apply list_elem_of_further; assumption|].
    exists e'. split; [|assumption].
    assert (i <> d) by (intros ->; contradiction).
    rewrite !list_lookup_insert_ne by auto. assumption.
Qed.

Lemma stable_new_node_extends a : stable extends (new_node a).
Proof. intros w i w' H. eapply fresh_node_extends, new_node_Ok, H. Qed.

Lemma stable_new_node_keeps_counter a : stable (keeps global_counter) (new_node a).
Proof. intros w i w' H. apply new_node_Ok in H. unfold keeps. apply H. Qed.
Lemma stable_new_node_keeps_stdout a : stable (keeps stdout) (new_node a).
Proof. intros w i w' H. apply new_node_Ok in H. unfold keeps. apply H. Qed.
Lemma stable_new_node_keeps_rand_pos a : stable (keeps rand_pos) (new_node a).
Proof. intros w i w' H. apply new_node_Ok in H. unfold keeps. apply H. Qed.
Lemma stable_new_node_keeps_rand_seq a : stable (keeps rand_seq) (new_node a).
Proof. intros w i w' H. apply new_node_Ok in H. unfold keeps. apply H. Qed.
Lemma stable_new_node_keeps_grid a : stable (keeps active_grid) (new_node a).
Proof. intros w i w' H. apply new_node_Ok in H. unfold keeps. apply H. Qed.

#[export] Hint Resolve stable_new_node_extends stable_new_node_keeps_counter
  stable_new_node_keeps_stdout stable_new_node_keeps_rand_pos
  stable_new_node_keeps_rand_seq stable_new_node_keeps_grid : stable.
#[export] Hint Extern 1 (stable _ (expr_slot _)) =>
  apply stable_expr_slot; typeclasses eauto : stable.
#[export] Hint Extern 1 (stable _ (var _)) => rewrite var_new_node : stable.
#[export] Hint Extern 1 (stable _ (magic _)) => rewrite magic_new_node : stable.
#[export] Hint Extern 1 (stable _ (fun_ _ _)) => rewrite fun_new_node : stable.
#[export] Hint Extern 1 (stable _ (app _ _)) => rewrite app_new_node : stable.

(** ** Trees in the arena *)

Lemma Repr_extends w w' i t : extends w w' -> Repr w i t -> Repr w' i t.
Proof.
  intros He H. induction H.
  - apply Repr_Var; auto.
  - apply Repr_Mag; auto.
  - eapply Repr_Fun; eauto.
  - eapply Repr_App; eauto.
Qed.

Lemma Repr_functional w i t1 t2 : Repr w i t1 -> Repr w i t2 -> t1 = t2.
Proof.
  intros H1. revert t2. induction H1; intros t2 H2; invc H2; try congruence.
  - assert (Heq : EXPR_FUN p b = EXPR_FUN p0 b0) by congruence.
    invc Heq. f_equal. auto.
  - assert (Heq : EXPR_APP l r = EXPR_APP l0 r0) by congruence.
    invc Heq. f_equal; auto.
Qed.

Lemma Repr_live w i t : Repr w i t -> exists a, look w i = Some a.
Proof. intros H. invc H; eauto. Qed.

(** A tree is not one of its own children: the arena below a
    represented index has no cycle through it. *)
Lemma Repr_not_child w i t j t' :
  Repr w i t -> Repr w j t' -> size t' < size t -> j <> i.
Proof.
  intros Hi Hj Hlt ->. pose proof (Repr_functional _ _ _ _ Hi Hj). subst. lia.
Qed.

Lemma size_pos t : 0 < size t.
Proof. destruct t; simpl; lia. Qed.

(** ** Reading the arena: free variables, display, mass *)

Lemma look_bind_expr_slot w i a :
  look w i = Some a ->
  exists e, as_ e = a /\ live e = true /\
    forall B (k : Expr -> M B), bind (expr_slot i) k w = k e w.
Proof.
  intros H. apply look_Some_slot in H as (e & Hs & Hl & Ha).
  exists e. repeat split; auto. intros B k.
  unfold bind, expr_slot. rewrite Hs, Hl. reflexivity.
Qed.

(** Run [expr_slot i] in the goal, given [H : look w i = Some a]. *)
Ltac run_slot H :=
  let e := fresh "e" in
  let Ha := fresh "Ha" in
  let Hl := fresh "Hl" in
  let Hk := fresh "Hk" in
  destruct (look_bind_expr_slot _ _ _ H) as (e & Ha & Hl & Hk);
  rewrite Hk; clear Hk; cbn beta iota; rewrite ?Ha, ?Hl; cbn beta iota;
  cbn [negb].

Lemma is_var_free_there_Repr w v i t :
  Repr w i t ->
  forall fuel, size t <= fuel ->
    is_var_free_there fuel v i w = Ok (free_in v t) w.
Proof.
  induction 1 as [i s Hi|i m Hi|i p b tb Hi Hb IH|i l r tl tr Hi Hl IHl Hr IHr];
    intros [|n] Hn; simpl in Hn; try lia; simpl.
  - run_slot Hi. reflexivity.
  - run_slot Hi. reflexivity.
  - run_slot Hi. destruct (symbol_eq p v); [reflexivity|]. apply IH. lia.
  - run_slot Hi. rewrite (bind_Ok_intro _ _ _ _ _ (IHl n ltac:(lia))).
    destruct (free_in v tl); simpl; [reflexivity|].
    rewrite (bind_Ok_intro _ _ _ _ _ (IHr n ltac:(lia))).
    destruct (free_in v tr); reflexivity.
Qed.

Tactic Notation "mbind" hyp(H) "as" simple_intropattern(a)
    simple_intropattern(w) simple_intropattern(H1) :=
  apply bind_Ok in H as (a & w & H1 & H).

Ltac look_inj :=
  repeat match goal with
  | H1 : look ?w ?i = Some _, H2 : look ?w ?i = Some _ |- _ =>
      rewrite H1 in H2; invc H2
  end.

Lemma Repr_inv w i t :
  Repr w i t ->
  match t with
  | Var s => look w i = Some (EXPR_VAR s)
  | Mag m => look w i = Some (EXPR_MAG m)
  | Fun p tb => exists b, look w i = Some (EXPR_FUN p b) /\ Repr w b tb
  | App tl tr =>
      exists l r, look w i = Some (EXPR_APP l r) /\ Repr w l tl /\ Repr w r tr
  end.
Proof. intros H. invc H; eauto. Qed.

(** Case analysis on the tree [t] that a slot just read stands for:
    [Hr : Repr w i t], [Hlook : look w i = Some (as_ a)], and [H] the
    hypothesis in which [as_ a] is scrutinised. *)
Ltac repr_cases t Hr Hlook H :=
  destruct t as [ts|tm|tp tb|tl tr]; apply Repr_inv in Hr;
  [ | | destruct Hr as (ib & Hr & Hrb) | destruct Hr as (il & ir & Hr & Hrl & Hrr)];
  rewrite Hr in Hlook; injection Hlook as Hlook; rewrite <- Hlook in H;
  simpl in H.

Lemma is_var_free_there_Ok w v fuel :
  forall i t b w', Repr w i t ->
    is_var_free_there fuel v i w = Ok b w' -> w' = w /\ b = free_in v t.
Proof.
  induction fuel as [|n IH]; intros i t b w' Hr H; simpl in H; [discriminate|].
  mbind H as a w1 Hs. apply expr_slot_look in Hs as [-> Hlook].
  repr_cases t Hr Hlook H; simpl.
  - mret H. auto.
  - mret H. auto.
  - destruct (symbol_eq tp v); [mret H; auto|]. eapply IH; eauto.
  - mbind H as fl w1 Hfl. apply (IH _ _ _ _ Hrl) in Hfl as [-> ->].
    destruct (free_in v tl); simpl; [mret H; auto|].
    mbind H as fr w1 Hfr. apply (IH _ _ _ _ Hrr) in Hfr as [-> ->].
    destruct (free_in v tr); mret H; auto.
Qed.

Lemma Repr_look_kind w i t :
  Repr w i t ->
  exists a, look w i = Some a /\
    match a with EXPR_FUN _ _ => true | _ => false end = is_fun t /\
    match a with EXPR_VAR _ | EXPR_MAG _ => false | _ => true end = negb (is_atom t).
Proof. intros H. invc H; eauto. Qed.

Lemma expr_display_Repr w i t :
  Repr w i t ->
  forall fuel chain, size t <= fuel ->
    expr_display fuel chain i w = Ok (pretty_in chain t) w.
Proof.
  induction 1 as [i s Hi|i m Hi|i p b tb Hi Hb IH|i l r tl tr Hi Hl IHl Hr IHr];
    intros [|n] chain Hn; simpl in Hn; try lia; simpl.
  - run_slot Hi. reflexivity.
  - run_slot Hi. reflexivity.
  - run_slot Hi. rewrite (bind_Ok_intro _ _ _ _ _ (IH n true ltac:(lia))).
    reflexivity.
  - run_slot Hi.
    destruct (Repr_look_kind _ _ _ Hl) as (al & Hal & Hfl & _). run_slot Hal.
    rewrite (bind_Ok_intro _ _ _ _ _ (IHl n false ltac:(lia))).
    destruct (Repr_look_kind _ _ _ Hr) as (ar & Har & _ & Hfr). run_slot Har.
    rewrite (bind_Ok_intro _ _ _ _ _ (IHr n false ltac:(lia))).
    rewrite Hfl, Hfr. reflexivity.
Qed.

Lemma expr_display_Ok w fuel :
  forall chain i t s w', Repr w i t ->
    expr_display fuel chain i w = Ok s w' -> w' = w /\ s = pretty_in chain t.
Proof.
  induction fuel as [|n IH]; intros chain i t s w' Hr H; simpl in H; [discriminate|].
  mbind H as a w1 Hs. apply expr_slot_look in Hs as [-> Hlook].
  repr_cases t Hr Hlook H; simpl.
  - mret H. auto.
  - mret H. auto.
  - mbind H as sb w1 Hsb. apply (IH _ _ _ _ _ Hrb) in Hsb as [-> ->]. mret H. auto.
  - mbind H as el w1 Hel. apply expr_slot_look in Hel as [-> Hll].
    mbind H as sl w1 Hsl. apply (IH _ _ _ _ _ Hrl) in Hsl as [-> ->].
    mbind H as er w1 Her. apply expr_slot_look in Her as [-> Hlr].
    mbind H as sr w1 Hsr. apply (IH _ _ _ _ _ Hrr) in Hsr as [-> ->].
    mret H. split; [reflexivity|].
    destruct (Repr_look_kind _ _ _ Hrl) as (al & Hal & Hfl & _).
    destruct (Repr_look_kind _ _ _ Hrr) as (ar & Har & _ & Hfr).
    look_inj. rewrite Hfl, Hfr. reflexivity.
Qed.

Lemma wrap64_add_l a b : wrap64 (wrap64 a + b) = wrap64 (a + b).
Proof. unfold wrap64. apply Zplus_mod_idemp_l. Qed.

Lemma wrap64_add_r a b : wrap64 (a + wrap64 b) = wrap64 (a + b).
Proof. unfold wrap64. apply Zplus_mod_idemp_r. Qed.

Lemma mass_size t : mass t = Z.of_nat (size t).
Proof. induction t; simpl mass; simpl size; lia. Qed.

(** [expr_mass] is the mass of the tree, in 64-bit arithmetic. *)
Lemma expr_mass_Repr w i t :
  Repr w i t ->
  forall fuel, size t <= fuel ->
    expr_mass fuel i w = Ok (wrap64 (mass t)) w.
Proof.
  induction 1 as [i s Hi|i m Hi|i p b tb Hi Hb IH|i l r tl tr Hi Hl IHl Hr IHr];
    intros [|n] Hn; simpl in Hn; try lia; cbn [expr_mass mass].
  - run_slot Hi. reflexivity.
  - run_slot Hi. reflexivity.
  - run_slot Hi. rewrite (bind_Ok_intro _ _ _ _ _ (IH n ltac:(lia))).
    unfold ret. rewrite wrap64_add_r. reflexivity.
  - run_slot Hi. rewrite (bind_Ok_intro _ _ _ _ _ (IHl n ltac:(lia))).
    rewrite (bind_Ok_intro _ _ _ _ _ (IHr n ltac:(lia))).
    unfold ret. rewrite wrap64_add_r, wrap64_add_l.
    replace (1 + wrap64 (mass tl) + mass tr)%Z
      with ((1 + mass tr) + wrap64 (mass tl))%Z by lia.
    rewrite wrap64_add_r. do 2 f_equal. lia.
Qed.

Lemma expr_mass_pure fuel : forall i w m w', expr_mass fuel i w = Ok m w' -> w' = w.
Proof.
  induction fuel as [|n IH]; intros i w m w' H; simpl in H; [discriminate|].
  mbind H as a w1 Hs. apply expr_slot_Ok in Hs as (-> & _ & _).
  destruct (negb (live a)); [mret H; reflexivity|].
  destruct (as_ a).
  - mret H. reflexivity.
  - mbind H as mb w1 Hb. apply IH in Hb as ->. mret H. reflexivity.
  - mbind H as ml w1 Hl. apply IH in Hl as ->.
    mbind H as mr w2 Hr. apply IH in Hr as ->. mret H. reflexivity.
  - mret H. reflexivity.
Qed.


Lemma pure_stable {A} R `{!PreOrder R} (m : M A) : pure m -> stable R m.
Proof. intros Hp w a w' H. apply Hp in H as ->. reflexivity. Qed.

Lemma pure_expr_slot i : pure (expr_slot i).
Proof. intros w e w' H. apply expr_slot_Ok in H. tauto. Qed.

Lemma pure_is_var_free_there fuel v : forall i, pure (is_var_free_there fuel v i).
Proof.
  induction fuel as [|n IH]; intros i w b w' H; simpl in H; [discriminate|].
  mbind H as a w1 Hs. apply pure_expr_slot in Hs as ->.
  destruct (as_ a) as [s|p ib|l r|m].
  - mret H. reflexivity.
  - destruct (symbol_eq p v); [mret H; reflexivity|]. eapply IH; eauto.
  - mbind H as fl w1 Hfl. apply IH in Hfl as ->.
    destruct fl; [mret H; reflexivity|].
    mbind H as fr w1 Hfr. apply IH in Hfr as ->.
    destruct fr; mret H; reflexivity.
  - mret H. reflexivity.
Qed.

Lemma pure_expr_display fuel : forall chain i, pure (expr_display fuel chain i).
Proof.
  induction fuel as [|n IH]; intros chain i w b w' H; simpl in H; [discriminate|].
  mbind H as a w1 Hs. apply pure_expr_slot in Hs as ->.
  destruct (as_ a).
  - mret H. reflexivity.
  - mbind H as sb w1 Hsb. apply IH in Hsb as ->. mret H. reflexivity.
  - mbind H as el w1 Hel. apply pure_expr_slot in Hel as ->.
    mbind H as sl w1 Hsl. apply IH in Hsl as ->.
    mbind H as er w1 Her. apply pure_expr_slot in Her as ->.
    mbind H as sr w1 Hsr. apply IH in Hsr as ->.
    mret H. reflexivity.
  - mret H. reflexivity.
Qed.

#[export] Hint Extern 1 (stable _ (is_var_free_there _ _ _)) =>
  apply pure_stable; [typeclasses eauto | apply pure_is_var_free_there] : stable.
#[export] Hint Extern 1 (stable _ (expr_display _ _ _)) =>
  apply pure_stable; [typeclasses eauto | apply pure_expr_display] : stable.
#[export] Hint Extern 1 (stable _ (expr_mass _ _)) =>
  apply pure_stable; [typeclasses eauto | intros ? ? ?; apply expr_mass_pure] : stable.

(** ** Substitution *)

Lemma look_set_counter c w i : look (set_counter c w) i = look w i.
Proof. reflexivity. Qed.

Lemma stable_symbol_fresh_extends s : stable extends (symbol_fresh s).
Proof. intros w a w' H. invc H. intros i b Hi. exact Hi. Qed.
Lemma stable_symbol_fresh_keeps_stdout s : stable (keeps stdout) (symbol_fresh s).
Proof. intros w a w' H. invc H. reflexivity. Qed.
Lemma stable_symbol_fresh_keeps_rand_pos s : stable (keeps rand_pos) (symbol_fresh s).
Proof. intros w a w' H. invc H. reflexivity. Qed.
Lemma stable_symbol_fresh_keeps_rand_seq s : stable (keeps rand_seq) (symbol_fresh s).
Proof. intros w a w' H. invc H. reflexivity. Qed.
Lemma stable_symbol_fresh_keeps_grid s : stable (keeps active_grid) (symbol_fresh s).
Proof. intros w a w' H. invc H. reflexivity. Qed.

#[export] Hint Resolve stable_symbol_fresh_extends stable_symbol_fresh_keeps_stdout
  stable_symbol_fresh_keeps_rand_pos stable_symbol_fresh_keeps_rand_seq
  stable_symbol_fresh_keeps_grid : stable.


Lemma alloc_stable_extends : alloc_stable extends.
Proof. split; [typeclasses eauto | split; auto with stable]. Qed.
Lemma alloc_stable_keeps_stdout : alloc_stable (keeps stdout).
Proof. split; [typeclasses eauto | split; auto with stable]. Qed.
Lemma alloc_stable_keeps_rand_pos : alloc_stable (keeps rand_pos).
Proof. split; [typeclasses eauto | split; auto with stable]. Qed.
Lemma alloc_stable_keeps_rand_seq : alloc_stable (keeps rand_seq).
Proof. split; [typeclasses eauto | split; auto with stable]. Qed.
Lemma alloc_stable_keeps_grid : alloc_stable (keeps active_grid).
Proof. split; [typeclasses eauto | split; auto with stable]. Qed.

Lemma stable_replace R (HR : alloc_stable R) fuel o :
  forall param body arg, stable R (replace fuel o param body arg).
Proof.
  destruct HR as (HP & Hnew & Hfresh).
  induction fuel as [|n IH]; intros param body arg; simpl.
  - apply stable_out_of_fuel.
  - stable_tac; rewrite ?var_new_node, ?fun_new_node, ?app_new_node; auto.
Qed.

Lemma symbol_eq_true a b : symbol_eq a b = true <-> a = b.
Proof.
  unfold symbol_eq. rewrite andb_true_iff, String.eqb_eq, Z.eqb_eq.
  destruct a, b; simpl. split; [intros [-> ->]; reflexivity | intros H; invc H; auto].
Qed.

Lemma symbol_eq_false a b : symbol_eq a b = false <-> a <> b.
Proof.
  rewrite <- symbol_eq_true. destruct (symbol_eq a b); split; congruence.
Qed.

Lemma symbol_eq_sym a b : symbol_eq a b = symbol_eq b a.
Proof.
  destruct (symbol_eq b a) eqn:E.
  - apply symbol_eq_true. apply symbol_eq_true in E. auto.
  - apply symbol_eq_false. apply symbol_eq_false in E. auto.
Qed.

Lemma symbol_eq_refl a : symbol_eq a a = true.
Proof. apply symbol_eq_true. reflexivity. Qed.

Lemma Repr_fresh_Var w i s w' : fresh_node w i (EXPR_VAR s) w' -> Repr w' i (Var s).
Proof. intros H. apply Repr_Var. apply H. Qed.

Lemma Repr_fresh_Mag w i m w' : fresh_node w i (EXPR_MAG m) w' -> Repr w' i (Mag m).
Proof. intros H. apply Repr_Mag. apply H. Qed.

Lemma Repr_fresh_Fun w i p b tb w' :
  fresh_node w i (EXPR_FUN p b) w' -> Repr w b tb -> Repr w' i (Fun p tb).
Proof.
  intros H Hb. eapply Repr_Fun; [apply H|].
  eapply Repr_extends; [eapply fresh_node_extends|]; eauto.
Qed.

Lemma Repr_fresh_App w i l r tl tr w' :
  fresh_node w i (EXPR_APP l r) w' -> Repr w l tl -> Repr w r tr ->
  Repr w' i (App tl tr).
Proof.
  intros H Hl Hr. eapply Repr_App; [apply H| |];
    (eapply Repr_extends; [eapply fresh_node_extends|]; eauto).
Qed.

Lemma replace_extends fuel o param body arg w r w' :
  replace fuel o param body arg w = Ok r w' -> extends w w'.
Proof. apply (stable_replace extends alloc_stable_extends). Qed.

(** [replace] computes the substitution of the specification: the
    index it returns stands for a tree related to the trees of [body]
    and [arg] by [Subst]. *)
Lemma replace_Subst fuel o :
  forall param body arg w r w' tb ta,
    Repr w body tb -> Repr w arg ta ->
    replace fuel o param body arg w = Ok r w' ->
    exists tr, Repr w' r tr /\
      Subst o param ta (global_counter w) tb tr (global_counter w').
Proof.
  induction fuel as [|n IH]; intros param body arg w r w' tb ta Hb Ha H;
    simpl in H; [discriminate|].
  mbind H as e w1 Hs. apply expr_slot_look in Hs as [-> Hlook].
  repr_cases tb Hb Hlook H.
  - destruct (symbol_eq ts param) eqn:E; mret H.
    + exists ta. split; [assumption | apply Subst_Var_hit; assumption].
    + exists (Var ts). split; [apply Repr_Var | apply Subst_Var_miss]; assumption.
  - mret H. exists (Mag tm). split; [apply Repr_Mag; assumption | apply Subst_Mag].
  - destruct (symbol_eq tp param) eqn:E.
    + mret H. exists (Fun tp tb).
      split; [eapply Repr_Fun; eauto | apply Subst_Fun_shadow; assumption].
    + mbind H as fr w1 Hfr.
      apply (is_var_free_there_Ok _ _ _ _ _ _ _ Ha) in Hfr as [-> ->].
      destruct (free_in tp ta) eqn:Ef; simpl in H.
      * mbind H as p' w1 Hp'. invc Hp'.
        mbind H as iv w2 Hiv. rewrite var_new_node in Hiv. apply new_node_Ok in Hiv.
        mbind H as b1 w3 Hb1. mbind H as b2 w4 Hb2.
        rewrite fun_new_node in H. apply new_node_Ok in H.
        set (w1 := set_counter (wrap64 (global_counter w + 1)) w) in *.
        assert (He01 : extends w w1) by (intros i a Hi; exact Hi).
        assert (He12 : extends w w2).
        { etransitivity; [exact He01 | eapply fresh_node_extends; eauto]. }
        assert (Hrb2 : Repr w2 ib tb) by (eapply Repr_extends; [exact He12|]; exact Hrb).
        pose proof (Repr_fresh_Var _ _ _ _ Hiv) as Hrv.
        destruct (IH _ _ _ _ _ _ _ _ Hrb2 Hrv Hb1) as (tb1 & Hr1 & Hs1).
        assert (He23 : extends w2 w3) by (eapply replace_extends; eauto).
        assert (Hra3 : Repr w3 arg ta).
        { eapply Repr_extends; [exact He23|]. eapply Repr_extends; [exact He12|]. exact Ha. }
        clear He01.
        destruct (IH _ _ _ _ _ _ _ _ Hr1 Hra3 Hb2) as (tb2 & Hr2 & Hs2).
        exists (Fun (fresh (global_counter w) tp) tb2). split.
        -- eapply Repr_fresh_Fun; eauto.
        -- destruct H as (_ & _ & _ & Hc & _). rewrite Hc.
           destruct Hiv as (_ & _ & _ & Hc2 & _). rewrite Hc2 in Hs1.
           eapply Subst_Fun_rename; [exact E | exact Ef | exact Hs1 | exact Hs2].
      * mbind H as b' w1 Hb'.
        destruct (IH _ _ _ _ _ _ _ _ Hrb Ha Hb') as (tb' & Hr' & Hs').
        rewrite fun_new_node in H. apply new_node_Ok in H.
        exists (Fun tp tb'). split.
        -- eapply Repr_fresh_Fun; eauto.
        -- destruct H as (_ & _ & _ & Hc & _). rewrite Hc.
           apply Subst_Fun_plain; assumption.
  - mbind H as lr w1 Hlr. rewrite app_new_node in H. apply new_node_Ok in H.
    destruct o; simpl in Hlr.
    + mbind Hlr as l' w2 Hl'. mbind Hlr as r' w3 Hr'. mret Hlr. simpl in H.
      destruct (IH _ _ _ _ _ _ _ _ Hrl Ha Hl') as (tl' & Hrl' & Hsl).
      assert (He : extends w w2) by (eapply replace_extends; eauto).
      destruct (IH _ _ _ _ _ _ _ _ (Repr_extends _ _ _ _ He Hrr)
                  (Repr_extends _ _ _ _ He Ha) Hr') as (tr' & Hrr' & Hsr).
      exists (App tl' tr'). split.
      * eapply Repr_fresh_App; eauto.
        eapply Repr_extends; [eapply replace_extends; eauto | assumption].
      * destruct H as (_ & _ & _ & Hc & _). rewrite Hc.
        eapply Subst_App_lr; eauto.
    + mbind Hlr as r' w2 Hr'. mbind Hlr as l' w3 Hl'. mret Hlr. simpl in H.
      destruct (IH _ _ _ _ _ _ _ _ Hrr Ha Hr') as (tr' & Hrr' & Hsr).
      assert (He : extends w w2) by (eapply replace_extends; eauto).
      destruct (IH _ _ _ _ _ _ _ _ (Repr_extends _ _ _ _ He Hrl)
                  (Repr_extends _ _ _ _ He Ha) Hl') as (tl' & Hrl' & Hsl).
      exists (App tl' tr'). split.
      * eapply Repr_fresh_App; eauto.
        eapply Repr_extends; [eapply replace_extends; eauto | assumption].
      * destruct H as (_ & _ & _ & Hc & _). rewrite Hc.
        eapply Subst_App_rl; eauto.
Qed.

Lemma Subst_functional o param arg c tb t1 c1 :
  Subst o param arg c tb t1 c1 ->
  forall t2 c2, Subst o param arg c tb t2 c2 -> t1 = t2 /\ c1 = c2.
Proof.
  induction 1; intros t2 k2 Hx; invc Hx; try congruence; auto;
    repeat match goal with
    | IH : forall t2 c2, Subst ?o ?p ?a ?c ?b t2 c2 -> _,
      Hs : Subst ?o ?p ?a ?c ?b _ _ |- _ =>
        apply IH in Hs; destruct Hs; subst
    end; auto.
Qed.

(** Substituting a variable for a variable keeps the size. *)
Lemma Subst_Var_size o param arg c tb tr c' :
  Subst o param arg c tb tr c' -> (exists x, arg = Var x) -> size tr = size tb.
Proof.
  induction 1; intros Hx; simpl; try reflexivity.
  - destruct Hx as [x ->]. reflexivity.
  - rewrite IHSubst by assumption. reflexivity.
  - rewrite IHSubst2 by assumption. rewrite IHSubst1 by eauto. reflexivity.
  - rewrite IHSubst1, IHSubst2 by assumption. reflexivity.
  - rewrite IHSubst1, IHSubst2 by assumption. reflexivity.
Qed.

(** Free variables of a substitution, on trees. *)
Lemma Subst_free_in o param arg c tb tr c' :
  Subst o param arg c tb tr c' ->
  forall x, free_in x tr = true ->
    (free_in x tb = true /\ x <> param) \/ free_in x arg = true.
Proof.
  induction 1; intros x Hx; simpl in *; auto.
  - left. split; [assumption|]. apply symbol_eq_true in Hx. subst.
    apply symbol_eq_false. assumption.
  - left. split; [assumption|]. intros ->.
    apply symbol_eq_true in H. subst. rewrite symbol_eq_refl in Hx. discriminate.
  - destruct (symbol_eq p x) eqn:E; [discriminate|].
    destruct (IHSubst _ Hx) as [[Hb Hne]|Ha]; auto.
  - destruct (symbol_eq (fresh c p) x) eqn:E; [discriminate|].
    destruct (IHSubst2 _ Hx) as [[Hb1 Hne]|Ha]; auto.
    destruct (IHSubst1 _ Hb1) as [[Hb Hnp]|Hf].
    + left. split; [|assumption].
      assert (Hpx : symbol_eq p x = false) by (apply symbol_eq_false; congruence).
      rewrite Hpx. assumption.
    + simpl in Hf. congruence.
  - apply orb_true_iff in Hx as [Hx|Hx].
    + destruct (IHSubst1 _ Hx) as [[Hb Hne]|Ha]; auto. left. rewrite Hb. auto.
    + destruct (IHSubst2 _ Hx) as [[Hb Hne]|Ha]; auto. left. rewrite Hb, orb_true_r. auto.
  - apply orb_true_iff in Hx as [Hx|Hx].
    + destruct (IHSubst2 _ Hx) as [[Hb Hne]|Ha]; auto. left. rewrite Hb. auto.
    + destruct (IHSubst1 _ Hx) as [[Hb Hne]|Ha]; auto. left. rewrite Hb, orb_true_r. auto.
Qed.

Ltac run H := rewrite (bind_Ok_intro _ _ _ _ _ H); cbn beta iota.

(** With [size body + size arg] fuel and a sound free list, [replace]
    returns. *)
Lemma replace_total fuel o :
  forall param body arg w tb ta,
    dead_ok w -> Repr w body tb -> Repr w arg ta ->
    size tb + size ta <= fuel ->
    exists r w', replace fuel o param body arg w = Ok r w' /\ dead_ok w'.
Proof.
  induction fuel as [|n IH]; intros param body arg w tb ta Hd Hb Ha Hn;
    [pose proof (size_pos tb); lia|].
  pose proof (size_pos ta) as Hta.
  cbn [replace].
  destruct tb as [ts|tm|tp tb|tl tr]; apply Repr_inv in Hb; simpl in Hn.
  - run_slot Hb. destruct (symbol_eq ts param); eexists _, _; split; eauto; reflexivity.
  - run_slot Hb. eexists _, _; split; eauto; reflexivity.
  - destruct Hb as (ib & Hb & Hrb). run_slot Hb.
    destruct (symbol_eq tp param); [eexists _, _; split; eauto; reflexivity|].
    run (is_var_free_there_Repr w tp arg ta Ha n ltac:(lia)).
    destruct (free_in tp ta); cbn [negb].
    + unfold symbol_fresh at 1. unfold bind at 1.
      set (w1 := set_counter (wrap64 (global_counter w + 1)) w).
      set (p' := {| label := label tp; tag := wrap64 (global_counter w + 1) |}).
      assert (Hd1 : dead_ok w1) by exact Hd.
      destruct (new_node_total (EXPR_VAR p') w1 Hd1) as (iv & w2 & Hiv & Hd2).
      rewrite var_new_node. run Hiv. apply new_node_Ok in Hiv.
      assert (He12 : extends w w2).
      { etransitivity; [|eapply fresh_node_extends; eauto]. intros i a Hi. exact Hi. }
      pose proof (Repr_fresh_Var _ _ _ _ Hiv) as Hrv.
      pose proof (Repr_extends _ _ _ _ He12 Hrb) as Hrb2.
      destruct (IH tp ib iv w2 tb (Var p') Hd2 Hrb2 Hrv ltac:(simpl; lia))
        as (b1 & w3 & Hb1 & Hd3).
      run Hb1.
      destruct (replace_Subst _ _ _ _ _ _ _ _ _ _ Hrb2 Hrv Hb1) as (tb1 & Hr1 & Hs1).
      pose proof (Subst_Var_size _ _ _ _ _ _ _ Hs1 ltac:(eauto)) as Hsz.
      assert (Hra3 : Repr w3 arg ta).
      { eapply Repr_extends; [eapply replace_extends; eauto|].
        eapply Repr_extends; eauto. }
      destruct (IH param b1 arg w3 tb1 ta Hd3 Hr1 Hra3 ltac:(lia))
        as (b2 & w4 & Hb2 & Hd4).
      run Hb2. rewrite fun_new_node. apply new_node_total. assumption.
    + destruct (IH param ib arg w tb ta Hd Hrb Ha ltac:(lia)) as (b' & w1 & Hb' & Hd1).
      run Hb'. rewrite fun_new_node. apply new_node_total. assumption.
  - destruct Hb as (il & ir & Hb & Hrl & Hrr). run_slot Hb.
    destruct o; cbn [args2].
    + destruct (IH param il arg w tl ta Hd Hrl Ha ltac:(lia)) as (l' & w1 & Hl' & Hd1).
      unfold bind at 2. unfold bind at 1. rewrite Hl'.
      assert (He : extends w w1) by (eapply replace_extends; eauto).
      destruct (IH param ir arg w1 tr ta Hd1 (Repr_extends _ _ _ _ He Hrr)
                  (Repr_extends _ _ _ _ He Ha) ltac:(lia)) as (r' & w2 & Hr' & Hd2).
      unfold bind at 1. rewrite Hr'. cbn.
      rewrite app_new_node. apply new_node_total. assumption.
    + destruct (IH param ir arg w tr ta Hd Hrr Ha ltac:(lia)) as (r' & w1 & Hr' & Hd1).
      unfold bind at 2. unfold bind at 1. rewrite Hr'.
      assert (He : extends w w1) by (eapply replace_extends; eauto).
      destruct (IH param il arg w1 tl ta Hd1 (Repr_extends _ _ _ _ He Hrl)
                  (Repr_extends _ _ _ _ He Ha) ltac:(lia)) as (l' & w2 & Hl' & Hd2).
      unfold bind at 1. rewrite Hl'. cbn.
      rewrite app_new_node. apply new_node_total. assumption.
Qed.

(** The index that [replace] returns is [body], [arg] or a slot that was
    not live before. *)
Lemma replace_result fuel o param body arg w r w' :
  replace fuel o param body arg w = Ok r w' ->
  r = body \/ r = arg \/ look w r = None.
Proof.
  destruct fuel as [|n]; simpl; [discriminate|]. intros H.
  mbind H as e w1 Hs. apply pure_expr_slot in Hs as ->.
  assert (Hnew : forall a (w1 : World), extends w w1 -> new_node a w1 = Ok r w' ->
            look w r = None).
  { intros a w1 He Hn. apply new_node_Ok in Hn as (Hnone & _).
    destruct (look w r) eqn:El; [|reflexivity].
    apply He in El. congruence. }
  destruct (as_ e) as [v|p b|l r0|m].
  - destruct (symbol_eq v param); mret H; auto.
  - destruct (symbol_eq p param); [mret H; auto|].
    mbind H as fr w1 Hfr. apply pure_is_var_free_there in Hfr as ->.
    destruct fr; simpl in H.
    + mbind H as p' w1 Hp'. mbind H as iv w2 Hiv. mbind H as b1 w3 Hb1.
      mbind H as b2 w4 Hb2. right. right. eapply Hnew; [|exact H].
      etransitivity; [eapply stable_symbol_fresh_extends; eauto|].
      etransitivity; [eapply stable_new_node_extends; eauto|].
      etransitivity; eapply replace_extends; eauto.
    + mbind H as b' w1 Hb'. right. right. eapply Hnew; [|exact H].
      eapply replace_extends; eauto.
  - mbind H as lr w1 Hlr. right. right. eapply Hnew; [|exact H].
    eapply (stable_args2 extends); [| |exact Hlr];
      intros ? ? ?; apply replace_extends.
  - mret H. auto.
Qed.

(** ** Evaluation leaves the live slots alone *)

#[export] Instance frame_live_PreOrder : PreOrder frame_live.
Proof.
  split.
  - intros w i e H _. exact H.
  - intros w1 w2 w3 H1 H2 i e Hs Hl. auto.
Qed.

Lemma frame_live_extends w w' : frame_live w w' -> extends w w'.
Proof.
  intros H i a Hi. apply look_Some_slot in Hi as (e & Hs & Hl & <-).
  unfold look. rewrite (H _ _ Hs Hl), Hl. reflexivity.
Qed.

Lemma fresh_node_frame_live w i a w' : fresh_node w i a w' -> frame_live w w'.
Proof.
  intros (Hn & _ & Hs & _) j e Hj Hl.
  assert (j <> i).
  { intros ->. unfold look in Hn. rewrite Hj, Hl in Hn. discriminate. }
  rewrite Hs; auto.
Qed.

Lemma alloc_stable_frame_live : alloc_stable frame_live.
Proof.
  split; [typeclasses eauto | split].
  - intros a w i w' H. eapply fresh_node_frame_live, new_node_Ok, H.
  - intros s w a w' H. invc H. intros i e Hs _. exact Hs.
Qed.

Lemma emit_Ok s w u w' :
  emit s w = Ok u w' -> w' = set_stdout (stdout w ++ [s]) w.
Proof. intros H. invc H. reflexivity. Qed.


Lemma eval_stable_extends : eval_stable extends.
Proof.
  split; [apply alloc_stable_extends|].
  intros s w u w' H. apply emit_Ok in H as ->. intros i a Hi. exact Hi.
Qed.
Lemma eval_stable_frame_live : eval_stable frame_live.
Proof.
  split; [apply alloc_stable_frame_live|].
  intros s w u w' H. apply emit_Ok in H as ->. intros i e Hs _. exact Hs.
Qed.
Lemma eval_stable_keeps_rand_pos : eval_stable (keeps rand_pos).
Proof.
  split; [apply alloc_stable_keeps_rand_pos|].
  intros s w u w' H. apply emit_Ok in H as ->. reflexivity.
Qed.
Lemma eval_stable_keeps_rand_seq : eval_stable (keeps rand_seq).
Proof.
  split; [apply alloc_stable_keeps_rand_seq|].
  intros s w u w' H. apply emit_Ok in H as ->. reflexivity.
Qed.
Lemma eval_stable_keeps_grid : eval_stable (keeps active_grid).
Proof.
  split; [apply alloc_stable_keeps_grid|].
  intros s w u w' H. apply emit_Ok in H as ->. reflexivity.
Qed.

Lemma stable_eval1 R (HR : eval_stable R) fuel o :
  forall expr, stable R (eval1 fuel o expr).
Proof.
  destruct HR as (HA & Hemit). pose proof HA as (HP & Hnew & Hfresh).
  induction fuel as [|n IH]; intros expr; simpl.
  - apply stable_out_of_fuel.
  - unfold trace_expr.
    stable_tac; rewrite ?fun_new_node, ?app_new_node; auto;
      apply stable_replace; assumption.
Qed.

Lemma stable_eval_bounded R (HR : eval_stable R) fuel o :
  forall limit curr max_mass, stable R (eval_bounded fuel o curr limit max_mass).
Proof.
  pose proof HR as ((HP & _) & _).
  induction limit as [|k IH]; intros curr max_mass; simpl.
  - apply stable_ret. assumption.
  - stable_tac; apply stable_eval1; assumption.
Qed.

Lemma eval1_extends fuel o expr w r w' :
  eval1 fuel o expr w = Ok r w' -> extends w w'.
Proof. apply (stable_eval1 extends eval_stable_extends). Qed.

(** What [expr_display] prints depends on the live slots only. *)
Lemma expr_display_extends w w' :
  extends w w' ->
  forall fuel chain i s, expr_display fuel chain i w = Ok s w ->
    expr_display fuel chain i w' = Ok s w'.
Proof.
  intros He. induction fuel as [|n IH]; intros chain i s H; simpl in H;
    [discriminate|]. simpl.
  mbind H as e w1 Hs. apply expr_slot_look in Hs as [-> Hlook].
  apply He in Hlook. run_slot Hlook.
  destruct (as_ e).
  - mret H. reflexivity.
  - mbind H as sb w1 Hsb. pose proof (pure_expr_display _ _ _ _ _ _ Hsb) as ->.
    run (IH _ _ _ Hsb). mret H. reflexivity.
  - mbind H as el w1 Hel. apply expr_slot_look in Hel as [-> Hll].
    apply He in Hll. run_slot Hll.
    mbind H as sl w1 Hsl. pose proof (pure_expr_display _ _ _ _ _ _ Hsl) as ->.
    run (IH _ _ _ Hsl).
    mbind H as er w1 Her. apply expr_slot_look in Her as [-> Hlr].
    apply He in Hlr. run_slot Hlr.
    mbind H as sr w1 Hsr. pose proof (pure_expr_display _ _ _ _ _ _ Hsr) as ->.
    run (IH _ _ _ Hsr). mret H. reflexivity.
  - mret H. reflexivity.
Qed.

(** C10: [replace] and [eval1] are non-destructive.  After a call that
    returns, every slot that was live before is the same slot: kind,
    payload and collector bits; what is new is in slots that were not
    live.  Hence every expression that could be displayed before (the
    input, and whatever a binding, the pool or a grid cell holds) is
    displayed as the same text afterwards. *)
Theorem evaluation_non_destructive fuel o w w' :
  ((exists param body arg r, replace fuel o param body arg w = Ok r w') \/
   (exists expr r, eval1 fuel o expr w = Ok r w')) ->
  frame_live w w' /\
  (forall i, slots (GC w') !! i <> slots (GC w) !! i -> look w i = None) /\
  (forall k chain i s, expr_display k chain i w = Ok s w ->
     expr_display k chain i w' = Ok s w').
Proof.
  intros H.
  assert (Hf : frame_live w w').
  { destruct H as [(param & body & arg & r & H)|(expr & r & H)].
    - eapply (stable_replace frame_live alloc_stable_frame_live); eauto.
    - eapply (stable_eval1 frame_live eval_stable_frame_live); eauto. }
  split; [assumption|]. split.
  - intros i Hne. unfold look.
    destruct (slots (GC w) !! i) as [e|] eqn:Hs; [|reflexivity].
    destruct (live e) eqn:Hl; [|reflexivity].
    exfalso. apply Hne. apply Hf; assumption.
  - intros k chain i s Hd. eapply expr_display_extends; eauto.
    apply frame_live_extends. assumption.
Qed.

(** ** The single-step reducer *)

Lemma new_node_neq w a r w' j b :
  new_node a w = Ok r w' -> look w j = Some b -> r <> j.
Proof.
  intros H Hj ->. apply new_node_Ok in H as (Hn & _). congruence.
Qed.

Lemma frame_stdout_extends w o : extends w (set_stdout o w).
Proof. intros i a H. exact H. Qed.

Lemma Repr_set_stdout w o i t : Repr w i t -> Repr (set_stdout o w) i t.
Proof. apply Repr_extends, frame_stdout_extends. Qed.

Lemma agrees_same w' expr out :
  agrees w' expr out (Some expr) -> out = Unchanged.
Proof. destruct out; simpl; intuition congruence. Qed.

Lemma agrees_other w' expr out r :
  agrees w' expr out (Some r) -> r <> expr -> exists t', out = Changed t' /\ Repr w' r t'.
Proof. destruct out; simpl; intros H Hne; [congruence | destruct H; eauto | tauto]. Qed.

Lemma agrees_none w' expr out : agrees w' expr out None -> out = Failed.
Proof. destruct out; simpl; tauto. Qed.

(** The last branch of the [EXPR_APP] case: the head is neither a
    function nor a magic. *)
Lemma eval1_plain_head n o (IH : eval1_refines n o) expr il ir w res w' tl tr :
  look w expr = Some (EXPR_APP il ir) ->
  Repr w il tl -> Repr w ir tr -> plain_head tl = true ->
  (r <- eval1 n o il ;;
   match r with
   | None => ret None
   | Some new_lhs =>
       if negb (il =? new_lhs) then
         e1 <- app new_lhs ir ;; ret (Some e1)
       else
         r2 <- eval1 n o ir ;;
         match r2 with
         | None => ret None
         | Some new_rhs =>
             if negb (ir =? new_rhs) then
               e1 <- app il new_rhs ;; ret (Some e1)
             else ret (Some expr)
         end
   end) w = Ok res w' ->
  exists out ls,
    Step o (global_counter w) (App tl tr) out (global_counter w') ls /\
    stdout w' = stdout w ++ ls /\
    agrees w' expr out res.
Proof.
  intros Hlive Hrl0 Hrr Hplain H.
  mbind H as rl w1 Hrl1.
  destruct (IH _ _ _ _ _ Hrl0 Hrl1) as (outl & ls1 & Hstep1 & Hout1 & Hag1).
  pose proof (eval1_extends _ _ _ _ _ _ Hrl1) as He1.
  destruct rl as [new_lhs|].
  - destruct (Nat.eqb_spec il new_lhs) as [<-|Hne]; simpl in H.
    + apply agrees_same in Hag1 as ->.
      mbind H as rr w2 Hrr1.
      destruct (IH _ _ _ _ _ (Repr_extends _ _ _ _ He1 Hrr) Hrr1)
        as (outr & ls2 & Hstep2 & Hout2 & Hag2).
      pose proof (eval1_extends _ _ _ _ _ _ Hrr1) as He2.
      destruct rr as [new_rhs|].
      * destruct (Nat.eqb_spec ir new_rhs) as [<-|Hne]; simpl in H.
        -- mret H. apply agrees_same in Hag2 as ->.
           exists Unchanged, (ls1 ++ ls2).
           split; [eapply Step_App_unchanged; eauto|].
           split; [rewrite Hout2, Hout1, app_assoc; reflexivity | reflexivity].
        -- apply agrees_other in Hag2 as (tr' & -> & Hrr'); [|congruence].
           mbind H as e1 w3 Hn. mret H. rewrite app_new_node in Hn.
           pose proof (new_node_neq _ _ _ _ _ _ Hn (He2 _ _ (He1 _ _ Hlive))) as Hneq.
           apply new_node_Ok in Hn.
           pose proof Hn as (_ & _ & _ & Hc & Hso & _).
           exists (Changed (App tl tr')), (ls1 ++ ls2).
           rewrite Hc, Hso.
           split; [eapply Step_App_right; eauto|].
           split; [rewrite Hout2, Hout1, app_assoc; reflexivity|].
           split; [assumption|].
           eapply Repr_fresh_App; eauto.
           eapply Repr_extends; [exact He2|].
           eapply Repr_extends; [exact He1|]. exact Hrl0.
      * mret H. apply agrees_none in Hag2 as ->.
        exists Failed, (ls1 ++ ls2).
        split; [eapply Step_App_right_failed; eauto|].
        split; [rewrite Hout2, Hout1, app_assoc; reflexivity | exact I].
    + apply agrees_other in Hag1 as (tl' & -> & Hrl'); [|congruence].
      mbind H as e1 w3 Hn. mret H. rewrite app_new_node in Hn.
      pose proof (new_node_neq _ _ _ _ _ _ Hn (He1 _ _ Hlive)) as Hneq.
      apply new_node_Ok in Hn.
      pose proof Hn as (_ & _ & _ & Hc & Hso & _).
      exists (Changed (App tl' tr)), ls1. rewrite Hc, Hso.
      split; [eapply Step_App_left; eauto|].
      split; [assumption|]. split; [assumption|].
      eapply Repr_fresh_App; eauto.
      eapply Repr_extends; [exact He1|]. exact Hrr.
  - mret H. apply agrees_none in Hag1 as ->.
    exists Failed, ls1.
    split; [eapply Step_App_left_failed; eauto|].
    split; [assumption | exact I].
Qed.

(** The branches of the magic dispatch that drive the argument one
    step: [#trace] and [#void].  [on_normal] is what the branch does
    when the argument did not change. *)
Lemma eval1_magic_drive n o (IH : eval1_refines n o) expr il ir w res w' m tr
    (on_normal : M (option Expr_Index)) normal_out normal_ls :
  look w expr = Some (EXPR_APP il ir) ->
  Repr w expr (App (Mag m) tr) ->
  Repr w il (Mag m) -> Repr w ir tr -> is_trace_or_void m = true ->
  (forall c e e' c' ls, Step o c e (Changed e') c' ls ->
     Step o c (App (Mag m) e) (Changed (App (Mag m) e')) c' ls) ->
  (forall c c' ls, Step o c tr Unchanged c' ls ->
     Step o c (App (Mag m) tr) (Changed normal_out) c' (ls ++ normal_ls)) ->
  (forall w1 r w2, extends w w1 -> on_normal w1 = Ok r w2 ->
     exists j, r = Some j /\ j <> expr /\ Repr w2 j normal_out /\
       global_counter w2 = global_counter w1 /\
       stdout w2 = stdout w1 ++ normal_ls) ->
  (r <- eval1 n o ir ;;
   match r with
   | None => ret None
   | Some new_rhs =>
       if new_rhs =? ir then on_normal
       else e1 <- app il new_rhs ;; ret (Some e1)
   end) w = Ok res w' ->
  exists out ls,
    Step o (global_counter w) (App (Mag m) tr) out (global_counter w') ls /\
    stdout w' = stdout w ++ ls /\
    agrees w' expr out res.
Proof.
  intros Hlive Ht0 Hrl Hrr Hm Hchanged Hnormal Hon H.
  mbind H as rr w1 Hrr1.
  destruct (IH _ _ _ _ _ Hrr Hrr1) as (outr & ls & Hstep & Hout & Hag).
  pose proof (eval1_extends _ _ _ _ _ _ Hrr1) as He1.
  destruct rr as [new_rhs|].
  - destruct (Nat.eqb_spec new_rhs ir) as [->|Hne].
    + apply agrees_same in Hag as ->.
      destruct (Hon _ _ _ He1 H) as (j & -> & Hj & Hrj & Hc & Hso).
      exists (Changed normal_out), (ls ++ normal_ls). rewrite Hc, Hso, Hout.
      split; [apply Hnormal; assumption|].
      split; [rewrite app_assoc; reflexivity|]. split; assumption.
    + apply agrees_other in Hag as (tr' & -> & Hrr'); [|assumption].
      mbind H as e1 w3 Hn. mret H. rewrite app_new_node in Hn.
      pose proof (new_node_neq _ _ _ _ _ _ Hn (He1 _ _ Hlive)) as Hneq.
      apply new_node_Ok in Hn.
      pose proof Hn as (_ & _ & _ & Hc & Hso & _).
      exists (Changed (App (Mag m) tr')), ls. rewrite Hc, Hso.
      split; [apply Hchanged; assumption|].
      split; [assumption|]. split; [assumption|].
      eapply Repr_fresh_App; eauto.
      eapply Repr_extends; [exact He1|]. exact Hrl.
  - mret H. apply agrees_none in Hag as ->.
    exists Failed, ls.
    split; [apply Step_magic_failed; assumption|].
    split; [assumption | exact I].
Qed.

(** [repr_cases] for the head of an application. *)
Ltac head_cases t Hr Hlook H :=
  destruct t as [hs|hm|hp hb|hl hr]; apply Repr_inv in Hr;
  [ | | destruct Hr as (jb & Hr & Hhb) | destruct Hr as (jl & jr & Hr & Hhl & Hhr)];
  rewrite Hr in Hlook; injection Hlook as Hlook; rewrite <- Hlook in H;
  simpl in H.

Lemma is_trace_or_void_false m :
  String.eqb m "trace" = false -> String.eqb m "void" = false ->
  is_trace_or_void m = false.
Proof. unfold is_trace_or_void. intros -> ->. reflexivity. Qed.

Lemma eval1_Step fuel o : eval1_refines fuel o.
Proof.
  induction fuel as [|n IH]; intros expr w res w' t Ht H; simpl in H; [discriminate|].
  pose proof Ht as Ht0.
  mbind H as e w1 Hs. apply expr_slot_look in Hs as [-> Hlook].
  pose proof Hlook as Hlive.
  repr_cases t Ht Hlook H.
  - mret H. exists Unchanged, []. rewrite app_nil_r.
    split; [constructor | split; reflexivity].
  - mret H. exists Unchanged, []. rewrite app_nil_r.
    split; [constructor | split; reflexivity].
  - mbind H as rb w1 Hrb1.
    destruct (IH _ _ _ _ _ Hrb Hrb1) as (outb & ls & Hstep & Hout & Hag).
    destruct rb as [body|].
    + destruct (Nat.eqb_spec body ib) as [->|Hne]; simpl in H.
      * mret H. apply agrees_same in Hag as ->.
        exists Unchanged, ls. split; [apply Step_Fun_unchanged; assumption|].
        split; [assumption | reflexivity].
      * apply agrees_other in Hag as (tb' & -> & Hrb'); [|assumption].
        mbind H as e1 w2 He1. mret H. rewrite fun_new_node in He1.
        pose proof (eval1_extends _ _ _ _ _ _ Hrb1) as He.
        pose proof (new_node_neq _ _ _ _ _ _ He1 (He _ _ Hlive)) as Hneq.
        apply new_node_Ok in He1.
        pose proof He1 as (_ & _ & _ & Hc & Hso & _).
        exists (Changed (Fun tp tb')), ls. rewrite Hc, Hso.
        split; [apply Step_Fun_changed; assumption|].
        split; [assumption|]. split; [assumption|].
        eapply Repr_fresh_Fun; eauto.
    + mret H. apply agrees_none in Hag as ->.
      exists Failed, ls. split; [apply Step_Fun_failed; assumption|].
      split; [assumption | exact I].
  - mbind H as el w1 Hel. apply expr_slot_look in Hel as [-> Hll].
    assert (Hsz_l : size tl < size (App tl tr)) by (simpl; lia).
    assert (Hsz_r : size tr < size (App tl tr)) by (simpl; lia).
    pose proof (Repr_not_child _ _ _ _ _ Ht0 Hrr Hsz_r) as Hrhs_ne.
    pose proof (Repr_not_child _ _ _ _ _ Ht0 Hrl Hsz_l) as Hlhs_ne.
    pose proof Hrl as Hrl0.
    head_cases tl Hrl Hll H.
    + eapply eval1_plain_head; eauto.
    + destruct (String.eqb_spec hm "trace") as [->|Hnt].
      { eapply (eval1_magic_drive n o IH)
          with (normal_out := tr) (normal_ls := trace_line tr);
          [exact Ht | exact Ht0 | exact Hrl0 | exact Hrr | reflexivity
          | intros c e0 e' c' ls Hst; apply Step_trace_changed; exact Hst
          | intros c c' ls Hst; apply Step_trace_normal; exact Hst
          | | exact H].
        intros w1 r w2 He Hon.
        mbind Hon as u1 w3 Hem1. apply emit_Ok in Hem1 as ->.
        mbind Hon as u2 w3 Htr. unfold trace_expr in Htr.
        mbind Htr as s w4 Hdisp.
        pose proof (Repr_set_stdout _ (stdout w1 ++ ["TRACE: "%string]) _ _
                      (Repr_extends _ _ _ _ He Hrr)) as Hrr1.
        apply (expr_display_Ok _ _ _ _ _ _ _ Hrr1) in Hdisp as [-> ->].
        apply emit_Ok in Htr as ->.
        mbind Hon as u3 w5 Hem3. apply emit_Ok in Hem3 as ->. mret Hon.
        exists ir. split; [reflexivity|]. split; [assumption|].
        split; [|split; [reflexivity|]].
        - do 3 apply Repr_set_stdout. eapply Repr_extends; eauto.
        - simpl. unfold trace_line. rewrite <- !app_assoc. reflexivity. }
      destruct (String.eqb_spec hm "void") as [->|Hnv].
      { eapply (eval1_magic_drive n o IH)
          with (normal_out := Mag "void") (normal_ls := []);
          [exact Ht | exact Ht0 | exact Hrl0 | exact Hrr | reflexivity
          | intros c e0 e' c' ls Hst; apply Step_void_changed; exact Hst
          | intros c c' ls Hst; rewrite app_nil_r; apply Step_void_normal; exact Hst
          | | exact H].
        intros w1 r w2 He Hon. mret Hon.
        exists il. split; [reflexivity|]. split; [assumption|].
        split; [eapply Repr_extends; eauto|]. split; [reflexivity|].
        rewrite app_nil_r. reflexivity. }
      mbind H as u w1 Hem. apply emit_Ok in Hem as ->. mret H.
      exists Failed, (unknown_magic_line hm). simpl.
      split; [|split; [reflexivity | exact I]].
      apply Step_magic_unknown. apply is_trace_or_void_false;
        apply String.eqb_neq; assumption.
    + mbind H as e1 w1 Hrep. mret H.
      destruct (replace_Subst _ _ _ _ _ _ _ _ _ _ Hhb Hrr Hrep) as (t' & Hr' & Hs').
      exists (Changed t'), []. rewrite app_nil_r.
      split; [apply Step_beta; assumption|].
      split; [apply (stable_replace _ alloc_stable_keeps_stdout _ _ _ _ _ _ _ _ Hrep)|].
      split; [|assumption].
      destruct (replace_result _ _ _ _ _ _ _ _ Hrep) as [->|[->|Hnone]].
      * eapply Repr_not_child; [exact Ht0 | exact Hhb | simpl; lia].
      * assumption.
      * intros ->. congruence.
    + eapply eval1_plain_head; eauto.
Qed.

Lemma dead_ok_set_stdout w o : dead_ok w -> dead_ok (set_stdout o w).
Proof. intros H. exact H. Qed.

(** With [size t] fuel and a sound free list, [eval1] returns. *)
Lemma eval1_total fuel o :
  forall expr w t,
    dead_ok w -> Repr w expr t -> size t <= fuel ->
    exists res w', eval1 fuel o expr w = Ok res w' /\ dead_ok w'.
Proof.
  induction fuel as [|n IH]; intros expr w t Hd Ht Hn;
    [pose proof (size_pos t); lia|].
  cbn [eval1].
  destruct t as [ts|tm|tp tb|tl tr]; apply Repr_inv in Ht; simpl in Hn.
  - run_slot Ht. eexists _, _; split; eauto; reflexivity.
  - run_slot Ht. eexists _, _; split; eauto; reflexivity.
  - destruct Ht as (ib & Ht & Hrb). run_slot Ht.
    destruct (IH ib w tb Hd Hrb ltac:(lia)) as (rb & w1 & Hrb1 & Hd1).
    run Hrb1. destruct rb as [body|]; [|eexists _, _; split; eauto; reflexivity].
    destruct (negb (body =? ib)); [|eexists _, _; split; eauto; reflexivity].
    rewrite fun_new_node.
    destruct (new_node_total (EXPR_FUN tp body) w1 Hd1) as (i & w2 & Hi & Hd2).
    run Hi. eexists _, _; split; eauto; reflexivity.
  - destruct Ht as (il & ir & Ht & Hrl & Hrr). run_slot Ht.
    assert (Hplain :
      exists res w',
        (r <- eval1 n o il ;;
         match r with
         | None => ret None
         | Some new_lhs =>
             if negb (il =? new_lhs) then
               e1 <- app new_lhs ir ;; ret (Some e1)
             else
               r2 <- eval1 n o ir ;;
               match r2 with
               | None => ret None
               | Some new_rhs =>
                   if negb (ir =? new_rhs) then
                     e1 <- app il new_rhs ;; ret (Some e1)
                   else ret (Some expr)
               end
         end) w = Ok res w' /\ dead_ok w').
    { destruct (IH il w tl Hd Hrl ltac:(lia)) as (rl & w1 & Hrl1 & Hd1).
      run Hrl1. destruct rl as [new_lhs|]; [|eexists _, _; split; eauto; reflexivity].
      pose proof (eval1_extends _ _ _ _ _ _ Hrl1) as He1.
      destruct (negb (il =? new_lhs)).
      - rewrite app_new_node.
        destruct (new_node_total (EXPR_APP new_lhs ir) w1 Hd1) as (i & w2 & Hi & Hd2).
        run Hi. eexists _, _; split; eauto; reflexivity.
      - destruct (IH ir w1 tr Hd1 (Repr_extends _ _ _ _ He1 Hrr) ltac:(lia))
          as (rr & w2 & Hrr1 & Hd2).
        run Hrr1. destruct rr as [new_rhs|]; [|eexists _, _; split; eauto; reflexivity].
        destruct (negb (ir =? new_rhs)); [|eexists _, _; split; eauto; reflexivity].
        rewrite app_new_node.
        destruct (new_node_total (EXPR_APP il new_rhs) w2 Hd2) as (i & w3 & Hi & Hd3).
        run Hi. eexists _, _; split; eauto; reflexivity. }
    destruct (IH ir w tr Hd Hrr ltac:(lia)) as (rr & w1 & Hrr1 & Hd1).
    pose proof (eval1_extends _ _ _ _ _ _ Hrr1) as He1.
    destruct tl as [hs|hm|hp hb|hl hr]; apply Repr_inv in Hrl.
    + run_slot Hrl. exact Hplain.
    + run_slot Hrl. destruct (String.eqb hm "trace").
      { run Hrr1. destruct rr as [new_rhs|]; [|eexists _, _; split; eauto; reflexivity].
        destruct (new_rhs =? ir).
        - unfold emit at 1, modify at 1. unfold bind at 1.
          unfold trace_expr.
          pose proof (Repr_set_stdout _ (stdout w1 ++ ["TRACE: "%string]) _ _
                        (Repr_extends _ _ _ _ He1 Hrr)) as Hrr2.
          unfold bind.
          rewrite (expr_display_Repr _ _ _ Hrr2 n false ltac:(lia)).
          eexists _, _. split; [reflexivity|]. exact Hd1.
        - rewrite app_new_node.
          destruct (new_node_total (EXPR_APP il new_rhs) w1 Hd1) as (i & w2 & Hi & Hd2).
          run Hi. eexists _, _; split; eauto; reflexivity. }
      destruct (String.eqb hm "void").
      { run Hrr1. destruct rr as [new_rhs|]; [|eexists _, _; split; eauto; reflexivity].
        destruct (new_rhs =? ir); [eexists _, _; split; eauto; reflexivity|].
        rewrite app_new_node.
        destruct (new_node_total (EXPR_APP il new_rhs) w1 Hd1) as (i & w2 & Hi & Hd2).
        run Hi. eexists _, _; split; eauto; reflexivity. }
      eexists _, _. split; [reflexivity|]. exact Hd.
    + destruct Hrl as (jb & Hrl & Hhb). run_slot Hrl.
      destruct (replace_total n o hp jb ir w hb tr Hd Hhb Hrr ltac:(simpl in Hn; lia))
        as (r & w2 & Hrep & Hd2).
      run Hrep. eexists _, _; split; eauto; reflexivity.
    + destruct Hrl as (jl & jr & Hrl & _). run_slot Hrl. exact Hplain.
Qed.

(** C1: [replace] follows the case analysis of the specification's
    [subst].  For [body] and [arg] standing for the trees [tb] and [ta],
    whatever [replace] returns stands for the tree that [Subst] relates
    to them (a [Var] equal to [param] becomes [arg], another [Var] and a
    [Magic] stay, an [App] is substituted into on both sides, a [Fun]
    that binds [param] stays, a [Fun] whose parameter is not free in
    [arg] keeps it, and one whose parameter is free in [arg] is first
    renamed to a fresh tag), and with [size tb + size ta] fuel and a
    sound free list [replace] does return. *)
Theorem replace_follows_subst fuel o param body arg w tb ta :
  Repr w body tb -> Repr w arg ta ->
  (forall r w', replace fuel o param body arg w = Ok r w' ->
     exists tr, Repr w' r tr /\
       Subst o param ta (global_counter w) tb tr (global_counter w')) /\
  (dead_ok w -> size tb + size ta <= fuel ->
     exists r w', replace fuel o param body arg w = Ok r w').
Proof.
  intros Hb Ha. split.
  - intros r w' H. eapply replace_Subst; eauto.
  - intros Hd Hn.
    destruct (replace_total fuel o param body arg w tb ta Hd Hb Ha Hn)
      as (r & w' & H & _). eauto.
Qed.

(** C2: the free variables of what [replace] returns are among those of
    [body] other than [param] and those of [arg]; [free_in] is the
    free-variable test of the specification, and it is what
    [is_var_free_there] computes on the slots involved. *)
Theorem replace_free_variables fuel o param body arg w r w' tb ta :
  Repr w body tb -> Repr w arg ta ->
  replace fuel o param body arg w = Ok r w' ->
  exists tr,
    Repr w' r tr /\
    (forall v, free_in v tr = true ->
       (free_in v tb = true /\ v <> param) \/ free_in v ta = true) /\
    (forall v k, size tr <= k ->
       is_var_free_there k v r w' = Ok (free_in v tr) w') /\
    (forall v k, size tb <= k ->
       is_var_free_there k v body w = Ok (free_in v tb) w) /\
    (forall v k, size ta <= k ->
       is_var_free_there k v arg w = Ok (free_in v ta) w).
Proof.
  intros Hb Ha H.
  destruct (replace_Subst _ _ _ _ _ _ _ _ _ _ Hb Ha H) as (tr & Hr & Hs).
  exists tr. split; [assumption|]. split.
  - intros v Hv. eapply Subst_free_in; eauto.
  - repeat split; intros v k Hk; apply is_var_free_there_Repr; assumption.
Qed.

(** ** The bounded driver *)

Lemma eval_bounded_ends fuel o max_mass :
  forall limit start w res w',
    eval_bounded fuel o start limit max_mass w = Ok res w' ->
    exists k curr wk,
      Iter fuel o max_mass k start w curr wk /\
      ends fuel o max_mass limit k curr wk res w'.
Proof.
  induction limit as [|limit IH]; intros start w res w' H; simpl in H.
  - mret H. exists 0, start, w'. split; [constructor|].
    unfold ends. simpl. auto.
  - mbind H as too_big w1 Hm.
    assert (Hcheck : w1 = w /\
              (too_big = true -> mass_exceeded fuel max_mass start w) /\
              (too_big = false -> mass_ok fuel max_mass start w)).
    { destruct (Z.gtb_spec max_mass 0) as [Hpos|Hle].
      - mbind Hm as m w2 Hmass. mret Hm.
        pose proof (expr_mass_pure _ _ _ _ _ Hmass) as ->.
        split; [reflexivity|]. split; intros Hb.
        + split; [lia|]. exists m. split; [assumption|].
          apply Z.gtb_lt in Hb. lia.
        + right. exists m. split; [assumption|].
          destruct (Z.gtb_spec m max_mass); [discriminate | lia].
      - mret Hm. split; [reflexivity|]. split; [discriminate|].
        intros _. left. lia. }
    destruct Hcheck as (-> & Hbig & Hok).
    destruct too_big.
    + mret H. exists 0, start, w'. split; [constructor|].
      simpl. split; [reflexivity|]. split; [reflexivity|].
      right. split; [lia | auto].
    + specialize (Hok eq_refl). mbind H as r w1 Hev.
      destruct r as [next|].
      * destruct (Nat.eqb_spec start next) as [<-|Hne].
        -- mret H. exists 0, start, w. split; [constructor|].
           simpl. repeat split; auto; lia.
        -- destruct (IH _ _ _ _ H) as (k & curr & wk & Hit & Hend).
           exists (S k), curr, wk. split.
           ++ econstructor; eauto.
           ++ unfold ends in *. destruct (fst res);
                intuition (try lia; auto).
      * mret H. exists 0, start, w. split; [constructor|].
        simpl. repeat split; auto; lia.
Qed.

Lemma mass_check_ok fuel max_mass curr w :
  mass_ok fuel max_mass curr w ->
  (if (max_mass >? 0)%Z
   then m <- expr_mass fuel curr ;; ret (m >? max_mass)%Z
   else ret false) w = Ok false w.
Proof.
  intros [Hle|(m & Hm & Hle)].
  - destruct (Z.gtb_spec max_mass 0); [lia | reflexivity].
  - destruct (Z.gtb_spec max_mass 0); [|reflexivity].
    run Hm. unfold ret. f_equal.
    destruct (Z.gtb_spec m max_mass); [lia | reflexivity].
Qed.

Lemma mass_check_exceeded fuel max_mass curr w :
  mass_exceeded fuel max_mass curr w ->
  (if (max_mass >? 0)%Z
   then m <- expr_mass fuel curr ;; ret (m >? max_mass)%Z
   else ret false) w = Ok true w.
Proof.
  intros (Hpos & m & Hm & Hlt).
  destruct (Z.gtb_spec max_mass 0); [|lia].
  run Hm. unfold ret. f_equal.
  destruct (Z.gtb_spec m max_mass); [reflexivity | lia].
Qed.

Lemma ends_eval_bounded fuel o max_mass k start w curr wk :
  Iter fuel o max_mass k start w curr wk ->
  forall limit res w',
    ends fuel o max_mass limit k curr wk res w' ->
    eval_bounded fuel o start limit max_mass w = Ok res w'.
Proof.
  induction 1 as [curr w|k curr w next w1 curr' wk Hok Hev Hne Hit IH];
    intros limit [res out] w' Hend; unfold ends in Hend; simpl in Hend.
  - destruct res.
    + destruct Hend as (-> & Hlt & Hok & Hev).
      destruct limit as [|limit]; [lia|]. simpl.
      run (mass_check_ok _ _ _ _ Hok). run Hev.
      rewrite Nat.eqb_refl. reflexivity.
    + destruct Hend as (-> & -> & [<-|(Hlt & Hex)]).
      * reflexivity.
      * destruct limit as [|limit]; [lia|]. simpl.
        run (mass_check_exceeded _ _ _ _ Hex). reflexivity.
    + destruct Hend as (-> & Hlt & Hok & Hev).
      destruct limit as [|limit]; [lia|]. simpl.
      run (mass_check_ok _ _ _ _ Hok). run Hev. reflexivity.
  - assert (Hlim : exists limit', limit = S limit' /\
               ends fuel o max_mass limit' k curr' wk (res, out) w').
    { unfold ends. simpl. destruct limit as [|limit].
      - destruct res; intuition lia.
      - exists limit. split; [reflexivity|].
        destruct res; intuition (try lia; auto). }
    destruct Hlim as (limit' & -> & Hend').
    simpl. run (mass_check_ok _ _ _ _ Hok). run Hev.
    destruct (Nat.eqb_spec curr next) as [->|_]; [congruence|].
    apply IH. assumption.
Qed.

(** C3, as amended: [eval_bounded] makes at most [limit] turns, each a
    call of [eval1]; it returns [EVAL_LIMIT] exactly when, for a
    positive [max_mass], the mass check before a turn finds the mass
    above [max_mass], or when [limit] turns have changed the expression;
    [EVAL_ERROR] exactly when a call of [eval1] fails; and [EVAL_DONE]
    with [*out = curr] exactly when a call of [eval1] returns the index
    [curr] it was given. *)
Theorem eval_bounded_outcomes fuel o start limit max_mass w res w' :
  eval_bounded fuel o start limit max_mass w = Ok res w' <->
  exists k curr wk,
    k <= limit /\
    Iter fuel o max_mass k start w curr wk /\
    ends fuel o max_mass limit k curr wk res w'.
Proof.
  split.
  - intros H. destruct (eval_bounded_ends _ _ _ _ _ _ _ _ H)
      as (k & curr & wk & Hit & Hend).
    exists k, curr, wk. split; [|auto].
    unfold ends in Hend. destruct (fst res); intuition lia.
  - intros (k & curr & wk & _ & Hit & Hend).
    eapply ends_eval_bounded; eauto.
Qed.

(** C3, the claim as stated: with [max_mass = 0] no mass check is made,
    and [eval_bounded] returns [EVAL_DONE] on [#void] although its mass,
    1, is above the limit. *)
Lemma eval_bounded_no_mass_check_at_zero :
  expr_mass 3 0 world_void_x = Ok 1%Z world_void_x /\
  (1 > 0)%Z /\
  eval_bounded 3 Left_To_Right 0 1 0 world_void_x
    = Ok (EVAL_DONE, Some 0) world_void_x.
Proof. repeat split; vm_compute; reflexivity. Qed.

(** ** Checking concrete worlds *)

Lemma tree_of_Repr fuel w : forall i t, tree_of fuel w i = Some t -> Repr w i t.
Proof.
  induction fuel as [|n IH]; intros i t H; simpl in H; [discriminate|].
  destruct (look w i) as [[s|p b|l r|m]|] eqn:Hl; try discriminate.
  - invc H. apply Repr_Var. assumption.
  - destruct (tree_of n w b) as [tb|] eqn:Hb; [|discriminate]. invc H.
    eapply Repr_Fun; eauto.
  - destruct (tree_of n w l) as [tl|] eqn:Htl; [|discriminate].
    destruct (tree_of n w r) as [tr|] eqn:Htr; [|discriminate]. invc H.
    eapply Repr_App; eauto.
  - invc H. apply Repr_Mag. assumption.
Qed.

Lemma nodup_nat_NoDup l : nodup_nat l = true -> NoDup l.
Proof.
  induction l as [|x l IH]; simpl; intros H; [constructor|].
  apply andb_true_iff in H as [Hx Hl]. constructor; [|auto].
  intros Hin. apply negb_true_iff in Hx.
  assert (Hex : existsb (Nat.eqb x) l = true).
  { apply existsb_exists. exists x. split; [|apply Nat.eqb_refl].
    apply list_elem_of_In. assumption. }
  congruence.
Qed.

Lemma dead_okb_dead_ok w : dead_okb w = true -> dead_ok w.
Proof.
  unfold dead_okb, dead_ok. intros H. apply andb_true_iff in H as [Hn Hf].
  split; [apply nodup_nat_NoDup; assumption|].
  intros i Hi. rewrite forallb_forall in Hf.
  specialize (Hf i ltac:(apply list_elem_of_In; assumption)).
  destruct (slots (GC w) !! i) as [e|]; [|discriminate].
  exists e. split; [reflexivity|]. apply negb_true_iff. assumption.
Qed.

Lemma replace_follows_subst_witness :
  Repr world_capture 1 (Fun (symbol "y") (Var (symbol "x"))) /\
  Repr world_capture 3 (Var (symbol "y")) /\
  (forall r w',
     replace 5 Left_To_Right (symbol "x") 1 3 world_capture = Ok r w' ->
     exists tr, Repr w' r tr /\
       Subst Left_To_Right (symbol "x") (Var (symbol "y"))
         (global_counter world_capture)
         (Fun (symbol "y") (Var (symbol "x"))) tr (global_counter w')) /\
  (dead_ok world_capture ->
   size (Fun (symbol "y") (Var (symbol "x"))) + size (Var (symbol "y")) <= 5 ->
   exists r w', replace 5 Left_To_Right (symbol "x") 1 3 world_capture = Ok r w').
Proof.
  split; [apply (tree_of_Repr 5); vm_compute; reflexivity|].
  split; [apply (tree_of_Repr 5); vm_compute; reflexivity|].
  apply (replace_follows_subst 5 Left_To_Right (symbol "x") 1 3 world_capture);
    apply (tree_of_Repr 5); vm_compute; reflexivity.
Defined.

Lemma replace_free_variables_witness :
  Repr world_capture 1 (Fun (symbol "y") (Var (symbol "x"))) /\
  Repr world_capture 3 (Var (symbol "y")) /\
  replace 5 Left_To_Right (symbol "x") 1 3 world_capture
    = Ok 6 world_capture_replaced /\
  exists tr,
    Repr world_capture_replaced 6 tr /\
    (forall v, free_in v tr = true ->
       (free_in v (Fun (symbol "y") (Var (symbol "x"))) = true /\ v <> symbol "x") \/
       free_in v (Var (symbol "y")) = true) /\
    (forall v k, size tr <= k ->
       is_var_free_there k v 6
         world_capture_replaced
       = Ok (free_in v tr)
           world_capture_replaced) /\
    (forall v k, size (Fun (symbol "y") (Var (symbol "x"))) <= k ->
       is_var_free_there k v 1 world_capture
       = Ok (free_in v (Fun (symbol "y") (Var (symbol "x")))) world_capture) /\
    (forall v k, size (Var (symbol "y")) <= k ->
       is_var_free_there k v 3 world_capture
       = Ok (free_in v (Var (symbol "y"))) world_capture).
Proof.
  split; [apply (tree_of_Repr 5); vm_compute; reflexivity|].
  split; [apply (tree_of_Repr 5); vm_compute; reflexivity|].
  split; [vm_compute; reflexivity|].
  apply (replace_free_variables 5 Left_To_Right (symbol "x") 1 3 world_capture);
    [apply (tree_of_Repr 5); vm_compute; reflexivity
    | apply (tree_of_Repr 5); vm_compute; reflexivity
    | vm_compute; reflexivity].
Defined.

Lemma evaluation_non_destructive_witness :
  ((exists param body arg r,
      replace 5 Left_To_Right param body arg world_capture
      = Ok r world_capture_stepped) \/
   (exists expr r,
      eval1 5 Left_To_Right expr world_capture
      = Ok r world_capture_stepped)) /\
  frame_live world_capture world_capture_stepped /\
  (forall i,
     slots (GC world_capture_stepped) !! i
     <> slots (GC world_capture) !! i ->
     look world_capture i = None) /\
  (forall k chain i s,
     expr_display k chain i world_capture = Ok s world_capture ->
     expr_display k chain i world_capture_stepped
     = Ok s world_capture_stepped).
Proof.
  assert (H : (exists param body arg r,
      replace 5 Left_To_Right param body arg world_capture
      = Ok r world_capture_stepped) \/
   (exists expr r,
      eval1 5 Left_To_Right expr world_capture
      = Ok r world_capture_stepped)).
  { right. exists 4, (Some 6). vm_compute. reflexivity. }
  split; [exact H|].
  exact (evaluation_non_destructive 5 Left_To_Right world_capture _ H).
Defined.

(** ** Claims about the reducer *)

(** C4, the claim as stated: in [#void x] the head is not a function,
    one step leaves the left child and the right child as they are, and
    yet [eval1] does not return the application's own index 2: the head
    is a magic, and the step is the dispatch of [#void]. *)
Lemma eval1_magic_head_not_left_first :
  tree_of 3 world_void_x 2 = Some (App (Mag "void") (Var (symbol "x"))) /\
  look world_void_x 2 = Some (EXPR_APP 0 1) /\
  eval1 3 Left_To_Right 0 world_void_x = Ok (Some 0) world_void_x /\
  eval1 3 Left_To_Right 1 world_void_x = Ok (Some 1) world_void_x /\
  eval1 3 Left_To_Right 2 world_void_x = Ok (Some 0) world_void_x /\
  0 <> 2.
Proof. repeat split; try (vm_compute; reflexivity). discriminate. Qed.

(** C4, as amended: [eval1] is the single-step reducer of the
    specification, [Step]: a [Var] and a [Magic] are unchanged; a [Fun]
    steps its body and is rebuilt only when the body changed; an [App]
    with a [Fun] at its head is beta-reduced at once; an [App] with a
    [Magic] at its head is dispatched; any other [App] steps its left
    child first and its right child only when the left did not change.
    [eval1] returns the index it was given exactly when the step is
    [Unchanged], and with [size t] fuel and a sound free list it
    returns. *)
Theorem eval1_normal_order fuel o expr w t :
  Repr w expr t ->
  (forall res w', eval1 fuel o expr w = Ok res w' ->
     exists out ls,
       Step o (global_counter w) t out (global_counter w') ls /\
       stdout w' = stdout w ++ ls /\
       agrees w' expr out res) /\
  (dead_ok w -> size t <= fuel ->
     exists res w', eval1 fuel o expr w = Ok res w').
Proof.
  intros Ht. split.
  - intros res w' H. eapply eval1_Step; eauto.
  - intros Hd Hn.
    destruct (eval1_total fuel o expr w t Hd Ht Hn) as (res & w' & H & _). eauto.
Qed.

Lemma eval1_normal_order_witness :
  Repr world_capture 4
    (App (Fun (symbol "x") (Fun (symbol "y") (Var (symbol "x")))) (Var (symbol "y"))) /\
  eval1 5 Left_To_Right 4 world_capture = Ok (Some 6) world_capture_stepped /\
  (exists out ls,
     Step Left_To_Right (global_counter world_capture)
       (App (Fun (symbol "x") (Fun (symbol "y") (Var (symbol "x"))))
          (Var (symbol "y")))
       out (global_counter world_capture_stepped) ls /\
     stdout world_capture_stepped = stdout world_capture ++ ls /\
     agrees world_capture_stepped 4 out (Some 6)) /\
  (exists res w', eval1 5 Left_To_Right 4 world_capture = Ok res w').
Proof.
  assert (Hr : Repr world_capture 4
            (App (Fun (symbol "x") (Fun (symbol "y") (Var (symbol "x"))))
               (Var (symbol "y")))).
  { apply (tree_of_Repr 5). vm_compute. reflexivity. }
  assert (He : eval1 5 Left_To_Right 4 world_capture
               = Ok (Some 6) world_capture_stepped).
  { vm_compute. reflexivity. }
  split; [exact Hr|]. split; [exact He|]. split.
  - exact (proj1 (eval1_normal_order 5 Left_To_Right 4 world_capture _ Hr) _ _ He).
  - apply (proj2 (eval1_normal_order 5 Left_To_Right 4 world_capture _ Hr)).
    + apply dead_okb_dead_ok. vm_compute. reflexivity.
    + simpl. lia.
Defined.

#[export] Instance keeps_dead_ok_PreOrder : PreOrder keeps_dead_ok.
Proof.
  split.
  - intros w H. exact H.
  - intros w1 w2 w3 H1 H2 H. auto.
Qed.

Lemma eval_stable_keeps_dead_ok : eval_stable keeps_dead_ok.
Proof.
  split; [split; [typeclasses eauto | split]|].
  - intros a w i w' H Hd.
    destruct (new_node_total a w Hd) as (i' & w'' & H' & Hd').
    rewrite H in H'. invc H'. assumption.
  - intros s w a w' H Hd. invc H. exact Hd.
  - intros s w u w' H Hd. apply emit_Ok in H as ->. exact Hd.
Qed.

Lemma app_total lhs rhs w :
  dead_ok w ->
  exists r w', app lhs rhs w = Ok r w' /\ look w' r = Some (EXPR_APP lhs rhs) /\
    extends w w' /\ look w r = None.
Proof.
  intros Hd. rewrite app_new_node.
  destruct (new_node_total (EXPR_APP lhs rhs) w Hd) as (r & w' & H & _).
  exists r, w'. split; [assumption|].
  pose proof (new_node_Ok _ _ _ _ H) as Hf.
  split; [apply Hf|]. split; [eapply fresh_node_extends; eauto | apply Hf].
Qed.

(** C5: the magic dispatch of [eval1].  For [#void] and [#trace], when
    one step changes the argument to [e'] the result is a new
    application of the same magic node to [e']; when the argument is a
    normal form (its step returns the index given), [#void] returns the
    magic node itself, and [#trace] writes the trace line and returns
    the argument.  For any other label [eval1] fails, and a failing
    [eval1] makes [eval_bounded] return [EVAL_ERROR]. *)
Theorem magic_dispatch n o expr lhs rhs m w :
  look w expr = Some (EXPR_APP lhs rhs) ->
  look w lhs = Some (EXPR_MAG m) ->
  (m = "void"%string \/ m = "trace"%string ->
   forall e' w1,
     eval1 n o rhs w = Ok (Some e') w1 -> e' <> rhs -> dead_ok w1 ->
     exists r w2,
       eval1 (S n) o expr w = Ok (Some r) w2 /\
       look w2 r = Some (EXPR_APP lhs e') /\
       look w2 lhs = Some (EXPR_MAG m) /\
       r <> expr) /\
  (m = "void"%string ->
   forall w1, eval1 n o rhs w = Ok (Some rhs) w1 ->
     eval1 (S n) o expr w = Ok (Some lhs) w1) /\
  (m = "trace"%string ->
   forall w1 s,
     eval1 n o rhs w = Ok (Some rhs) w1 ->
     expr_display n false rhs w1 = Ok s w1 ->
     eval1 (S n) o expr w
     = Ok (Some rhs) (set_stdout (stdout w1 ++ ["TRACE: "%string; s; newline]) w1)) /\
  (m <> "void"%string -> m <> "trace"%string ->
   eval1 (S n) o expr w
   = Ok None (set_stdout (stdout w ++ unknown_magic_line m) w)) /\
  (forall fuel curr w0 w' limit max_mass,
     eval1 fuel o curr w0 = Ok None w' ->
     mass_ok fuel max_mass curr w0 ->
     eval_bounded fuel o curr (S limit) max_mass w0 = Ok (EVAL_ERROR, None) w').
Proof.
  intros Hexpr Hlhs.
  assert (Hrun : forall (k : Expr_As -> M (option Expr_Index)),
            (e <- expr_slot lhs ;; k (as_ e)) w = k (EXPR_MAG m) w).
  { intros k. destruct (look_bind_expr_slot _ _ _ Hlhs) as (e & Ha & _ & Hk).
    rewrite Hk, Ha. reflexivity. }
  repeat split.
  - intros Hm e' w1 Hev Hne Hd.
    destruct (app_total lhs e' w1 Hd) as (r & w2 & Happ & Hlook & Hext & Hnone).
    exists r, w2. cbn [eval1]. run_slot Hexpr.
    destruct (look_bind_expr_slot _ _ _ Hlhs) as (el & Hal & _ & Hk).
    rewrite Hk, Hal. clear Hk. cbn beta iota.
    pose proof (eval1_extends _ _ _ _ _ _ Hev) as He1.
    assert (Hneq : r <> expr).
    { intros ->. apply He1 in Hexpr. congruence. }
    apply Nat.eqb_neq in Hne.
    destruct Hm as [-> | ->]; cbn; run Hev; rewrite Hne; run Happ;
      (split; [reflexivity|]); (split; [assumption|]);
      (split; [apply Hext, He1, Hlhs | assumption]).
  - intros -> w1 Hev. cbn [eval1]. run_slot Hexpr.
    destruct (look_bind_expr_slot _ _ _ Hlhs) as (el & Hal & _ & Hk).
    rewrite Hk, Hal. clear Hk. cbn. run Hev. rewrite Nat.eqb_refl. reflexivity.
  - intros -> w1 s Hev Hdisp. cbn [eval1]. run_slot Hexpr.
    destruct (look_bind_expr_slot _ _ _ Hlhs) as (el & Hal & _ & Hk).
    rewrite Hk, Hal. clear Hk. cbn. run Hev. rewrite Nat.eqb_refl.
    unfold trace_expr, emit, modify, bind.
    assert (Hd2 : expr_display n false rhs
                    (set_stdout (stdout w1 ++ ["TRACE: "%string]) w1)
                  = Ok s (set_stdout (stdout w1 ++ ["TRACE: "%string]) w1)).
    { apply (expr_display_extends w1); [apply frame_stdout_extends | assumption]. }
    rewrite Hd2. unfold ret, newline. simpl. rewrite <- !app_assoc. reflexivity.
  - intros Hnv Hnt. cbn [eval1]. run_slot Hexpr.
    destruct (look_bind_expr_slot _ _ _ Hlhs) as (el & Hal & _ & Hk).
    rewrite Hk, Hal. clear Hk. cbn beta iota.
    apply String.eqb_neq in Hnv, Hnt. rewrite Hnt, Hnv. reflexivity.
  - intros fuel curr w0 w' limit max_mass Hev Hok. simpl.
    run (mass_check_ok _ _ _ _ Hok). run Hev. reflexivity.
Qed.

Lemma magic_dispatch_witness :
  look world_magic 2 = Some (EXPR_APP 0 1) /\
  look world_magic 0 = Some (EXPR_MAG "trace") /\
  eval1 4 Left_To_Right 2 world_magic
  = Ok (Some 1)
      (set_stdout (stdout world_magic ++ ["TRACE: "%string; "x"%string; newline])
         world_magic).
Proof.
  split; [vm_compute; reflexivity|]. split; [vm_compute; reflexivity|].
  apply (magic_dispatch 3 Left_To_Right 2 0 1 "trace" world_magic);
    vm_compute; reflexivity.
Defined.

(** ** The combinator generator *)

Lemma gen_stable_extends : gen_stable extends.
Proof.
  split; [apply alloc_stable_extends|].
  intros w a w' H. invc H. intros i b Hi. exact Hi.
Qed.

Lemma gen_stable_keeps_dead_ok : gen_stable keeps_dead_ok.
Proof.
  split; [apply eval_stable_keeps_dead_ok|].
  intros w a w' H. invc H. intros Hd. exact Hd.
Qed.

Lemma gen_stable_keeps_grid : gen_stable (keeps active_grid).
Proof.
  split; [apply alloc_stable_keeps_grid|].
  intros w a w' H. invc H. reflexivity.
Qed.

Lemma pure_env_at env i : pure (env_at env i).
Proof.
  intros w a w' H. unfold env_at in H.
  destruct (i <? 0)%Z; [discriminate|].
  destruct (env !! Z.to_nat i); [|discriminate]. invc H. reflexivity.
Qed.

Lemma stable_generate R (HR : gen_stable R) fuel o :
  forall depth D env env_count,
    stable R (generate_rich_combinator fuel o depth D env env_count).
Proof.
  destruct HR as ((HP & Hnew & Hfresh) & Hrand).
  assert (Henv : forall env i, stable R (env_at env i))
    by (intros; apply pure_stable; [assumption | apply pure_env_at]).
  assert (Hid : stable R identity_fun).
  { unfold identity_fun. apply stable_bind; [assumption | |intros x];
      rewrite ?var_new_node, ?fun_new_node; apply Hnew. }
  induction fuel as [|n IH]; intros depth D env env_count; simpl.
  - apply stable_out_of_fuel.
  - stable_tac; rewrite ?var_new_node, ?fun_new_node, ?app_new_node; auto.
Qed.

Lemma scoped_incl t : forall e1 e2,
  (forall x, In x e1 -> In x e2) -> scoped e1 t -> scoped e2 t.
Proof.
  induction t as [s|m|p b IH|l IHl r IHr]; intros e1 e2 Hin Hs; simpl in *.
  - auto.
  - exact I.
  - eapply IH; [|exact Hs]. intros x [->|Hx]; [left; reflexivity | right; auto].
  - destruct Hs. split; eauto.
Qed.

Lemma scoped_free_in t : forall env v,
  scoped env t -> free_in v t = true -> In v env.
Proof.
  induction t as [s|m|p b IH|l IHl r IHr]; intros env v Hs Hf; simpl in *.
  - apply symbol_eq_true in Hf. subst. assumption.
  - discriminate.
  - destruct (symbol_eq p v) eqn:E; [discriminate|].
    destruct (IH _ _ Hs Hf) as [->|Hin]; [|assumption].
    rewrite symbol_eq_refl in E. discriminate.
  - destruct Hs as [Hl Hr]. apply orb_true_iff in Hf as [Hf|Hf]; eauto.
Qed.

Lemma scoped_closed t : scoped [] t -> closed t.
Proof.
  intros Hs v. destruct (free_in v t) eqn:E; [|reflexivity].
  destruct (scoped_free_in _ _ _ Hs E).
Qed.

Lemma identity_fun_Ok w r w' :
  identity_fun w = Ok r w' ->
  Repr w' r (Fun (symbol "x") (Var (symbol "x"))).
Proof.
  unfold identity_fun. intros H. mbind H as x w1 Hx.
  rewrite var_new_node in Hx. rewrite fun_new_node in H.
  apply new_node_Ok in Hx, H.
  eapply Repr_fresh_Fun; [exact H|]. eapply Repr_fresh_Var. exact Hx.
Qed.

Lemma pick_var_Ok env env_count w r w' :
  (r0 <- rand ;; nm <- env_at env (Z.rem r0 env_count) ;; var (symbol nm)) w
  = Ok r w' ->
  exists nm, In nm env /\ Repr w' r (Var (symbol nm)).
Proof.
  intros H. mbind H as r0 w1 Hr. mbind H as nm w2 Hnm.
  unfold env_at in Hnm. destruct (Z.rem r0 env_count <? 0)%Z; [discriminate|].
  destruct (env !! Z.to_nat (Z.rem r0 env_count)) as [s|] eqn:Hs; [|discriminate].
  invc Hnm. exists nm. split.
  - apply list_elem_of_In. eapply list_elem_of_lookup_2. exact Hs.
  - rewrite var_new_node in H. apply new_node_Ok in H.
    eapply Repr_fresh_Var. exact H.
Qed.

(** Every [Var] of a generated expression names a parameter of [env] or
    of an enclosing [Fun] of the expression itself. *)
Lemma generate_scoped fuel o :
  forall depth D env w r w',
    generate_rich_combinator fuel o depth D env (Z.of_nat (length env)) w = Ok r w' ->
    exists t, Repr w' r t /\ scoped (map symbol env) t.
Proof.
  induction fuel as [|n IH]; intros depth D env w r w' H; simpl in H; [discriminate|].
  assert (Hpick : forall w r w',
    (r0 <- rand ;; nm <- env_at env (Z.rem r0 (Z.of_nat (length env))) ;;
     var (symbol nm)) w = Ok r w' ->
    exists t, Repr w' r t /\ scoped (map symbol env) t).
  { intros w0 r0 w0' Hp. apply pick_var_Ok in Hp as (nm & Hin & Hr).
    exists (Var (symbol nm)). split; [assumption|]. simpl.
    apply in_map. assumption. }
  assert (Hid : forall w r w', identity_fun w = Ok r w' ->
    exists t, Repr w' r t /\ scoped (map symbol env) t).
  { intros w0 r0 w0' Hi. apply identity_fun_Ok in Hi.
    eexists. split; [exact Hi|]. simpl. left. reflexivity. }
  assert (Habs : forall w r w',
    (if (Z.of_nat (length env) >=? 63)%Z then identity_fun
     else if (Z.of_nat (length env) <? Z.of_nat (length env))%Z then abort
     else
       b <- generate_rich_combinator n o (depth + 1) D
              (take (Z.to_nat (Z.of_nat (length env))) env ++
               [("v" ++ string_of_int (Z.of_nat (length env)))%string])
              (Z.of_nat (length env) + 1) ;;
       fun_ (symbol ("v" ++ string_of_int (Z.of_nat (length env)))) b) w = Ok r w' ->
    exists t, Repr w' r t /\ scoped (map symbol env) t).
  { intros w0 r0 w0' Ha.
    destruct (Z.of_nat (length env) >=? 63)%Z; [eauto|].
    rewrite Z.ltb_irrefl in Ha. mbind Ha as b w1 Hb.
    rewrite Nat2Z.id, firstn_all in Hb.
    replace (Z.of_nat (length env) + 1)%Z
      with (Z.of_nat (length (env ++ [("v" ++ string_of_int (Z.of_nat (length env)))%string])))
      in Hb by (rewrite length_app; simpl; lia).
    apply IH in Hb as (tb & Hrb & Hsb).
    rewrite fun_new_node in Ha. apply new_node_Ok in Ha.
    eexists. split; [eapply Repr_fresh_Fun; eauto|]. simpl.
    eapply scoped_incl; [|exact Hsb].
    intros x Hx. rewrite map_app in Hx. apply in_app_or in Hx as [Hx|[<-|[]]];
      [right; assumption | left; reflexivity]. }
  assert (Happ : forall w r w',
    (lr <- args2 o
             (generate_rich_combinator n o (depth + 1) D env (Z.of_nat (length env)))
             (generate_rich_combinator n o (depth + 1) D env (Z.of_nat (length env))) ;;
     app (fst lr) (snd lr)) w = Ok r w' ->
    exists t, Repr w' r t /\ scoped (map symbol env) t).
  { intros w0 r0 w0' Ha. mbind Ha as lr w1 Hlr.
    rewrite app_new_node in Ha. apply new_node_Ok in Ha.
    destruct o; simpl in Hlr.
    - mbind Hlr as l w2 Hl. mbind Hlr as r1 w3 Hr1. mret Hlr. simpl in Ha.
      pose proof (stable_generate _ gen_stable_extends _ _ _ _ _ _ _ _ _ Hr1) as He.
      apply IH in Hl as (tl & Hrl & Hsl). apply IH in Hr1 as (tr & Hrr & Hsr).
      exists (App tl tr). split; [|split; assumption].
      eapply Repr_fresh_App; eauto. eapply Repr_extends; eauto.
    - mbind Hlr as r1 w2 Hr1. mbind Hlr as l w3 Hl. mret Hlr. simpl in Ha.
      pose proof (stable_generate _ gen_stable_extends _ _ _ _ _ _ _ _ _ Hl) as He.
      apply IH in Hl as (tl & Hrl & Hsl). apply IH in Hr1 as (tr & Hrr & Hsr).
      exists (App tl tr). split; [|split; assumption].
      eapply Repr_fresh_App; eauto. eapply Repr_extends; eauto. }
  destruct (depth >=? D)%Z.
  - destruct (Z.of_nat (length env) >? 0)%Z; eauto.
  - destruct (Z.of_nat (length env) =? 0)%Z; [eauto|].
    mbind H as r0 w1 Hr0.
    destruct (depth <? D ÷ 3)%Z.
    + destruct (Z.rem r0 100 <? 60)%Z; eauto.
    + destruct (Z.rem r0 100 <? 50)%Z; [eauto|].
      destruct (Z.rem r0 100 <? 80)%Z; eauto.
Qed.

Lemma identity_fun_total w :
  dead_ok w -> exists r w', identity_fun w = Ok r w' /\ dead_ok w'.
Proof.
  intros Hd. unfold identity_fun. rewrite var_new_node.
  destruct (new_node_total (EXPR_VAR (symbol "x")) w Hd) as (x & w1 & Hx & Hd1).
  run Hx. rewrite fun_new_node. apply new_node_total. assumption.
Qed.

Lemma pick_var_total env w :
  dead_ok w -> (Z.of_nat (length env) > 0)%Z ->
  exists r w',
    (r0 <- rand ;; nm <- env_at env (Z.rem r0 (Z.of_nat (length env))) ;;
     var (symbol nm)) w = Ok r w' /\ dead_ok w'.
Proof.
  intros Hd Hpos. unfold rand at 1. unfold bind at 1.
  set (r0 := Z.of_nat (rand_seq w (rand_pos w))).
  assert (Hr : (0 <= Z.rem r0 (Z.of_nat (length env)) < Z.of_nat (length env))%Z).
  { apply Z.rem_bound_pos; unfold r0; lia. }
  unfold env_at at 1. unfold bind at 1.
  destruct (Z.ltb_spec (Z.rem r0 (Z.of_nat (length env))) 0) as [Hneg|_]; [lia|].
  destruct (env !! Z.to_nat (Z.rem r0 (Z.of_nat (length env)))) as [nm|] eqn:Hnm.
  - rewrite var_new_node. apply new_node_total. exact Hd.
  - apply lookup_ge_None in Hnm. lia.
Qed.

(** With more fuel than [max_depth - current_depth] and a sound free
    list, the generator returns. *)
Lemma generate_total fuel o :
  forall depth D env w,
    dead_ok w -> Z.to_nat (D - depth) < fuel ->
    exists r w',
      generate_rich_combinator fuel o depth D env (Z.of_nat (length env)) w
      = Ok r w' /\ dead_ok w'.
Proof.
  induction fuel as [|n IH]; intros depth D env w Hd Hn; [lia|].
  cbn [generate_rich_combinator].
  destruct (Z.geb_spec depth D) as [Hge|Hlt].
  - destruct (Z.gtb_spec (Z.of_nat (length env)) 0) as [Hpos|Hz].
    + apply pick_var_total; [assumption | lia].
    + apply identity_fun_total. assumption.
  - assert (Hn' : Z.to_nat (D - (depth + 1)) < n) by lia.
    assert (Habs : forall w, dead_ok w -> exists r w',
      (if (Z.of_nat (length env) >=? 63)%Z then identity_fun
       else if (Z.of_nat (length env) <? Z.of_nat (length env))%Z then abort
       else
         b <- generate_rich_combinator n o (depth + 1) D
                (take (Z.to_nat (Z.of_nat (length env))) env ++
                 [("v" ++ string_of_int (Z.of_nat (length env)))%string])
                (Z.of_nat (length env) + 1) ;;
         fun_ (symbol ("v" ++ string_of_int (Z.of_nat (length env)))) b) w
      = Ok r w' /\ dead_ok w').
    { intros w0 Hd0.
      destruct (Z.of_nat (length env) >=? 63)%Z; [apply identity_fun_total; assumption|].
      rewrite Z.ltb_irrefl, Nat2Z.id, firstn_all.
      replace (Z.of_nat (length env) + 1)%Z
        with (Z.of_nat (length (env ++ [("v" ++ string_of_int (Z.of_nat (length env)))%string])))
        by (rewrite length_app; simpl; lia).
      destruct (IH (depth + 1)%Z D
                  (env ++ [("v" ++ string_of_int (Z.of_nat (length env)))%string])
                  w0 Hd0 Hn') as (b & w1 & Hb & Hd1).
      run Hb. rewrite fun_new_node. apply new_node_total. assumption. }
    assert (Happ : forall w, dead_ok w -> exists r w',
      (lr <- args2 o
               (generate_rich_combinator n o (depth + 1) D env (Z.of_nat (length env)))
               (generate_rich_combinator n o (depth + 1) D env (Z.of_nat (length env))) ;;
       app (fst lr) (snd lr)) w = Ok r w' /\ dead_ok w').
    { intros w0 Hd0.
      destruct (IH (depth + 1)%Z D env w0 Hd0 Hn') as (a & w1 & Ha & Hd1).
      destruct (IH (depth + 1)%Z D env w1 Hd1 Hn') as (b & w2 & Hb & Hd2).
      destruct o; cbn [args2]; unfold bind at 2; unfold bind at 1; rewrite Ha;
        unfold bind at 1; rewrite Hb; cbn; rewrite app_new_node;
        apply new_node_total; assumption. }
    destruct (Z.of_nat (length env) =? 0)%Z eqn:Ez; [apply Habs; assumption|].
    unfold rand at 1. unfold bind at 1.
    assert (Hd' : dead_ok (set_rand_pos (S (rand_pos w)) w)) by exact Hd.
    destruct (depth <? D ÷ 3)%Z.
    + destruct (_ <? 60)%Z; [apply Happ | apply Habs]; assumption.
    + destruct (_ <? 50)%Z; [apply Happ; assumption|].
      destruct (_ <? 80)%Z; [apply Habs; assumption|].
      apply pick_var_total; [assumption|]. apply Z.eqb_neq in Ez. lia.
Qed.

(** C9: whatever the random choices, [generate_rich_combinator(0, D,
    NULL, 0)] returns, and what it returns is a closed expression, each
    of whose variables names the parameter of a [Fun] around it.  At the
    depth limit the result is a variable named in the environment when
    there is one, and the identity function otherwise. *)
Theorem generate_closed fuel o D w :
  (forall r w',
     generate_rich_combinator fuel o 0 D [] 0 w = Ok r w' ->
     exists t, Repr w' r t /\ closed t /\ scoped [] t) /\
  (dead_ok w -> Z.to_nat D < fuel ->
   exists r w', generate_rich_combinator fuel o 0 D [] 0 w = Ok r w') /\
  (forall depth env r w',
     (D <= depth)%Z ->
     generate_rich_combinator fuel o depth D env (Z.of_nat (length env)) w
     = Ok r w' ->
     match env with
     | [] => Repr w' r (Fun (symbol "x") (Var (symbol "x")))
     | _ :: _ => exists nm, In nm env /\ Repr w' r (Var (symbol nm))
     end).
Proof.
  split; [|split].
  - intros r w' H.
    apply (generate_scoped fuel o 0%Z D [] w r w') in H as (t & Hr & Hs).
    exists t. split; [assumption|]. split; [apply scoped_closed|]; assumption.
  - intros Hd Hn.
    destruct (generate_total fuel o 0%Z D [] w Hd ltac:(rewrite Z.sub_0_r; exact Hn))
      as (r & w' & H & _). eauto.
  - intros depth env r w' Hge H. destruct fuel as [|n]; [discriminate|].
    cbn [generate_rich_combinator] in H.
    destruct (Z.geb_spec depth D) as [_|Hlt]; [|lia].
    destruct env as [|nm0 env].
    + simpl in H. apply identity_fun_Ok in H. exact H.
    + destruct (Z.gtb_spec (Z.of_nat (length (nm0 :: env))) 0) as [_|Hle];
        [|simpl in Hle; lia].
      apply pick_var_Ok in H. exact H.
Qed.

Lemma generate_closed_witness :
  dead_ok empty_world /\ Z.to_nat 3 < 5 /\
  exists r w', generate_rich_combinator 5 Left_To_Right 0 3 [] 0 empty_world = Ok r w'.
Proof.
  assert (Hd : dead_ok empty_world) by (apply dead_okb_dead_ok; vm_compute; reflexivity).
  split; [exact Hd|]. split; [vm_compute; lia|].
  apply (generate_closed 5 Left_To_Right 3 empty_world); [exact Hd | vm_compute; lia].
Defined.

(** ** The grid *)

Lemma cell_at_Ok cs i w c w' :
  cell_at cs i w = Ok c w' ->
  w' = w /\ (0 <= i)%Z /\ cs !! Z.to_nat i = Some c.
Proof.
  unfold cell_at. destruct (Z.ltb_spec i 0) as [Hneg|Hpos]; [discriminate|].
  destruct (cs !! Z.to_nat i) eqn:E; [|discriminate].
  intros Hx. invc Hx. auto.
Qed.

Lemma read_cell_Ok i w c w' :
  read_cell i w = Ok c w' -> w' = w /\ cell_of (active_grid w) i = Some c.
Proof.
  unfold read_cell, get_grid, cell_of. intros H. mbind H as g w1 Hg. invc Hg.
  destruct (cells (active_grid w1)) as [cs|]; [|discriminate].
  apply cell_at_Ok in H as (-> & Hi & Hc). split; [reflexivity|].
  destruct (Z.ltb_spec i 0); [lia | assumption].
Qed.

Lemma write_cell_Ok i c w u w' :
  write_cell i c w = Ok u w' ->
  (exists c0, cell_of (active_grid w) i = Some c0) /\
  w' = set_grid (put_cell i c (active_grid w)) w.
Proof.
  unfold write_cell, get_grid, cell_of, put_cell. intros H.
  mbind H as g w1 Hg. invc Hg.
  destruct (cells (active_grid w1)) as [cs|]; [|discriminate].
  mbind H as c0 w2 Hc. apply cell_at_Ok in Hc as (-> & Hi & Hc).
  invc H. split; [|reflexivity]. exists c0.
  destruct (Z.ltb_spec i 0); [lia | assumption].
Qed.

Lemma modify_cell_Ok i f w u w' :
  modify_cell i f w = Ok u w' ->
  exists c, cell_of (active_grid w) i = Some c /\
    w' = set_grid (put_cell i (f c) (active_grid w)) w.
Proof.
  unfold modify_cell. intros H. mbind H as c w1 Hc.
  apply read_cell_Ok in Hc as [-> Hc]. apply write_cell_Ok in H as [_ ->]. eauto.
Qed.

Lemma update_grid_Ok f w u w' :
  update_grid f w = Ok u w' -> w' = set_grid (f (active_grid w)) w.
Proof. intros H. invc H. reflexivity. Qed.

Lemma cell_of_put_same g i x c :
  cell_of (put_cell i x g) i = Some c -> c = x.
Proof.
  unfold cell_of, put_cell. destruct (cells g) as [cs|] eqn:E; simpl.
  - destruct (i <? 0)%Z; [discriminate|]. intros H.
    assert (Z.to_nat i < length cs).
    { apply lookup_lt_Some in H. rewrite length_insert in H. assumption. }
    rewrite list_lookup_insert_eq in H by assumption. congruence.
  - rewrite E. discriminate.
Qed.

Lemma cell_of_put_eq g i x c0 :
  cell_of g i = Some c0 -> cell_of (put_cell i x g) i = Some x.
Proof.
  unfold cell_of, put_cell. destruct (cells g) as [cs|] eqn:E; simpl; [|discriminate].
  destruct (i <? 0)%Z; [discriminate|]. intros H.
  apply list_lookup_insert_eq. eapply lookup_lt_Some; eauto.
Qed.

Lemma cell_of_put_ne g i j x :
  (0 <= i)%Z -> (0 <= j)%Z -> i <> j ->
  cell_of (put_cell i x g) j = cell_of g j.
Proof.
  intros Hi Hj Hne. unfold cell_of, put_cell.
  destruct (cells g) as [cs|] eqn:E; simpl; [|rewrite E; reflexivity].
  destruct (j <? 0)%Z; [reflexivity|].
  apply list_lookup_insert_ne. lia.
Qed.

Lemma cell_of_nonneg g i c : cell_of g i = Some c -> (0 <= i)%Z.
Proof.
  unfold cell_of. destruct (cells g); [|discriminate].
  destruct (Z.ltb_spec i 0); [discriminate | lia].
Qed.

Lemma put_put_eq g i x y : put_cell i y (put_cell i x g) = put_cell i y g.
Proof.
  unfold put_cell. destruct (cells g) as [cs|] eqn:E; simpl; [|rewrite E; reflexivity].
  unfold set_cells. simpl. rewrite list_insert_insert_eq. reflexivity.
Qed.

Lemma put_cell_width i c g : width (put_cell i c g) = width g.
Proof. unfold put_cell. destruct (cells g); reflexivity. Qed.
Lemma put_cell_height i c g : height (put_cell i c g) = height g.
Proof. unfold put_cell. destruct (cells g); reflexivity. Qed.
Lemma put_cell_reactions_success i c g :
  reactions_success (put_cell i c g) = reactions_success g.
Proof. unfold put_cell. destruct (cells g); reflexivity. Qed.
Lemma put_cell_reactions_diverged i c g :
  reactions_diverged (put_cell i c g) = reactions_diverged g.
Proof. unfold put_cell. destruct (cells g); reflexivity. Qed.
Lemma put_cell_movements i c g : movements (put_cell i c g) = movements g.
Proof. unfold put_cell. destruct (cells g); reflexivity. Qed.
Lemma put_cell_deaths_age i c g : deaths_age (put_cell i c g) = deaths_age g.
Proof. unfold put_cell. destruct (cells g); reflexivity. Qed.
Lemma put_cell_cosmic_spawns i c g : cosmic_spawns (put_cell i c g) = cosmic_spawns g.
Proof. unfold put_cell. destruct (cells g); reflexivity. Qed.

Ltac put_fields :=
  rewrite ?put_cell_width, ?put_cell_height, ?put_cell_reactions_success,
    ?put_cell_reactions_diverged, ?put_cell_movements, ?put_cell_deaths_age,
    ?put_cell_cosmic_spawns.

Lemma stable_rand_keeps_grid : stable (keeps active_grid) rand.
Proof. intros w a w' H. invc H. reflexivity. Qed.

Lemma app_keeps_grid l r w i w' : app l r w = Ok i w' -> active_grid w' = active_grid w.
Proof.
  rewrite app_new_node. intros H.
  apply (stable_new_node_keeps_grid _ _ _ _ H).
Qed.

Lemma grid_idx_put i c g x y : grid_idx (put_cell i c g) x y = grid_idx g x y.
Proof. unfold grid_idx. rewrite put_cell_width, put_cell_height. reflexivity. Qed.

Lemma eval_bounded_keeps_grid fuel o e limit max_mass w r w' :
  eval_bounded fuel o e limit max_mass w = Ok r w' ->
  active_grid w' = active_grid w.
Proof. apply (stable_eval_bounded _ eval_stable_keeps_grid). Qed.

Lemma generate_keeps_grid fuel o depth D env n w r w' :
  generate_rich_combinator fuel o depth D env n w = Ok r w' ->
  active_grid w' = active_grid w.
Proof. apply (stable_generate _ gen_stable_keeps_grid). Qed.

Ltac do_modify H c Hc :=
  let u := fresh "u" in
  let w := fresh "w" in
  let Hm := fresh "Hm" in
  mbind H as u w Hm; apply modify_cell_Ok in Hm as (c & Hc & ->); simpl in Hc.

(** [Hc : cell_of g i = Some x] for a cell known by [Hk]. *)
Ltac known Hc Hk x := rewrite Hk in Hc; injection Hc as Hc; subst x.

Ltac do_read H c Hc :=
  let w := fresh "w" in
  let Hr := fresh "Hr" in
  mbind H as c w Hr; apply read_cell_Ok in Hr as [-> Hc]; simpl in Hc.

(** What [grid_update_cell] does to the grid is a [Cell_Step]. *)
Lemma grid_update_cell_Step fuel o eval_steps max_mass curr w u w' :
  grid_update_cell fuel o eval_steps max_mass curr w = Ok u w' ->
  Cell_Step curr (active_grid w) (active_grid w').
Proof.
  unfold grid_update_cell. intros H.
  do_read H c Hc0.
  mbind H as died w1 Hdied.
  destruct (occupied c) eqn:Hocc.
  - do_modify Hdied x0 Hx0. known Hx0 Hc0 x0.
    do_read Hdied x1 Hr1. apply cell_of_put_same in Hr1. subst x1.
    fold (aged c) in *.
    destruct (Z.gtb_spec (age (aged c)) MAX_AGE) as [Hold|Hyoung].
    + do_modify Hdied c2 Hc2. apply cell_of_put_same in Hc2. subst c2.
      do_modify Hdied c3 Hc3. apply cell_of_put_same in Hc3. subst c3.
      mbind Hdied as u4 w2 Hu. apply update_grid_Ok in Hu as ->. mret Hdied.
      mret H. simpl. rewrite !put_put_eq. put_fields.
      eapply CS_death; eauto. unfold aged in Hold. simpl in Hold. lia.
    + mret Hdied.
      assert (Hage : (age c + 1 <= MAX_AGE)%Z)
        by (unfold aged in Hyoung; simpl in Hyoung; lia).
      do_read H c2 Hr2. apply cell_of_put_same in Hr2. subst c2.
      replace (occupied (aged c)) with true in H by (symmetry; exact Hocc).
      simpl in H.
      mbind H as g w2 Hg. invc Hg. simpl in H.
      mbind H as r w2 Hr. invc Hr.
      set (w1 := set_rand_pos _ _) in H.
      set (g1 := put_cell curr (aged c) (active_grid w)) in *.
      set (t := grid_idx g1 _ _) in H.
      assert (Hnb : neighbour (active_grid w) curr t).
      { unfold neighbour, t, g1. rewrite grid_idx_put, put_cell_width.
        set (dir := Z.rem _ 4).
        assert (Hdir : (0 <= dir < 4)%Z) by (apply Z.rem_bound_pos; lia).
        destruct (Z.eqb_spec dir 1); [right; left; 
          destruct (Z.eqb_spec dir 0); [lia|]; destruct (Z.eqb_spec dir 2); [lia|];
          reflexivity|].
        destruct (Z.eqb_spec dir 3); [right; right; right;
          destruct (Z.eqb_spec dir 0); [lia|]; destruct (Z.eqb_spec dir 2); [lia|];
          reflexivity|].
        destruct (Z.eqb_spec dir 0); [left; reflexivity|].
        destruct (Z.eqb_spec dir 2); [right; right; left; reflexivity|]. lia. }
      clearbody t.
      assert (Hcurr1 : cell_of g1 curr = Some (aged c))
        by (eapply cell_of_put_eq; eauto).
      do_read H ct Hct. change (cell_of g1 t = Some ct) in Hct.
      destruct (occupied ct) eqn:Hoct; simpl in H.
      * do_read H ca Hca. change (cell_of g1 curr = Some ca) in Hca.
        known Hca Hcurr1 ca.
        mbind H as ab w2 Hab. pose proof (app_keeps_grid _ _ _ _ _ Hab) as Hg2.
        mbind H as res w3 Hres.
        pose proof (eval_bounded_keeps_grid _ _ _ _ _ _ _ _ Hres) as Hg3.
        rewrite Hg2 in Hg3. change (active_grid w3 = g1) in Hg3.
        destruct res as [[| |] [result|]]; try discriminate.
        -- do_modify H c1 Hc1. rewrite Hg3 in Hc1. known Hc1 Hcurr1 c1.
           do_modify H c2 Hc2. apply cell_of_put_same in Hc2. subst c2.
           do_modify H ct2 Hc3. do_modify H c4 Hc4.
           apply cell_of_put_same in Hc4. subst c4.
           do_modify H c5 Hc5. apply cell_of_put_same in Hc5. subst c5.
           do_modify H c6 Hc6. apply cell_of_put_same in Hc6. subst c6.
           apply update_grid_Ok in H as ->. simpl.
           rewrite Hg3 in *. unfold g1 in *. rewrite !put_put_eq in *. put_fields.
           eapply CS_react; eauto.
        -- do_modify H c1 Hc1. rewrite Hg3 in Hc1. known Hc1 Hct c1.
           do_modify H c2 Hc2. apply cell_of_put_same in Hc2. subst c2.
           apply update_grid_Ok in H as ->. simpl.
           rewrite Hg3. rewrite !put_put_eq. put_fields.
           eapply CS_diverge; eauto. unfold g1. put_fields. reflexivity.
        -- do_modify H c1 Hc1. rewrite Hg3 in Hc1. known Hc1 Hct c1.
           do_modify H c2 Hc2. apply cell_of_put_same in Hc2. subst c2.
           apply update_grid_Ok in H as ->. simpl.
           rewrite Hg3. rewrite !put_put_eq. put_fields.
           eapply CS_diverge; eauto. unfold g1. put_fields. reflexivity.
        -- do_modify H c1 Hc1. rewrite Hg3 in Hc1. known Hc1 Hct c1.
           do_modify H c2 Hc2. apply cell_of_put_same in Hc2. subst c2.
           apply update_grid_Ok in H as ->. simpl.
           rewrite Hg3. rewrite !put_put_eq. put_fields.
           eapply CS_diverge; eauto. unfold g1. put_fields. reflexivity.
        -- do_modify H c1 Hc1. rewrite Hg3 in Hc1. known Hc1 Hct c1.
           do_modify H c2 Hc2. apply cell_of_put_same in Hc2. subst c2.
           apply update_grid_Ok in H as ->. simpl.
           rewrite Hg3. rewrite !put_put_eq. put_fields.
           eapply CS_diverge; eauto. unfold g1. put_fields. reflexivity.
      * do_read H src Hsrc. change (cell_of g1 curr = Some src) in Hsrc.
        known Hsrc Hcurr1 src.
        assert (Hne : t <> curr).
        { intros ->. rewrite Hcurr1 in Hct. injection Hct as <-. simpl in Hoct. congruence. }
        mbind H as u2 w2 Hw. apply write_cell_Ok in Hw as [_ ->].
        do_modify H c1 Hc1.
        rewrite cell_of_put_ne in Hc1
          by (eauto using cell_of_nonneg). 
        change (cell_of g1 curr = Some c1) in Hc1.
        known Hc1 Hcurr1 c1.
        do_modify H c2 Hc2. apply cell_of_put_same in Hc2. subst c2.
        apply update_grid_Ok in H as ->. simpl.
        change (put_cell curr (aged c) (active_grid w)) with g1.
        rewrite !put_put_eq. put_fields. unfold g1. put_fields.
        eapply CS_move; eauto.
  - mret Hdied.
    do_read H y2 Hy2. known Hy2 Hc0 y2. rewrite Hocc in H. simpl in H.
    mbind H as r w2 Hr. invc Hr.
    destruct (_ <? COSMIC_RAY_RATE)%Z.
    + mbind H as e w2 He. pose proof (generate_keeps_grid _ _ _ _ _ _ _ _ _ He) as Hg.
      simpl in Hg.
      do_modify H c1 Hc1. rewrite Hg in Hc1. known Hc1 Hc0 c1.
      do_modify H c2 Hc2. apply cell_of_put_same in Hc2. subst c2.
      do_modify H c3 Hc3. apply cell_of_put_same in Hc3. subst c3.
      do_modify H c4 Hc4. apply cell_of_put_same in Hc4. subst c4.
      do_modify H c5 Hc5. apply cell_of_put_same in Hc5. subst c5.
      apply update_grid_Ok in H as ->. simpl.
      rewrite Hg. rewrite !put_put_eq. put_fields.
      eapply CS_spawn; eauto.
    + mret H. simpl. eapply CS_idle; eauto.
Qed.

Lemma occupied_count_cons c cs :
  occupied_count (c :: cs) = (Z.b2z (occupied c) + occupied_count cs)%Z.
Proof.
  unfold occupied_count. rewrite filter_cons.
  destruct (decide (occupied c = true)) as [->|Hn]; simpl.
  - lia.
  - destruct (occupied c); [congruence | simpl; lia].
Qed.

Lemma occupied_count_insert cs : forall n c c',
  cs !! n = Some c ->
  occupied_count (<[n := c']> cs)
  = (occupied_count cs - Z.b2z (occupied c) + Z.b2z (occupied c'))%Z.
Proof.
  induction cs as [|x cs IH]; intros [|n] c c' H; simpl in H; try discriminate.
  - invc H. simpl. rewrite !occupied_count_cons. lia.
  - simpl. rewrite !occupied_count_cons. rewrite (IH _ _ _ H). lia.
Qed.

Lemma population_put g i c c' :
  cell_of g i = Some c ->
  population_of (put_cell i c' g)
  = (population_of g - Z.b2z (occupied c) + Z.b2z (occupied c'))%Z.
Proof.
  unfold cell_of, population_of, put_cell.
  destruct (cells g) as [cs|]; [|discriminate].
  destruct (i <? 0)%Z; [discriminate|]. intros H. simpl.
  apply occupied_count_insert. assumption.
Qed.

Lemma wf_put g i c : wf_grid g -> wf_grid (put_cell i c g).
Proof.
  intros (cs & Hc & Hl). unfold wf_grid, put_cell. rewrite Hc. simpl.
  eexists. split; [reflexivity|]. rewrite length_insert. assumption.
Qed.

Lemma cell_of_put_inv g i j x c c0 :
  cell_of g i = Some c0 ->
  cell_of (put_cell i x g) j = Some c ->
  (j = i /\ c = x) \/ (j <> i /\ cell_of g j = Some c).
Proof.
  intros Hi H. destruct (Z.eq_dec j i) as [->|Hne].
  - left. split; [reflexivity|]. eapply cell_of_put_same; eauto.
  - right. split; [assumption|].
    pose proof (cell_of_nonneg _ _ _ Hi). pose proof (cell_of_nonneg _ _ _ H).
    rewrite cell_of_put_ne in H by auto. assumption.
Qed.

Lemma Cell_Step_wf curr g g' :
  Cell_Step curr g g' -> wf_grid g ->
  wf_grid g' /\ width g' = width g /\ height g' = height g.
Proof.
  intros H Hwf.
  assert (Hset : forall G : Grid, wf_grid G ->
            forall G', cells G' = cells G -> width G' = width G ->
              height G' = height G -> wf_grid G').
  { intros G (cs & Hc & Hl) G' E1 E2 E3. exists cs. rewrite E1, E2, E3. auto. }
  destruct H; subst g'; simpl; put_fields;
    (split; [|split; reflexivity]);
    try assumption;
    (eapply Hset; [| reflexivity | simpl; put_fields; reflexivity
                   | simpl; put_fields; reflexivity]);
    repeat apply wf_put; assumption.
Qed.

Lemma Cell_Step_balance curr g g' :
  Cell_Step curr g g' -> balance g' = balance g.
Proof.
  intros H. unfold balance.
  destruct H as [c Hc Ho Ha ->|c e Hc Ho ->|c Hc Ho ->
                |c t ct Hc Ho Ha Hn Ht Hot ->
                |c t ct ct2 result Hc Ho Ha Hn Ht Hot Ht2 ->
                |c t ct Hc Ho Ha Hn Ht Hot ->].
  - change (population_of (set_deaths_age ?n ?G)) with (population_of G).
    simpl. put_fields. rewrite (population_put _ _ _ _ Hc). simpl. rewrite Ho.
    simpl. lia.
  - change (population_of (set_cosmic_spawns ?n ?G)) with (population_of G).
    simpl. put_fields. rewrite (population_put _ _ _ _ Hc). simpl. rewrite Ho.
    simpl. lia.
  - reflexivity.
  - change (population_of (set_movements ?n ?G)) with (population_of G).
    simpl. put_fields.
    assert (Hne : t <> curr).
    { intros ->. apply cell_of_put_same in Ht. subst ct. simpl in Hot. congruence. }
    assert (Hcurr2 : cell_of (put_cell t (aged c) (put_cell curr (aged c) g)) curr
                     = Some (aged c)).
    { rewrite cell_of_put_ne by (eauto using cell_of_nonneg).
      eapply cell_of_put_eq; eauto. }
    rewrite (population_put _ _ _ _ Hcurr2), (population_put _ _ _ _ Ht),
      (population_put _ _ _ _ Hc).
    simpl. rewrite Ho, Hot. simpl. lia.
  - change (population_of (set_reactions_success ?n ?G)) with (population_of G).
    simpl. put_fields.
    rewrite (population_put _ _ _ _ Ht2), (population_put _ _ _ _ Hc).
    simpl. rewrite Ho. simpl. lia.
  - change (population_of (set_reactions_diverged ?n ?G)) with (population_of G).
    simpl. put_fields.
    rewrite (population_put _ _ _ _ Ht), (population_put _ _ _ _ Hc).
    simpl. rewrite Ho, Hot. simpl. lia.
Qed.

Lemma put_curr_target g curr t c x ct :
  cell_of g curr = Some c ->
  cell_of (put_cell curr x g) t = Some ct ->
  (t = curr /\ ct = x) \/ (t <> curr /\ cell_of g t = Some ct).
Proof. intros Hc Ht. eapply cell_of_put_inv; eauto. Qed.

Lemma Cell_Step_success curr g g' :
  Cell_Step curr g g' ->
  (generation_incremented g g' /\
   reactions_success g' = (reactions_success g + 1)%Z) \/
  (~ generation_incremented g g' /\
   reactions_success g' = reactions_success g).
Proof.
  intros H.
  destruct H as [c Hc Ho Ha ->|c e Hc Ho ->|c Hc Ho ->
                |c t ct Hc Ho Ha Hn Ht Hot ->
                |c t ct ct2 result Hc Ho Ha Hn Ht Hot Ht2 ->
                |c t ct Hc Ho Ha Hn Ht Hot ->].
  - right. split; [|simpl; put_fields; reflexivity].
    intros (t0 & cb & ca & Hb & Hca & Hob & Hoa & Hgen).
    change (cell_of (put_cell curr (emptied (aged c)) g) t0 = Some ca) in Hca.
    destruct (cell_of_put_inv _ _ _ _ _ _ Hc Hca) as [[-> ->]|[Hne Hca']].
    + simpl in Hoa. discriminate.
    + rewrite Hb in Hca'. invc Hca'. lia.
  - right. split; [|simpl; put_fields; reflexivity].
    intros (t0 & cb & ca & Hb & Hca & Hob & Hoa & Hgen).
    change (cell_of (put_cell curr (spawned e c) g) t0 = Some ca) in Hca.
    destruct (cell_of_put_inv _ _ _ _ _ _ Hc Hca) as [[-> ->]|[Hne Hca']].
    + rewrite Hc in Hb. invc Hb. congruence.
    + rewrite Hb in Hca'. invc Hca'. lia.
  - right. split; [|reflexivity].
    intros (t0 & cb & ca & Hb & Hca & Hob & Hoa & Hgen).
    rewrite Hb in Hca. invc Hca. lia.
  - right. split; [|simpl; put_fields; reflexivity].
    intros (t0 & cb & ca & Hb & Hca & Hob & Hoa & Hgen).
    destruct (put_curr_target _ _ _ _ _ _ Hc Ht) as [[-> ->]|[Hne Hgt]];
      [simpl in Hot; congruence|].
    assert (Hcurr1 : cell_of (put_cell curr (aged c) g) curr = Some (aged c))
      by (eapply cell_of_put_eq; eauto).
    assert (Hcurr2 : cell_of (put_cell t (aged c) (put_cell curr (aged c) g)) curr
                     = Some (aged c)).
    { rewrite cell_of_put_ne by (eauto using cell_of_nonneg). assumption. }
    change (cell_of (put_cell curr (emptied (aged c))
                       (put_cell t (aged c) (put_cell curr (aged c) g))) t0
            = Some ca) in Hca.
    destruct (cell_of_put_inv _ _ _ _ _ _ Hcurr2 Hca) as [[-> ->]|[Hne1 Hca1]].
    + simpl in Hoa. discriminate.
    + destruct (cell_of_put_inv _ _ _ _ _ _ Ht Hca1) as [[-> ->]|[Hne2 Hca2]].
      * rewrite Hgt in Hb. invc Hb. congruence.
      * destruct (cell_of_put_inv _ _ _ _ _ _ Hc Hca2) as [[-> ->]|[Hne3 Hca3]];
          [congruence|].
        rewrite Hb in Hca3. invc Hca3. lia.
  - left. split; [|simpl; put_fields; reflexivity].
    assert (Hcurr1 : cell_of (put_cell curr (rejuvenated (aged c)) g) curr
                     = Some (rejuvenated (aged c)))
      by (eapply cell_of_put_eq; eauto).
    assert (Hfinal : cell_of
              (set_reactions_success (reactions_success g + 1)
                 (put_cell t (transformed result ct2)
                    (put_cell curr (rejuvenated (aged c)) g))) t
            = Some (transformed result ct2)).
    { change (cell_of (put_cell t (transformed result ct2)
                         (put_cell curr (rejuvenated (aged c)) g)) t
              = Some (transformed result ct2)).
      eapply cell_of_put_eq; eauto. }
    destruct (put_curr_target _ _ _ _ _ _ Hc Ht2) as [[-> ->]|[Hne Hgt]].
    + exists curr, c, (transformed result (rejuvenated (aged c))).
      repeat split; auto.
    + exists t, ct2, (transformed result ct2).
      destruct (put_curr_target _ _ _ _ _ _ Hc Ht) as [[-> _]|[_ Hgt']];
        [congruence|].
      rewrite Hgt in Hgt'. invc Hgt'.
      repeat split; auto.
  - right. split; [|simpl; put_fields; reflexivity].
    intros (t0 & cb & ca & Hb & Hca & Hob & Hoa & Hgen).
    change (cell_of (put_cell t (emptied ct) (put_cell curr (aged c) g)) t0
            = Some ca) in Hca.
    destruct (cell_of_put_inv _ _ _ _ _ _ Ht Hca) as [[-> ->]|[Hne1 Hca1]].
    + simpl in Hoa. discriminate.
    + destruct (cell_of_put_inv _ _ _ _ _ _ Hc Hca1) as [[-> ->]|[Hne2 Hca2]].
      * rewrite Hc in Hb. invc Hb. simpl in Hgen. lia.
      * rewrite Hb in Hca2. invc Hca2. lia.
Qed.

Lemma Cell_Step_movement curr g g' :
  Cell_Step curr g g' ->
  (source_vacated curr g g' /\ moved_to_empty_neighbour curr g g' /\
   movements g' = (movements g + 1)%Z) \/
  (~ source_vacated curr g g' /\ movements g' = movements g).
Proof.
  intros H.
  destruct H as [c Hc Ho Ha ->|c e Hc Ho ->|c Hc Ho ->
                |c t ct Hc Ho Ha Hn Ht Hot ->
                |c t ct ct2 result Hc Ho Ha Hn Ht Hot Ht2 ->
                |c t ct Hc Ho Ha Hn Ht Hot ->].
  - right. split; [|simpl; put_fields; reflexivity].
    intros (_ & Hd & _). simpl in Hd. revert Hd. put_fields. lia.
  - right. split; [|simpl; put_fields; reflexivity].
    intros ((cb & ca & Hb & _ & Hob & _) & _). rewrite Hc in Hb. invc Hb. congruence.
  - right. split; [|reflexivity].
    intros ((cb & ca & Hb & _ & Hob & _) & _). rewrite Hc in Hb. invc Hb. congruence.
  - left.
    destruct (put_curr_target _ _ _ _ _ _ Hc Ht) as [[-> ->]|[Hne Hgt]];
      [simpl in Hot; congruence|].
    assert (Hcurr2 : cell_of (put_cell t (aged c) (put_cell curr (aged c) g)) curr
                     = Some (aged c)).
    { rewrite cell_of_put_ne by (eauto using cell_of_nonneg).
      eapply cell_of_put_eq; eauto. }
    split; [|split; [|simpl; put_fields; reflexivity]].
    + split; [|split; simpl; put_fields; reflexivity].
      exists c, (emptied (aged c)). repeat split; auto.
      change (cell_of (put_cell curr (emptied (aged c))
                         (put_cell t (aged c) (put_cell curr (aged c) g))) curr
              = Some (emptied (aged c))).
      eapply cell_of_put_eq; eauto.
    + exists t, c, ct, (aged c). repeat split; auto.
      change (cell_of (put_cell curr (emptied (aged c))
                         (put_cell t (aged c) (put_cell curr (aged c) g))) t
              = Some (aged c)).
      rewrite cell_of_put_ne by (eauto using cell_of_nonneg).
      eapply cell_of_put_eq; eauto.
  - right. split; [|simpl; put_fields; reflexivity].
    intros ((cb & ca & Hb & Hca & Hob & Hoa) & _).
    change (cell_of (put_cell t (transformed result ct2)
                       (put_cell curr (rejuvenated (aged c)) g)) curr
            = Some ca) in Hca.
    destruct (cell_of_put_inv _ _ _ _ _ _ Ht2 Hca) as [[<- ->]|[Hne1 Hca1]].
    + apply cell_of_put_same in Ht2. subst ct2. simpl in Hoa. congruence.
    + apply cell_of_put_same in Hca1. subst ca. simpl in Hoa. congruence.
  - right. split; [|simpl; put_fields; reflexivity].
    intros (_ & _ & Hd). simpl in Hd. revert Hd. put_fields. lia.
Qed.

(** *** The collector does not touch the grid; compaction renames atoms *)

Lemma stable_update_slot_keeps_grid i f : stable (keeps active_grid) (update_slot i f).
Proof.
  intros w u w' H. apply update_slot_Ok in H as (e & _ & _ & ->). reflexivity.
Qed.

Lemma stable_free_expr_keeps_grid i : stable (keeps active_grid) (free_expr i).
Proof.
  unfold free_expr. apply stable_bind; [typeclasses eauto | |intros _].
  - apply stable_update_slot_keeps_grid.
  - apply stable_modify. intros w. reflexivity.
Qed.

Lemma stable_gc_mark_keeps_grid fuel :
  forall root, stable (keeps active_grid) (gc_mark fuel root).
Proof.
  induction fuel as [|n IH]; intros root; simpl.
  - apply stable_out_of_fuel.
  - stable_tac; apply stable_update_slot_keeps_grid.
Qed.

Lemma pure_cell_at cs i : pure (cell_at cs i).
Proof. intros w c w' H. apply cell_at_Ok in H. tauto. Qed.

Lemma stable_gc_keeps_grid fuel root bindings :
  stable (keeps active_grid) (gc fuel root bindings).
Proof.
  unfold gc, gc_mark_grid, gc_sweep_one.
  stable_tac;
    try (apply stable_modify; intros w; reflexivity);
    try apply stable_update_slot_keeps_grid;
    try apply stable_gc_mark_keeps_grid;
    try apply stable_free_expr_keeps_grid;
    try (apply pure_stable; [typeclasses eauto | apply pure_cell_at]).
Qed.

Lemma same_occupancy_refl g : same_occupancy g g.
Proof.
  unfold same_occupancy. repeat split; auto. destruct (cells g); auto.
Qed.

Lemma pure_remap_at remap i : pure (remap_at remap i).
Proof.
  intros w r w' H. unfold remap_at in H.
  destruct (remap !! i); [|discriminate]. invc H. reflexivity.
Qed.

Lemma remap_cell_Ok remap c w c' w' :
  remap_cell remap c w = Ok c' w' -> w' = w /\ occupied c' = occupied c.
Proof.
  unfold remap_cell. destruct (occupied c) eqn:Ho.
  - intros H. mbind H as r w1 Hr. apply pure_remap_at in Hr as ->.
    destruct r; mret H; auto.
  - intros H. mret H. auto.
Qed.

Lemma map_M_remap_cell remap : forall cs w cs' w',
  map_M (remap_cell remap) cs w = Ok cs' w' ->
  w' = w /\ map occupied cs' = map occupied cs.
Proof.
  induction cs as [|c cs IH]; intros w cs' w' H; simpl in H.
  - mret H. auto.
  - mbind H as c' w1 Hc. apply remap_cell_Ok in Hc as [-> Hoc].
    mbind H as cs1 w2 Hcs. apply IH in Hcs as [-> Hocs]. mret H.
    split; [reflexivity|]. simpl. congruence.
Qed.

Lemma remap_grid_Ok remap w u w' :
  remap_grid remap w = Ok u w' ->
  GC w' = GC w /\ same_occupancy (active_grid w) (active_grid w').
Proof.
  unfold remap_grid. intros H. mbind H as w0 w1 Hw. invc Hw.
  destruct (cells (active_grid w1)) as [cs|] eqn:E.
  - destruct (_ <? _); [discriminate|].
    mbind H as cs' w2 Hcs. apply map_M_remap_cell in Hcs as [-> Hocc].
    invc H. split; [reflexivity|]. simpl.
    unfold same_occupancy. simpl. rewrite E. repeat split; auto.
    rewrite map_app, Hocc, <- map_app, take_drop. reflexivity.
  - mret H. split; [reflexivity | apply same_occupancy_refl].
Qed.

Lemma pure_remap_index remap i : pure (remap_index remap i).
Proof.
  intros w r w' H. unfold remap_index in H. mbind H as x w1 Hx.
  apply pure_remap_at in Hx as ->. destruct x; mret H; reflexivity.
Qed.

Lemma pure_remap_expr remap e : pure (remap_expr remap e).
Proof.
  intros w r w' H. unfold remap_expr in H. destruct (as_ e).
  - mret H. reflexivity.
  - mbind H as b w1 Hb. apply pure_remap_index in Hb as ->. mret H. reflexivity.
  - mbind H as l w1 Hl. apply pure_remap_index in Hl as ->.
    mbind H as r0 w2 Hr. apply pure_remap_index in Hr as ->. mret H. reflexivity.
  - mret H. reflexivity.
Qed.

Lemma pure_map_M {A B} (f : A -> M B) l : (forall x, pure (f x)) -> pure (map_M f l).
Proof.
  intros Hf. induction l as [|x l IH]; intros w r w' H; simpl in H.
  - mret H. reflexivity.
  - mbind H as y w1 Hy. apply Hf in Hy as ->.
    mbind H as ys w2 Hys. apply IH in Hys as ->. mret H. reflexivity.
Qed.

Lemma pure_remap_gen remap l : pure (remap_gen remap l).
Proof.
  induction l as [|i l IH]; intros w r w' H; simpl in H.
  - mret H. reflexivity.
  - mbind H as x w1 Hx. apply pure_remap_at in Hx as ->.
    mbind H as rest w2 Hrest. apply IH in Hrest as ->.
    destruct x; mret H; reflexivity.
Qed.




(** *** One step of the grid *)




Lemma pure_int_at l i : pure (int_at l i).
Proof.
  intros w x w' H. unfold int_at in H. destruct (i <? 0)%Z; [discriminate|].
  destruct (l !! Z.to_nat i); [|discriminate]. invc H. reflexivity.
Qed.

Lemma stable_shuffle_keeps_grid k : forall l, stable (keeps active_grid) (shuffle k l).
Proof.
  induction k as [|k IH]; intros l; simpl.
  - apply stable_ret. typeclasses eauto.
  - stable_tac; try apply stable_rand_keeps_grid;
      apply pure_stable; try typeclasses eauto; apply pure_int_at.
Qed.

(** The loop over the shuffled indices. *)
Lemma for_each_Cell_Updates fuel o eval_steps max_mass : forall l w u w',
  for_each l (grid_update_cell fuel o eval_steps max_mass) w = Ok u w' ->
  wf_grid (active_grid w) ->
  wf_grid (active_grid w') /\
  width (active_grid w') = width (active_grid w) /\
  height (active_grid w') = height (active_grid w) /\
  balance (active_grid w') = balance (active_grid w) /\
  exists ns nm,
    Cell_Updates fuel o eval_steps max_mass l w w' ns nm /\
    reactions_success (active_grid w') = (reactions_success (active_grid w) + ns)%Z /\
    movements (active_grid w') = (movements (active_grid w) + nm)%Z.
Proof.
  induction l as [|curr l IH]; intros w u w' H Hwf; simpl in H.
  - mret H. repeat split; auto. exists 0%Z, 0%Z.
    split; [constructor | split; lia].
  - mbind H as u1 w1 Hstep.
    pose proof (grid_update_cell_Step _ _ _ _ _ _ _ _ Hstep) as HS.
    destruct (Cell_Step_wf _ _ _ HS Hwf) as (Hwf1 & Hw1 & Hh1).
    pose proof (Cell_Step_balance _ _ _ HS) as Hb1.
    destruct (IH _ _ _ H Hwf1) as (Hwf' & Hw' & Hh' & Hb' & ns & nm & Hcu & Hrs & Hmv).
    split; [assumption|]. split; [congruence|]. split; [congruence|].
    split; [congruence|].
    destruct (Cell_Step_success _ _ _ HS) as [[Hgi Hrs1]|[Hgi Hrs1]];
      destruct (Cell_Step_movement _ _ _ HS) as [(Hsv & Hmn & Hmv1)|[Hsv Hmv1]].
    + exists (Z.b2z true + ns)%Z, (Z.b2z true + nm)%Z.
      split; [eapply CU_cons; eauto; simpl; auto | simpl; lia].
    + exists (Z.b2z true + ns)%Z, (Z.b2z false + nm)%Z.
      split; [eapply CU_cons; eauto; simpl; auto | simpl; lia].
    + exists (Z.b2z false + ns)%Z, (Z.b2z true + nm)%Z.
      split; [eapply CU_cons; eauto; simpl; auto | simpl; lia].
    + exists (Z.b2z false + ns)%Z, (Z.b2z false + nm)%Z.
      split; [eapply CU_cons; eauto; simpl; auto | simpl; lia].
Qed.

Lemma var_keeps_grid s w i w' : var s w = Ok i w' -> active_grid w' = active_grid w.
Proof.
  rewrite var_new_node. intros H. apply (stable_new_node_keeps_grid _ _ _ _ H).
Qed.

(** ** The collector *)

#[export] Instance same_node_PreOrder : PreOrder same_node.
Proof.
  split.
  - intros e. split; reflexivity.
  - intros e1 e2 e3 [A1 L1] [A2 L2]. split; congruence.
Qed.

#[export] Instance mark_up_PreOrder : PreOrder mark_up.
Proof.
  split.
  - intros e. split; [reflexivity | auto].
  - intros e1 e2 e3 [S1 V1] [S2 V2]. split; [etransitivity; eassumption | auto].
Qed.

#[export] Instance mark_down_PreOrder : PreOrder mark_down.
Proof.
  split.
  - intros e. split; [reflexivity | auto].
  - intros e1 e2 e3 [S1 V1] [S2 V2]. split; [etransitivity; eassumption | auto].
Qed.

#[export] Instance swept_PreOrder : PreOrder swept.
Proof.
  split.
  - intros e. repeat split; auto.
  - intros e1 e2 e3 (A1 & V1 & K1 & L1) (A2 & V2 & K2 & L2).
    repeat split; try congruence; auto.
    intros Hv. rewrite K2, K1; auto. congruence.
Qed.

#[export] Instance slots_rel_PreOrder R `{!PreOrder R} : PreOrder (slots_rel R).
Proof.
  split.
  - intros w. split; [reflexivity|]. intros i e He. exists e. split; [assumption|reflexivity].
  - intros w1 w2 w3 [L1 H1] [L2 H2]. split; [congruence|].
    intros i e He. destruct (H1 _ _ He) as (e2 & He2 & R12).
    destruct (H2 _ _ He2) as (e3 & He3 & R23).
    exists e3. split; [assumption | etransitivity; eassumption].
Qed.

#[export] Instance gc_frame_PreOrder : PreOrder gc_frame.
Proof.
  split.
  - intros w. repeat split.
  - intros w1 w2 w3 (A1 & B1 & C1 & D1 & E1) (A2 & B2 & C2 & D2 & E2).
    repeat split; congruence.
Qed.

#[export] Instance touches_PreOrder : PreOrder touches.
Proof.
  split.
  - intros w. split; reflexivity.
  - intros w1 w2 w3 [F1 S1] [F2 S2]. split; etransitivity; eassumption.
Qed.



Lemma marked_touches w w' i : touches w w' -> marked w i -> marked w' i.
Proof.
  intros [_ [_ H]] (e & He & Hl & Hv).
  destruct (H _ _ He) as (e' & He' & [[_ Hl'] Hv']).
  exists e'. split; [assumption|]. split; [congruence | auto].
Qed.

#[export] Instance marks_PreOrder : PreOrder marks.
Proof.
  split.
  - intros w. split; [reflexivity|].
    intros i e e' He He' Hv Hv'. rewrite He in He'. injection He' as <-. congruence.
  - intros w1 w2 w3 [T1 C1] [T2 C2]. split; [etransitivity; eassumption|].
    intros i e e3 He He3 Hv Hv3.
    destruct T1 as [F1 S1]. destruct (proj2 S1 _ _ He) as (e2 & He2 & M12).
    destruct (visited e2) eqn:Hv2.
    + destruct (C1 _ _ _ He He2 Hv Hv2) as [Hl2 Hc2].
      destruct (proj2 (proj2 T2) _ _ He2) as (e3' & He3' & [[A23 L23] _]).
      rewrite He3 in He3'. injection He3' as <-.
      split; [congruence|]. intros c Hc. apply (marked_touches w2); [assumption|].
      apply Hc2. rewrite <- A23. assumption.
    + exact (C2 _ _ _ He2 He3 Hv2 Hv3).
Qed.
















Lemma gens_set_gens_same g i l : gens (set_gens i l g) i = l.
Proof. destruct i; reflexivity. Qed.


Lemma gens_set_gens_other g i l : gens (set_gens i l g) (negb i) = gens g (negb i).
Proof. destruct i; reflexivity. Qed.

#[export] Instance sweeps_PreOrder next : PreOrder (sweeps next).
Proof.
  split.
  - intros w. split; [reflexivity|]. split; [reflexivity|].
    split; [reflexivity|]. split; auto.
  - intros w1 w2 w3 (S1 & C1 & G1 & N1 & D1) (S2 & C2 & G2 & N2 & D2).
    split; [etransitivity; eassumption|]. split; [congruence|].
    split; [congruence|]. split; auto.
Qed.








Lemma gens_okb_gens_ok w : gens_okb w = true -> gens_ok w.
Proof.
  unfold gens_okb, gens_ok. intros H i (e & He & Hl).
  rewrite forallb_forall in H. specialize (H i).
  rewrite He, Hl in H. simpl in H.
  assert (Hi : In i (seq 0 (length (slots (GC w))))).
  { apply in_seq. apply lookup_lt_Some in He. lia. }
  apply H in Hi. apply existsb_exists in Hi as (j & Hj & Hij).
  apply Nat.eqb_eq in Hij. subst j. apply list_elem_of_In. assumption.
Qed.



(** ** The lexer on what is left of the input *)

Lemma at_cons_inv cs l c s :
  at_ cs l (c :: s) ->
  pos (cur l) < length cs /\ nth (pos (cur l)) cs NUL = c /\
  drop (S (pos (cur l))) cs = s.
Proof.
  intros (Hc & Hn & Hp & Hd).
  assert (Hl : cs !! pos (cur l) = Some c).
  { rewrite <- (Nat.add_0_r (pos (cur l))), <- lookup_drop, Hd. reflexivity. }
  split; [eapply lookup_lt_Some; eassumption|].
  split; [rewrite nth_lookup, Hl; reflexivity|].
  rewrite (drop_S _ _ _ Hl) in Hd. injection Hd as Hd. exact Hd.
Qed.

Lemma at_nil_inv cs l : at_ cs l [] -> count l <= pos (cur l).
Proof.
  intros (Hc & Hn & Hp & Hd). rewrite Hn.
  apply (f_equal length) in Hd. rewrite length_drop in Hd. simpl in Hd. lia.
Qed.

Lemma curr_char_cons cs l c s : at_ cs l (c :: s) -> lexer_curr_char l = c.
Proof.
  intros H. destruct (at_cons_inv _ _ _ _ H) as (Hlt & Hnth & _).
  destruct H as (Hc & Hn & _ & _). unfold lexer_curr_char. rewrite Hn, Hc.
  destruct (Nat.leb_spec (length cs) (pos (cur l))); [lia | assumption].
Qed.

Lemma curr_char_nil cs l : at_ cs l [] -> lexer_curr_char l = NUL.
Proof.
  intros H. apply at_nil_inv in H. unfold lexer_curr_char.
  destruct (Nat.leb_spec (count l) (pos (cur l))); [reflexivity | lia].
Qed.

Lemma next_char_cons cs l c s :
  at_ cs l (c :: s) ->
  exists l', lexer_next_char l = (c, l') /\ at_ cs l' s /\
    token l' = token l /\ lstring l' = lstring l.
Proof.
  intros H. destruct (at_cons_inv _ _ _ _ H) as (Hlt & Hnth & Hd).
  destruct H as (Hc & Hn & _ & _). unfold lexer_next_char. rewrite Hn, Hc, Hnth.
  destruct (Nat.leb_spec (length cs) (pos (cur l))); [lia|].
  eexists. split; [reflexivity|].
  split; [|split; reflexivity].
  unfold at_. destruct (Ascii.eqb c LF); simpl; repeat split; auto; lia.
Qed.

Lemma next_char_nil cs l : at_ cs l [] -> lexer_next_char l = (NUL, l).
Proof.
  intros H. apply at_nil_inv in H. unfold lexer_next_char.
  destruct (Nat.leb_spec (count l) (pos (cur l))); [reflexivity | lia].
Qed.

Lemma trim_left_loop_stop cs l s k :
  at_ cs l s -> no_blank s -> trim_left_loop k l = l.
Proof.
  intros H Hs. destruct k as [|k]; [reflexivity|]. simpl.
  destruct s as [|c s].
  - rewrite (curr_char_nil _ _ H). reflexivity.
  - rewrite (curr_char_cons _ _ _ _ H). destruct Hs as [-> _]. reflexivity.
Qed.

Lemma starts_with_stop cs l s :
  at_ cs l s -> no_blank s -> lexer_starts_with l ["/"; "/"]%char = false.
Proof.
  intros H Hs. unfold lexer_starts_with. cbn [starts_with_from]. destruct s as [|c s].
  - pose proof (at_nil_inv _ _ H).
    destruct (Nat.ltb_spec (pos (cur l)) (count l)); [lia | reflexivity].
  - destruct (at_cons_inv _ _ _ _ H) as (_ & Hnth & _).
    destruct H as (Hc & _). rewrite Hc, Hnth. destruct Hs as [_ ->].
    destruct (pos (cur l) <? count l); reflexivity.
Qed.

Lemma skip_blanks_stop cs l s k :
  at_ cs l s -> no_blank s -> skip_blanks_loop k l = l.
Proof.
  intros H Hs.
  assert (Ht : lexer_trim_left l = l) by apply (trim_left_loop_stop _ _ _ _ H Hs).
  destruct k as [|k]; simpl; rewrite Ht; [reflexivity|].
  rewrite (starts_with_stop _ _ _ H Hs). reflexivity.
Qed.

Lemma skip_blanks_space cs l s k :
  at_ cs l (" "%char :: s) -> no_blank s ->
  exists l0, skip_blanks_loop k l = l0 /\ at_ cs l0 s.
Proof.
  intros H Hs.
  destruct (next_char_cons _ _ _ _ H) as (l0 & Hn & H0 & _).
  assert (Ht : lexer_trim_left l = l0).
  { unfold lexer_trim_left.
    destruct (at_cons_inv _ _ _ _ H) as (Hlt & _).
    pose proof H as H'. destruct H as (_ & Hc & _).
    destruct (count l - pos (cur l)) as [|k'] eqn:Hk; [lia|].
    simpl. rewrite (curr_char_cons _ _ _ _ H').
    change (isspace " "%char) with true. cbv iota. rewrite Hn. simpl.
    apply (trim_left_loop_stop _ _ _ _ H0 Hs). }
  exists l0. split; [|assumption].
  destruct k as [|k]; simpl; rewrite Ht; [reflexivity|].
  rewrite (starts_with_stop _ _ _ H0 Hs). reflexivity.
Qed.

Lemma issymbol_facts c :
  issymbol c = true ->
  isspace c = false /\ Ascii.eqb "/"%char c = false /\
  Ascii.eqb c NUL = false /\ Ascii.eqb c "("%char = false /\
  Ascii.eqb c ")"%char = false /\ Ascii.eqb c "\"%char = false /\
  Ascii.eqb c "."%char = false /\ Ascii.eqb c ":"%char = false /\
  Ascii.eqb c ";"%char = false /\ Ascii.eqb c "="%char = false /\
  Ascii.eqb c "#"%char = false.
Proof.
  destruct c as [[] [] [] [] [] [] [] []]; vm_compute; intros H;
    try discriminate H; repeat split.
Qed.

Lemma at_set_lstring cs l s x : at_ cs l s -> at_ cs (set_lstring x l) s.
Proof. intros H. exact H. Qed.
Lemma at_set_token cs l s x : at_ cs l s -> at_ cs (set_token x l) s.
Proof. intros H. exact H. Qed.
Lemma at_set_loc cs l s r c : at_ cs l s -> at_ cs (set_loc r c l) s.
Proof. intros H. exact H. Qed.

Lemma at_length cs l s : at_ cs l s -> count l - pos (cur l) = length s.
Proof.
  intros (_ & Hn & _ & Hd). rewrite Hn, <- Hd, length_drop. reflexivity.
Qed.

Lemma symbol_loop_at cs : forall nm k l s,
  word_ok nm = true -> at_ cs l (nm ++ s) -> no_symbol s -> length nm <= k ->
  exists l', symbol_loop k l = l' /\ at_ cs l' s /\
    lstring l' = lstring l ++ nm /\ token l' = token l.
Proof.
  induction nm as [|a nm IH]; intros k l s Hok H Hs Hk.
  - exists l. rewrite app_nil_r. split; [|auto].
    destruct k as [|k]; [reflexivity|]. cbn [symbol_loop]. simpl in H.
    destruct s as [|c s].
    + rewrite (curr_char_nil _ _ H). reflexivity.
    + rewrite (curr_char_cons _ _ _ _ H). simpl in Hs. rewrite Hs. reflexivity.
  - destruct k as [|k]; [simpl in Hk; lia|]. cbn [symbol_loop].
    simpl in H, Hok. apply andb_true_iff in Hok as [Ha Hok].
    rewrite (curr_char_cons _ _ _ _ H), Ha.
    destruct (next_char_cons _ _ _ _ H) as (l1 & Hn & H1 & Ht & Hl). rewrite Hn.
    destruct (IH k (set_lstring (lstring l1 ++ [a]) l1) s Hok
                (at_set_lstring _ _ _ _ H1) Hs ltac:(simpl in Hk; lia))
      as (l' & Hloop & H' & Hl' & Ht').
    exists l'. split; [assumption|]. split; [assumption|].
    split; [rewrite Hl'; simpl; rewrite Hl, <- app_assoc; reflexivity|].
    rewrite Ht'. simpl. assumption.
Qed.

Lemma sep_no_symbol ts : sep ts = true -> no_symbol (render ts).
Proof.
  destruct ts as [|tk ts]; [intros _; exact I|].
  destruct tk; simpl; intros H; try reflexivity; discriminate.
Qed.

Lemma quiet_no_blank ts : quiet ts = true -> wf ts = true -> no_blank (render ts).
Proof.
  destruct ts as [|tk ts]; [intros _ _; exact I|].
  destruct tk; simpl; intros H Hw; try discriminate; try (split; reflexivity).
  destruct nm as [|a nm]; [discriminate|]. simpl.
  apply andb_true_iff in Hw as [Hw _]. apply andb_true_iff in Hw as [Hw _].
  simpl in Hw. apply andb_true_iff in Hw as [Ha _].
  destruct (issymbol_facts _ Ha) as (H1 & H2 & _). auto.
Qed.

(** [lexer_next] before a token that is not a blank. *)
Lemma lexer_next_tok cs l tk ts :
  tk <> TSpace -> wf (tk :: ts) = true -> at_ cs l (render (tk :: ts)) ->
  exists l', lexer_next l = (true, l') /\ at_ cs l' (render ts) /\
    token l' = kind tk /\
    match tk with TName nm | TMag nm => lstring l' = nm | _ => True end.
Proof.
  intros Hns Hw H.
  assert (Hq : no_blank (render (tk :: ts))).
  { apply quiet_no_blank; [destruct tk; try reflexivity; congruence | assumption]. }
  unfold lexer_next. rewrite (skip_blanks_stop _ _ _ _ H Hq).
  set (l1 := set_loc _ _ l).
  assert (H1 : at_ cs l1 (render (tk :: ts))) by exact H.
  clearbody l1. clear H Hq l.
  cbn [wf] in Hw. apply andb_true_iff in Hw as [Hw Hwf].
  apply andb_true_iff in Hw as [Hok Hsep].
  destruct tk; try congruence; cbn [render text app kind] in *.
  - destruct (next_char_cons _ _ _ _ H1) as (l2 & -> & H2 & _).
    eexists. split; [reflexivity|]. auto.
  - destruct (next_char_cons _ _ _ _ H1) as (l2 & -> & H2 & _).
    eexists. split; [reflexivity|]. auto.
  - destruct (next_char_cons _ _ _ _ H1) as (l2 & -> & H2 & _).
    eexists. split; [reflexivity|]. auto.
  - destruct (next_char_cons _ _ _ _ H1) as (l2 & -> & H2 & _).
    eexists. split; [reflexivity|]. auto.
  - destruct nm as [|a nm]; [discriminate|]. cbn [tok_ok word_ok forallb] in Hok.
    apply andb_true_iff in Hok as [Ha Hok].
    rewrite <- app_comm_cons in H1.
    destruct (next_char_cons _ _ _ _ H1) as (l2 & -> & H2 & _).
    destruct (issymbol_facts _ Ha)
      as (_ & _ & -> & -> & -> & -> & -> & -> & -> & -> & ->).
    rewrite Ha.
    set (l3 := set_lstring [a] _).
    assert (H3 : at_ cs l3 (nm ++ render ts)) by exact H2.
    destruct (symbol_loop_at cs nm (count l3 - pos (cur l3)) l3 (render ts) Hok H3
                (sep_no_symbol _ Hsep))
      as (l' & Hloop & H' & Hl' & Ht').
    { rewrite (at_length _ _ _ H3), length_app. lia. }
    exists l'. split; [rewrite Hloop; reflexivity|]. auto.
  - destruct (next_char_cons _ _ _ _ H1) as (l2 & -> & H2 & _).
    repeat match goal with
           | |- context [Ascii.eqb "#"%char ?c] =>
               let b := eval vm_compute in (Ascii.eqb "#"%char c) in
               change (Ascii.eqb "#"%char c) with b
           end.
    cbv iota.
    set (l3 := set_lstring [] _).
    assert (H3 : at_ cs l3 (nm ++ render ts)) by exact H2.
    destruct (symbol_loop_at cs nm (count l3 - pos (cur l3)) l3 (render ts) Hok H3
                (sep_no_symbol _ Hsep))
      as (l' & Hloop & H' & Hl' & Ht').
    { rewrite (at_length _ _ _ H3), length_app. lia. }
    exists l'. split; [rewrite Hloop; reflexivity|]. auto.
Qed.

Lemma lexer_next_end cs l :
  at_ cs l [] ->
  exists l', lexer_next l = (true, l') /\ at_ cs l' [] /\ token l' = TOKEN_END.
Proof.
  intros H. unfold lexer_next. rewrite (skip_blanks_stop _ _ _ _ H I).
  set (l1 := set_loc _ _ l).
  assert (H1 : at_ cs l1 []) by exact H.
  rewrite (next_char_nil _ _ H1).
  eexists. split; [reflexivity|]. split; [exact H1 | reflexivity].
Qed.

Lemma lexer_next_space cs l ts :
  wf (TSpace :: ts) = true -> at_ cs l (render (TSpace :: ts)) ->
  exists l0, at_ cs l0 (render ts) /\ lexer_next l = lexer_next l0.
Proof.
  intros Hw H. cbn [wf tok_ok] in Hw. apply andb_true_iff in Hw as [Hq Hw].
  simpl in Hq.
  pose proof (quiet_no_blank _ Hq Hw) as Hnb.
  destruct (skip_blanks_space _ _ _ (count l - pos (cur l)) H Hnb) as (l0 & Hs & H0).
  exists l0. split; [assumption|].
  unfold lexer_next. rewrite Hs, (skip_blanks_stop _ _ _ _ H0 Hnb). reflexivity.
Qed.

Lemma wf_tail tk ts : wf (tk :: ts) = true -> wf ts = true.
Proof. cbn [wf]. intros H. apply andb_true_iff in H as [_ H]. exact H. Qed.

(** [lexer_next] on what is left of a printed expression: it finds the
    first token, and leaves the rest. *)
Lemma lexer_next_at cs l ts :
  wf ts = true -> at_ cs l (render ts) ->
  exists l', lexer_next l = (true, l') /\ at_ cs l' (render (behead ts)) /\
    token l' = peek_kind ts /\ lstring_ok ts l' /\ wf (behead ts) = true.
Proof.
  assert (Hq : forall l ts, quiet ts = true -> wf ts = true -> at_ cs l (render ts) ->
            exists l', lexer_next l = (true, l') /\ at_ cs l' (render (tail ts)) /\
              token l' = match head ts with None => TOKEN_END | Some tk => kind tk end /\
              match head ts with
              | Some (TName nm) | Some (TMag nm) => lstring l' = nm
              | _ => True
              end /\ wf (tail ts) = true).
  { clear l ts. intros l ts Hq Hw H. destruct ts as [|tk ts].
    - destruct (lexer_next_end _ _ H) as (l' & Hn & H' & Ht).
      exists l'. simpl. auto.
    - assert (Hns : tk <> TSpace) by (destruct tk; try discriminate; congruence).
      destruct (lexer_next_tok _ _ _ _ Hns Hw H) as (l' & Hn & H' & Ht & Hl).
      exists l'. cbn [head tail]. pose proof (wf_tail _ _ Hw). auto. }
  intros Hw H. unfold peek_kind, lstring_ok. destruct ts as [|tk ts].
  - apply (Hq l []); auto.
  - destruct tk;
      try (apply (Hq l (_ :: ts)); [reflexivity | assumption | assumption]).
    destruct (lexer_next_space _ _ _ Hw H) as (l0 & H0 & ->).
    cbn [first_tok behead].
    cbn [wf tok_ok] in Hw. apply andb_true_iff in Hw as [Hquiet Hw]. simpl in Hquiet.
    apply (Hq l0 ts); assumption.
Qed.

Lemma lexer_peek_at cs l ts :
  wf ts = true -> at_ cs l (render ts) ->
  exists l', lexer_peek l = (true, l') /\ at_ cs l' (render ts) /\
    token l' = peek_kind ts.
Proof.
  intros Hw H. destruct (lexer_next_at _ _ _ Hw H) as (l1 & Hn & H1 & Ht & _).
  unfold lexer_peek. rewrite Hn. eexists. split; [reflexivity|].
  split; [|exact Ht].
  destruct H as (Hc & Hcount & Hp & Hd). destruct H1 as (Hc1 & Hcount1 & _).
  repeat split; assumption.
Qed.

Lemma lexer_expect_at cs l ts T :
  wf ts = true -> at_ cs l (render ts) -> peek_kind ts = T ->
  exists l', lexer_expect l T = (true, l') /\ at_ cs l' (render (behead ts)) /\
    lstring_ok ts l' /\ wf (behead ts) = true.
Proof.
  intros Hw H HT. destruct (lexer_next_at _ _ _ Hw H) as (l1 & Hn & H1 & Ht & Hl & Hw1).
  unfold lexer_expect. rewrite Hn. cbn [negb]. rewrite Ht, HT.
  assert (E : Token_Kind_eqb T T = true) by (destruct T; reflexivity).
  rewrite E. cbn [negb]. exists l1. auto.
Qed.

(** ** The tokens of a printed expression *)

Lemma render_app ts1 ts2 : render (ts1 ++ ts2) = render ts1 ++ render ts2.
Proof.
  induction ts1 as [|tk ts1 IH]; [reflexivity|].
  simpl. rewrite IH, app_assoc. reflexivity.
Qed.

Lemma list_ascii_of_string_app s1 s2 :
  list_ascii_of_string (s1 ++ s2)
  = list_ascii_of_string s1 ++ list_ascii_of_string s2.
Proof. induction s1 as [|c s1 IH]; [reflexivity|]. simpl. rewrite IH. reflexivity. Qed.

Lemma name_ok_display s :
  name_ok s = true -> list_ascii_of_string (symbol_display s) = name_of s.
Proof.
  unfold name_ok, symbol_display. intros H. apply andb_true_iff in H as [Ht _].
  rewrite Ht. reflexivity.
Qed.

Lemma name_ok_symbol s :
  name_ok s = true -> symbol (string_of_list_ascii (name_of s)) = s.
Proof.
  unfold name_ok, name_of, symbol. intros H. apply andb_true_iff in H as [Ht _].
  apply Z.eqb_eq in Ht. rewrite string_of_list_ascii_of_string.
  destruct s as [lb tg]. simpl in Ht. subst tg. reflexivity.
Qed.

(** The tokens are the text that [expr_display] writes. *)
Lemma render_toks t : forall chain,
  plain t = true ->
  render (toks chain t) = list_ascii_of_string (pretty_in chain t).
Proof.
  induction t as [v|m|p b IH|l IHl r IHr]; intros chain Hp; simpl in Hp.
  - simpl. rewrite app_nil_r, (name_ok_display _ Hp). reflexivity.
  - simpl. rewrite app_nil_r. reflexivity.
  - apply andb_true_iff in Hp as [Hn Hb].
    cbn [toks pretty_in].
    rewrite render_app, !list_ascii_of_string_app, (name_ok_display _ Hn).
    cbn [render text]. rewrite (IH true Hb).
    destruct chain; reflexivity.
  - apply andb_true_iff in Hp as [Hl Hr].
    cbn [toks pretty_in]. rewrite render_app. cbn [render text].
    rewrite !list_ascii_of_string_app.
    unfold parens, paren_if.
    destruct (is_fun l), (negb (is_atom r)); cbn [render text];
      rewrite ?render_app, ?list_ascii_of_string_app, ?list_ascii_of_string_app;
      cbn [render text]; rewrite (IHl false Hl), (IHr false Hr);
      rewrite ?app_nil_r, <- ?app_assoc; reflexivity.
Qed.

Lemma toks_not_fun t chain : is_fun t = false -> toks chain t = toks false t.
Proof. destruct t; try reflexivity. discriminate. Qed.

Lemma toks_starter t :
  exists tk ts, toks false t = tk :: ts /\ starter tk = true.
Proof.
  induction t as [v|m|p b IH|l IHl r IHr]; cbn [toks].
  - eexists _, _. split; reflexivity.
  - eexists _, _. split; reflexivity.
  - eexists _, _. split; reflexivity.
  - unfold parens. destruct (is_fun l).
    + eexists _, _. split; reflexivity.
    + destruct IHl as (tk & ts & -> & Hs). eexists _, _. split; [reflexivity|assumption].
Qed.

Lemma arg_toks_starter t :
  exists tk ts, arg_toks t = tk :: ts /\ starter tk = true /\ tk <> TLam.
Proof.
  unfold arg_toks, parens. destruct t as [v|m|p b|l r]; cbn [is_atom negb toks].
  - eexists _, _. repeat split. discriminate.
  - eexists _, _. repeat split. discriminate.
  - eexists _, _. repeat split. discriminate.
  - eexists _, _. repeat split. discriminate.
Qed.

Lemma nargs_size t : nargs t < size t.
Proof. induction t; simpl; lia. Qed.

Lemma stop_stopper ts : stop ts = true -> stopper ts = true.
Proof. destruct ts as [|[] ts]; simpl; congruence. Qed.

Lemma stopper_sep ts : stopper ts = true -> sep ts = true.
Proof. destruct ts as [|[] ts]; simpl; congruence. Qed.

(** The tokens of a plain expression, followed by well-formed tokens
    that start with a blank or a closing parenthesis, are
    well-formed. *)
Lemma wf_toks t : forall chain ts,
  plain t = true -> wf ts = true -> stopper ts = true ->
  wf (toks chain t ++ ts) = true.
Proof.
  induction t as [v|m|p b IH|l IHl r IHr]; intros chain ts Hp Hw Hs; cbn [plain] in Hp.
  - cbn [toks Datatypes.app wf]. unfold name_ok in Hp. apply andb_true_iff in Hp as [_ Hp].
    rewrite Hp, (stopper_sep _ Hs), Hw. reflexivity.
  - cbn [toks Datatypes.app wf tok_ok]. rewrite Hp, (stopper_sep _ Hs), Hw. reflexivity.
  - apply andb_true_iff in Hp as [Hn Hb].
    unfold name_ok in Hn. apply andb_true_iff in Hn as [_ Hn].
    cbn [toks]. rewrite <- app_assoc. cbn [Datatypes.app].
    assert (Hrest : wf (TName (name_of p) :: TDot :: toks true b ++ ts) = true).
    { cbn [wf sep]. rewrite Hn, (IH true ts Hb Hw Hs). reflexivity. }
    destruct chain; exact Hrest.
  - apply andb_true_iff in Hp as [Hl Hr].
    cbn [toks]. rewrite <- app_assoc. cbn [Datatypes.app].
    assert (HA : wf (parens (negb (is_atom r)) (toks false r) ++ ts) = true).
    { unfold parens. destruct (negb (is_atom r)).
      - rewrite <- app_comm_cons, <- app_assoc.
        change (wf (toks false r ++ TClose :: ts) = true).
        apply IHr; [assumption | exact Hw | reflexivity].
      - apply IHr; assumption. }
    assert (HS : wf (TSpace :: parens (negb (is_atom r)) (toks false r) ++ ts) = true).
    { destruct (arg_toks_starter r) as (tk & ts' & E & Hst & _).
      unfold arg_toks in E. rewrite E in HA |- *.
      rewrite <- app_comm_cons in HA |- *.
      change (quiet (tk :: ts' ++ ts) && wf (tk :: ts' ++ ts) = true).
      rewrite HA. destruct tk; try discriminate; reflexivity. }
    unfold parens at 1. destruct (is_fun l).
    + rewrite <- app_comm_cons, <- app_assoc.
      change (wf (toks false l ++
                  TClose :: TSpace :: parens (negb (is_atom r)) (toks false r) ++ ts)
              = true).
      apply IHl; [assumption | exact HS | reflexivity].
    + apply IHl; [assumption | assumption | reflexivity].
Qed.

(** ** The parser on the tokens of a printed expression *)

Lemma parse_expr_S n l :
  parse_expr (S n) l
  = (r <- parse_primary n l ;;
     match r with
     | (None, l1) => ret (None, l1)
     | (Some expr, l1) => peek_loop n l1 expr
     end).
Proof. reflexivity. Qed.

Lemma parse_expr_loop_S n l expr :
  parse_expr_loop (S n) l expr
  = (if is_expr_end (token l) then ret (Some expr, l)
     else
       r <- parse_primary n l ;;
       match r with
       | (None, l1) => ret (None, l1)
       | (Some rhs, l1) => expr' <- app expr rhs ;; peek_loop n l1 expr'
       end).
Proof. reflexivity. Qed.

Lemma Token_Kind_eqb_eq a b : Token_Kind_eqb a b = true <-> a = b.
Proof. destruct a, b; simpl; split; intros H; congruence. Qed.

Lemma wf_app_r ts1 ts2 : wf (ts1 ++ ts2) = true -> wf ts2 = true.
Proof.
  induction ts1 as [|tk ts1 IH]; [auto|].
  rewrite <- app_comm_cons. intros H. apply wf_tail in H. auto.
Qed.

(** A new node for the parser. *)
Lemma node_parsed a w :
  dead_ok w ->
  exists e w', new_node a w = Ok e w' /\ fresh_node w e a w' /\
    extends w w' /\ dead_ok w'.
Proof.
  intros Hd. destruct (new_node_total a w Hd) as (e & w' & H & Hd').
  pose proof (new_node_Ok _ _ _ _ H) as Hf.
  exists e, w'. split; [assumption|]. split; [assumption|].
  split; [eapply fresh_node_extends; eassumption | assumption].
Qed.

Lemma stop_peek ts : stop ts = true -> is_expr_end (peek_kind ts) = true.
Proof.
  destruct ts as [|[] ts]; unfold peek_kind; simpl; intros H;
    try reflexivity; discriminate H.
Qed.

Lemma stop_not_dot ts : stop ts = true -> peek_kind ts <> TOKEN_DOT.
Proof.
  destruct ts as [|[] ts]; unfold peek_kind; simpl; intros H;
    try discriminate H; discriminate.
Qed.

(** The first token of an argument, after the blank if there is one. *)
Lemma lex_arg sp t ts :
  exists tk rest,
    arg_toks t = tk :: rest /\ starter tk = true /\ tk <> TLam /\
    first_tok (blank sp ++ arg_toks t ++ ts) = Some tk /\
    behead (blank sp ++ arg_toks t ++ ts) = rest ++ ts.
Proof.
  destruct (arg_toks_starter t) as (tk & rest & E & Hs & Hl).
  exists tk, rest. rewrite E. split; [reflexivity|]. split; [assumption|].
  split; [assumption|].
  destruct sp; cbn [blank Datatypes.app]; [split; reflexivity|].
  destruct tk; try discriminate; split; reflexivity.
Qed.

Lemma peek_loop_stop cs n l i w ts :
  wf ts = true -> stop ts = true -> at_ cs l (render ts) ->
  exists l', peek_loop (S n) l i w = Ok (Some i, l') w /\ at_ cs l' (render ts).
Proof.
  intros Hw Hs H. destruct (lexer_peek_at _ _ _ Hw H) as (l' & Hp & H' & Ht).
  exists l'. split; [|assumption].
  unfold peek_loop. rewrite Hp. cbn [negb]. rewrite parse_expr_loop_S, Ht.
  rewrite (stop_peek _ Hs). reflexivity.
Qed.

(** [parse_primary] on an argument: a name, a magic, or an expression
    in parentheses. *)
Lemma parse_primary_at cs t :
  (is_atom t = false -> parse_expr_reads cs t) -> plain t = true ->
  parse_primary_reads cs t.
Proof.
  intros HS Hp sp n l w ts Hn Hw H Hd.
  destruct (lex_arg sp t ts) as (tk & rest & E & Hst & Hnl & Hft & Hbh).
  destruct (lexer_next_at _ _ _ Hw H) as (l1 & Hlex & H1 & Ht & Hl & Hw1).
  unfold peek_kind in Ht. unfold lstring_ok in Hl. rewrite Hft in Ht, Hl.
  rewrite Hbh in H1, Hw1.
  assert (Hn' : exists n', n = S n').
  { destruct n as [|n']; [|eauto]. unfold pneed in Hn. destruct (is_atom t); lia. }
  destruct Hn' as [n' ->]. cbn [parse_primary]. rewrite Hlex. cbn [negb]. rewrite Ht.
  unfold arg_toks, parens in E. unfold pneed in Hn.
  destruct (is_atom t) eqn:Hat; cbn [negb] in E.
  - destruct t as [v|m|p b|tl tr]; try discriminate Hat; cbn [toks] in E;
      injection E as <- <-; cbn [kind].
    + rewrite Hl. cbn [plain] in Hp. rewrite (name_ok_symbol _ Hp).
      rewrite var_new_node.
      destruct (node_parsed (EXPR_VAR v) w Hd) as (e & w' & Hnode & Hf & Hext & Hd').
      rewrite (bind_Ok_intro _ _ _ _ _ Hnode).
      exists e, l1, w'. split; [reflexivity|].
      split; [eapply Repr_fresh_Var; eassumption|]. auto.
    + rewrite Hl, string_of_list_ascii_of_string, magic_new_node.
      destruct (node_parsed (EXPR_MAG m) w Hd) as (e & w' & Hnode & Hf & Hext & Hd').
      rewrite (bind_Ok_intro _ _ _ _ _ Hnode).
      exists e, l1, w'. split; [reflexivity|].
      split; [eapply Repr_fresh_Mag; eassumption|]. auto.
  - injection E as <- <-. cbn [kind].
    rewrite <- app_assoc in H1, Hw1. cbn [Datatypes.app] in H1, Hw1.
    destruct (HS eq_refl n' l1 w (TClose :: ts) ltac:(lia) Hw1 eq_refl H1 Hd)
      as (i & l2 & w2 & Hr & Hrepr & H2 & Hext & Hd2).
    rewrite (bind_Ok_intro _ _ _ _ _ Hr).
    destruct (lexer_expect_at cs l2 (TClose :: ts) TOKEN_CPAREN
                (wf_app_r _ _ Hw1) H2 eq_refl) as (l3 & He & H3 & _ & _).
    rewrite He. cbn [negb]. exists i, l3, w2. auto.
Qed.

Lemma peek_kind_arg t ts :
  peek_kind (TSpace :: arg_toks t ++ ts) <> TOKEN_DOT /\
  is_expr_end (peek_kind (TSpace :: arg_toks t ++ ts)) = false.
Proof.
  destruct (arg_toks_starter t) as (tk & rest & -> & Hs & Hl).
  unfold peek_kind. cbn [first_tok Datatypes.app head].
  destruct tk; try discriminate; try congruence; split; (discriminate || reflexivity).
Qed.

(** The body of a function that is not itself a function does not
    start with a name and a dot. *)
Lemma not_name_dot b : forall ts,
  is_fun b = false -> peek_kind ts <> TOKEN_DOT ->
  ~ (peek_kind (toks false b ++ ts) = TOKEN_NAME /\
     peek_kind (behead (toks false b ++ ts)) = TOKEN_DOT).
Proof.
  induction b as [v|m|p b IH|l IHl r IHr]; intros ts Hf Hts [Ha Hb].
  - apply Hts. exact Hb.
  - discriminate Ha.
  - discriminate Hf.
  - cbn [toks] in Ha, Hb. rewrite <- app_assoc in Ha, Hb.
    cbn [Datatypes.app] in Ha, Hb. unfold parens at 1 in Ha. unfold parens at 1 in Hb.
    destruct (is_fun l) eqn:Hl.
    + discriminate Ha.
    + apply (IHl (TSpace :: arg_toks r ++ ts) eq_refl); [apply peek_kind_arg|].
      split; assumption.
Qed.

Lemma at_set_cur cs l l' s :
  at_ cs l s -> content l' = cs -> count l' = length cs ->
  at_ cs (set_cur (cur l) l') s.
Proof. intros (_ & _ & Hp & Hd) Hc Hn. repeat split; assumption. Qed.

(** [parse_fun] after the backslash: the parameter, the dot, and the
    body, which is read by [parse_fun] again when it starts with a name
    and a dot. *)
Lemma parse_fun_at cs p b :
  parse_expr_reads cs b -> parse_fun_reads cs b ->
  name_ok p = true -> parse_fun_reads cs (Fun p b).
Proof.
  intros HS HF Hp n l w ts _ Hn Hw Hs H Hd.
  change (toks true (Fun p b) ++ ts)
    with (TName (name_of p) :: TDot :: toks true b ++ ts) in Hw, H.
  cbn [size] in Hn.
  destruct n as [|n']; [lia|]. cbn [parse_fun].
  destruct (lexer_expect_at cs l _ TOKEN_NAME Hw H eq_refl) as (l1 & He1 & H1 & Hl1 & Hw1).
  rewrite He1. cbn [negb]. cbn [behead] in H1, Hw1.
  unfold lstring_ok in Hl1. cbn [first_tok] in Hl1. rewrite Hl1, (name_ok_symbol _ Hp).
  destruct (lexer_expect_at cs l1 _ TOKEN_DOT Hw1 H1 eq_refl) as (l2 & He2 & H2 & _ & Hw2).
  rewrite He2. cbn [negb]. cbn [behead] in H2, Hw2.
  destruct (lexer_next_at _ _ _ Hw2 H2) as (la & Hna & Ha & Hta & _ & Hwa).
  rewrite Hna. cbn [negb].
  destruct (lexer_next_at _ _ _ Hwa Ha) as (lb & Hnb & Hb & Htb & _ & _).
  rewrite Hnb. cbn [negb]. rewrite Hta, Htb.
  assert (H3 : at_ cs (set_cur (cur l2) lb) (render (toks true b ++ ts))).
  { apply at_set_cur; [assumption | apply Hb | apply Hb]. }
  set (l3 := set_cur (cur l2) lb) in *. clearbody l3.
  assert (Hbody : parsed cs b ts w
            ((if Token_Kind_eqb (peek_kind (toks true b ++ ts)) TOKEN_NAME &&
                 Token_Kind_eqb (peek_kind (behead (toks true b ++ ts))) TOKEN_DOT
              then parse_fun n' l3 else parse_expr n' l3) w)).
  { destruct (is_fun b) eqn:Hfb.
    - destruct b as [v|m|q b'|tl tr]; try discriminate Hfb.
      change (peek_kind (toks true (Fun q b') ++ ts)) with TOKEN_NAME.
      change (peek_kind (behead (toks true (Fun q b') ++ ts))) with TOKEN_DOT.
      cbn [Token_Kind_eqb andb].
      apply HF; [reflexivity | lia | assumption | assumption | assumption | assumption].
    - rewrite (toks_not_fun _ true Hfb) in *.
      destruct (Token_Kind_eqb _ _ && Token_Kind_eqb _ _) eqn:Hc.
      + exfalso. apply andb_true_iff in Hc as [Hc1 Hc2].
        apply Token_Kind_eqb_eq in Hc1, Hc2.
        exact (not_name_dot b ts Hfb (stop_not_dot _ Hs) (conj Hc1 Hc2)).
      + apply HS; [lia | assumption | assumption | assumption | assumption]. }
  destruct Hbody as (body & l4 & w4 & Hr & Hrepr & H4 & Hext & Hd4).
  rewrite (bind_Ok_intro _ _ _ _ _ Hr). cbn beta iota.
  rewrite fun_new_node.
  destruct (node_parsed (EXPR_FUN p body) w4 Hd4) as (e & w' & Hnode & Hf & Hext' & Hd').
  rewrite (bind_Ok_intro _ _ _ _ _ Hnode).
  exists e, l4, w'. split; [reflexivity|].
  split; [eapply Repr_fresh_Fun; eassumption|].
  split; [assumption|]. split; [etransitivity; eassumption | assumption].
Qed.

(** The first part of [parse_expr] on a head that is not an
    application: one call of [parse_primary]. *)
Lemma parse_head_primary cs t :
  nargs t = 0 -> parse_primary_reads cs t -> parse_head_reads cs t.
Proof.
  intros Hna HP n l w ts Hn Hw H Hd.
  assert (E : head_toks t = arg_toks t /\ pneed t <= hneed t).
  { unfold head_toks, arg_toks, pneed, hneed.
    destruct t; try discriminate Hna; simpl; split; try reflexivity; lia. }
  destruct E as [E Hle]. rewrite E in Hw, H.
  destruct (HP false n l w ts ltac:(lia) Hw H Hd)
    as (i & l1 & w1 & Hr & Hrepr & H1 & Hext & Hd1).
  exists i, l1, w1. split; [|auto].
  rewrite parse_expr_S, (bind_Ok_intro _ _ _ _ _ Hr), Hna, Nat.sub_0_r. reflexivity.
Qed.

(** On an application: the head, then one turn of the loop for the
    argument. *)
Lemma parse_head_app cs tl tr :
  parse_head_reads cs tl -> parse_primary_reads cs tr ->
  parse_head_reads cs (App tl tr).
Proof.
  intros HH HP n l w ts Hn Hw H Hd.
  change (head_toks (App tl tr)) with (head_toks tl ++ TSpace :: arg_toks tr) in Hw, H.
  rewrite <- app_assoc in Hw, H. cbn [Datatypes.app] in Hw, H.
  unfold hneed in Hn. cbn [is_fun size nargs] in Hn |- *.
  pose proof (nargs_size tl) as Hnl. pose proof (size_pos tr) as Hsr.
  assert (Hhl : hneed tl <= n) by (unfold hneed; destruct (is_fun tl); lia).
  destruct (HH n l w _ Hhl Hw H Hd) as (il & l1 & w1 & Heq & Hrl & H1 & Hext1 & Hd1).
  pose proof (wf_app_r _ _ Hw) as Hw1.
  destruct (lexer_peek_at _ _ _ Hw1 H1) as (l2 & Hp & H2 & Ht).
  destruct (peek_kind_arg tr ts) as [_ Hne].
  assert (Hm : n - nargs tl = S (n - S (nargs tl))) by lia.
  assert (Hpn : pneed tr <= n - S (nargs tl)).
  { unfold pneed. destruct (is_atom tr); lia. }
  destruct (HP true (n - S (nargs tl)) l2 w1 ts Hpn Hw1 H2 Hd1)
    as (ir & l3 & w2 & Hr & Hrr & H3 & Hext2 & Hd2).
  destruct (node_parsed (EXPR_APP il ir) w2 Hd2) as (e & w3 & Hnode & Hf & Hext3 & Hd3).
  exists e, l3, w3. split.
  - rewrite Heq, Hm. unfold peek_loop at 1. rewrite Hp. cbn [negb].
    rewrite parse_expr_loop_S, Ht, Hne, (bind_Ok_intro _ _ _ _ _ Hr).
    cbn beta iota. rewrite app_new_node, (bind_Ok_intro _ _ _ _ _ Hnode).
    reflexivity.
  - split; [eapply Repr_fresh_App; [eassumption | | eassumption];
            eapply Repr_extends; eassumption|].
    split; [assumption|].
    split; [etransitivity; [eassumption|]; etransitivity; eassumption | assumption].
Qed.

(** [parse_expr] on an expression that is not a function: the head and
    the arguments, then the token that ends the expression. *)
Lemma parse_expr_at_head cs t :
  is_fun t = false -> plain t = true ->
  parse_head_reads cs t -> parse_expr_reads cs t.
Proof.
  intros Hf Hpl HH n l w ts Hn Hw Hs H Hd.
  pose proof (size_pos t) as Hsz. pose proof (nargs_size t) as Hna.
  destruct n as [|n']; [lia|].
  assert (E : head_toks t = toks false t) by (unfold head_toks; rewrite Hf; reflexivity).
  rewrite <- E in Hw, H.
  assert (Hh : hneed t <= n') by (unfold hneed; rewrite Hf; lia).
  destruct (HH n' l w ts Hh Hw H Hd) as (i & l1 & w1 & Heq & Hr & H1 & Hext & Hd1).
  rewrite Heq.
  assert (Hm : n' - nargs t = S (n' - S (nargs t))) by lia. rewrite Hm.
  destruct (peek_loop_stop cs (n' - S (nargs t)) l1 i w1 ts (wf_app_r _ _ Hw) Hs H1)
    as (l' & Hpl' & H').
  exists i, l', w1. auto.
Qed.

(** [parse_expr] on a function. *)
Lemma parse_expr_at_fun cs p b :
  parse_fun_reads cs (Fun p b) -> parse_expr_reads cs (Fun p b).
Proof.
  intros HF n l w ts Hn Hw Hs H Hd. cbn [size] in Hn.
  pose proof (size_pos b) as Hsz.
  destruct n as [|[|n'']]; [lia | lia|].
  change (toks false (Fun p b) ++ ts) with (TLam :: toks true (Fun p b) ++ ts) in Hw, H.
  destruct (lexer_next_at _ _ _ Hw H) as (l1 & Hlex & H1 & Ht & _ & Hw1).
  cbn [behead] in H1, Hw1.
  destruct (HF n'' l1 w ts eq_refl ltac:(cbn [size]; lia) Hw1 Hs H1 Hd)
    as (i & l2 & w2 & Hr & Hrepr & H2 & Hext & Hd2).
  destruct (peek_loop_stop cs n'' l2 i w2 ts (wf_app_r _ _ Hw1) Hs H2)
    as (l' & Hpl & H').
  exists i, l', w2. split; [|auto].
  rewrite parse_expr_S. cbn [parse_primary]. unfold bind at 1.
  rewrite Hlex. cbn [negb]. rewrite Ht. cbn [peek_kind first_tok kind].
  rewrite Hr. exact Hpl.
Qed.

(** The four parsing functions read back the tokens of a plain
    expression. *)
Lemma parser_reads cs t :
  plain t = true ->
  parse_expr_reads cs t /\ parse_fun_reads cs t /\
  parse_primary_reads cs t /\ parse_head_reads cs t.
Proof.
  assert (Hnf : forall t, is_fun t = false -> parse_fun_reads cs t).
  { intros t0 Hf n l w ts Hf'. congruence. }
  induction t as [v|m|p b IH|tl IHl tr IHr]; intros Hp.
  - assert (HP : parse_primary_reads cs (Var v))
      by (apply parse_primary_at; [discriminate | assumption]).
    pose proof (parse_head_primary cs (Var v) eq_refl HP) as HH.
    split; [apply parse_expr_at_head; auto|]. auto.
  - assert (HP : parse_primary_reads cs (Mag m))
      by (apply parse_primary_at; [discriminate | assumption]).
    pose proof (parse_head_primary cs (Mag m) eq_refl HP) as HH.
    split; [apply parse_expr_at_head; auto|]. auto.
  - cbn [plain] in Hp. pose proof Hp as Hp'. apply andb_true_iff in Hp' as [Hn Hb].
    destruct (IH Hb) as (HSb & HFb & _ & _).
    pose proof (parse_fun_at cs p b HSb HFb Hn) as HF.
    pose proof (parse_expr_at_fun cs p b HF) as HS.
    assert (HP : parse_primary_reads cs (Fun p b))
      by (apply parse_primary_at; [intros _; exact HS | exact Hp]).
    pose proof (parse_head_primary cs (Fun p b) eq_refl HP) as HH. auto.
  - cbn [plain] in Hp. pose proof Hp as Hp'. apply andb_true_iff in Hp' as [Hl Hr].
    destruct (IHl Hl) as (_ & _ & _ & HHl). destruct (IHr Hr) as (_ & _ & HPr & _).
    pose proof (parse_head_app cs tl tr HHl HPr) as HH.
    pose proof (parse_expr_at_head cs (App tl tr) eq_refl Hp HH) as HS.
    assert (HP : parse_primary_reads cs (App tl tr))
      by (apply parse_primary_at; [intros _; exact HS | exact Hp]).
    auto.
Qed.

Lemma length_list_ascii_of_string s :
  length (list_ascii_of_string s) = String.length s.
Proof. induction s as [|c s IH]; [reflexivity|]. simpl. rewrite IH. reflexivity. Qed.

Lemma at_lexer_init cs : at_ cs (lexer_init cs (length cs)) cs.
Proof. repeat split. simpl. lia. Qed.

(** Reading back what [expr_display] wrote: when no symbol of the
    expression at index [e] carries a fresh tag and its names are runs
    of letters, digits and underscores, [parse_expr], run on the text
    that [expr_display] returns for [e] with three units of fuel for
    each node, reads the whole text and returns an index that stands
    for the same tree as [e]; no slot that was live is changed. *)
Theorem parse_display_round_trip w e t fd s wd fuel :
  Repr w e t -> plain t = true -> dead_ok w ->
  expr_display fd false e w = Ok s wd ->
  3 * size t <= fuel ->
  exists i l' w',
    parse_expr fuel (lexer_init (list_ascii_of_string s) (String.length s)) wd
    = Ok (Some i, l') w' /\
    Repr w' i t /\ Repr w' e t /\
    at_ (list_ascii_of_string s) l' [] /\ extends w w'.
Proof.
  intros Hr Hp Hd Hdisp Hn.
  destruct (expr_display_Ok _ _ _ _ _ _ _ Hr Hdisp) as [-> ->].
  rewrite <- length_list_ascii_of_string, <- (render_toks t false Hp).
  set (cs := render (toks false t)).
  destruct (parser_reads cs t Hp) as (HS & _).
  assert (Hw : wf (toks false t ++ []) = true) by (apply wf_toks; auto).
  assert (H : at_ cs (lexer_init cs (length cs)) (render (toks false t ++ []))).
  { rewrite app_nil_r. apply at_lexer_init. }
  destruct (HS fuel _ w [] Hn Hw eq_refl H Hd) as (i & l' & w' & Hpar & Hi & H' & Hext & _).
  exists i, l', w'. split; [assumption|]. split; [assumption|].
  split; [eapply Repr_extends; eassumption|]. auto.
Qed.

Lemma parse_display_round_trip_witness :
  exists i l' w',
    parse_expr 15 (lexer_init (list_ascii_of_string "(\x.y.x) y") 10) world_capture
    = Ok (Some i, l') w' /\
    Repr w' i (App (Fun (symbol "x") (Fun (symbol "y") (Var (symbol "x"))))
                 (Var (symbol "y"))) /\
    Repr w' 4 (App (Fun (symbol "x") (Fun (symbol "y") (Var (symbol "x"))))
                 (Var (symbol "y"))) /\
    at_ (list_ascii_of_string "(\x.y.x) y") l' [] /\ extends world_capture w'.
Proof.
  apply (parse_display_round_trip world_capture 4
           (App (Fun (symbol "x") (Fun (symbol "y") (Var (symbol "x"))))
              (Var (symbol "y"))) 5 "(\x.y.x) y" world_capture 15).
  - apply (tree_of_Repr 5). vm_compute. reflexivity.
  - vm_compute. reflexivity.
  - apply dead_okb_dead_ok. vm_compute. reflexivity.
  - vm_compute. reflexivity.
  - simpl. lia.
Defined.

(** ** What a step does to an expression *)

Lemma Step_normal o c t out c' ls :
  Step o c t out c' ls ->
  normal t = match out with Unchanged => true | _ => false end.
Proof.
  induction 1; cbn [normal plain_head andb]; try reflexivity;
    rewrite ?IHStep, ?IHStep1, ?IHStep2;
    repeat match goal with H : plain_head _ = true |- _ => rewrite H; clear H end;
    try reflexivity.
Qed.

Lemma Step_free_in o c t out c' ls :
  Step o c t out c' ls ->
  forall t' v, out = Changed t' -> free_in v t' = true -> free_in v t = true.
Proof.
  induction 1; intros t' v Ho Hv; try discriminate Ho;
    injection Ho as <-; cbn [free_in] in Hv |- *.
  - destruct (symbol_eq p v); [discriminate|]. eapply IHStep; eauto.
  - destruct (Subst_free_in _ _ _ _ _ _ _ H _ Hv) as [[Hb Hne]|Hr].
    + rewrite (proj2 (symbol_eq_false p v) (fun E => Hne (eq_sym E))), Hb.
      reflexivity.
    + rewrite Hr. apply orb_true_r.
  - eapply IHStep; eauto.
  - assumption.
  - eapply IHStep; eauto.
  - discriminate.
  - apply orb_true_iff in Hv as [Hv|Hv]; apply orb_true_iff;
      [left; eapply IHStep; eauto | right; assumption].
  - apply orb_true_iff in Hv as [Hv|Hv]; apply orb_true_iff;
      [left; assumption | right; eapply IHStep2; eauto].
Qed.

Lemma eval1_free_in fuel o e w r w' t :
  Repr w e t -> eval1 fuel o e w = Ok (Some r) w' ->
  exists t', Repr w' r t' /\
    (r = e <-> normal t = true) /\
    forall v, free_in v t' = true -> free_in v t = true.
Proof.
  intros Hr H.
  destruct (eval1_Step fuel o e w (Some r) w' t Hr H) as (out & ls & Hst & _ & Hag).
  pose proof (Step_normal _ _ _ _ _ _ Hst) as Hn.
  destruct out as [|t'|]; simpl in Hag; [| |contradiction].
  - subst r. exists t. split; [|split; [tauto | auto]].
    eapply Repr_extends; [eapply eval1_extends; eassumption | assumption].
  - destruct Hag as [Hne Hr']. exists t'. split; [assumption|].
    split; [split; [contradiction | rewrite Hn; discriminate]|].
    intros v. apply (Step_free_in _ _ _ _ _ _ Hst). reflexivity.
Qed.

Lemma Iter_free_in fuel o max_mass k start w curr wk :
  Iter fuel o max_mass k start w curr wk ->
  forall t, Repr w start t ->
    exists tk, Repr wk curr tk /\
      forall v, free_in v tk = true -> free_in v t = true.
Proof.
  induction 1 as [curr w|k curr w next w1 curr' wk Hok Hev Hne Hit IH]; intros t Hr.
  - exists t. auto.
  - destruct (eval1_free_in _ _ _ _ _ _ _ Hr Hev) as (t1 & Hr1 & _ & Hf1).
    destruct (IH _ Hr1) as (tk & Hrk & Hfk). exists tk. auto.
Qed.

(** [eval1] returns the index it was given exactly on the normal
    forms: the expressions in which no application has a function or a
    magic at its head.  On any other expression it returns another
    index, or fails. *)
Theorem eval1_fixpoint_iff_normal fuel o e w res w' t :
  Repr w e t -> eval1 fuel o e w = Ok res w' ->
  (res = Some e <-> normal t = true).
Proof.
  intros Hr H.
  destruct (eval1_Step fuel o e w res w' t Hr H) as (out & ls & Hst & _ & Hag).
  rewrite (Step_normal _ _ _ _ _ _ Hst).
  destruct out as [|t'|], res as [r|]; simpl in Hag; try contradiction.
  - subst r. tauto.
  - destruct Hag as [Hne _]. split; [intros E; injection E as ->; contradiction|].
    discriminate.
  - split; discriminate.
Qed.

Lemma eval1_fixpoint_iff_normal_witness :
  Repr world_capture_stepped 6
    (Fun (mkSymbol "y" 1) (Var (symbol "y"))) /\
  eval1 5 Left_To_Right 6 world_capture_stepped = Ok (Some 6) world_capture_stepped /\
  (Some 6 = Some 6 <-> normal (Fun (mkSymbol "y" 1) (Var (symbol "y"))) = true).
Proof.
  assert (Hr : Repr world_capture_stepped 6
            (Fun (mkSymbol "y" 1) (Var (symbol "y")))).
  { apply (tree_of_Repr 5). vm_compute. reflexivity. }
  assert (He : eval1 5 Left_To_Right 6 world_capture_stepped
               = Ok (Some 6) world_capture_stepped).
  { vm_compute. reflexivity. }
  split; [exact Hr|]. split; [exact He|].
  exact (eval1_fixpoint_iff_normal 5 Left_To_Right 6 world_capture_stepped
           (Some 6) world_capture_stepped _ Hr He).
Defined.

(** A step of [eval1] never introduces a free variable: every variable
    free in the expression that [eval1] returns is free in the
    expression it was given.  A closed expression stays closed. *)
Theorem eval1_no_new_free_variables fuel o e w r w' t :
  Repr w e t -> eval1 fuel o e w = Ok (Some r) w' ->
  exists t', Repr w' r t' /\
    (forall v, free_in v t' = true -> free_in v t = true) /\
    (closed t -> closed t').
Proof.
  intros Hr H. destruct (eval1_free_in _ _ _ _ _ _ _ Hr H) as (t' & Hr' & _ & Hf).
  exists t'. split; [assumption|]. split; [assumption|].
  intros Hc v. destruct (free_in v t') eqn:E; [|reflexivity].
  rewrite <- (Hc v). symmetry. apply Hf. assumption.
Qed.

Lemma eval1_no_new_free_variables_witness :
  exists t', Repr world_capture_stepped 6 t' /\
    (forall v, free_in v t' = true ->
       free_in v (App (Fun (symbol "x") (Fun (symbol "y") (Var (symbol "x"))))
                    (Var (symbol "y"))) = true) /\
    (closed (App (Fun (symbol "x") (Fun (symbol "y") (Var (symbol "x"))))
               (Var (symbol "y"))) -> closed t').
Proof.
  apply (eval1_no_new_free_variables 5 Left_To_Right 4 world_capture 6
           world_capture_stepped).
  - apply (tree_of_Repr 5). vm_compute. reflexivity.
  - vm_compute. reflexivity.
Defined.

(** When [eval_bounded] returns [EVAL_DONE], the expression it hands
    back is a normal form, and every variable free in it is free in
    the expression the evaluation started from. *)
Theorem eval_bounded_done_normal fuel o start limit max_mass w r w' t :
  Repr w start t ->
  eval_bounded fuel o start limit max_mass w = Ok (EVAL_DONE, Some r) w' ->
  exists t', Repr w' r t' /\ normal t' = true /\
    forall v, free_in v t' = true -> free_in v t = true.
Proof.
  intros Hr H.
  destruct (eval_bounded_ends _ _ _ _ _ _ _ _ H) as (k & curr & wk & Hit & Hend).
  unfold ends in Hend. simpl in Hend. destruct Hend as (E & _ & _ & Hev).
  injection E as ->.
  destruct (Iter_free_in _ _ _ _ _ _ _ _ Hit _ Hr) as (tk & Hrk & Hfk).
  destruct (eval1_free_in _ _ _ _ _ _ _ Hrk Hev) as (t' & Hr' & Hn & Hf').
  pose proof (Repr_extends _ _ _ _ (eval1_extends _ _ _ _ _ _ Hev) Hrk) as Hrk'.
  rewrite (Repr_functional _ _ _ _ Hr' Hrk') in *.
  exists tk. split; [assumption|]. split; [apply Hn; reflexivity | assumption].
Qed.

Lemma eval_bounded_done_normal_witness :
  exists t', Repr world_capture_stepped 6 t' /\ normal t' = true /\
    forall v, free_in v t' = true ->
      free_in v (App (Fun (symbol "x") (Fun (symbol "y") (Var (symbol "x"))))
                   (Var (symbol "y"))) = true.
Proof.
  apply (eval_bounded_done_normal 5 Left_To_Right 4 10 0 world_capture 6
           world_capture_stepped).
  - apply (tree_of_Repr 5). vm_compute. reflexivity.
  - vm_compute. reflexivity.
Defined.

(** ** The invariants of the collector, between collections *)

#[export] Instance keeps_gens_ok_PreOrder : PreOrder keeps_gens_ok.
Proof.
  split.
  - intros w H. exact H.
  - intros w1 w2 w3 H1 H2 H. auto.
Qed.

Lemma new_node_keeps_gens_ok a : stable keeps_gens_ok (new_node a).
Proof.
  intros w i w' H Hg. unfold new_node in H.
  mbind H as i0 w1 Ha. mbind H as u w2 Hu. mret H.
  apply alloc_expr_Ok in Ha
    as (e & _ & _ & Hl & Hs & Hoth & _ & _ & Hcur & Hgen & _ & Hw).
  apply update_slot_Ok in Hu as (e' & Hs' & _ & ->).
  intros j (ej & Hj & Hlj). simpl in Hj |- *.
  replace (gens (set_slots (<[i := set_as a e']> (slots (GC w1))) (GC w1))
             (gen_cur (GC w1)))
    with (gens (GC w1) (gen_cur (GC w1)))
    by (destruct (gen_cur (GC w1)); reflexivity).
  rewrite Hcur, Hgen. apply elem_of_app.
  destruct (decide (j = i)) as [->|Hne]; [right; apply list_elem_of_here|].
  left. apply Hg. exists ej. split; [|assumption].
  rewrite list_lookup_insert_ne in Hj by congruence.
  rewrite <- (Hoth _ Hne). assumption.
Qed.

Lemma eval_stable_keeps_gens_ok : eval_stable keeps_gens_ok.
Proof.
  split; [split; [typeclasses eauto | split]|].
  - apply new_node_keeps_gens_ok.
  - intros s w a w' H Hg. invc H. exact Hg.
  - intros s w u w' H Hg. apply emit_Ok in H as ->. exact Hg.
Qed.

Lemma gen_stable_keeps_gens_ok : gen_stable keeps_gens_ok.
Proof.
  split; [apply eval_stable_keeps_gens_ok|].
  intros w a w' H Hg. invc H. exact Hg.
Qed.

(** Evaluation and generation keep the two invariants that the
    collector relies on: after [eval_bounded] and after
    [generate_rich_combinator], every live slot is still listed in the
    current generation, and the free list still holds distinct indices
    of slots that are not live. *)
Theorem evaluation_keeps_collector_invariants fuel o w :
  gens_ok w -> dead_ok w ->
  (forall start limit max_mass r w',
     eval_bounded fuel o start limit max_mass w = Ok r w' ->
     gens_ok w' /\ dead_ok w') /\
  (forall depth D env n r w',
     generate_rich_combinator fuel o depth D env n w = Ok r w' ->
     gens_ok w' /\ dead_ok w').
Proof.
  intros Hg Hd. split.
  - intros start limit max_mass r w' H. split.
    + exact (stable_eval_bounded _ eval_stable_keeps_gens_ok _ _ _ _ _ _ _ _ H Hg).
    + exact (stable_eval_bounded _ eval_stable_keeps_dead_ok _ _ _ _ _ _ _ _ H Hd).
  - intros depth D env n r w' H. split.
    + exact (stable_generate _ gen_stable_keeps_gens_ok _ _ _ _ _ _ _ _ _ H Hg).
    + exact (stable_generate _ gen_stable_keeps_dead_ok _ _ _ _ _ _ _ _ _ H Hd).
Qed.

Lemma evaluation_keeps_collector_invariants_witness :
  gens_ok world_capture /\ dead_ok world_capture /\
  eval_bounded 5 Left_To_Right 4 10 0 world_capture
  = Ok (EVAL_DONE, Some 6) world_capture_stepped /\
  gens_ok world_capture_stepped /\ dead_ok world_capture_stepped.
Proof.
  assert (Hg : gens_ok world_capture).
  { apply gens_okb_gens_ok. vm_compute. reflexivity. }
  assert (Hd : dead_ok world_capture).
  { apply dead_okb_dead_ok. vm_compute. reflexivity. }
  assert (H : eval_bounded 5 Left_To_Right 4 10 0 world_capture
              = Ok (EVAL_DONE, Some 6) world_capture_stepped).
  { vm_compute. reflexivity. }
  split; [exact Hg|]. split; [exact Hd|]. split; [exact H|].
  exact (proj1 (evaluation_keeps_collector_invariants 5 Left_To_Right
                  world_capture Hg Hd) _ _ _ _ _ H).
Defined.

(** ** What a collection keeps and what it frees *)



















(** ** The shuffle of [grid_step] *)





(** ** What a step of the grid keeps *)

Lemma cell_of_put_cases g i x j c :
  cell_of (put_cell i x g) j = Some c -> c = x \/ cell_of g j = Some c.
Proof.
  unfold cell_of, put_cell. destruct (cells g) as [cs|] eqn:E; simpl;
    [|rewrite E; discriminate].
  destruct (j <? 0)%Z; [discriminate|]. intros H.
  apply list_lookup_insert_Some in H as [(_ & -> & _)|[_ H]]; auto.
Qed.

Lemma Cell_Step_ages curr g g' :
  Cell_Step curr g g' -> ages_ok g -> ages_ok g' /\ steps g' = steps g.
Proof.
  intros H Ha.
  assert (Hsteps : forall i c G, steps (put_cell i c G) = steps G)
    by (intros i c G; unfold put_cell; destruct (cells G); reflexivity).
  assert (Hmax : (0 <= MAX_AGE)%Z) by (unfold MAX_AGE; lia).
  destruct H as [c Hc Ho Hage ->|c e Hc Ho ->|c Hc Ho ->
                |c t ct Hc Ho Hage Hn Ht Hot ->
                |c t ct ct2 result Hc Ho Hage Hn Ht Hot Ht2 ->
                |c t ct Hc Ho Hage Hn Ht Hot ->];
    (split; [|simpl; rewrite ?Hsteps; reflexivity]);
    try exact Ha;
    pose proof (Ha _ _ Hc) as Hc_age;
    intros i x Hx Hox;
    change (cell_of (?f ?n ?G) i) with (cell_of G i) in Hx;
    repeat match type of Hx with
           | cell_of (put_cell _ _ _) _ = Some _ =>
               apply cell_of_put_cases in Hx as [->|Hx]
           end;
    try (simpl in Hox; discriminate Hox);
    try (simpl; lia);
    try (exact (Ha _ _ Hx Hox));
    try (specialize (Hc_age Ho); simpl; lia).
Qed.

Lemma renamed_refl g : renamed g g.
Proof.
  exists (cells g). split; [destruct g; reflexivity|].
  destruct (cells g); auto.
Qed.

Lemma remap_cell_atom remap c w c' w' :
  remap_cell remap c w = Ok c' w' -> set_atom 0 c' = set_atom 0 c.
Proof.
  unfold remap_cell. destruct (occupied c).
  - intros H. mbind H as r w1 Hr. destruct r; mret H; reflexivity.
  - intros H. mret H. reflexivity.
Qed.

Lemma map_M_remap_cell_atoms remap : forall cs w cs' w',
  map_M (remap_cell remap) cs w = Ok cs' w' ->
  map (set_atom 0) cs' = map (set_atom 0) cs.
Proof.
  induction cs as [|c cs IH]; intros w cs' w' H; simpl in H.
  - mret H. reflexivity.
  - mbind H as c' w1 Hc. apply remap_cell_atom in Hc.
    mbind H as cs1 w2 Hcs. apply IH in Hcs. mret H. simpl. congruence.
Qed.

Lemma remap_grid_renamed remap w u w' :
  remap_grid remap w = Ok u w' -> renamed (active_grid w) (active_grid w').
Proof.
  unfold remap_grid. intros H. mbind H as w0 w1 Hw.
  unfold get_world in Hw. injection Hw as Hw0 Hw1. subst w0 w1.
  destruct (cells (active_grid w)) as [cs|] eqn:E.
  - destruct (_ <? _); [discriminate|].
    mbind H as cs' w2 Hcs.
    pose proof (map_M_remap_cell _ _ _ _ _ Hcs) as [-> _].
    apply map_M_remap_cell_atoms in Hcs.
    invc H. simpl. eexists. split; [reflexivity|]. rewrite E.
    rewrite map_app, Hcs, <- map_app, take_drop. reflexivity.
  - mret H. apply renamed_refl.
Qed.

Lemma pure_remap_binding remap b : pure (remap_binding remap b).
Proof.
  intros w r w' H. unfold remap_binding in H. mbind H as x w1 Hx.
  apply pure_remap_at in Hx as ->. destruct x; mret H; reflexivity.
Qed.

(** What [gc_compact] does to the grid is a renaming of the atoms. *)
Lemma gc_compact_renamed bindings w r w' :
  gc_compact bindings w = Ok r w' -> renamed (active_grid w) (active_grid w').
Proof.
  unfold gc_compact. intros H. mbind H as w0 w1 Hw.
  unfold get_world in Hw. injection Hw as Hw0 Hw1. subst w0 w1.
  destruct (_ =? 0); [mret H; apply renamed_refl|].
  destruct (_ <? _); [mret H; apply renamed_refl|].
  destruct (_ <? _)%Z; [discriminate|].
  mbind H as new_slots w2 Hns.
  apply (pure_map_M _ _ (pure_remap_expr _)) in Hns as ->.
  mbind H as u w2 Hg. apply remap_grid_renamed in Hg.
  mbind H as b' w3 Hb.
  assert (w3 = w2) as ->.
  { destruct bindings as [bs|]; [|mret Hb; reflexivity].
    mbind Hb as bs' w4 Hbs.
    apply (pure_map_M _ _ (pure_remap_binding _)) in Hbs as ->.
    mret Hb. reflexivity. }
  mbind H as g0 w4 Hg0. apply pure_remap_gen in Hg0 as ->.
  mbind H as g1 w4 Hg1. apply pure_remap_gen in Hg1 as ->.
  mbind H as u2 w4 Hm. invc Hm. mret H. exact Hg.
Qed.

Lemma renamed_keeps g g' :
  renamed g g' ->
  width g' = width g /\ height g' = height g /\ steps g' = steps g /\
  (wf_grid g -> wf_grid g') /\ (ages_ok g -> ages_ok g').
Proof.
  intros (cs' & -> & Hcs). simpl.
  split; [reflexivity|]. split; [reflexivity|]. split; [reflexivity|]. split.
  - intros (cs & Hc & Hl). rewrite Hc in Hcs. destruct cs' as [cs2|]; [|contradiction].
    exists cs2. split; [reflexivity|]. simpl.
    apply (f_equal length) in Hcs. rewrite !length_map in Hcs. congruence.
  - intros Ha i c Hi Ho. unfold cell_of in Hi. simpl in Hi.
    destruct cs' as [cs2|]; [|discriminate].
    destruct (cells g) as [cs|] eqn:E; [|contradiction].
    destruct (Z.ltb_spec i 0) as [Hneg|Hpos]; [discriminate|].
    assert (Hm : map (set_atom 0) cs2 !! Z.to_nat i = Some (set_atom 0 c))
      by (rewrite list_lookup_fmap, Hi; reflexivity).
    rewrite Hcs, list_lookup_fmap in Hm.
    destruct (cs !! Z.to_nat i) as [c0|] eqn:E0; [|discriminate].
    injection Hm as Hocc Hage _ _ _ _.
    rewrite <- Hage. apply (Ha i).
    + unfold cell_of. rewrite E.
      destruct (Z.ltb_spec i 0); [lia | assumption].
    + congruence.
Qed.

Lemma Cell_Step_steps curr g g' : Cell_Step curr g g' -> steps g' = steps g.
Proof.
  intros H.
  assert (Hsteps : forall i c G, steps (put_cell i c G) = steps G)
    by (intros i c G; unfold put_cell; destruct (cells G); reflexivity).
  destruct H as [c Hc Ho Hage ->|c e Hc Ho ->|c Hc Ho ->
                |c t ct Hc Ho Hage Hn Ht Hot ->
                |c t ct ct2 result Hc Ho Hage Hn Ht Hot Ht2 ->
                |c t ct Hc Ho Hage Hn Ht Hot ->];
    simpl; rewrite ?Hsteps; reflexivity.
Qed.

Lemma for_each_update_ages fuel o eval_steps max_mass : forall l w u w',
  for_each l (grid_update_cell fuel o eval_steps max_mass) w = Ok u w' ->
  (ages_ok (active_grid w) -> ages_ok (active_grid w')) /\
  steps (active_grid w') = steps (active_grid w).
Proof.
  induction l as [|curr l IH]; intros w u w' H; simpl in H.
  - mret H. auto.
  - mbind H as u1 w1 Hstep. apply grid_update_cell_Step in Hstep.
    destruct (IH _ _ _ H) as [Ha' Hs'].
    split; [|rewrite Hs'; exact (Cell_Step_steps _ _ _ Hstep)].
    intros Ha. apply Ha'. exact (proj1 (Cell_Step_ages _ _ _ Hstep Ha)).
Qed.

(** One call of [grid_step] on a grid of [width * height] cells: the
    dimensions stay, the grid still holds [width * height] cells, the
    step counter goes up by one, and, when no organism was older than
    [MAX_AGE] before the call, none is after it. *)
Theorem grid_step_keeps_shape fuel o bindings eval_steps max_mass w u w' :
  wf_grid (active_grid w) ->
  grid_step fuel o bindings eval_steps max_mass w = Ok u w' ->
  wf_grid (active_grid w') /\
  width (active_grid w') = width (active_grid w) /\
  height (active_grid w') = height (active_grid w) /\
  steps (active_grid w') = (steps (active_grid w) + 1)%Z /\
  (ages_ok (active_grid w) -> ages_ok (active_grid w')).
Proof.
  unfold grid_step. intros Hwf H.
  mbind H as g wg Hg. unfold get_grid in Hg. injection Hg as Hg Hwg. subst g wg.
  mbind H as indices w0 Hsh.
  pose proof (stable_shuffle_keeps_grid _ _ _ _ _ Hsh) as Hg0. unfold keeps in Hg0.
  mbind H as u1 w1 Hloop.
  rewrite <- Hg0 in Hwf |- *.
  destruct (for_each_Cell_Updates _ _ _ _ _ _ _ _ Hloop Hwf)
    as (Hwf1 & Hw1 & Hh1 & _).
  pose proof (for_each_update_ages _ _ _ _ _ _ _ _ Hloop) as [Hages Hsteps].
  mbind H as u2 w2 Hst. apply update_grid_Ok in Hst as ->.
  mbind H as g1 wg1 Hg1. unfold get_grid in Hg1. injection Hg1 as Hg1 Hwg1.
  subst g1 wg1. simpl in H.
  set (w2 := set_grid _ w1) in H.
  assert (Hfin : renamed (active_grid w2) (active_grid w') ->
            wf_grid (active_grid w') /\
            width (active_grid w') = width (active_grid w0) /\
            height (active_grid w') = height (active_grid w0) /\
            steps (active_grid w') = (steps (active_grid w0) + 1)%Z /\
            (ages_ok (active_grid w0) -> ages_ok (active_grid w'))).
  { intros Hr. destruct (renamed_keeps _ _ Hr) as (Ew & Eh & Es & Kwf & Kages).
    split; [apply Kwf; destruct Hwf1 as (cs & Hc & Hl); exists cs; auto|].
    split; [rewrite Ew; exact Hw1|]. split; [rewrite Eh; exact Hh1|].
    split.
    - rewrite Es. unfold w2. simpl. rewrite Hsteps. reflexivity.
    - intros Ha. apply Kages. pose proof (Hages Ha) as Ha1.
      intros i c Hi Ho. exact (Ha1 i c Hi Ho). }
  apply Hfin. clear Hfin.
  destruct (_ =? 0)%Z.
  - mbind H as dummy w3 Hd. pose proof (var_keeps_grid _ _ _ _ Hd) as Hg3.
    mbind H as u3 w4 Hgc. pose proof (stable_gc_keeps_grid _ _ _ _ _ _ Hgc) as Hg4.
    unfold keeps in Hg4.
    mbind H as n w5 Hn. unfold gc_slot_count in Hn. injection Hn as Hn Hw5. subst n w5.
    destruct (_ && _).
    + mbind H as r w6 Hc. mret H. apply gc_compact_renamed in Hc.
      rewrite Hg4, Hg3 in Hc. exact Hc.
    + mret H. rewrite Hg4, Hg3. apply renamed_refl.
  - mret H. apply renamed_refl.
Qed.

Lemma grid_step_keeps_shape_witness :
  wf_grid (active_grid world_grid) /\
  grid_step 100 Left_To_Right [] 10 100 world_grid = Ok tt world_grid_stepped /\
  ages_ok (active_grid world_grid) /\
  wf_grid (active_grid world_grid_stepped) /\
  width (active_grid world_grid_stepped) = width (active_grid world_grid) /\
  height (active_grid world_grid_stepped) = height (active_grid world_grid) /\
  steps (active_grid world_grid_stepped) = (steps (active_grid world_grid) + 1)%Z /\
  ages_ok (active_grid world_grid_stepped).
Proof.
  assert (Hwf : wf_grid (active_grid world_grid)).
  { eexists. split; [reflexivity|]. split; [reflexivity|]. vm_compute. discriminate. }
  assert (Hstep : grid_step 100 Left_To_Right [] 10 100 world_grid
                  = Ok tt world_grid_stepped).
  { vm_compute. reflexivity. }
  assert (Ha : ages_ok (active_grid world_grid)).
  { intros i c Hi Ho. unfold cell_of in Hi. simpl in Hi.
    destruct (i <? 0)%Z; [discriminate|].
    destruct (Z.to_nat i) as [|[|[|[|n]]]]; simpl in Hi; try discriminate Hi;
      injection Hi as <-; simpl; unfold MAX_AGE; lia. }
  split; [exact Hwf|]. split; [exact Hstep|]. split; [exact Ha|].
  destruct (grid_step_keeps_shape 100 Left_To_Right [] 10 100 world_grid tt
              world_grid_stepped Hwf Hstep) as (H1 & H2 & H3 & H4 & H5).
  split; [exact H1|]. split; [exact H2|]. split; [exact H3|]. split; [exact H4|].
  exact (H5 Ha).
Defined.

Lemma cell_of_put_other g a x i :
  (0 <= a)%Z -> i <> a -> cell_of (put_cell a x g) i = cell_of g i.
Proof.
  intros Ha Hne. destruct (Z.ltb_spec i 0) as [Hneg|Hpos].
  - unfold cell_of, put_cell. destruct (cells g) as [cs|] eqn:E; simpl;
      [|rewrite E; reflexivity].
    destruct (Z.ltb_spec i 0); [reflexivity | lia].
  - apply cell_of_put_ne; auto.
Qed.

Lemma Cell_Step_local curr g g' :
  Cell_Step curr g g' ->
  exists t, (t = curr \/ neighbour g curr t) /\
    forall i, i <> curr -> i <> t -> cell_of g' i = cell_of g i.
Proof.
  intros H.
  destruct H as [c Hc Ho Hage ->|c e Hc Ho ->|c Hc Ho ->
                |c t ct Hc Ho Hage Hn Ht Hot ->
                |c t ct ct2 result Hc Ho Hage Hn Ht Hot Ht2 ->
                |c t ct Hc Ho Hage Hn Ht Hot ->];
    pose proof (cell_of_nonneg _ _ _ Hc) as Hcurr;
    try pose proof (cell_of_nonneg _ _ _ Ht) as Htpos.
  - exists curr. split; [auto|]. intros i Hi _.
    change (cell_of (put_cell curr (emptied (aged c)) g) i = cell_of g i).
    apply cell_of_put_other; assumption.
  - exists curr. split; [auto|]. intros i Hi _.
    change (cell_of (put_cell curr (spawned e c) g) i = cell_of g i).
    apply cell_of_put_other; assumption.
  - exists curr. split; [auto|]. reflexivity.
  - exists t. split; [auto|]. intros i Hi Hit.
    change (cell_of (put_cell curr (emptied (aged c))
                       (put_cell t (aged c) (put_cell curr (aged c) g))) i
            = cell_of g i).
    rewrite !cell_of_put_other by assumption. reflexivity.
  - exists t. split; [auto|]. intros i Hi Hit.
    change (cell_of (put_cell t (transformed result ct2)
                       (put_cell curr (rejuvenated (aged c)) g)) i
            = cell_of g i).
    rewrite !cell_of_put_other by assumption. reflexivity.
  - exists t. split; [auto|]. intros i Hi Hit.
    change (cell_of (put_cell t (emptied ct) (put_cell curr (aged c) g)) i
            = cell_of g i).
    rewrite !cell_of_put_other by assumption. reflexivity.
Qed.

(** The update of one cell is local: [grid_update_cell] changes no
    cell other than the one it processes and, when that cell holds an
    organism, one of its four neighbours on the torus. *)
Theorem grid_update_cell_local fuel o eval_steps max_mass curr w u w' :
  grid_update_cell fuel o eval_steps max_mass curr w = Ok u w' ->
  exists t, (t = curr \/ neighbour (active_grid w) curr t) /\
    forall i, i <> curr -> i <> t ->
      cell_of (active_grid w') i = cell_of (active_grid w) i.
Proof.
  intros H. apply Cell_Step_local. eapply grid_update_cell_Step. eassumption.
Qed.

Lemma grid_update_cell_local_witness :
  exists t, (t = 1%Z \/ neighbour (active_grid world_grid) 1 t) /\
    forall i, i <> 1%Z -> i <> t ->
      cell_of (active_grid world_grid_updated) i = cell_of (active_grid world_grid) i.
Proof.
  apply (grid_update_cell_local 100 Left_To_Right 10 100 1 world_grid tt
           world_grid_updated).
  vm_compute. reflexivity.
Defined.



(** ** The accounting of a grid step, section 4.8 *)





(** ** The torus *)

Lemma wrap_mod a b :
  (0 < b)%Z ->
  (if (Z.rem a b <? 0)%Z then (Z.rem a b + b)%Z else Z.rem a b) = (a mod b)%Z.
Proof.
  intros Hb.
  pose proof (Z.quot_rem' a b) as Hqr.
  pose proof (Z.rem_bound_abs a b ltac:(lia)) as Habs.
  destruct (Z.ltb_spec (Z.rem a b) 0) as [Hneg|Hpos].
  - apply (Z.mod_unique a b (a ÷ b - 1)); [left; lia | lia].
  - apply (Z.mod_unique a b (a ÷ b)); [left; lia | lia].
Qed.

Lemma wrap_int_small z : (- 2 ^ 31 <= z <= INT_MAX)%Z -> wrap_int z = z.
Proof. unfold wrap_int, INT_MAX. intros H. rewrite Z.mod_small by lia. lia. Qed.

Lemma grid_idx_mod g x y :
  (0 < width g)%Z -> (0 < height g)%Z -> (width g * height g <= INT_MAX)%Z ->
  grid_idx g x y = ((y mod height g) * width g + x mod width g)%Z.
Proof.
  intros Hw Hh Hint. unfold grid_idx.
  rewrite (wrap_mod x _ Hw), (wrap_mod y _ Hh).
  pose proof (Z.mod_pos_bound x _ Hw). pose proof (Z.mod_pos_bound y _ Hh).
  rewrite (wrap_int_small (y mod height g * width g)) by (unfold INT_MAX in *; nia).
  apply wrap_int_small. unfold INT_MAX in *. nia.
Qed.

Lemma grid_idx_range g x y :
  (0 < width g)%Z -> (0 < height g)%Z -> (width g * height g <= INT_MAX)%Z ->
  (0 <= grid_idx g x y < width g * height g)%Z.
Proof.
  intros Hw Hh Hint. rewrite (grid_idx_mod g x y Hw Hh Hint).
  pose proof (Z.mod_pos_bound x _ Hw). pose proof (Z.mod_pos_bound y _ Hh). nia.
Qed.

(** [grid_idx] wraps both coordinates around the torus: for a grid of
    positive width and height whose number of cells fits an [int], and
    any [x] and [y], negative or beyond the edge, it returns
    [(y mod height) * width + (x mod width)], the index of a cell of
    the grid. *)
Theorem grid_idx_wraps g x y :
  (0 < width g)%Z -> (0 < height g)%Z -> (width g * height g <= INT_MAX)%Z ->
  grid_idx g x y = ((y mod height g) * width g + x mod width g)%Z /\
  (0 <= grid_idx g x y < width g * height g)%Z.
Proof.
  intros Hw Hh Hint.
  split; [apply grid_idx_mod | apply grid_idx_range]; assumption.
Qed.

Lemma grid_idx_wraps_witness :
  grid_idx (active_grid world_grid) (-1) 2
  = ((2 mod height (active_grid world_grid)) * width (active_grid world_grid)
     + (-1) mod width (active_grid world_grid))%Z /\
  (0 <= grid_idx (active_grid world_grid) (-1) 2
   < width (active_grid world_grid) * height (active_grid world_grid))%Z.
Proof.
  apply (grid_idx_wraps (active_grid world_grid) (-1) 2).
  - vm_compute. reflexivity.
  - vm_compute. reflexivity.
  - vm_compute. discriminate.
Defined.

(** On a grid with more cells than an [int] counts, the sum wraps
    around: the index of the last cell of a grid of 46341 by 46341
    cells is negative. *)
Example grid_idx_overflow :
  grid_idx (mkGrid 46341 46341 None 0 0 0 0 0 0 0 0 0) 46340 46340
  = (-2147479016)%Z.
Proof. vm_compute. reflexivity. Qed.

(** ** Compaction *)

Lemma build_remap_lookup : forall (l : list Expr) k i e,
  l !! i = Some e ->
  build_remap l k !! i
  = Some (if live e
          then Some (k + length (filter (fun e => live e = true) (take i l)))
          else None).
Proof.
  induction l as [|x l IH]; intros k [|i] e H; try discriminate H; simpl in H.
  - injection H as ->. simpl. destruct (live e); simpl; [|reflexivity].
    rewrite Nat.add_0_r. reflexivity.
  - simpl. rewrite filter_cons.
    destruct (live x) eqn:Hx; simpl.
    + destruct (decide (true = true)) as [_|N]; [|congruence].
      rewrite (IH (S k) i e H). destruct (live e); [|reflexivity].
      simpl. do 2 f_equal. lia.
    + destruct (decide (false = true)) as [N|_]; [congruence|].
      exact (IH k i e H).
Qed.

Lemma build_remap_None : forall (l : list Expr) k i,
  l !! i = None -> build_remap l k !! i = None.
Proof.
  induction l as [|x l IH]; intros k [|i] H; try discriminate H; simpl in *;
    try reflexivity; destruct (live x); simpl; auto.
Qed.

(** The live slot [i] is the entry [rank i] of the live slots. *)
Lemma filter_live_lookup : forall (l : list Expr) i e,
  l !! i = Some e -> live e = true ->
  filter (fun e => live e = true) l
    !! length (filter (fun e => live e = true) (take i l)) = Some e.
Proof.
  induction l as [|x l IH]; intros [|i] e H Hl; try discriminate H; simpl in H.
  - injection H as ->. simpl. rewrite filter_cons.
    destruct (decide (live e = true)); [reflexivity | contradiction].
  - simpl. rewrite !filter_cons. destruct (decide (live x = true)); simpl; auto.
Qed.

Lemma map_M_pure_lookup {A B} (f : A -> M B) :
  (forall x, pure (f x)) ->
  forall l w l' w', map_M f l w = Ok l' w' ->
    w' = w /\ length l' = length l /\
    forall j x, l !! j = Some x -> exists y, l' !! j = Some y /\ f x w = Ok y w.
Proof.
  intros Hf. induction l as [|x l IH]; intros w l' w' H; simpl in H.
  - mret H. split; [reflexivity|]. split; [reflexivity|]. intros j x Hj. discriminate.
  - mbind H as y w1 Hy. pose proof (Hf _ _ _ _ Hy) as ->.
    mbind H as ys w2 Hys. destruct (IH _ _ _ Hys) as (-> & Hlen & Hall). mret H.
    split; [reflexivity|]. split; [simpl; congruence|].
    intros [|j] x0 Hj; simpl in Hj.
    + injection Hj as <-. exists y. auto.
    + apply Hall. assumption.
Qed.

Lemma rank_lt w i :
  is_live w i ->
  rank w i < length (filter (fun e => live e = true) (slots (GC w))).
Proof.
  intros (e & He & Hl). eapply lookup_lt_Some.
  apply filter_live_lookup; eassumption.
Qed.

Lemma remap_index_live w i wx :
  is_live w i ->
  remap_index (build_remap (slots (GC w)) 0) i wx = Ok (rank w i) wx.
Proof.
  intros (e & He & Hl). unfold remap_index, remap_at, bind.
  rewrite (build_remap_lookup _ 0 _ _ He), Hl. reflexivity.
Qed.

Lemma remap_expr_live w e wx :
  (forall c, c ∈ children (as_ e) -> is_live w c) ->
  remap_expr (build_remap (slots (GC w)) 0) e wx
  = Ok (set_as (rename_as (rank w) (as_ e)) e) wx.
Proof.
  intros Hc. unfold remap_expr. destruct (as_ e) as [s|p b|l r|m] eqn:Ha; simpl.
  - rewrite <- Ha. destruct e; reflexivity.
  - rewrite (bind_Ok_intro _ _ _ _ _
               (remap_index_live w b wx (Hc b ltac:(apply list_elem_of_here)))).
    reflexivity.
  - rewrite (bind_Ok_intro _ _ _ _ _
               (remap_index_live w l wx (Hc l ltac:(apply list_elem_of_here)))).
    rewrite (bind_Ok_intro _ _ _ _ _
               (remap_index_live w r wx
                  (Hc r ltac:(apply list_elem_of_further, list_elem_of_here)))).
    reflexivity.
  - rewrite <- Ha. destruct e; reflexivity.
Qed.

(** The arena after a compaction that does not return early: the live
    slots, in order, with the indices they hold renamed. *)
Lemma gc_compact_slots bindings w r w' :
  compacts w -> closed_arena w ->
  gc_compact bindings w = Ok r w' ->
  slots (GC w')
  = map (fun e => set_as (rename_as (rank w) (as_ e)) e)
      (filter (fun e => live e = true) (slots (GC w))) /\
  dead (GC w') = [] /\ gen_cur (GC w') = gen_cur (GC w).
Proof.
  intros [Hne Hhalf] Hclosed H. unfold gc_compact in H.
  mbind H as w0 w1 Hw. unfold get_world in Hw. injection Hw as Hw0 Hw1. subst w0 w1.
  destruct (Nat.eqb_spec (length (slots (GC w))) 0) as [E|_]; [contradiction|].
  destruct (Nat.ltb_spec (length (dead (GC w))) (length (slots (GC w)) / 2));
    [lia|].
  destruct (_ <? _)%Z; [discriminate|].
  mbind H as new_slots w2 Hns.
  destruct (map_M_pure_lookup _ (pure_remap_expr _) _ _ _ _ Hns) as (-> & Hlen & Hall).
  mbind H as u w2 Hg. apply remap_grid_Ok in Hg as [Hgc _].
  mbind H as b' w3 Hb.
  assert (w3 = w2) as ->.
  { destruct bindings as [bs|]; [|mret Hb; reflexivity].
    mbind Hb as bs' w4 Hbs.
    apply (pure_map_M _ _ (pure_remap_binding _)) in Hbs as ->.
    mret Hb. reflexivity. }
  mbind H as g0 w4 Hg0. apply pure_remap_gen in Hg0 as ->.
  mbind H as g1 w4 Hg1. apply pure_remap_gen in Hg1 as ->.
  mbind H as u2 w4 Hm. invc Hm. mret H. simpl.
  split; [|split; [reflexivity | rewrite Hgc; reflexivity]].
  apply list_eq. intros j. rewrite list_lookup_fmap.
  destruct (filter (fun e => live e = true) (slots (GC w)) !! j) as [x|] eqn:Ex.
  - destruct (Hall _ _ Ex) as (y & Hy & Hfx). rewrite Hy. simpl. f_equal.
    assert (Hin : x ∈ filter (fun e => live e = true) (slots (GC w)))
      by (eapply list_elem_of_lookup_2; eassumption).
    apply list_elem_of_filter in Hin as [Hlx Hin].
    apply list_elem_of_lookup_1 in Hin as (i & Hi).
    rewrite (remap_expr_live w x w) in Hfx
      by (intros c Hc; exact (Hclosed _ _ _ Hi Hlx Hc)).
    congruence.
  - simpl. apply lookup_ge_None. apply lookup_ge_None in Ex. lia.
Qed.

Lemma look_compacted w w' i a :
  slots (GC w')
  = map (fun e => set_as (rename_as (rank w) (as_ e)) e)
      (filter (fun e => live e = true) (slots (GC w))) ->
  look w i = Some a -> look w' (rank w i) = Some (rename_as (rank w) a).
Proof.
  intros Hs Hi. unfold look in *.
  destruct (slots (GC w) !! i) as [e|] eqn:He; [|discriminate].
  destruct (live e) eqn:Hl; [|discriminate]. injection Hi as <-.
  rewrite Hs, list_lookup_fmap. unfold rank.
  rewrite (filter_live_lookup _ _ _ He Hl). simpl. rewrite Hl. reflexivity.
Qed.

Lemma Repr_compacted w w' :
  slots (GC w')
  = map (fun e => set_as (rename_as (rank w) (as_ e)) e)
      (filter (fun e => live e = true) (slots (GC w))) ->
  forall i t, Repr w i t -> Repr w' (rank w i) t.
Proof.
  intros Hs i t H.
  induction H as [i s Hi|i m Hi|i p b tb Hi Hb IH|i l r tl tr Hi Hl IHl Hr IHr];
    pose proof (look_compacted _ _ _ _ Hs Hi) as Hi'; simpl in Hi'.
  - apply Repr_Var. assumption.
  - apply Repr_Mag. assumption.
  - eapply Repr_Fun; eassumption.
  - eapply Repr_App; eassumption.
Qed.

(** A compaction that does not return early, on an arena in which
    live slots hold indices of live slots: the arena is left with the
    live slots only, no free list, and each expression stands at the
    index [rank]: the number of live slots that were before it. *)
Theorem gc_compact_renames bindings w r w' :
  compacts w -> closed_arena w ->
  gc_compact bindings w = Ok r w' ->
  (forall i t, Repr w i t -> Repr w' (rank w i) t) /\
  (forall j e, slots (GC w') !! j = Some e -> live e = true) /\
  length (slots (GC w'))
  = length (filter (fun e => live e = true) (slots (GC w))) /\
  dead (GC w') = [].
Proof.
  intros Hc Hcl H.
  destruct (gc_compact_slots _ _ _ _ Hc Hcl H) as (Hs & Hd & _).
  split; [apply Repr_compacted; assumption|].
  split; [|split; [rewrite Hs, length_map; reflexivity | assumption]].
  intros j e Hj. rewrite Hs, list_lookup_fmap in Hj.
  destruct (filter _ _ !! j) as [x|] eqn:Ex; [|discriminate].
  injection Hj as <-. simpl.
  apply list_elem_of_lookup_2, list_elem_of_filter in Ex as [Hl _]. exact Hl.
Qed.

Lemma is_liveb_is_live w i : is_liveb w i = true -> is_live w i.
Proof.
  unfold is_liveb, is_live. destruct (slots (GC w) !! i) as [e|]; [|discriminate].
  intros H. exists e. auto.
Qed.

Lemma closed_arenab_closed_arena w : closed_arenab w = true -> closed_arena w.
Proof.
  unfold closed_arenab, closed_arena. intros H i e c He Hl Hc.
  rewrite forallb_forall in H.
  specialize (H e ltac:(apply list_elem_of_In; eapply list_elem_of_lookup_2; eassumption)).
  rewrite Hl in H. simpl in H. rewrite forallb_forall in H.
  apply is_liveb_is_live, H, list_elem_of_In. assumption.
Qed.

Lemma gc_compact_renames_witness :
  compacts world_half_dead /\ closed_arena world_half_dead /\
  gc_compact None world_half_dead = Ok None world_compacted /\
  Repr world_half_dead 3 (Fun (symbol "c") (Var (symbol "c"))) /\
  rank world_half_dead 3 = 1 /\
  Repr world_compacted 1 (Fun (symbol "c") (Var (symbol "c"))) /\
  dead (GC world_compacted) = [].
Proof.
  assert (Hc : compacts world_half_dead) by (split; vm_compute; [discriminate | lia]).
  assert (Hcl : closed_arena world_half_dead).
  { apply closed_arenab_closed_arena. vm_compute. reflexivity. }
  assert (H : gc_compact None world_half_dead = Ok None world_compacted).
  { vm_compute. reflexivity. }
  assert (Hr : Repr world_half_dead 3 (Fun (symbol "c") (Var (symbol "c")))).
  { apply (tree_of_Repr 5). vm_compute. reflexivity. }
  destruct (gc_compact_renames None world_half_dead None world_compacted Hc Hcl H)
    as (Hren & _ & _ & Hd).
  split; [exact Hc|]. split; [exact Hcl|]. split; [exact H|]. split; [exact Hr|].
  split; [vm_compute; reflexivity|]. split; [exact (Hren 3 _ Hr) | exact Hd].
Defined.




Lemma remap_at_live w i wx :
  is_live w i ->
  remap_at (build_remap (slots (GC w)) 0) i wx = Ok (Some (rank w i)) wx.
Proof.
  intros (e & He & Hl). unfold remap_at.
  rewrite (build_remap_lookup _ 0 _ _ He), Hl. reflexivity.
Qed.

Lemma remap_gen_live w : forall (l : list Expr_Index) wx l' wx',
  remap_gen (build_remap (slots (GC w)) 0) l wx = Ok l' wx' ->
  forall i, i ∈ l -> is_live w i -> rank w i ∈ l'.
Proof.
  induction l as [|x l IH]; intros wx l' wx' H i Hi Hl; [inversion Hi|].
  simpl in H. mbind H as r w1 Hr. pose proof (pure_remap_at _ _ _ _ _ Hr) as ->.
  mbind H as rest w2 Hrest. pose proof (pure_remap_gen _ _ _ _ _ Hrest) as ->.
  apply elem_of_cons in Hi as [->|Hi].
  - rewrite (remap_at_live _ _ _ Hl) in Hr. injection Hr as <-. mret H.
    apply list_elem_of_here.
  - pose proof (IH _ _ _ Hrest _ Hi Hl) as Hin.
    destruct r; mret H; [apply list_elem_of_further|]; assumption.
Qed.

Lemma filter_live_lookup_inv : forall (l : list Expr) j x,
  filter (fun e => live e = true) l !! j = Some x ->
  exists i, l !! i = Some x /\ live x = true /\
    length (filter (fun e => live e = true) (take i l)) = j.
Proof.
  induction l as [|y l IH]; intros j x H; [discriminate|].
  rewrite filter_cons in H. destruct (decide (live y = true)) as [Hy|Hy].
  - destruct j as [|j]; simpl in H.
    + injection H as <-. exists 0. auto.
    + destruct (IH _ _ H) as (i & Hi & Hl & Hr). exists (S i).
      split; [assumption|]. split; [assumption|].
      simpl. rewrite filter_cons. destruct (decide (live y = true)); [|contradiction].
      simpl. congruence.
  - destruct (IH _ _ H) as (i & Hi & Hl & Hr). exists (S i).
    split; [assumption|]. split; [assumption|].
    simpl. rewrite filter_cons. destruct (decide (live y = true)); [contradiction|].
    assumption.
Qed.

(** The roots after a compaction that does not return early: the
    bindings and the occupied cells hold the new indices of their
    expressions, and the current generation lists every slot. *)
Theorem gc_compact_renames_roots bindings w r w' :
  compacts w -> closed_arena w -> gens_ok w ->
  gc_compact bindings w = Ok r w' ->
  (forall bs, bindings = Some bs ->
     exists bs', r = Some bs' /\ length bs' = length bs /\
       forall k b, bs !! k = Some b -> is_live w (body_of b) ->
         bs' !! k = Some (mkBinding (name b) (rank w (body_of b)))) /\
  (forall i c,
     cell_of (active_grid w) i = Some c ->
     (i < width (active_grid w) * height (active_grid w))%Z ->
     occupied c = true -> is_live w (atom c) ->
     cell_of (active_grid w') i = Some (set_atom (rank w (atom c)) c)) /\
  gens_ok w'.
Proof.
  intros Hc Hcl Hg H.
  pose proof (gc_compact_slots _ _ _ _ Hc Hcl H) as (Hs & _ & Hcur).
  destruct Hc as [Hne Hhalf]. unfold gc_compact in H.
  mbind H as w0 w1 Hw. unfold get_world in Hw. injection Hw as Hw0 Hw1. subst w0 w1.
  destruct (Nat.eqb_spec (length (slots (GC w))) 0) as [E|_]; [contradiction|].
  destruct (Nat.ltb_spec (length (dead (GC w))) (length (slots (GC w)) / 2));
    [lia|].
  destruct (_ <? _)%Z; [discriminate|].
  mbind H as new_slots w2 Hns.
  apply (pure_map_M _ _ (pure_remap_expr _)) in Hns as ->.
  mbind H as u w2 Hgrid.
  mbind H as b' w3 Hb.
  mbind H as g0 w4 Hg0. pose proof (pure_remap_gen _ _ _ _ _ Hg0) as ->.
  mbind H as g1 w4 Hg1. pose proof (pure_remap_gen _ _ _ _ _ Hg1) as ->.
  mbind H as u2 w4 Hm. invc Hm. mret H.
  split; [|split].
  - intros bs ->. mbind Hb as bs' w4 Hbs.
    destruct (map_M_pure_lookup _ (pure_remap_binding _) _ _ _ _ Hbs)
      as (-> & Hlen & Hall).
    mret Hb. exists bs'. split; [reflexivity|]. split; [assumption|].
    intros k b Hk Hl. destruct (Hall _ _ Hk) as (y & Hy & Hfy).
    unfold remap_binding in Hfy.
    rewrite (bind_Ok_intro _ _ _ _ _ (remap_at_live w _ _ Hl)) in Hfy.
    injection Hfy as <-. exact Hy.
  - intros i c Hi Hlt Ho Hl. simpl.
    assert (Eg : active_grid w3 = active_grid w2).
    { destruct bindings as [bs|]; [|mret Hb; reflexivity].
      mbind Hb as bs' w4 Hbs.
      apply (pure_map_M _ _ (pure_remap_binding _)) in Hbs as ->.
      mret Hb. reflexivity. }
    rewrite Eg. clear Eg Hb.
    unfold remap_grid in Hgrid. mbind Hgrid as w0 w1 Hw.
    unfold get_world in Hw. injection Hw as Hw0 Hw1. subst w0 w1.
    unfold cell_of in Hi |- *.
    destruct (cells (active_grid w)) as [cs|] eqn:Ecs; [|discriminate].
    destruct (Z.ltb_spec i 0) as [Hneg|Hpos]; [discriminate|].
    destruct (Nat.ltb_spec (length cs)
                (Z.to_nat (width (active_grid w) * height (active_grid w))))
      as [Hshort|Hlong]; [discriminate|].
    mbind Hgrid as cs' w2' Hcs.
    destruct (map_M_pure_lookup _ (fun c0 w1 a w1' Hx =>
                proj1 (remap_cell_Ok _ _ _ _ _ Hx)) _ _ _ _ Hcs)
      as (-> & Hlen & Hall).
    invc Hgrid. simpl.
    destruct (Z.ltb_spec i 0); [lia|].
    assert (Hk : take (Z.to_nat (width (active_grid w) * height (active_grid w))) cs
                 !! Z.to_nat i = Some c).
    { rewrite lookup_take_lt by lia. assumption. }
    destruct (Hall _ _ Hk) as (y & Hy & Hfy).
    rewrite lookup_app_l by (eapply lookup_lt_Some; eassumption).
    rewrite Hy. f_equal.
    unfold remap_cell in Hfy. rewrite Ho in Hfy.
    rewrite (bind_Ok_intro _ _ _ _ _ (remap_at_live w _ _ Hl)) in Hfy.
    injection Hfy as <-. reflexivity.
  - intros j (e & He & Hl).
    assert (Egc : GC w3 = GC w).
    { apply remap_grid_Ok in Hgrid as [Hgc _]. rewrite <- Hgc.
      destruct bindings as [bs|]; [|mret Hb; reflexivity].
      mbind Hb as bs' w4 Hbs.
      apply (pure_map_M _ _ (pure_remap_binding _)) in Hbs as ->.
      mret Hb. reflexivity. }
    change (slots (GC (set_GC (mkGC new_slots [] g0 g1 (gen_cur (GC w3))) w3)))
      with new_slots in Hs, He.
    rewrite Hs, list_lookup_fmap in He.
    destruct (filter (fun e => live e = true) (slots (GC w)) !! j) as [x|] eqn:Ex;
      [|discriminate].
    destruct (filter_live_lookup_inv _ _ _ Ex) as (i & Hi & Hlx & Hrank).
    assert (Hlive : is_live w i) by (exists x; auto).
    pose proof (Hg _ Hlive) as Hin.
    change (j ∈ gens (mkGC new_slots [] g0 g1 (gen_cur (GC w3))) (gen_cur (GC w3))).
    rewrite Egc. fold (rank w i) in Hrank. subst j.
    destruct (gen_cur (GC w)); simpl.
    + exact (remap_gen_live _ _ _ _ _ Hg1 _ Hin Hlive).
    + exact (remap_gen_live _ _ _ _ _ Hg0 _ Hin Hlive).
Qed.

Lemma gc_compact_renames_roots_witness :
  compacts world_half_dead /\ closed_arena world_half_dead /\
  gens_ok world_half_dead /\
  gc_compact (Some [mkBinding (symbol "id") 3]) world_half_dead
  = Ok (Some [mkBinding (symbol "id") 1]) world_compacted /\
  gens_ok world_compacted.
Proof.
  assert (Hc : compacts world_half_dead) by (split; vm_compute; [discriminate | lia]).
  assert (Hcl : closed_arena world_half_dead).
  { apply closed_arenab_closed_arena. vm_compute. reflexivity. }
  assert (Hg : gens_ok world_half_dead).
  { apply gens_okb_gens_ok. vm_compute. reflexivity. }
  assert (H : gc_compact (Some [mkBinding (symbol "id") 3]) world_half_dead
              = Ok (Some [mkBinding (symbol "id") 1]) world_compacted).
  { vm_compute. reflexivity. }
  split; [exact Hc|]. split; [exact Hcl|]. split; [exact Hg|]. split; [exact H|].
  exact (proj2 (proj2 (gc_compact_renames_roots _ _ _ _ Hc Hcl Hg H))).
Defined.

(** ** Bindings *)

Lemma binding_of_cons b bs nm :
  binding_of (b :: bs) nm
  = if symbol_eq (name b) nm then Some b else binding_of bs nm.
Proof. reflexivity. Qed.

Lemma create_binding_names bindings nm body :
  map name (create_binding bindings nm body)
  = match binding_of bindings nm with
    | Some _ => map name bindings
    | None => map name bindings ++ [nm]
    end.
Proof.
  induction bindings as [|b0 bs IH]; cbn [create_binding]; [reflexivity|].
  rewrite binding_of_cons. destruct (symbol_eq (name b0) nm) eqn:E; [reflexivity|].
  cbn [map]. rewrite IH. destruct (binding_of bs nm); reflexivity.
Qed.

Lemma create_binding_keeps_NoDup bindings nm body :
  NoDup (map name bindings) -> NoDup (map name (create_binding bindings nm body)).
Proof.
  induction bindings as [|b0 bs IH]; cbn [create_binding map]; intros H.
  - apply NoDup_singleton.
  - apply NoDup_cons in H as [Hnotin Hnd].
    destruct (symbol_eq (name b0) nm) eqn:E; cbn [map].
    + apply NoDup_cons. auto.
    + apply NoDup_cons. split; [|auto].
      intros Hin. apply Hnotin.
      rewrite create_binding_names in Hin. destruct (binding_of bs nm); [assumption|].
      apply elem_of_app in Hin as [Hin|Hin]; [assumption|].
      apply list_elem_of_singleton in Hin.
      apply symbol_eq_false in E. congruence.
Qed.

(** [create_binding] and the lookup of a name: the name stands for the
    new body afterwards; every other name stands for what it stood for;
    the table grows by one entry, at its end, exactly when the name
    was not bound; and distinct names stay distinct. *)
Theorem create_binding_lookup bindings nm body :
  (exists b, binding_of (create_binding bindings nm body) nm = Some b /\
     name b = nm /\ body_of b = body) /\
  (forall other, other <> nm ->
     binding_of (create_binding bindings nm body) other = binding_of bindings other) /\
  map name (create_binding bindings nm body)
  = match binding_of bindings nm with
    | Some _ => map name bindings
    | None => map name bindings ++ [nm]
    end /\
  (NoDup (map name bindings) ->
   NoDup (map name (create_binding bindings nm body))).
Proof.
  split; [|split; [|split; [apply create_binding_names
                           |apply create_binding_keeps_NoDup]]].
  - induction bindings as [|b0 bs IH]; cbn [create_binding].
    + exists (mkBinding nm body). rewrite binding_of_cons. simpl.
      rewrite symbol_eq_refl. auto.
    + destruct (symbol_eq (name b0) nm) eqn:E.
      * apply symbol_eq_true in E.
        exists (mkBinding (name b0) body). rewrite binding_of_cons. simpl.
        rewrite E, symbol_eq_refl. auto.
      * destruct IH as (b & Hb & Hn & Hbody).
        exists b. rewrite binding_of_cons, E. auto.
  - intros other Hne. induction bindings as [|b0 bs IH]; cbn [create_binding].
    + rewrite binding_of_cons. simpl.
      rewrite (proj2 (symbol_eq_false nm other)) by congruence. reflexivity.
    + destruct (symbol_eq (name b0) nm) eqn:E.
      * apply symbol_eq_true in E. rewrite !binding_of_cons. simpl.
        rewrite (proj2 (symbol_eq_false (name b0) other)) by congruence.
        reflexivity.
      * rewrite !binding_of_cons.
        destruct (symbol_eq (name b0) other); [reflexivity | auto].
Qed.

Lemma create_binding_lookup_witness :
  NoDup (map name [mkBinding (symbol "a") 1; mkBinding (symbol "b") 2]) /\
  create_binding [mkBinding (symbol "a") 1; mkBinding (symbol "b") 2] (symbol "b") 7
  = [mkBinding (symbol "a") 1; mkBinding (symbol "b") 7] /\
  NoDup (map name
           (create_binding [mkBinding (symbol "a") 1; mkBinding (symbol "b") 2]
              (symbol "b") 7)).
Proof.
  assert (H : NoDup (map name [mkBinding (symbol "a") 1; mkBinding (symbol "b") 2])).
  { simpl. apply NoDup_cons. split; [|apply NoDup_singleton].
    intros Hin. apply list_elem_of_singleton in Hin. discriminate Hin. }
  split; [exact H|]. split; [reflexivity|].
  exact (proj2 (proj2 (proj2 (create_binding_lookup
           [mkBinding (symbol "a") 1; mkBinding (symbol "b") 2] (symbol "b") 7))) H).
Defined.

Lemma substitute_loop_free fuel o : forall (l : list Binding) w expr t r w',
  Repr w expr t ->
  (forall b, b ∈ l -> exists tb, Repr w (body_of b) tb /\ closed tb) ->
  substitute_loop fuel o l expr w = Ok r w' ->
  exists t', Repr w' r t' /\ extends w w' /\
    forall v, free_in v t' = true ->
      free_in v t = true /\ forall b, b ∈ l -> v <> name b.
Proof.
  induction l as [|b0 l IH]; intros w expr t r w' Hr Hbs H; simpl in H.
  - mret H. exists t. split; [assumption|]. split; [reflexivity|].
    intros v Hv. split; [assumption|]. intros b Hb. inversion Hb.
  - mbind H as e w1 He.
    destruct (Hbs b0 ltac:(apply list_elem_of_here)) as (tb & Hrb & Hcl).
    destruct (replace_Subst _ _ _ _ _ _ _ _ _ _ Hr Hrb He) as (t1 & Hr1 & Hs).
    pose proof (replace_extends _ _ _ _ _ _ _ _ He) as Hext.
    destruct (IH w1 e t1 r w' Hr1) as (t' & Hr' & Hext' & Hfree); [|assumption|].
    { intros b Hb. destruct (Hbs b ltac:(apply list_elem_of_further; assumption))
        as (tb' & Hrb' & Hcl').
      exists tb'. split; [eapply Repr_extends; eassumption | assumption]. }
    exists t'. split; [assumption|]. split; [etransitivity; eassumption|].
    intros v Hv. destruct (Hfree v Hv) as [Hv1 Hnot].
    destruct (Subst_free_in _ _ _ _ _ _ _ Hs v Hv1) as [[Hvt Hne]|Hva];
      [|rewrite Hcl in Hva; discriminate].
    split; [assumption|]. intros b Hb.
    apply elem_of_cons in Hb as [->|Hb]; [assumption | auto].
Qed.

Lemma elem_of_rev {A} (x : A) l : x ∈ rev l <-> x ∈ l.
Proof. rewrite !list_elem_of_In. symmetry. apply in_rev. Qed.

(** The REPL's substitution of the bindings into an expression: when
    the bodies of the bindings are closed, the variables free in the
    result are free in the expression read, and none of them is the
    name of a binding. *)
Theorem substitute_bindings_free fuel o bindings w expr t r w' :
  Repr w expr t ->
  (forall b, b ∈ bindings -> exists tb, Repr w (body_of b) tb /\ closed tb) ->
  substitute_bindings fuel o bindings expr w = Ok r w' ->
  exists t', Repr w' r t' /\
    forall v, free_in v t' = true ->
      free_in v t = true /\ forall b, b ∈ bindings -> v <> name b.
Proof.
  intros Hr Hbs H.
  destruct (substitute_loop_free fuel o (rev bindings) w expr t r w' Hr) as
    (t' & Hr' & _ & Hfree); [|exact H|].
  - intros b Hb. apply Hbs. apply elem_of_rev. assumption.
  - exists t'. split; [assumption|]. intros v Hv.
    destruct (Hfree v Hv) as [Hvt Hnot]. split; [assumption|].
    intros b Hb. apply Hnot. apply elem_of_rev. assumption.
Qed.

Lemma substitute_bindings_free_witness :
  substitute_bindings 10 Left_To_Right [mkBinding (symbol "y") 2] 4 world_capture
  = Ok 6 world_bound /\
  exists t', Repr world_bound 6 t' /\
    forall v, free_in v t' = true ->
      free_in v (App (Fun (symbol "x") (Fun (symbol "y") (Var (symbol "x"))))
                   (Var (symbol "y"))) = true /\
      forall b, b ∈ [mkBinding (symbol "y") 2] -> v <> name b.
Proof.
  assert (H : substitute_bindings 10 Left_To_Right [mkBinding (symbol "y") 2] 4
                world_capture = Ok 6 world_bound).
  { vm_compute. reflexivity. }
  split; [exact H|].
  apply (substitute_bindings_free 10 Left_To_Right [mkBinding (symbol "y") 2]
           world_capture 4 _ 6 world_bound); [| |exact H].
  - apply (tree_of_Repr 5). vm_compute. reflexivity.
  - intros b Hb. apply list_elem_of_singleton in Hb as ->.
    exists (Fun (symbol "x") (Fun (symbol "y") (Var (symbol "x")))).
    split; [apply (tree_of_Repr 5); vm_compute; reflexivity|].
    intros v. simpl. destruct (symbol_eq (symbol "x") v) eqn:E; [reflexivity|].
    destruct (symbol_eq (symbol "y") v); reflexivity.
Defined.

(** ** Interned labels *)

Lemma intern_find_Some : forall labels label i p,
  intern_find labels label i = Some p ->
  i <= p /\ labels !! (p - i) = Some label /\
  forall k, k < p - i -> labels !! k <> Some label.
Proof.
  induction labels as [|s rest IH]; intros label i p H; simpl in H; [discriminate|].
  destruct (String.eqb_spec s label) as [->|Hne].
  - injection H as <-. rewrite Nat.sub_diag. split; [lia|]. split; [reflexivity|].
    intros k Hk. lia.
  - destruct (IH _ _ _ H) as (Hle & Hp & Hfirst).
    split; [lia|]. replace (p - i) with (S (p - S i)) by lia.
    split; [exact Hp|].
    intros [|k] Hk; simpl; [congruence|]. apply Hfirst. lia.
Qed.

Lemma intern_find_None : forall labels label i,
  intern_find labels label i = None -> label ∉ labels.
Proof.
  induction labels as [|s rest IH]; intros label i H Hin; [inversion Hin|].
  simpl in H. destruct (String.eqb_spec s label) as [->|Hne]; [discriminate|].
  apply elem_of_cons in Hin as [->|Hin]; [congruence|]. exact (IH _ _ H Hin).
Qed.

(** [intern_label]: the pointer returned points at the label; the
    table only grows, so that the pointers returned before stay; a
    table without duplicates stays so; and on such a table two
    interned labels are the same pointer exactly when they are the same
    string. *)
Theorem intern_label_pointer labels label :
  let '(p, labels') := intern_label labels label in
  labels' !! p = Some label /\
  (exists more, labels' = labels ++ more) /\
  (NoDup labels -> NoDup labels') /\
  (NoDup labels ->
   forall label2,
     let '(p2, labels2) := intern_label labels' label2 in
     labels2 !! p = Some label /\ (p2 = p <-> label2 = label)).
Proof.
  unfold intern_label at 1.
  destruct (intern_find labels label 0) as [p|] eqn:E.
  - destruct (intern_find_Some _ _ _ _ E) as (_ & Hp & _). rewrite Nat.sub_0_r in Hp.
    split; [assumption|]. split; [exists []; rewrite app_nil_r; reflexivity|].
    split; [auto|]. intros Hnd label2. unfold intern_label.
    destruct (intern_find labels label2 0) as [p2|] eqn:E2.
    + destruct (intern_find_Some _ _ _ _ E2) as (_ & Hp2 & _).
      rewrite Nat.sub_0_r in Hp2. split; [assumption|]. split.
      * intros ->. congruence.
      * intros ->. exact (NoDup_lookup _ _ _ _ Hnd Hp2 Hp).
    + split; [apply lookup_app_l_Some; assumption|].
      apply intern_find_None in E2. split.
      * intros Heq. apply lookup_lt_Some in Hp. lia.
      * intros ->. exfalso. apply E2. eapply list_elem_of_lookup_2; eassumption.
  - pose proof (intern_find_None _ _ _ E) as Hnotin.
    assert (Hp : (labels ++ [label]) !! length labels = Some label).
    { rewrite lookup_app_r by lia. rewrite Nat.sub_diag. reflexivity. }
    split; [assumption|]. split; [eauto|].
    assert (Hnd' : NoDup labels -> NoDup (labels ++ [label])).
    { intros Hnd. apply NoDup_app. split; [assumption|].
      split; [|apply NoDup_singleton].
      intros x Hx Hx'. apply list_elem_of_singleton in Hx'. congruence. }
    split; [assumption|]. intros Hnd label2. unfold intern_label.
    destruct (intern_find (labels ++ [label]) label2 0) as [p2|] eqn:E2.
    + destruct (intern_find_Some _ _ _ _ E2) as (_ & Hp2 & _).
      rewrite Nat.sub_0_r in Hp2. split; [assumption|]. split.
      * intros ->. congruence.
      * intros ->. exact (NoDup_lookup _ _ _ _ (Hnd' Hnd) Hp2 Hp).
    + split; [apply lookup_app_l_Some; assumption|].
      apply intern_find_None in E2. split.
      * intros Heq. rewrite length_app in Heq. simpl in Heq. lia.
      * intros ->. exfalso. apply E2. apply elem_of_app. right.
        apply list_elem_of_here.
Qed.

Lemma intern_label_pointer_witness :
  NoDup ["x"%string] /\
  intern_label ["x"%string] "y" = (1, ["x"; "y"]%string) /\
  NoDup ["x"; "y"]%string /\
  fst (intern_label ["x"; "y"]%string "y") = 1.
Proof.
  assert (Hnd : NoDup ["x"%string]) by apply NoDup_singleton.
  pose proof (intern_label_pointer ["x"%string] "y") as H.
  change (intern_label ["x"%string] "y") with (1, ["x"; "y"]%string) in H.
  cbv iota beta in H.
  destruct H as (_ & _ & Hkeep & Hsame).
  split; [exact Hnd|]. split; [reflexivity|]. split; [exact (Hkeep Hnd)|].
  specialize (Hsame Hnd "y"%string).
  change (intern_label ["x"; "y"]%string "y") with (1, ["x"; "y"]%string) in Hsame |- *.
  reflexivity.
Defined.

(** ** The lexer within its input *)

#[export] Instance advances_PreOrder : PreOrder advances.
Proof.
  split.
  - intros l. repeat split; auto.
  - intros l1 l2 l3 (C1 & N1 & P1 & B1) (C2 & N2 & P2 & B2).
    split; [congruence|]. split; [congruence|]. split; [lia|].
    intros H. rewrite N1 in B2. auto.
Qed.

Lemma next_char_advances l : advances l (snd (lexer_next_char l)).
Proof.
  unfold lexer_next_char.
  destruct (Nat.leb_spec (count l) (pos (cur l))) as [Hge|Hlt]; [reflexivity|].
  destruct (Ascii.eqb _ LF); simpl; repeat split; simpl; lia.
Qed.

Lemma next_char_progress l :
  pos (cur l) < count l -> pos (cur l) < pos (cur (snd (lexer_next_char l))).
Proof.
  intros Hlt. unfold lexer_next_char.
  destruct (Nat.leb_spec (count l) (pos (cur l))) as [Hge|_]; [lia|].
  destruct (Ascii.eqb _ LF); simpl; lia.
Qed.

Lemma trim_left_loop_advances k : forall l, advances l (trim_left_loop k l).
Proof.
  induction k as [|k IH]; intros l; simpl; [reflexivity|].
  destruct (isspace (lexer_curr_char l)); [|reflexivity].
  etransitivity; [apply next_char_advances | apply IH].
Qed.

Lemma drop_line_loop_advances k : forall l, advances l (drop_line_loop k l).
Proof.
  induction k as [|k IH]; intros l; simpl; [reflexivity|].
  destruct (pos (cur l) <? count l); [|reflexivity].
  pose proof (next_char_advances l) as Hn.
  destruct (lexer_next_char l) as [x l1]. simpl in Hn.
  destruct (Ascii.eqb x LF); [assumption|].
  etransitivity; [exact Hn | apply IH].
Qed.

Lemma skip_blanks_loop_advances k : forall l, advances l (skip_blanks_loop k l).
Proof.
  induction k as [|k IH]; intros l; simpl.
  - apply trim_left_loop_advances.
  - destruct (lexer_starts_with _ _); [|apply trim_left_loop_advances].
    etransitivity; [apply trim_left_loop_advances|].
    etransitivity; [apply drop_line_loop_advances | apply IH].
Qed.

Lemma symbol_loop_advances k : forall l, advances l (symbol_loop k l).
Proof.
  induction k as [|k IH]; intros l; simpl; [reflexivity|].
  destruct (issymbol (lexer_curr_char l)); [|reflexivity].
  pose proof (next_char_advances l) as Hn.
  destruct (lexer_next_char l) as [x l1]. simpl in Hn.
  etransitivity; [exact Hn|]. etransitivity; [|apply IH].
  repeat split; simpl; auto.
Qed.

Lemma lexer_next_advances l :
  advances l (snd (lexer_next l)) /\
  (pos (cur l) < count l -> pos (cur l) < pos (cur (snd (lexer_next l)))).
Proof.
  unfold lexer_next.
  pose proof (skip_blanks_loop_advances (count l - pos (cur l)) l) as Hs.
  set (l0 := skip_blanks_loop _ l) in *.
  set (l1 := set_loc _ _ l0).
  assert (H1 : advances l l1) by exact Hs.
  pose proof (next_char_advances l1) as Hn.
  pose proof (next_char_progress l1) as Hp.
  destruct (lexer_next_char l1) as [x l2]. simpl in Hn, Hp.
  assert (H2 : advances l l2) by (etransitivity; eassumption).
  assert (Hprog : pos (cur l) < count l -> pos (cur l) < pos (cur l2)).
  { intros Hlt. destruct H1 as (_ & N1 & P1 & _).
    destruct (Nat.lt_ge_cases (pos (cur l1)) (count l1)) as [Hin|Hout].
    - specialize (Hp Hin). change (pos (cur l1)) with (pos (cur l0)) in P1. lia.
    - destruct Hn as (_ & _ & P2 & _).
      change (count l1) with (count l0) in *.
      change (pos (cur l1)) with (pos (cur l0)) in *. lia. }
  assert (Hsym : forall tk s,
            advances l (symbol_loop (count l2 - pos (cur l2))
                          (set_lstring s (set_token tk l2))) /\
            (pos (cur l) < count l ->
             pos (cur l) < pos (cur (symbol_loop (count l2 - pos (cur l2))
                                       (set_lstring s (set_token tk l2)))))).
  { intros tk s.
    pose proof (symbol_loop_advances (count l2 - pos (cur l2))
                  (set_lstring s (set_token tk l2))) as Hl.
    split.
    - etransitivity; [exact H2 | exact Hl].
    - intros Hlt. specialize (Hprog Hlt). destruct Hl as (_ & _ & P & _).
      simpl in P. lia. }
  repeat (destruct (Ascii.eqb x _); [split; [exact H2 | exact Hprog]|]).
  destruct (Ascii.eqb x "#"%char); [apply Hsym|].
  destruct (issymbol x); [apply Hsym|].
  split; [exact H2 | exact Hprog].
Qed.

(** [lexer_next] stays within its input: whatever the input, it leaves
    [content] and [count] as they are, never moves the position
    backwards, never moves it beyond [count], and moves it forward
    whenever it was before [count], so that a loop of calls reaches
    the end of the input.  [lexer_peek] leaves the position where it
    was. *)
Theorem lexer_next_within_input l :
  pos (cur l) <= count l ->
  let l' := snd (lexer_next l) in
  content l' = content l /\ count l' = count l /\
  pos (cur l) <= pos (cur l') <= count l /\
  (pos (cur l) < count l -> pos (cur l) < pos (cur l')) /\
  cur (snd (lexer_peek l)) = cur l.
Proof.
  intros Hle. destruct (lexer_next_advances l) as [(C & N & P & B) Hprog].
  simpl. split; [assumption|]. split; [assumption|].
  split; [split; auto|]. split; [assumption|].
  unfold lexer_peek. destruct (lexer_next l). reflexivity.
Qed.

Lemma lexer_next_within_input_witness :
  let l := lexer_init (list_ascii_of_string "  // note") 9 in
  let l' := snd (lexer_next l) in
  content l' = content l /\ count l' = count l /\
  pos (cur l) <= pos (cur l') <= count l /\
  (pos (cur l) < count l -> pos (cur l) < pos (cur l')) /\
  cur (snd (lexer_peek l)) = cur l.
Proof.
  apply (lexer_next_within_input (lexer_init (list_ascii_of_string "  // note") 9)).
  simpl. lia.
Defined.

(** ** Display without tags *)

Lemma is_fun_untag t : is_fun (untag t) = is_fun t.
Proof. destruct t; reflexivity. Qed.
Lemma is_atom_untag t : is_atom (untag t) = is_atom t.
Proof. destruct t; reflexivity. Qed.
Lemma size_untag t : size (untag t) = size t.
Proof. induction t; simpl; congruence. Qed.

Lemma symbol_display_untag s : symbol_display (untag_symbol s) = label s.
Proof. reflexivity. Qed.

Lemma expr_display_no_tags_Ok w fuel :
  forall chain i t s w', Repr w i t ->
    expr_display_no_tags fuel chain i w = Ok s w' ->
    w' = w /\ s = pretty_in chain (untag t).
Proof.
  induction fuel as [|n IH]; intros chain i t s w' Hr H; simpl in H; [discriminate|].
  mbind H as a w1 Hs. apply expr_slot_look in Hs as [-> Hlook].
  repr_cases t Hr Hlook H; simpl.
  - mret H. auto.
  - mret H. auto.
  - mbind H as sb w1 Hsb. apply (IH _ _ _ _ _ Hrb) in Hsb as [-> ->]. mret H. auto.
  - mbind H as el w1 Hel. apply expr_slot_look in Hel as [-> Hll].
    mbind H as sl w1 Hsl. apply (IH _ _ _ _ _ Hrl) in Hsl as [-> ->].
    mbind H as er w1 Her. apply expr_slot_look in Her as [-> Hlr].
    mbind H as sr w1 Hsr. apply (IH _ _ _ _ _ Hrr) in Hsr as [-> ->].
    mret H. split; [reflexivity|].
    destruct (Repr_look_kind _ _ _ Hrl) as (al & Hal & Hfl & _).
    destruct (Repr_look_kind _ _ _ Hrr) as (ar & Har & _ & Hfr).
    look_inj. rewrite is_fun_untag, is_atom_untag, Hfl, Hfr. reflexivity.
Qed.

Lemma expr_display_no_tags_Repr w i t :
  Repr w i t ->
  forall fuel chain, size t <= fuel ->
    expr_display_no_tags fuel chain i w = Ok (pretty_in chain (untag t)) w.
Proof.
  induction 1 as [i s Hi|i m Hi|i p b tb Hi Hb IH|i l r tl tr Hi Hl IHl Hr IHr];
    intros [|n] chain Hn; simpl in Hn; try lia; simpl.
  - run_slot Hi. reflexivity.
  - run_slot Hi. reflexivity.
  - run_slot Hi. rewrite (bind_Ok_intro _ _ _ _ _ (IH n true ltac:(lia))).
    reflexivity.
  - run_slot Hi.
    destruct (Repr_look_kind _ _ _ Hl) as (al & Hal & Hfl & _). run_slot Hal.
    rewrite (bind_Ok_intro _ _ _ _ _ (IHl n false ltac:(lia))).
    destruct (Repr_look_kind _ _ _ Hr) as (ar & Har & _ & Hfr). run_slot Har.
    rewrite (bind_Ok_intro _ _ _ _ _ (IHr n false ltac:(lia))).
    rewrite is_fun_untag, is_atom_untag, Hfl, Hfr. reflexivity.
Qed.

Lemma plain_untag t : labels_ok t = true -> plain (untag t) = true.
Proof.
  induction t as [v|m|p b IH|l IHl r IHr]; cbn [labels_ok untag plain]; intros H.
  - exact H.
  - exact H.
  - apply andb_true_iff in H as [Hp Hb]. apply andb_true_iff. split; [exact Hp | auto].
  - apply andb_true_iff in H as [Hl Hr]. apply andb_true_iff. auto.
Qed.

(** What is read back from the text of [expr_display_no_tags]: the
    text is the one [expr_display] writes for the expression with its
    tags erased, and, when the labels are non-empty runs of letters,
    digits and underscores, [parse_expr] reads it as that expression.
    Two variables that differ in their tags only are one variable in
    what is read back. *)
Theorem display_no_tags_erases w e t fd s wd fuel :
  Repr w e t -> labels_ok t = true -> dead_ok w ->
  expr_display_no_tags fd false e w = Ok s wd ->
  3 * size t <= fuel ->
  wd = w /\ s = pretty (untag t) /\
  exists i l' w',
    parse_expr fuel (lexer_init (list_ascii_of_string s) (String.length s)) wd
    = Ok (Some i, l') w' /\
    Repr w' i (untag t) /\ Repr w' e t /\
    at_ (list_ascii_of_string s) l' [] /\ extends w w'.
Proof.
  intros Hr Hp Hd Hdisp Hn.
  destruct (expr_display_no_tags_Ok _ _ _ _ _ _ _ Hr Hdisp) as [-> ->].
  split; [reflexivity|]. split; [reflexivity|].
  apply plain_untag in Hp. unfold pretty.
  rewrite <- length_list_ascii_of_string, <- (render_toks (untag t) false Hp).
  set (cs := render (toks false (untag t))).
  destruct (parser_reads cs (untag t) Hp) as (HS & _).
  assert (Hw : wf (toks false (untag t) ++ []) = true) by (apply wf_toks; auto).
  assert (H : at_ cs (lexer_init cs (length cs)) (render (toks false (untag t) ++ []))).
  { rewrite app_nil_r. apply at_lexer_init. }
  rewrite <- size_untag in Hn.
  destruct (HS fuel _ w [] Hn Hw eq_refl H Hd) as (i & l' & w' & Hpar & Hi & H' & Hext & _).
  exists i, l', w'. split; [assumption|]. split; [assumption|].
  split; [eapply Repr_extends; eassumption|]. auto.
Qed.

Lemma display_no_tags_erases_witness :
  expr_display_no_tags 5 false 6 world_capture_stepped
  = Ok "\y.y"%string world_capture_stepped /\
  exists i l' w',
    parse_expr 6 (lexer_init (list_ascii_of_string "\y.y") 4) world_capture_stepped
    = Ok (Some i, l') w' /\
    Repr w' i (Fun (symbol "y") (Var (symbol "y"))) /\
    Repr w' 6 (Fun (mkSymbol "y" 1) (Var (symbol "y"))) /\
    at_ (list_ascii_of_string "\y.y") l' [] /\ extends world_capture_stepped w'.
Proof.
  assert (Hd : expr_display_no_tags 5 false 6 world_capture_stepped
               = Ok "\y.y"%string world_capture_stepped) by (vm_compute; reflexivity).
  split; [exact Hd|].
  refine (proj2 (proj2 (display_no_tags_erases world_capture_stepped 6
           (Fun (mkSymbol "y" 1) (Var (symbol "y"))) 5 "\y.y" world_capture_stepped 6
           _ _ _ Hd _))).
  - apply (tree_of_Repr 5). vm_compute. reflexivity.
  - vm_compute. reflexivity.
  - apply dead_okb_dead_ok. vm_compute. reflexivity.
  - simpl. lia.
Defined.

(** ** The recognisers *)

Lemma Repr_inv_Var w i v t : Repr w i t -> look w i = Some (EXPR_VAR v) -> t = Var v.
Proof. intros H Hl. invc H; congruence. Qed.

Lemma Repr_inv_Fun w i p b t :
  Repr w i t -> look w i = Some (EXPR_FUN p b) ->
  exists tb, t = Fun p tb /\ Repr w b tb.
Proof.
  intros H Hl. invc H; try congruence.
  rewrite Hl in H0. injection H0 as <- <-. eauto.
Qed.

Lemma is_identity_Repr w e t :
  Repr w e t -> is_identity e w = Ok (shape_identity t) w.
Proof.
  intros Hr. unfold is_identity.
  destruct Hr as [i s Hi|i m Hi|i p b tb Hi Hb|i l r tl tr Hi Hxl Hxr];
    run_slot Hi; try reflexivity.
  destruct Hb as [j s Hj|j m Hj|j q c tc Hj Hc|j l r tl tr Hj Hyl Hyr];
    run_slot Hj; reflexivity.
Qed.

Lemma is_church_true_Repr w e t :
  Repr w e t -> is_church_true e w = Ok (shape_true t) w.
Proof.
  intros Hr. unfold is_church_true.
  destruct Hr as [i s Hi|i m Hi|i p b tb Hi Hb|i l r tl tr Hi Hxl Hxr];
    run_slot Hi; try reflexivity.
  destruct Hb as [j s Hj|j m Hj|j q c tc Hj Hc|j l r tl tr Hj Hyl Hyr];
    run_slot Hj; try reflexivity.
  destruct Hc as [k s Hk|k m Hk|k q' c' tc' Hk Hc'|k l r tl tr Hk Hzl Hzr];
    run_slot Hk; reflexivity.
Qed.

Lemma is_church_false_Repr w e t :
  Repr w e t -> is_church_false e w = Ok (shape_false t) w.
Proof.
  intros Hr. unfold is_church_false.
  destruct Hr as [i s Hi|i m Hi|i p b tb Hi Hb|i l r tl tr Hi Hxl Hxr];
    run_slot Hi; try reflexivity.
  destruct Hb as [j s Hj|j m Hj|j q c tc Hj Hc|j l r tl tr Hj Hyl Hyr];
    run_slot Hj; try reflexivity.
  destruct Hc as [k s Hk|k m Hk|k q' c' tc' Hk Hc'|k l r tl tr Hk Hzl Hzr];
    run_slot Hk; reflexivity.
Qed.

Lemma shape_identity_iff t :
  shape_identity t = true <-> exists x, t = Fun x (Var x).
Proof.
  split.
  - destruct t as [| |p [v| | |]|]; simpl; try discriminate.
    intros H. apply symbol_eq_true in H as ->. eauto.
  - intros [x ->]. simpl. apply symbol_eq_refl.
Qed.

Lemma shape_true_iff t :
  shape_true t = true <-> exists x y, t = Fun x (Fun y (Var x)).
Proof.
  split.
  - destruct t as [| |x [| |y [v| | |]|]|]; simpl; try discriminate.
    intros H. apply symbol_eq_true in H as ->. eauto.
  - intros (x & y & ->). simpl. apply symbol_eq_refl.
Qed.

Lemma shape_false_iff t :
  shape_false t = true <-> exists x y, t = Fun x (Fun y (Var y)).
Proof.
  split.
  - destruct t as [| |x [| |y [v| | |]|]|]; simpl; try discriminate.
    intros H. apply symbol_eq_true in H as ->. eauto.
  - intros (x & y & ->). simpl. apply symbol_eq_refl.
Qed.

(** The recognisers decide the shape of the expression, and read
    nothing below its third level: [is_identity] accepts exactly
    [\x.x]; [is_church_true] exactly [\x.\y.x] and [is_church_false]
    exactly [\x.\y.y], where [y] may be [x]; so [\x.\x.x], in which the
    variable is the second parameter, is accepted by both. *)
Theorem recognisers_decide_shape w e t :
  Repr w e t ->
  (exists b, is_identity e w = Ok b w /\
     (b = true <-> exists x, t = Fun x (Var x))) /\
  (exists b, is_church_true e w = Ok b w /\
     (b = true <-> exists x y, t = Fun x (Fun y (Var x)))) /\
  (exists b, is_church_false e w = Ok b w /\
     (b = true <-> exists x y, t = Fun x (Fun y (Var y)))) /\
  (forall x, t = Fun x (Fun x (Var x)) ->
     is_church_true e w = Ok true w /\ is_church_false e w = Ok true w).
Proof.
  intros Hr. split; [|split; [|split]].
  - exists (shape_identity t). split; [apply is_identity_Repr; assumption|].
    apply shape_identity_iff.
  - exists (shape_true t). split; [apply is_church_true_Repr; assumption|].
    apply shape_true_iff.
  - exists (shape_false t). split; [apply is_church_false_Repr; assumption|].
    apply shape_false_iff.
  - intros x ->.
    rewrite (is_church_true_Repr _ _ _ Hr), (is_church_false_Repr _ _ _ Hr).
    simpl. rewrite symbol_eq_refl. auto.
Qed.

Lemma recognisers_decide_shape_witness :
  (exists b, is_identity 2 world_capture = Ok b world_capture /\
     (b = true <->
      exists x, Fun (symbol "x") (Fun (symbol "y") (Var (symbol "x"))) = Fun x (Var x))) /\
  (exists b, is_church_true 2 world_capture = Ok b world_capture /\
     (b = true <->
      exists x y, Fun (symbol "x") (Fun (symbol "y") (Var (symbol "x")))
                  = Fun x (Fun y (Var x)))) /\
  (exists b, is_church_false 2 world_capture = Ok b world_capture /\
     (b = true <->
      exists x y, Fun (symbol "x") (Fun (symbol "y") (Var (symbol "x")))
                  = Fun x (Fun y (Var y)))) /\
  (forall x, Fun (symbol "x") (Fun (symbol "y") (Var (symbol "x")))
             = Fun x (Fun x (Var x)) ->
     is_church_true 2 world_capture = Ok true world_capture /\
     is_church_false 2 world_capture = Ok true world_capture).
Proof.
  apply (recognisers_decide_shape world_capture 2
           (Fun (symbol "x") (Fun (symbol "y") (Var (symbol "x"))))).
  apply (tree_of_Repr 5). vm_compute. reflexivity.
Defined.

(** ** Mass *)

(** [expr_mass] counts the nodes of the expression, a node shared by
    two parents once for each, and leaves the world as it was; the
    count is exact as long as it fits [size_t]. *)
Theorem expr_mass_counts_nodes w i t fuel :
  Repr w i t -> size t <= fuel -> (Z.of_nat (size t) < 2 ^ 64)%Z ->
  expr_mass fuel i w = Ok (Z.of_nat (size t)) w.
Proof.
  intros Hr Hn Hsmall. rewrite (expr_mass_Repr _ _ _ Hr fuel Hn), mass_size.
  unfold wrap64. rewrite Z.mod_small by lia. reflexivity.
Qed.

Lemma expr_mass_counts_nodes_witness :
  expr_mass 5 4 world_capture = Ok 5%Z world_capture.
Proof.
  apply (expr_mass_counts_nodes world_capture 4
           (App (Fun (symbol "x") (Fun (symbol "y") (Var (symbol "x"))))
              (Var (symbol "y"))) 5).
  - apply (tree_of_Repr 5). vm_compute. reflexivity.
  - simpl. lia.
  - simpl. lia.
Defined.

(** ** REPL commands *)

Lemma command_loop_prefix input : forall nm,
  command_loop input nm = true <-> exists rest, nm = (input ++ rest)%string.
Proof.
  induction input as [|c input IH]; intros nm; simpl.
  - split; [intros _; exists nm; reflexivity | reflexivity].
  - destruct nm as [|d nm].
    + split; [discriminate | intros [rest H]; discriminate H].
    + destruct (Ascii.eqb_spec c d) as [->|Hne].
      * rewrite IH. split; intros [rest H]; exists rest; [rewrite H; reflexivity|].
        injection H as H. exact H.
      * split; [discriminate|]. intros [rest H]. injection H as H _. congruence.
Qed.

(** [command] accepts the input exactly when it is a prefix of the
    name of the command, the empty input and the whole name included;
    and it appends the command to the table whether it accepts or
    not. *)
Theorem command_accepts_prefixes commands input nm signature description :
  (fst (command commands input nm signature description) = true <->
   exists rest, nm = (input ++ rest)%string) /\
  fst (command commands "" nm signature description) = true /\
  fst (command commands nm nm signature description) = true /\
  snd (command commands input nm signature description)
  = commands ++ [mkCommand nm signature description].
Proof.
  split; [apply command_loop_prefix|]. split; [reflexivity|].
  split; [|reflexivity].
  apply command_loop_prefix. exists ""%string.
  induction nm as [|c nm IH]; simpl; congruence.
Qed.

(** ** Seeding the grid *)

Lemma set_cells_same g : g = set_cells (cells g) g.
Proof. destruct g; reflexivity. Qed.

Lemma set_cells_put i c g : put_cell i c g = set_cells (cells (put_cell i c g)) g.
Proof.
  unfold put_cell. destruct (cells g) eqn:E; [reflexivity|].
  rewrite E, <- E. apply set_cells_same.
Qed.

Lemma seeds_refl w : seeds 0 w w.
Proof.
  unfold seeds. split; [reflexivity|]. repeat split; auto; [lia|].
  apply set_cells_same.
Qed.

Lemma seeds_trans k1 k2 w1 w2 w3 :
  seeds k1 w1 w2 -> seeds k2 w2 w3 -> seeds (k1 + k2) w1 w3.
Proof.
  intros (E1 & W1 & H1 & F1 & C1 & P1 & G1) (E2 & W2 & H2 & F2 & C2 & P2 & G2).
  unfold seeds. split; [etransitivity; eassumption|].
  split; [congruence|]. split; [congruence|]. split; [auto|].
  split; [|split; [lia | rewrite G2, G1; reflexivity]].
  intros i c Hc. destruct (C1 i c Hc) as [Hsame|(Hocc & e & t & Hs & Hr & Hcl)].
  - destruct (C2 i c Hsame) as [Hsame2|(Hocc & e & t & Hs & Hr & Hcl)].
    + left. assumption.
    + right. split; [assumption|]. eauto.
  - destruct (C2 i _ Hs) as [Hsame2|(Hocc2 & _)].
    + right. split; [assumption|]. exists e, t. split; [assumption|].
      split; [eapply Repr_extends; eassumption | assumption].
    + discriminate Hocc2.
Qed.

Lemma stable_is_identity e : pure (is_identity e).
Proof.
  intros w b w' H. unfold is_identity in H.
  mbind H as x w1 Hx. apply expr_slot_Ok in Hx as (-> & _ & _).
  destruct (as_ x); try (mret H; reflexivity).
  mbind H as y w1 Hy. apply expr_slot_Ok in Hy as (-> & _ & _).
  destruct (as_ y); mret H; reflexivity.
Qed.

(** What [generate_retry] returns is a closed expression. *)
Lemma generate_retry_Ok fuel o depth : forall n w e w',
  generate_retry fuel o depth n w = Ok e w' ->
  extends w w' /\ active_grid w' = active_grid w /\
  exists t, Repr w' e t /\ closed t.
Proof.
  induction n as [|n IH]; intros w e w' H; cbn [generate_retry] in H;
    mbind H as e1 w1 Hg; mbind H as b w2 Hb;
    apply stable_is_identity in Hb as ->;
    pose proof (stable_generate _ gen_stable_extends _ _ _ _ _ _ _ _ _ Hg) as Hext;
    pose proof (generate_keeps_grid _ _ _ _ _ _ _ _ _ Hg) as Hgrid.
  - mret H. split; [assumption|]. split; [assumption|].
    apply (generate_scoped fuel o 0%Z depth [] w e w') in Hg as (t & Hr & Hs).
    exists t. split; [assumption | apply scoped_closed; assumption].
  - destruct b.
    + apply IH in H as (Hext2 & Hgrid2 & Ht).
      split; [etransitivity; eassumption|]. split; [congruence | assumption].
    + mret H. split; [assumption|]. split; [assumption|].
      apply (generate_scoped fuel o 0%Z depth [] w e w') in Hg as (t & Hr & Hs).
      exists t. split; [assumption | apply scoped_closed; assumption].
Qed.

Lemma generate_retry_total fuel o depth : forall n w,
  dead_ok w -> Z.to_nat depth < fuel ->
  exists e w', generate_retry fuel o depth n w = Ok e w' /\ dead_ok w'.
Proof.
  induction n as [|n IH]; intros w Hd Hf; cbn [generate_retry];
    destruct (generate_total fuel o 0%Z depth [] w Hd
                ltac:(rewrite Z.sub_0_r; exact Hf)) as (e & w1 & Hg & Hd1);
    change (Z.of_nat (length (@nil string))) with 0%Z in Hg;
    rewrite (bind_Ok_intro _ _ _ _ _ Hg); cbn beta iota;
    destruct (generate_scoped fuel o 0%Z depth [] w e w1 Hg) as (t & Hr & _);
    rewrite (bind_Ok_intro _ _ _ _ _ (is_identity_Repr _ _ _ Hr)); cbn beta iota.
  - eauto.
  - destruct (shape_identity t); [apply IH; assumption | eauto].
Qed.

Lemma read_cell_run i w c :
  cell_of (active_grid w) i = Some c -> read_cell i w = Ok c w.
Proof.
  unfold cell_of, read_cell, get_grid, bind, cell_at.
  destruct (cells (active_grid w)) as [cs|]; [|discriminate].
  destruct (i <? 0)%Z; [discriminate|]. intros ->. reflexivity.
Qed.

Lemma modify_cell_run i f w c :
  cell_of (active_grid w) i = Some c ->
  modify_cell i f w = Ok tt (set_grid (put_cell i (f c) (active_grid w)) w).
Proof.
  intros H. unfold modify_cell. rewrite (bind_Ok_intro _ _ _ _ _ (read_cell_run _ _ _ H)).
  revert H. unfold cell_of, write_cell, put_cell, get_grid, bind, cell_at.
  destruct (cells (active_grid w)) as [cs|]; [|discriminate].
  destruct (i <? 0)%Z; [discriminate|]. intros ->. reflexivity.
Qed.

(** The five assignments that place an organism. *)
Lemma spawn_run {A} idx e c w (k : M A) :
  cell_of (active_grid w) idx = Some c ->
  (modify_cell idx (set_atom e) ;;;
   modify_cell idx (set_occupied true) ;;;
   modify_cell idx (set_age 0) ;;;
   modify_cell idx (set_generation 0) ;;;
   modify_cell idx (set_cache_valid false) ;;; k) w
  = k (set_grid (put_cell idx (spawned e c) (active_grid w)) w).
Proof.
  intros Hc.
  rewrite (bind_Ok_intro _ _ _ _ _ (modify_cell_run idx (set_atom e) w c Hc)).
  cbn beta iota.
  pose proof (cell_of_put_eq _ idx (set_atom e c) _ Hc) as H1.
  rewrite (bind_Ok_intro _ _ _ _ _
             (modify_cell_run idx (set_occupied true) (set_grid _ w) _ H1)).
  cbn beta iota. cbn [active_grid set_grid]. rewrite put_put_eq.
  pose proof (cell_of_put_eq _ idx (set_occupied true (set_atom e c)) _ Hc) as H2.
  rewrite (bind_Ok_intro _ _ _ _ _
             (modify_cell_run idx (set_age 0) (set_grid _ w) _ H2)).
  cbn beta iota. cbn [active_grid set_grid]. rewrite put_put_eq.
  pose proof (cell_of_put_eq _ idx
                (set_age 0 (set_occupied true (set_atom e c))) _ Hc) as H3.
  rewrite (bind_Ok_intro _ _ _ _ _
             (modify_cell_run idx (set_generation 0) (set_grid _ w) _ H3)).
  cbn beta iota. cbn [active_grid set_grid]. rewrite put_put_eq.
  pose proof (cell_of_put_eq _ idx
                (set_generation 0 (set_age 0 (set_occupied true (set_atom e c))))
                _ Hc) as H4.
  rewrite (bind_Ok_intro _ _ _ _ _
             (modify_cell_run idx (set_cache_valid false) (set_grid _ w) _ H4)).
  cbn beta iota. cbn [active_grid set_grid]. rewrite put_put_eq.
  reflexivity.
Qed.

Lemma seeds_spawn w w1 idx e c t :
  extends w w1 -> active_grid w1 = active_grid w ->
  cell_of (active_grid w) idx = Some c -> occupied c = false ->
  Repr w1 e t -> closed t ->
  seeds 1 w (set_grid (put_cell idx (spawned e c) (active_grid w1)) w1).
Proof.
  intros Hext Hg Hc Hocc Hr Hcl. unfold seeds. cbn [active_grid set_grid].
  rewrite Hg, put_cell_width, put_cell_height.
  split; [exact Hext|]. split; [reflexivity|]. split; [reflexivity|].
  split; [apply wf_put|]. split.
  - intros i c0 Hc0. destruct (Z.eq_dec i idx) as [->|Hne].
    + right. rewrite Hc in Hc0. injection Hc0 as <-. split; [assumption|].
      exists e, t. split; [eapply cell_of_put_eq; eassumption|].
      split; [|exact Hcl].
      eapply Repr_extends; [|exact Hr]. intros j a Hj. exact Hj.
    + left. rewrite cell_of_put_ne; [assumption | | | congruence].
      * eapply cell_of_nonneg; eassumption.
      * eapply cell_of_nonneg; eassumption.
  - split; [rewrite (population_put _ _ _ _ Hc), Hocc; simpl; lia|].
    apply set_cells_put.
Qed.

(** The loop of [grid_seed] returns, and what it has done is to place
    [k] organisms. *)
Lemma grid_seed_loop_seeds fuel o count depth :
  Z.to_nat depth < fuel ->
  forall n w placed,
    dead_ok w -> wf_grid (active_grid w) ->
    (0 < width (active_grid w))%Z -> (0 < height (active_grid w))%Z ->
    exists w' k,
      grid_seed_loop fuel o count depth n placed w = Ok tt w' /\
      seeds k w w' /\ dead_ok w' /\
      (0 <= k <= Z.max 0 (count - placed))%Z /\ (k <= Z.of_nat n)%Z.
Proof.
  intros Hf. induction n as [|n IH]; intros w placed Hd Hwf Hw Hh;
    cbn [grid_seed_loop].
  - exists w, 0%Z. split; [reflexivity|]. split; [apply seeds_refl|].
    split; [assumption|]. lia.
  - destruct (Z.ltb_spec placed count) as [Hlt|Hge].
    2:{ exists w, 0%Z. split; [reflexivity|]. split; [apply seeds_refl|].
        split; [assumption|]. lia. }
    unfold get_grid at 1. unfold bind at 1.
    unfold rand at 1. unfold bind at 1.
    unfold int_rem at 1. cbn [active_grid set_rand_pos].
    destruct (Z.eqb_spec (width (active_grid w)) 0) as [E|_]; [lia|].
    unfold ret at 1. unfold bind at 1.
    unfold rand at 1. unfold bind at 1.
    unfold int_rem at 1. cbn [active_grid set_rand_pos].
    destruct (Z.eqb_spec (height (active_grid w)) 0) as [E|_]; [lia|].
    unfold ret at 1. unfold bind at 1.
    set (w2 := set_rand_pos _ (set_rand_pos _ w)).
    set (idx := grid_idx (active_grid w) _ _).
    destruct Hwf as (cs & Hcs & Hlen & Hint).
    assert (Hidx : (0 <= idx < width (active_grid w) * height (active_grid w))%Z)
      by (apply grid_idx_range; assumption).
    assert (Hcell : exists c, cell_of (active_grid w) idx = Some c).
    { unfold cell_of. rewrite Hcs.
      destruct (Z.ltb_spec idx 0); [lia|].
      apply lookup_lt_is_Some_2. lia. }
    destruct Hcell as [c Hc].
    assert (Hwf : wf_grid (active_grid w)) by (exists cs; auto).
    assert (H02 : seeds 0 w w2).
    { unfold seeds. split; [intros i a Hi; exact Hi|].
      change (active_grid w2) with (active_grid w). repeat split; auto; [lia|].
      apply set_cells_same. }
    assert (Hd2 : dead_ok w2) by exact Hd.
    rewrite (bind_Ok_intro _ _ _ _ _ (read_cell_run idx w2 c Hc)). cbn beta iota.
    destruct (occupied c) eqn:Hocc; cbn [negb].
    + destruct (IH w2 placed Hd2 Hwf Hw Hh) as (w' & k & Hrun & Hs & Hd' & Hk & Hkn).
      exists w', k. split; [exact Hrun|].
      split; [exact (seeds_trans 0 k _ _ _ H02 Hs)|]. split; [assumption|]. lia.
    + destruct (generate_retry_total fuel o depth 4 w2 Hd2 Hf)
        as (e & w3 & Hg & Hd3).
      rewrite (bind_Ok_intro _ _ _ _ _ Hg). cbn beta iota.
      destruct (generate_retry_Ok _ _ _ _ _ _ _ Hg) as (Hext & Hgrid & t & Hr & Hcl).
      assert (Hc3 : cell_of (active_grid w3) idx = Some c) by (rewrite Hgrid; exact Hc).
      rewrite (spawn_run idx e c w3 _ Hc3).
      set (w4 := set_grid _ w3).
      assert (H24 : seeds 1 w2 w4) by (apply (seeds_spawn w2 w3 idx e c t); auto).
      assert (Hd4 : dead_ok w4) by exact Hd3.
      assert (Hwf4 : wf_grid (active_grid w4)).
      { destruct H24 as (_ & _ & _ & F & _). apply F. exact Hwf. }
      assert (Hw4 : (0 < width (active_grid w4))%Z).
      { destruct H24 as (_ & E & _). rewrite E. exact Hw. }
      assert (Hh4 : (0 < height (active_grid w4))%Z).
      { destruct H24 as (_ & _ & E & _). rewrite E. exact Hh. }
      destruct (IH w4 (placed + 1)%Z Hd4 Hwf4 Hw4 Hh4)
        as (w' & k & Hrun & Hs & Hd' & Hk & Hkn).
      exists w', (0 + (1 + k))%Z. split; [exact Hrun|].
      split; [exact (seeds_trans _ _ _ _ _ H02 (seeds_trans _ _ _ _ _ H24 Hs))|].
      split; [assumption|]. lia.
Qed.

(** [grid_seed] on a grid of positive width and height returns,
    whatever [rand] draws.  It places at most [count] organisms, none if
    [count] is not positive, and only in cells that were empty: every
    other cell is left as it was, so the population grows by exactly the
    number placed.  A placed organism is a closed expression of age and
    generation zero, and no live slot of the arena is changed. *)
Theorem grid_seed_fills_empty_cells fuel o count depth w :
  dead_ok w -> wf_grid (active_grid w) ->
  (0 < width (active_grid w))%Z -> (0 < height (active_grid w))%Z ->
  Z.to_nat depth < fuel ->
  exists w' k,
    grid_seed fuel o count depth w = Ok tt w' /\
    (0 <= k <= Z.max 0 count)%Z /\
    population_of (active_grid w') = (population_of (active_grid w) + k)%Z /\
    (forall i c, cell_of (active_grid w) i = Some c ->
       cell_of (active_grid w') i = Some c \/
       occupied c = false /\
       exists e t, cell_of (active_grid w') i = Some (spawned e c) /\
         Repr w' e t /\ closed t) /\
    width (active_grid w') = width (active_grid w) /\
    height (active_grid w') = height (active_grid w) /\
    wf_grid (active_grid w') /\
    extends w w' /\ dead_ok w'.
Proof.
  intros Hd Hwf Hw Hh Hf.
  destruct (grid_seed_loop_seeds fuel o count depth Hf (Z.to_nat (count * 10)) w 0%Z
              Hd Hwf Hw Hh) as (w' & k & Hrun & Hs & Hd' & Hk & _).
  destruct Hs as (Hext & W & H & F & C & P & _).
  exists w', k. split; [exact Hrun|]. split; [lia|]. split; [exact P|].
  split; [exact C|]. auto 10.
Qed.

Lemma grid_seed_fills_empty_cells_witness :
  exists w' k,
    grid_seed 3 Left_To_Right 2 2 world_grid = Ok tt w' /\
    (0 <= k <= Z.max 0 2)%Z /\
    population_of (active_grid w') = (population_of (active_grid world_grid) + k)%Z /\
    (forall i c, cell_of (active_grid world_grid) i = Some c ->
       cell_of (active_grid w') i = Some c \/
       occupied c = false /\
       exists e t, cell_of (active_grid w') i = Some (spawned e c) /\
         Repr w' e t /\ closed t) /\
    width (active_grid w') = width (active_grid world_grid) /\
    height (active_grid w') = height (active_grid world_grid) /\
    wf_grid (active_grid w') /\
    extends world_grid w' /\ dead_ok w'.
Proof.
  apply (grid_seed_fills_empty_cells 3 Left_To_Right 2 2 world_grid).
  - apply dead_okb_dead_ok. vm_compute. reflexivity.
  - eexists. split; [vm_compute; reflexivity|].
    split; [vm_compute; reflexivity|]. vm_compute. discriminate.
  - vm_compute. reflexivity.
  - vm_compute. reflexivity.
  - vm_compute. lia.
Defined.

Lemma occupied_count_replicate n : occupied_count (replicate n zero_cell) = 0%Z.
Proof.
  induction n as [|n IH]; [reflexivity|].
  cbn [replicate]. rewrite occupied_count_cons, IH. reflexivity.
Qed.

(** [grid_init] followed by [grid_seed], as the [grid] command runs
    them: for positive [w] and [h] whose product fits an [int] both
    return; the grid has [w * h] cells, of which [k], at most [count], hold an organism, a closed
    expression of age and generation zero, and the others are zeroed;
    the counters that [grid_init] resets are zero, and [population],
    [attacks] and [evasions], which it does not reset, are what they
    were.  No live slot of the arena is changed. *)
Theorem grid_init_then_seed fuel o w h count depth world :
  dead_ok world -> (0 < w)%Z -> (0 < h)%Z -> (w * h <= INT_MAX)%Z ->
  Z.to_nat depth < fuel ->
  exists w1 w2 k,
    grid_init w h world = Ok tt w1 /\
    grid_seed fuel o count depth w1 = Ok tt w2 /\
    (0 <= k <= Z.max 0 count)%Z /\
    population_of (active_grid w2) = k /\
    (forall i, (0 <= i < w * h)%Z ->
       cell_of (active_grid w2) i = Some zero_cell \/
       exists e t, cell_of (active_grid w2) i = Some (spawned e zero_cell) /\
         Repr w2 e t /\ closed t) /\
    wf_grid (active_grid w2) /\
    active_grid w2
    = mkGrid w h (cells (active_grid w2)) 0 (population (active_grid world))
        0 0 0 0 0 (attacks (active_grid world)) (evasions (active_grid world)) /\
    extends world w2.
Proof.
  intros Hd Hw Hh Hint Hf.
  assert (Hpos : (0 < w * h)%Z) by nia.
  assert (Hwrap : wrap_int (w * h) = (w * h)%Z)
    by (apply wrap_int_small; unfold INT_MAX in *; lia).
  set (g1 := mkGrid w h (Some (replicate (Z.to_nat (w * h)) zero_cell)) 0
               (population (active_grid world)) 0 0 0 0 0
               (attacks (active_grid world)) (evasions (active_grid world))).
  assert (H1 : grid_init w h world = Ok tt (set_grid g1 world)).
  { unfold grid_init. rewrite Hwrap.
    destruct (Z.ltb_spec (w * h) 0); [lia | reflexivity]. }
  assert (Hwf1 : wf_grid (active_grid (set_grid g1 world))).
  { exists (replicate (Z.to_nat (w * h)) zero_cell). split; [reflexivity|].
    rewrite length_replicate. split; [reflexivity | exact Hint]. }
  destruct (grid_seed_loop_seeds fuel o count depth Hf (Z.to_nat (count * 10))
              (set_grid g1 world) 0%Z Hd Hwf1 Hw Hh)
    as (w2 & k & Hrun & Hs & Hd' & Hk & _).
  destruct Hs as (Hext & W & H & F & C & P & G).
  exists (set_grid g1 world), w2, k.
  split; [exact H1|]. split; [exact Hrun|]. split; [lia|].
  split; [|split; [|split; [auto|split; [|exact Hext]]]].
  - rewrite P. cbn [active_grid set_grid]. unfold population_of, g1. cbn [cells].
    rewrite occupied_count_replicate. reflexivity.
  - intros i Hi.
    assert (Hc : cell_of (active_grid (set_grid g1 world)) i = Some zero_cell).
    { unfold cell_of. cbn [active_grid set_grid g1 cells].
      destruct (Z.ltb_spec i 0); [lia|].
      apply lookup_replicate. split; [reflexivity | lia]. }
    destruct (C i _ Hc) as [Hsame|(_ & e & t & Hs & Hr & Hcl)]; [left; exact Hsame|].
    right. eauto.
  - rewrite G. reflexivity.
Qed.

Lemma grid_init_then_seed_witness :
  exists w1 w2 k,
    grid_init 2 2 empty_world = Ok tt w1 /\
    grid_seed 3 Left_To_Right 2 2 w1 = Ok tt w2 /\
    (0 <= k <= Z.max 0 2)%Z /\
    population_of (active_grid w2) = k /\
    (forall i, (0 <= i < 2 * 2)%Z ->
       cell_of (active_grid w2) i = Some zero_cell \/
       exists e t, cell_of (active_grid w2) i = Some (spawned e zero_cell) /\
         Repr w2 e t /\ closed t) /\
    wf_grid (active_grid w2) /\
    active_grid w2
    = mkGrid 2 2 (cells (active_grid w2)) 0 (population (active_grid empty_world))
        0 0 0 0 0 (attacks (active_grid empty_world))
        (evasions (active_grid empty_world)) /\
    extends empty_world w2.
Proof.
  apply (grid_init_then_seed 3 Left_To_Right 2 2 2 2 empty_world).
  - apply dead_okb_dead_ok. vm_compute. reflexivity.
  - lia.
  - lia.
  - vm_compute. discriminate.
  - vm_compute. lia.
Defined.

(** When the product does not fit an [int] it wraps around before it
    is converted to a size: [grid_init] of 65536 by 65536 cells
    allocates none, and that of 46341 by 46341 cells fails the
    assertion. *)
Example grid_init_overflow :
  (exists w', grid_init 65536 65536 empty_world = Ok tt w' /\
     cells (active_grid w') = Some [] /\
     width (active_grid w') = 65536%Z /\ height (active_grid w') = 65536%Z) /\
  grid_init 46341 46341 empty_world = Abort.
Proof.
  split; [|vm_compute; reflexivity].
  eexists. split; [vm_compute; reflexivity|]. repeat split.
Qed.

(** ** The parser on any input *)

Lemma advances_rest l l' : advances l l' -> rest l' <= rest l.
Proof. intros (_ & N & P & _). unfold rest. rewrite N. lia. Qed.

Lemma lexer_next_at_end l :
  count l <= pos (cur l) -> token (snd (lexer_next l)) = TOKEN_END.
Proof.
  intros Hend. unfold lexer_next.
  pose proof (skip_blanks_loop_advances (count l - pos (cur l)) l) as (_ & N & P & _).
  set (l0 := skip_blanks_loop _ l) in *.
  unfold lexer_next_char. cbn [count cur set_loc].
  destruct (Nat.leb_spec (count l0) (pos (cur l0))) as [_|Hlt]; [|lia].
  reflexivity.
Qed.

Lemma lexer_next_rest l ok l1 :
  lexer_next l = (ok, l1) ->
  advances l l1 /\ (token l1 <> TOKEN_END -> rest l1 < rest l).
Proof.
  intros E. destruct (lexer_next_advances l) as [Ha Hp]. rewrite E in Ha, Hp.
  simpl in Ha, Hp. split; [exact Ha|]. intros Hne.
  destruct (Nat.lt_ge_cases (pos (cur l)) (count l)) as [Hlt|Hge].
  - specialize (Hp Hlt). destruct Ha as (_ & N & _). unfold rest. rewrite N. lia.
  - pose proof (lexer_next_at_end l Hge) as Hend. rewrite E in Hend. contradiction.
Qed.

Lemma lexer_expect_rest l k ok l1 :
  lexer_expect l k = (ok, l1) ->
  advances l l1 /\ (ok = true -> k <> TOKEN_END -> rest l1 < rest l).
Proof.
  unfold lexer_expect. destruct (lexer_next l) as [ok0 l0] eqn:E.
  destruct (lexer_next_rest _ _ _ E) as [Ha Hp].
  destruct ok0; cbn [negb].
  - destruct (Token_Kind_eqb (token l0) k) eqn:Ek; cbn [negb]; intros H;
      injection H as <- <-; (split; [exact Ha|]); [|discriminate].
    intros _ Hk. apply Hp. apply Token_Kind_eqb_eq in Ek. congruence.
  - intros H. injection H as <- <-. split; [exact Ha | discriminate].
Qed.

Lemma lexer_peek_rest l ok l1 :
  lexer_peek l = (ok, l1) -> advances l l1 /\ rest l1 = rest l.
Proof.
  unfold lexer_peek. destruct (lexer_next l) as [ok0 l0] eqn:E.
  destruct (lexer_next_rest _ _ _ E) as [(C & N & _) _].
  intros H. injection H as <- <-. unfold rest, advances. cbn [content count cur set_cur].
  rewrite N. repeat split; auto.
Qed.

Lemma returns_None strict l l' w :
  advances l l' -> dead_ok w -> returns strict l w (ret (None, l') w).
Proof.
  intros Ha Hd. exists None, l', w. split; [reflexivity|]. split; [assumption|].
  split; [reflexivity|]. split; [assumption|]. discriminate.
Qed.

Lemma returns_weaken l w r : returns true l w r -> returns false l w r.
Proof.
  intros (x & l' & w' & E & Ha & He & Hd & Hs). exists x, l', w'.
  repeat (split; [assumption|]). intros i Hi. destruct (Hs i Hi). split; [lia | assumption].
Qed.

(** With two units of fuel for each character left, and two more, the
    four parsing functions return. *)
Lemma parser_returns : forall n,
  (forall l w, dead_ok w -> 2 * rest l + 1 <= n ->
     returns true l w (parse_primary n l w)) /\
  (forall l w, dead_ok w -> 2 * rest l + 1 <= n ->
     returns true l w (parse_fun n l w)) /\
  (forall l w, dead_ok w -> 2 * rest l + 2 <= n ->
     returns true l w (parse_expr n l w)) /\
  (forall l w e t, dead_ok w -> Repr w e t -> 2 * rest l + 2 <= n ->
     returns false l w (parse_expr_loop n l e w)).
Proof.
  induction n as [|n (IHp & IHf & IHe & IHl)].
  { repeat split; intros; lia. }
  assert (Hnode : forall a l l1 w,
            dead_ok w -> advances l l1 -> rest l1 < rest l ->
            (forall e w', fresh_node w e a w' -> exists t, Repr w' e t) ->
            returns true l w ((e <- new_node a ;; ret (Some e, l1)) w)).
  { intros a l l1 w Hd Ha Hr Ht.
    destruct (node_parsed a w Hd) as (e & w' & He & Hf & Hext & Hd').
    rewrite (bind_Ok_intro _ _ _ _ _ He). cbn beta iota.
    exists (Some e), l1, w'. split; [reflexivity|]. split; [assumption|].
    split; [assumption|]. split; [assumption|].
    intros i Hi. injection Hi as <-. split; [assumption | eauto]. }
  split; [|split; [|split]].
  - (* parse_primary *)
    intros l w Hd Hn. cbn [parse_primary].
    destruct (lexer_next l) as [ok l1] eqn:E.
    destruct (lexer_next_rest _ _ _ E) as [Ha Hp].
    destruct ok; cbn [negb]; [|apply returns_None; assumption].
    destruct (token l1) eqn:Etok;
      try (apply returns_None; assumption);
      assert (Hr : rest l1 < rest l) by (apply Hp; discriminate).
    all: try (rewrite ?var_new_node, ?magic_new_node; apply Hnode; try assumption;
              intros e w' Hf; eexists;
              first [eapply Repr_fresh_Var; exact Hf | eapply Repr_fresh_Mag; exact Hf]).
    + (* OPAREN *)
      destruct (IHe l1 w Hd ltac:(lia)) as (x & l2 & w2 & E2 & Ha2 & He2 & Hd2 & Hs2).
      rewrite (bind_Ok_intro _ _ _ _ _ E2). cbn beta iota.
      assert (Ha02 : advances l l2) by (etransitivity; eassumption).
      destruct x as [expr|].
      2:{ exists None, l2, w2. split; [reflexivity|]. split; [assumption|].
          split; [assumption|]. split; [assumption|]. discriminate. }
      destruct (lexer_expect l2 TOKEN_CPAREN) as [ok2 l3] eqn:E3.
      destruct (lexer_expect_rest _ _ _ _ E3) as [Ha3 _].
      assert (Ha03 : advances l l3) by (etransitivity; eassumption).
      destruct ok2; cbn [negb].
      * exists (Some expr), l3, w2. split; [reflexivity|]. split; [assumption|].
        split; [assumption|]. split; [assumption|].
        intros i Hi. injection Hi as <-. destruct (Hs2 expr eq_refl) as [Hlt Ht].
        split; [|exact Ht]. pose proof (advances_rest _ _ Ha3). lia.
      * exists None, l3, w2. split; [reflexivity|]. split; [assumption|].
        split; [assumption|]. split; [assumption|]. discriminate.
    + (* LAMBDA *)
      destruct (IHf l1 w Hd ltac:(lia)) as (x & l2 & w2 & E2 & Ha2 & He2 & Hd2 & Hs2).
      exists x, l2, w2. split; [assumption|].
      split; [etransitivity; eassumption|]. split; [assumption|].
      split; [assumption|].
      intros i Hi. destruct (Hs2 i Hi) as [Hlt Ht]. split; [lia | exact Ht].
  - (* parse_fun *)
    intros l w Hd Hn. cbn [parse_fun].
    destruct (lexer_expect l TOKEN_NAME) as [ok l1] eqn:E1.
    destruct (lexer_expect_rest _ _ _ _ E1) as [Ha1 Hp1].
    destruct ok; cbn [negb]; [|apply returns_None; assumption].
    destruct (lexer_expect l1 TOKEN_DOT) as [ok2 l2] eqn:E2.
    destruct (lexer_expect_rest _ _ _ _ E2) as [Ha2 Hp2].
    assert (Ha02 : advances l l2) by (etransitivity; eassumption).
    destruct ok2; cbn [negb]; [|apply returns_None; assumption].
    destruct (lexer_next l2) as [oka la] eqn:Ea.
    destruct (lexer_next_rest _ _ _ Ea) as [Haa _].
    assert (Ha0a : advances l la) by (etransitivity; eassumption).
    destruct oka; cbn [negb]; [|apply returns_None; assumption].
    destruct (lexer_next la) as [okb lb] eqn:Eb.
    destruct (lexer_next_rest _ _ _ Eb) as [Hab _].
    assert (Ha0b : advances l lb) by (etransitivity; eassumption).
    destruct okb; cbn [negb]; [|apply returns_None; assumption].
    set (l3 := set_cur (cur l2) lb).
    assert (Hr3 : rest l3 = rest l2).
    { unfold rest, l3. cbn [count cur set_cur].
      destruct Haa as (_ & Na & _). destruct Hab as (_ & Nb & _). congruence. }
    assert (Ha3 : advances l l3).
    { destruct Ha02 as (C2 & N2 & P2 & B2). destruct Ha0b as (Cb & Nb & _).
      unfold advances, l3. cbn [content count cur set_cur]. auto. }
    assert (Hlt : rest l2 + 2 <= rest l).
    { specialize (Hp1 eq_refl ltac:(discriminate)).
      specialize (Hp2 eq_refl ltac:(discriminate)). lia. }
    assert (Hsub : returns false l3 w
              ((if Token_Kind_eqb (token la) TOKEN_NAME && Token_Kind_eqb (token lb) TOKEN_DOT
                then parse_fun n l3 else parse_expr n l3) w)).
    { destruct (_ && _); apply returns_weaken;
        [apply IHf | apply IHe]; try assumption; lia. }
    destruct Hsub as (x & l4 & w4 & E4 & Ha4 & He4 & Hd4 & Hs4).
    rewrite (bind_Ok_intro _ _ _ _ _ E4). cbn beta iota.
    assert (Ha04 : advances l l4) by (etransitivity; eassumption).
    destruct x as [body|].
    2:{ exists None, l4, w4. split; [reflexivity|]. split; [assumption|].
        split; [assumption|]. split; [assumption|]. discriminate. }
    destruct (Hs4 body eq_refl) as [Hle4 [tb Hb]].
    rewrite fun_new_node.
    destruct (node_parsed (EXPR_FUN (symbol (string_of_list_ascii (lstring l1))) body)
                w4 Hd4) as (e & w5 & He & Hf & Hext & Hd5).
    rewrite (bind_Ok_intro _ _ _ _ _ He). cbn beta iota.
    exists (Some e), l4, w5. split; [reflexivity|]. split; [assumption|].
    split; [etransitivity; eassumption|]. split; [assumption|].
    intros i Hi. injection Hi as <-. split; [lia|].
    eexists. eapply Repr_fresh_Fun; eassumption.
  - (* parse_expr *)
    intros l w Hd Hn. cbn [parse_expr].
    destruct (IHp l w Hd ltac:(lia)) as (x & l1 & w1 & E1 & Ha1 & He1 & Hd1 & Hs1).
    rewrite (bind_Ok_intro _ _ _ _ _ E1). cbn beta iota.
    destruct x as [expr|].
    2:{ exists None, l1, w1. split; [reflexivity|]. split; [assumption|].
        split; [assumption|]. split; [assumption|]. discriminate. }
    destruct (Hs1 expr eq_refl) as [Hlt1 [t Ht]].
    destruct (lexer_peek l1) as [ok l2] eqn:E2.
    destruct (lexer_peek_rest _ _ _ E2) as [Ha2 Hr2].
    assert (Ha02 : advances l l2) by (etransitivity; eassumption).
    destruct ok; cbn [negb].
    2:{ exists None, l2, w1. split; [reflexivity|]. split; [assumption|].
        split; [assumption|]. split; [assumption|]. discriminate. }
    destruct (IHl l2 w1 expr t Hd1 Ht ltac:(lia))
      as (x & l3 & w3 & E3 & Ha3 & He3 & Hd3 & Hs3).
    exists x, l3, w3. split; [assumption|]. split; [etransitivity; eassumption|].
    split; [etransitivity; eassumption|]. split; [assumption|].
    intros i Hi. destruct (Hs3 i Hi) as [Hle Hti]. split; [lia | exact Hti].
  - (* parse_expr_loop *)
    intros l w expr t Hd Ht Hn. cbn [parse_expr_loop].
    destruct (is_expr_end (token l)).
    { exists (Some expr), l, w. split; [reflexivity|]. split; [reflexivity|].
      split; [reflexivity|]. split; [assumption|].
      intros i Hi. injection Hi as <-. split; [lia | eauto]. }
    destruct (IHp l w Hd ltac:(lia)) as (x & l1 & w1 & E1 & Ha1 & He1 & Hd1 & Hs1).
    rewrite (bind_Ok_intro _ _ _ _ _ E1). cbn beta iota.
    destruct x as [rhs|].
    2:{ exists None, l1, w1. split; [reflexivity|]. split; [assumption|].
        split; [assumption|]. split; [assumption|]. discriminate. }
    destruct (Hs1 rhs eq_refl) as [Hlt1 [tr Htr]].
    rewrite app_new_node.
    destruct (node_parsed (EXPR_APP expr rhs) w1 Hd1) as (e & w2 & He & Hf & Hext & Hd2).
    rewrite (bind_Ok_intro _ _ _ _ _ He). cbn beta iota.
    assert (Hte : Repr w2 e (App t tr)).
    { eapply Repr_fresh_App; [exact Hf | | exact Htr].
      eapply Repr_extends; eassumption. }
    destruct (lexer_peek l1) as [ok l2] eqn:E2.
    destruct (lexer_peek_rest _ _ _ E2) as [Ha2 Hr2].
    assert (Ha02 : advances l l2) by (etransitivity; eassumption).
    assert (He02 : extends w w2) by (etransitivity; eassumption).
    destruct ok; cbn [negb].
    2:{ exists None, l2, w2. split; [reflexivity|]. split; [assumption|].
        split; [assumption|]. split; [assumption|]. discriminate. }
    destruct (IHl l2 w2 e _ Hd2 Hte ltac:(lia))
      as (x & l3 & w3 & E3 & Ha3 & He3 & Hd3 & Hs3).
    exists x, l3, w3. split; [assumption|]. split; [etransitivity; eassumption|].
    split; [etransitivity; eassumption|]. split; [assumption|].
    intros i Hi. destruct (Hs3 i Hi) as [Hle Hti]. split; [lia | exact Hti].
Qed.

(** [parse_expr] returns on every input, well formed or not: with two
    units of fuel for each character left and two more, and a sound
    free list, it fails no assertion and returns; it has only moved
    forward in the input and only allocated, so that no live slot is
    changed.  When it accepts, it has read at least one character and
    what it returns is an expression tree; with nothing left to read it
    rejects. *)
Theorem parse_expr_returns fuel l w :
  dead_ok w -> 2 * (count l - pos (cur l)) + 2 <= fuel ->
  exists r l' w',
    parse_expr fuel l w = Ok (r, l') w' /\
    extends w w' /\ dead_ok w' /\
    content l' = content l /\ count l' = count l /\
    pos (cur l) <= pos (cur l') /\
    (forall i, r = Some i ->
       pos (cur l) < pos (cur l') /\ exists t, Repr w' i t) /\
    (count l <= pos (cur l) -> r = None).
Proof.
  intros Hd Hn.
  destruct (parser_returns fuel) as (_ & _ & He & _).
  destruct (He l w Hd Hn) as (r & l' & w' & E & (C & N & P & _) & Hext & Hd' & Hs).
  exists r, l', w'. split; [exact E|]. split; [exact Hext|]. split; [exact Hd'|].
  split; [exact C|]. split; [exact N|]. split; [exact P|]. split.
  - intros i Hi. destruct (Hs i Hi) as [Hlt Ht]. split; [|exact Ht].
    unfold rest in Hlt. rewrite N in Hlt. lia.
  - intros Hend. destruct r as [i|]; [|reflexivity].
    destruct (Hs i eq_refl) as [Hlt _]. unfold rest in Hlt. lia.
Qed.

Lemma parse_expr_returns_witness :
  exists r l' w',
    parse_expr 6 (lexer_init (list_ascii_of_string "(x") 2) empty_world
    = Ok (r, l') w' /\
    extends empty_world w' /\ dead_ok w' /\
    content l' = content (lexer_init (list_ascii_of_string "(x") 2) /\
    count l' = count (lexer_init (list_ascii_of_string "(x") 2) /\
    pos (cur (lexer_init (list_ascii_of_string "(x") 2)) <= pos (cur l') /\
    (forall i, r = Some i ->
       pos (cur (lexer_init (list_ascii_of_string "(x") 2)) < pos (cur l') /\
       exists t, Repr w' i t) /\
    (count (lexer_init (list_ascii_of_string "(x") 2)
     <= pos (cur (lexer_init (list_ascii_of_string "(x") 2)) -> r = None).
Proof.
  apply (parse_expr_returns 6 (lexer_init (list_ascii_of_string "(x") 2) empty_world).
  - apply dead_okb_dead_ok. vm_compute. reflexivity.
  - simpl. lia.
Defined.

(** ** Loading bindings *)

Lemma create_binding_elem bindings nm body b :
  b ∈ create_binding bindings nm body -> b ∈ bindings \/ body_of b = body.
Proof.
  induction bindings as [|b0 bs IH]; cbn [create_binding]; intros H.
  - apply list_elem_of_singleton in H as ->. right. reflexivity.
  - destruct (symbol_eq (name b0) nm).
    + apply elem_of_cons in H as [->|H]; [right; reflexivity|].
      left. apply list_elem_of_further. assumption.
    + apply elem_of_cons in H as [->|H]; [left; apply list_elem_of_here|].
      destruct (IH H) as [Hin|Hb]; [left; apply list_elem_of_further; assumption|].
      right. assumption.
Qed.

Lemma create_binding_keeps_names bindings nm body x :
  x ∈ map name bindings -> x ∈ map name (create_binding bindings nm body).
Proof.
  rewrite create_binding_names. destruct (binding_of bindings nm); [auto|].
  intros H. apply elem_of_app. left. assumption.
Qed.

Lemma loaded_refl w bindings :
  dead_ok w -> (forall b, b ∈ bindings -> exists t, Repr w (body_of b) t) ->
  loaded w bindings w bindings.
Proof.
  intros Hd Hb. split; [reflexivity|]. split; [exact Hd|].
  split; [auto|]. split; [auto | exact Hb].
Qed.

(** With two units of fuel for each character left, and one more, the
    loop returns. *)
Lemma bindings_loop_loaded : forall n l w bindings,
  dead_ok w -> (forall b, b ∈ bindings -> exists t, Repr w (body_of b) t) ->
  2 * rest l + 1 <= n ->
  exists ok bindings' w',
    bindings_loop n l bindings w = Ok (ok, bindings') w' /\
    loaded w bindings w' bindings'.
Proof.
  induction n as [|n IH]; intros l w bindings Hd Hb Hn; [lia|].
  cbn [bindings_loop].
  assert (Hstop : forall ok : bool, exists (ok' : bool) (bindings' : Bindings) w',
            ret (ok, bindings) w = Ok (ok', bindings') w' /\
            loaded w bindings w' bindings').
  { intros ok. exists ok, bindings, w. split; [reflexivity|].
    apply loaded_refl; assumption. }
  destruct (Token_Kind_eqb (token l) TOKEN_END); [apply Hstop|].
  destruct (lexer_expect l TOKEN_NAME) as [ok1 l1] eqn:E1.
  destruct (lexer_expect_rest _ _ _ _ E1) as [Ha1 Hp1].
  destruct ok1; cbn [negb]; [|apply Hstop].
  destruct (lexer_expect l1 TOKEN_EQUALS) as [ok2 l2] eqn:E2.
  destruct (lexer_expect_rest _ _ _ _ E2) as [Ha2 Hp2].
  destruct ok2; cbn [negb]; [|apply Hstop].
  specialize (Hp1 eq_refl ltac:(discriminate)).
  specialize (Hp2 eq_refl ltac:(discriminate)).
  destruct (parser_returns n) as (_ & _ & He & _).
  destruct (He l2 w Hd ltac:(lia)) as (r & l3 & w3 & E3 & Ha3 & Hext & Hd3 & Hs3).
  rewrite (bind_Ok_intro _ _ _ _ _ E3). cbn beta iota.
  assert (Hb3 : forall b, b ∈ bindings -> exists t, Repr w3 (body_of b) t).
  { intros b Hin. destruct (Hb b Hin) as [t Ht]. exists t.
    eapply Repr_extends; eassumption. }
  assert (Hstop3 : forall ok : bool, exists (ok' : bool) (bindings' : Bindings) w',
            ret (ok, bindings) w3 = Ok (ok', bindings') w' /\
            loaded w bindings w' bindings').
  { intros ok. exists ok, bindings, w3. split; [reflexivity|].
    split; [assumption|]. split; [assumption|].
    split; [auto|]. split; [auto | exact Hb3]. }
  destruct r as [body|]; [|apply Hstop3].
  destruct (Hs3 body eq_refl) as [Hlt3 [tb Htb]].
  destruct (lexer_expect l3 TOKEN_SEMICOLON) as [ok3 l4] eqn:E4.
  destruct (lexer_expect_rest _ _ _ _ E4) as [Ha4 Hp4].
  destruct ok3; cbn [negb]; [|apply Hstop3].
  specialize (Hp4 eq_refl ltac:(discriminate)).
  set (nm := symbol (string_of_list_ascii (lstring l1))).
  set (bindings1 := create_binding bindings nm body).
  assert (Hb1 : forall b, b ∈ bindings1 -> exists t, Repr w3 (body_of b) t).
  { intros b Hin. apply create_binding_elem in Hin as [Hin| ->]; [auto | eauto]. }
  assert (Hl1 : loaded w bindings w3 bindings1).
  { split; [assumption|]. split; [assumption|].
    split; [intros x; apply create_binding_keeps_names|].
    split; [apply create_binding_keeps_NoDup | exact Hb1]. }
  destruct (lexer_peek l4) as [ok4 l5] eqn:E5.
  destruct (lexer_peek_rest _ _ _ E5) as [Ha5 Hr5].
  destruct ok4; cbn [negb].
  2:{ exists false, bindings1, w3. split; [reflexivity | exact Hl1]. }
  destruct (IH l5 w3 bindings1 Hd3 Hb1 ltac:(lia))
    as (ok & bindings' & w' & Hrun & Hext' & Hd' & Hn' & Hnd' & Hb').
  exists ok, bindings', w'. split; [exact Hrun|].
  destruct Hl1 as (_ & _ & Hn1 & Hnd1 & _).
  split; [etransitivity; eassumption|]. split; [assumption|].
  split; [auto|]. split; [auto | exact Hb'].
Qed.

(** [create_bindings_from_file] returns on every file, well formed or
    not: with two units of fuel for each character and one more, and a
    sound free list, it fails no assertion.  Whether it returns [true]
    or [false], it has not removed a name from the table, the names of
    the table are distinct if they were, each body is an expression
    tree, and no live slot is changed; a file that could not be read
    leaves the table as it was. *)
Theorem create_bindings_from_file_loads fuel content bindings w :
  dead_ok w -> (forall b, b ∈ bindings -> exists t, Repr w (body_of b) t) ->
  (forall cs, content = Some cs -> 2 * length cs + 1 <= fuel) ->
  exists ok bindings' w',
    create_bindings_from_file fuel content bindings w = Ok (ok, bindings') w' /\
    extends w w' /\ dead_ok w' /\
    (forall nm, nm ∈ map name bindings -> nm ∈ map name bindings') /\
    (NoDup (map name bindings) -> NoDup (map name bindings')) /\
    (forall b, b ∈ bindings' -> exists t, Repr w' (body_of b) t) /\
    (content = None -> ok = false /\ bindings' = bindings /\ w' = w).
Proof.
  intros Hd Hb Hn. unfold create_bindings_from_file.
  destruct content as [cs|].
  - destruct (lexer_peek (lexer_init cs (length cs))) as [ok l] eqn:E.
    destruct (lexer_peek_rest _ _ _ E) as [_ Hr].
    destruct ok; cbn [negb].
    + destruct (bindings_loop_loaded fuel l w bindings Hd Hb)
        as (ok & bindings' & w' & Hrun & Hext & Hd' & Hn' & Hnd' & Hb').
      { rewrite Hr. unfold rest. simpl. specialize (Hn cs eq_refl). lia. }
      exists ok, bindings', w'. split; [exact Hrun|].
      repeat (split; [assumption|]). discriminate.
    + exists false, bindings, w. split; [reflexivity|]. split; [reflexivity|].
      split; [exact Hd|]. split; [auto|]. split; [auto|]. split; [exact Hb|].
      discriminate.
  - exists false, bindings, w. split; [reflexivity|]. split; [reflexivity|].
    split; [exact Hd|]. split; [auto|]. split; [auto|]. split; [exact Hb|].
    auto.
Qed.

Lemma create_bindings_from_file_loads_witness :
  exists ok bindings' w',
    create_bindings_from_file 40 (Some (list_ascii_of_string "id = \x.x; k = "))
      [mkBinding (symbol "id") 2] world_capture
    = Ok (ok, bindings') w' /\
    extends world_capture w' /\ dead_ok w' /\
    (forall nm, nm ∈ map name [mkBinding (symbol "id") 2] ->
       nm ∈ map name bindings') /\
    (NoDup (map name [mkBinding (symbol "id") 2]) -> NoDup (map name bindings')) /\
    (forall b, b ∈ bindings' -> exists t, Repr w' (body_of b) t) /\
    (Some (list_ascii_of_string "id = \x.x; k = ") = None ->
     ok = false /\ bindings' = [mkBinding (symbol "id") 2] /\ w' = world_capture).
Proof.
  apply (create_bindings_from_file_loads 40
           (Some (list_ascii_of_string "id = \x.x; k = "))
           [mkBinding (symbol "id") 2] world_capture).
  - apply dead_okb_dead_ok. vm_compute. reflexivity.
  - intros b Hb. apply list_elem_of_singleton in Hb as ->.
    eexists. apply (tree_of_Repr 5). vm_compute. reflexivity.
  - intros cs H. injection H as <-. simpl. lia.
Defined.

(** ** The evaluation loop of the REPL *)





